(** * Mermaid repair pipeline: a shallow embedding and its verification

    The development follows the TypeScript sources of the plugin:
    - [utils.ts]: string helpers, the timeout wrapper, the light label
      normalisation, the validation wrapper and the block extractor;
    - [gemini.ts]: the correction client with its memo table and the
      directive-preservation rule;
    - [replacements.ts] / [main.ts]: the rewrite of a document, the
      retry loop that drives the correction client, the validation runs and
      the run over every file of the vault.

    JavaScript strings are sequences of UTF-16 code units; they are
    modelled as lists of code units, each code unit a number in [N].
    Regular expressions are given a backtracking semantics that returns the
    successful end states in priority order, so the head of the list is the
    match a JavaScript engine reports. *)

From Stdlib Require Import ZArith NArith List Bool Lia Ascii Permutation Sorted.
From Stdlib Require DecimalString.
From stdpp Require Import base option list strings gmap.

Import ListNotations.
Local Open Scope nat_scope.

(** ** Code units and strings *)

Abbreviation jsstring := (list N).

(** ASCII text of the sources, as code units. *)
Definition str_of (s : string) : jsstring :=
  map N_of_ascii (String.list_ascii_of_string s).

Definition DQ : N := 34%N.          (* double quote *)
Definition BSL : N := 92%N.         (* backslash *)
Definition LF : N := 10%N.
Definition CR : N := 13%N.

Module JS.

(** [WhiteSpace] and [LineTerminator] of ECMAScript; [String.prototype.trim]
    and the class escape [\s] use their union. *)
Definition is_line_terminator (c : N) : bool :=
  (N.eqb c 10 || N.eqb c 13 || N.eqb c 8232 || N.eqb c 8233)%N.

Definition is_white_space (c : N) : bool :=
  (N.eqb c 9 || N.eqb c 11 || N.eqb c 12 || N.eqb c 32 || N.eqb c 160
   || N.eqb c 5760 || (N.leb 8192 c && N.leb c 8202) || N.eqb c 8239
   || N.eqb c 8287 || N.eqb c 12288 || N.eqb c 65279)%N.

Definition is_space (c : N) : bool := is_white_space c || is_line_terminator c.

Definition is_word (c : N) : bool :=
  ((N.leb 97 c && N.leb c 122) || (N.leb 65 c && N.leb c 90)
   || (N.leb 48 c && N.leb c 57) || N.eqb c 95)%N.

Definition ascii_upper (c : N) : N :=
  if (N.leb 97 c && N.leb c 122)%N then (c - 32)%N else c.
Definition ascii_lower (c : N) : N :=
  if (N.leb 65 c && N.leb c 90)%N then (c + 32)%N else c.

Definition str_eqb (a b : jsstring) : bool := bool_decide (a = b).

(** [s.slice(a, b)] for integer arguments: negative indices count from the
    end, both ends are clamped to the string. *)
Definition rel_index (len i : Z) : Z :=
  if (i <? 0)%Z then Z.max (len + i) 0 else Z.min i len.

Definition slice (s : jsstring) (a b : Z) : jsstring :=
  let len := Z.of_nat (length s) in
  let from := rel_index len a in
  let to := rel_index len b in
  firstn (Z.to_nat (to - from)) (skipn (Z.to_nat from) s).

(** [s.slice(a)] *)
Definition slice_from (s : jsstring) (a : Z) : jsstring :=
  slice s a (Z.of_nat (length s)).

Fixpoint starts_with (p s : jsstring) : bool :=
  match p, s with
  | [], _ => true
  | a :: p', b :: s' => N.eqb a b && starts_with p' s'
  | _ :: _, [] => false
  end.

(** [s.indexOf(p)], searching from index [i]; [-1] when absent. *)
Fixpoint index_from (p s : jsstring) (i : Z) : Z :=
  if starts_with p s then i
  else match s with
       | [] => (-1)%Z
       | _ :: s' => index_from p s' (i + 1)
       end.

Definition indexOf (s p : jsstring) : Z := index_from p s 0.

Definition includes (s p : jsstring) : bool := (0 <=? indexOf s p)%Z.

Fixpoint trim_start (s : jsstring) : jsstring :=
  match s with
  | c :: s' => if is_space c then trim_start s' else s
  | [] => []
  end.

Definition trim_end (s : jsstring) : jsstring := rev (trim_start (rev s)).

Definition trim (s : jsstring) : jsstring := trim_end (trim_start s).

Fixpoint join (sep : jsstring) (l : list jsstring) : jsstring :=
  match l with
  | [] => []
  | [a] => a
  | a :: l' => a ++ sep ++ join sep l'
  end.

(** Truthiness of a string value: the empty string is falsy. *)
Definition truthy (s : jsstring) : bool :=
  match s with [] => false | _ => true end.

End JS.

(** ** Regular expressions

    The fragment of ECMAScript regular expressions that the sources use.
    Case-insensitive matching canonicalises with the ASCII letters only:
    every cased character that occurs in a pattern of the sources is an
    ASCII letter, and ECMAScript never folds a non-ASCII character onto an
    ASCII one, so this is exact for these patterns. *)
Module Regex.

Inductive charset : Type :=
| CLit (c : N)
| CRange (lo hi : N)
| CSpace                       (* \s *)
| CWord                        (* \w *)
| CDot                         (* . : anything but a line terminator *)
| CUnion (a b : charset)
| CNot (a : charset).          (* \S and the like *)

Inductive regex : Type :=
| Eps
| Char (invert : bool) (A : charset)
| Seq (r1 r2 : regex)
| Alt (r1 r2 : regex)
| Repeat (r : regex) (min : nat) (max : option nat) (greedy : bool)
| Group (n : nat) (r : regex)
| Backref (n : nat)
| Bol
| Eol
| WordB
| Lookahead (r : regex).

Record flags : Type := Flags { ignoreCase : bool; multiline : bool }.

(** A matching state: the code unit before the current position, the
    position, the input that is left, and the captures made so far. *)
Record mstate : Type := MState {
  before : option N;
  pos : nat;
  rest : jsstring;
  caps : list (nat * jsstring)
}.

Fixpoint in_set (A : charset) (c : N) : bool :=
  match A with
  | CLit d => N.eqb c d
  | CRange lo hi => N.leb lo c && N.leb c hi
  | CSpace => JS.is_space c
  | CWord => JS.is_word c
  | CDot => negb (JS.is_line_terminator c)
  | CUnion a b => in_set a c || in_set b c
  | CNot a => negb (in_set a c)
  end.

Definition char_matches (fl : flags) (invert : bool) (A : charset) (c : N) : bool :=
  let found :=
    in_set A c
    || (ignoreCase fl && (in_set A (JS.ascii_upper c) || in_set A (JS.ascii_lower c))) in
  xorb invert found.

Definition canon (fl : flags) (c : N) : N :=
  if ignoreCase fl then JS.ascii_upper c else c.

Fixpoint get_cap (n : nat) (cs : list (nat * jsstring)) : option jsstring :=
  match cs with
  | [] => None
  | (k, s) :: cs' => if Nat.eqb k n then Some s else get_cap n cs'
  end.

Definition last_unit (d : option N) (s : jsstring) : option N :=
  match rev s with c :: _ => Some c | [] => d end.

(** The state reached from [x] after consuming [k] code units. *)
Definition advance (k : nat) (x : mstate) : mstate :=
  {| before := last_unit (before x) (firstn k (rest x));
     pos := pos x + k;
     rest := skipn k (rest x);
     caps := caps x |}.

Definition set_cap (n : nat) (s : jsstring) (y : mstate) : mstate :=
  {| before := before y; pos := pos y; rest := rest y; caps := (n, s) :: caps y |}.

Fixpoint prefix_ci (fl : flags) (p s : jsstring) : bool :=
  match p, s with
  | [], _ => true
  | a :: p', b :: s' => N.eqb (canon fl a) (canon fl b) && prefix_ci fl p' s'
  | _ :: _, [] => false
  end.

Definition dec_max (mx : option nat) : option nat :=
  match mx with Some k => Some (Nat.pred k) | None => None end.

Definition max_is_zero (mx : option nat) : bool :=
  match mx with Some 0 => true | _ => false end.

(** The optional iterations of a quantifier.  An iteration that consumes
    nothing is rejected, as in ECMAScript, so [fuel], the number of code
    units left, bounds the number of iterations exactly. *)
Fixpoint rep_opt (m : mstate -> list mstate) (fuel : nat) (mx : option nat)
    (greedy : bool) (x : mstate) : list mstate :=
  match fuel with
  | 0 => [x]
  | S f =>
      if max_is_zero mx then [x]
      else
        let iter :=
          flat_map (fun y => if Nat.eqb (pos y) (pos x) then []
                             else rep_opt m f (dec_max mx) greedy y) (m x) in
        if greedy then iter ++ [x] else x :: iter
  end.

(** The mandatory iterations, then the optional ones. *)
Fixpoint rep_min (m : mstate -> list mstate) (mn : nat) (mx : option nat)
    (greedy : bool) (x : mstate) : list mstate :=
  match mn with
  | 0 => rep_opt m (length (rest x)) mx greedy x
  | S k => if max_is_zero mx then [x]
           else flat_map (rep_min m k (dec_max mx) greedy) (m x)
  end.

Definition at_line_start (fl : flags) (x : mstate) : bool :=
  match before x with
  | None => true
  | Some c => multiline fl && JS.is_line_terminator c
  end.

Definition at_line_end (fl : flags) (x : mstate) : bool :=
  match rest x with
  | [] => true
  | c :: _ => multiline fl && JS.is_line_terminator c
  end.

Definition at_word_boundary (x : mstate) : bool :=
  let a := match before x with Some c => JS.is_word c | None => false end in
  let b := match rest x with c :: _ => JS.is_word c | [] => false end in
  xorb a b.

(** All the ways [r] matches from [x], best first. *)
Fixpoint run (fl : flags) (r : regex) (x : mstate) : list mstate :=
  match r with
  | Eps => [x]
  | Char invert A =>
      match rest x with
      | c :: _ => if char_matches fl invert A c then [advance 1 x] else []
      | [] => []
      end
  | Seq r1 r2 => flat_map (run fl r2) (run fl r1 x)
  | Alt r1 r2 => run fl r1 x ++ run fl r2 x
  | Repeat r1 mn mx greedy => rep_min (run fl r1) mn mx greedy x
  | Group n r1 =>
      map (fun y => set_cap n (firstn (pos y - pos x) (rest x)) y) (run fl r1 x)
  | Backref n =>
      match get_cap n (caps x) with
      | None => [x]
      | Some s => if prefix_ci fl s (rest x) then [advance (length s) x] else []
      end
  | Bol => if at_line_start fl x then [x] else []
  | Eol => if at_line_end fl x then [x] else []
  | WordB => if at_word_boundary x then [x] else []
  | Lookahead r1 =>
      match run fl r1 x with
      | y :: _ => [{| before := before x; pos := pos x; rest := rest x; caps := caps y |}]
      | [] => []
      end
  end.

(** A successful match: where it starts, where it ends, the text matched
    and the captures. *)
Record rmatch : Type := RMatch {
  m_index : nat;
  m_end : nat;
  m_whole : jsstring;
  m_caps : list (nat * jsstring)
}.

(** [m[n]], with [undefined] read as the empty string (the sources write
    [m[n] ?? ""]). *)
Definition group (n : nat) (m : rmatch) : jsstring :=
  match get_cap n (m_caps m) with Some s => s | None => [] end.

Definition match_at (fl : flags) (r : regex) (b : option N) (i : nat)
    (s : jsstring) : option rmatch :=
  match run fl r {| before := b; pos := i; rest := s; caps := [] |} with
  | y :: _ => Some {| m_index := i; m_end := pos y;
                      m_whole := firstn (pos y - i) s; m_caps := caps y |}
  | [] => None
  end.

(** The leftmost match at or after the current position. *)
Fixpoint scan (fl : flags) (r : regex) (b : option N) (i : nat)
    (s : jsstring) : option rmatch :=
  match match_at fl r b i s with
  | Some m => Some m
  | None => match s with
            | [] => None
            | c :: s' => scan fl r (Some c) (S i) s'
            end
  end.

(** [re.exec(text)] for a regular expression whose [lastIndex] is [i]
    (zero for one without the [g] flag). *)
Definition exec_from (fl : flags) (r : regex) (text : jsstring) (i : nat)
    : option rmatch :=
  if Nat.ltb (length text) i then None
  else scan fl r (last_unit None (firstn i text)) i (skipn i text).

Definition exec (fl : flags) (r : regex) (text : jsstring) : option rmatch :=
  exec_from fl r text 0.

Definition test (fl : flags) (r : regex) (text : jsstring) : bool :=
  match exec fl r text with Some _ => true | None => false end.

(** [text.replace(re, f)] for a regular expression with the [g] flag: the
    matches are found left to right, an empty match advances by one code
    unit.  [skip] counts the code units of the last match still to pass. *)
Fixpoint replace_walk (fl : flags) (r : regex) (f : rmatch -> jsstring)
    (b : option N) (i : nat) (s : jsstring) (skip : nat) : jsstring :=
  match skip with
  | S k =>
      match s with
      | c :: s' => replace_walk fl r f (Some c) (S i) s' k
      | [] => []
      end
  | 0 =>
      match match_at fl r b i s with
      | Some m =>
          f m ++
          match s with
          | c :: s' =>
              if Nat.eqb (m_end m) i
              then c :: replace_walk fl r f (Some c) (S i) s' 0
              else replace_walk fl r f (Some c) (S i) s' (m_end m - i - 1)
          | [] => []
          end
      | None =>
          match s with
          | c :: s' => c :: replace_walk fl r f (Some c) (S i) s' 0
          | [] => []
          end
      end
  end.

Definition replace_all (fl : flags) (r : regex) (f : rmatch -> jsstring)
    (text : jsstring) : jsstring :=
  replace_walk fl r f None 0 text 0.

(** [text.replace(re, f)] without the [g] flag: the first match only. *)
Definition replace_first (fl : flags) (r : regex) (f : rmatch -> jsstring)
    (text : jsstring) : jsstring :=
  match exec fl r text with
  | Some m => firstn (m_index m) text ++ f m ++ skipn (m_end m) text
  | None => text
  end.

(** [text.split(re)] for a pattern without capture groups.  [cur] is the
    piece being collected, in reverse; an empty match at the start of a
    piece does not split. *)
Fixpoint split_walk (fl : flags) (r : regex) (b : option N) (i : nat)
    (s : jsstring) (cur : jsstring) (skip : nat) : list jsstring :=
  match skip with
  | S k =>
      match s with
      | c :: s' => split_walk fl r (Some c) (S i) s' cur k
      | [] => [rev cur]
      end
  | 0 =>
      match s with
      | [] => [rev cur]
      | c :: s' =>
          match match_at fl r b i s with
          | Some m =>
              if Nat.eqb (m_end m) i
              then match cur with
                   | [] => split_walk fl r (Some c) (S i) s' [c] 0
                   | _ => rev cur :: split_walk fl r (Some c) (S i) s' [c] 0
                   end
              else rev cur :: split_walk fl r (Some c) (S i) s' [] (m_end m - i - 1)
          | None => split_walk fl r (Some c) (S i) s' (c :: cur) 0
          end
      end
  end.

Definition split (fl : flags) (r : regex) (text : jsstring) : list jsstring :=
  match text with
  | [] => match match_at fl r None 0 [] with Some _ => [] | None => [[]] end
  | _ => split_walk fl r None 0 text [] 0
  end.

(** Pattern shorthands. *)
Definition lit (c : N) : regex := Char false (CLit c).
Fixpoint lits (s : jsstring) : regex :=
  match s with
  | [] => Eps
  | [c] => lit c
  | c :: s' => Seq (lit c) (lits s')
  end.
Definition star (r : regex) : regex := Repeat r 0 None true.
Definition plus (r : regex) : regex := Repeat r 1 None true.
Definition opt (r : regex) : regex := Repeat r 0 (Some 1) true.
Definition lazy_star (r : regex) : regex := Repeat r 0 None false.
Fixpoint seqs (l : list regex) : regex :=
  match l with
  | [] => Eps
  | [r] => r
  | r :: l' => Seq r (seqs l')
  end.

Definition no_flags : flags := Flags false false.

End Regex.

(** ** Promises and awaits

    A promise is described by how it ends: fulfilled with a value or
    rejected with an error, at a time in milliseconds counted from its
    creation, or never settled.  An error is represented by its message, the
    only part of it the sources read.  Awaiting gives the outcome of an
    asynchronous call; [Hangs] is a call that never completes. *)
Module Async.

Inductive fate (T : Type) : Type :=
| Fulfils (t : Z) (v : T)
| Rejects (t : Z) (msg : jsstring)
| Pending.
Arguments Fulfils {T} t v.
Arguments Rejects {T} t msg.
Arguments Pending {T}.

Inductive outcome (T : Type) : Type :=
| Returns (v : T)
| Throws (msg : jsstring)
| Hangs.
Arguments Returns {T} v.
Arguments Throws {T} msg.
Arguments Hangs {T}.

Definition await {T} (p : fate T) : outcome T :=
  match p with
  | Fulfils _ v => Returns v
  | Rejects _ msg => Throws msg
  | Pending => Hangs
  end.

(** The time at which a promise settles, if it does. *)
Definition settles_at {T} (p : fate T) : option Z :=
  match p with
  | Fulfils t _ => Some t
  | Rejects t _ => Some t
  | Pending => None
  end.

End Async.

(** ** utils.ts *)
Module Utils.
Import Regex.

(** [clamp(n, min, max)] on integers. *)
Definition clamp (n lo hi : Z) : Z := Z.max lo (Z.min hi n).

Definition BACKTICK : N := 96%N.
Definition TILDE : N := 126%N.

(** [/^```\w*\n?/] and [/\n?```$/] *)
Definition re_fence_head : regex :=
  seqs [Bol; lits [BACKTICK; BACKTICK; BACKTICK]; star (Char false CWord); opt (lit LF)].
Definition re_fence_tail : regex :=
  seqs [opt (lit LF); lits [BACKTICK; BACKTICK; BACKTICK]; Eol].

Definition stripCodeFences (text : jsstring) : jsstring :=
  JS.trim (replace_first no_flags re_fence_tail (fun _ => [])
             (replace_first no_flags re_fence_head (fun _ => []) text)).

(** [/<br\s*\/?\s*>/i] (with [g] where it is used to replace) *)
Definition re_br : regex :=
  seqs [lits (str_of "<br"); star (Char false CSpace); opt (lit 47%N);
        star (Char false CSpace); lit 62%N].

(** [/^".*"$/] *)
Definition re_quoted : regex :=
  seqs [Bol; lit DQ; star (Char false CDot); lit DQ; Eol].

Definition ci : flags := Flags true false.

(** The pattern built by [new RegExp(...)]: the quantifier [{1,2}] binds
    to the last alternative of each shape group only,
    [([A-Za-z0-9_\-]+)\s*(\[|\(|\{{1,2})\s*([\s\S]*?)\s*(\]|\)|\}{1,2})]. *)
Definition id_char : charset :=
  CUnion (CRange 65 90) (CUnion (CRange 97 122) (CUnion (CRange 48 57)
    (CUnion (CLit 95) (CLit 45)))).
Definition any_char : charset := CUnion CSpace (CNot CSpace).
Definition re_node : regex :=
  seqs [Group 1 (plus (Char false id_char));
        star (Char false CSpace);
        Group 2 (Alt (lit 91) (Alt (lit 40) (Repeat (lit 123) 1 (Some 2) true)));
        star (Char false CSpace);
        Group 3 (lazy_star (Char false any_char));
        star (Char false CSpace);
        Group 4 (Alt (lit 93) (Alt (lit 41) (Repeat (lit 125) 1 (Some 2) true)))].

Definition node_callback (m : rmatch) : jsstring :=
  let id := group 1 m in
  let open := group 2 m in
  let label := group 3 m in
  let close := group 4 m in
  if negb (test ci re_br label) then m_whole m
  else
    let replaced := replace_all ci re_br (fun _ => [BSL; 110%N]) label in
    let trimmed := JS.trim replaced in
    let wrapped := if test no_flags re_quoted trimmed then trimmed
                   else [DQ] ++ trimmed ++ [DQ] in
    id ++ open ++ wrapped ++ close.

Definition preNormalizeMermaid (code : jsstring) : jsstring :=
  replace_all no_flags re_node node_callback code.

(** [inferDiagramType]: the keyword at the start of the trimmed text,
    followed by a word boundary, case-insensitively. *)
Definition re_keyword (r : regex) : regex := seqs [Bol; r; WordB].

Definition diagram_table : list (regex * jsstring) :=
  [ (lits (str_of "sequenceDiagram"), str_of "sequenceDiagram");
    (lits (str_of "classDiagram"), str_of "classDiagram");
    (lits (str_of "erDiagram"), str_of "erDiagram");
    (Seq (lits (str_of "stateDiagram")) (opt (lits (str_of "-v2"))), str_of "stateDiagram");
    (lits (str_of "gantt"), str_of "gantt");
    (lits (str_of "journey"), str_of "journey");
    (lits (str_of "pie"), str_of "pie");
    (lits (str_of "mindmap"), str_of "mindmap");
    (lits (str_of "timeline"), str_of "timeline");
    (Group 1 (Alt (lits (str_of "flowchart")) (lits (str_of "graph"))), str_of "graph") ].

Fixpoint first_keyword (tbl : list (regex * jsstring)) (t : jsstring) : option jsstring :=
  match tbl with
  | [] => None
  | (r, name) :: tbl' =>
      if test ci (re_keyword r) t then Some name else first_keyword tbl' t
  end.

Definition inferDiagramType (code : jsstring) : option jsstring :=
  first_keyword diagram_table (JS.trim code).

(** *** withTimeout

    [withTimeout(promise, ms, controller)].  The result records the promise
    handed back, the delay of the timer that was armed (if one was), and
    whether [controller.abort()] is ever called.  When the promise and the
    timer are due at the same instant the event loop decides;
    [timer_first] is its decision. *)
Record timed (T : Type) : Type := Timed {
  promise : Async.fate T;
  timer : option Z;
  aborts : bool
}.
Arguments Timed {T} promise timer aborts.
Arguments promise {T} t.
Arguments timer {T} t.
Arguments aborts {T} t.

(** "リクエストがタイムアウトしました。" *)
Definition timeout_message : jsstring :=
  [12522; 12463; 12456; 12473; 12488; 12364; 12479; 12452; 12512; 12450;
   12454; 12488; 12375; 12414; 12375; 12383; 12290]%N.

(** [setTimeout(f, ms)] keeps its delay in a signed 32-bit integer.  A
    delay of 2^31 milliseconds or more does not fit: the timer is then set
    to 1 millisecond, so it fires at once.  ([withTimeout] arms the timer
    only for [ms > 0].) *)
Definition timer_delay (ms : Z) : Z :=
  if (ms <? 2147483648)%Z then ms else 1%Z.

Definition timer_wins {T} (p : Async.fate T) (ms : Z) (timer_first : bool) : bool :=
  match Async.settles_at p with
  | Some t => (timer_delay ms <? t)%Z || ((timer_delay ms =? t)%Z && timer_first)
  | None => true
  end.

Definition withTimeout {T} (p : Async.fate T) (ms : Z) (controller : bool)
    (timer_first : bool) : timed T :=
  if (ms <=? 0)%Z then Timed p None false
  else if timer_wins p ms timer_first
       then Timed (Async.Rejects (timer_delay ms) timeout_message)
              (Some (timer_delay ms)) controller
       else Timed p (Some (timer_delay ms)) false.

(** *** validateMermaidAsync

    The global [mermaid] object is external.  Its [parseError] field holds
    a handler of the host, the closure that [validateMermaidAsync] installs
    ([Trap]), or nothing.  A parser entry point, called on a text, reports
    errors through whatever [mermaid.parseError] holds at that moment, may
    assign the field itself, and ends in one of five ways. *)
Inductive hook : Type :=
| Handler (id : nat)
| Trap
| NoHook.

(** An error value: its [str] and [message] properties (when not nullish,
    as strings) and [String(err)]. *)
Record js_error : Type := {
  err_str : option jsstring;
  err_message : option jsstring;
  err_text : jsstring
}.

(** [String(err?.str ?? err?.message ?? String(err))] *)
Definition error_text (e : js_error) : jsstring :=
  match err_str e with
  | Some s => s
  | None => match err_message e with
            | Some s => s
            | None => err_text e
            end
  end.

Inductive parser_event : Type :=
| Report (e : js_error)          (* calls mermaid.parseError(e) *)
| SetHook (h : hook).            (* assigns mermaid.parseError *)

Inductive parser_end : Type :=
| ReturnsPlain                   (* returns a value that is not a promise *)
| ReturnsFulfilled               (* returns a promise that is fulfilled *)
| ReturnsRejected (e : js_error) (* returns a promise that is rejected *)
| ReturnsPending                 (* returns a promise that never settles *)
| ThrowsSync (e : js_error).     (* throws *)

Record parser_run : Type := { events : list parser_event; ending : parser_end }.

Inductive member (F : Type) : Type :=
| Missing
| NotFunction                    (* present and truthy, but not callable *)
| Function (f : F).
Arguments Missing {F}.
Arguments NotFunction {F}.
Arguments Function {F} f.

Record mermaid_obj : Type := {
  parseError : hook;
  parse : member (jsstring -> parser_run);
  api_parse : member (jsstring -> parser_run);          (* mermaidAPI?.parse *)
  render : member (jsstring -> jsstring -> parser_run)
}.

Definition set_parseError (h : hook) (m : mermaid_obj) : mermaid_obj :=
  {| parseError := h; parse := parse m; api_parse := api_parse m; render := render m |}.

Definition is_present {F} (x : member F) : bool :=
  match x with Missing => false | _ => true end.

Definition hasMermaid (m : option mermaid_obj) : bool :=
  match m with
  | None => false
  | Some m => is_present (parse m) || is_present (api_parse m) || is_present (render m)
  end.

Record ValidationResult : Type := { ok : bool; error : option jsstring }.

(** "Mermaid がロードされていません。" *)
Definition msg_not_loaded : jsstring :=
  [77; 101; 114; 109; 97; 105; 100; 32; 12364; 12525; 12540; 12489; 12373;
   12428; 12390; 12356; 12414; 12379; 12435; 12290]%N.
(** "Mermaid の parse API が見つかりません。" *)
Definition msg_no_parse_api : jsstring :=
  [77; 101; 114; 109; 97; 105; 100; 32; 12398; 32; 112; 97; 114; 115; 101; 32;
   65; 80; 73; 32; 12364; 35211; 12388; 12363; 12426; 12414; 12379; 12435;
   12290]%N.

(** The effect of the parser's events on the field and on [trappedError]. *)
Fixpoint play (evs : list parser_event) (h : hook) (trapped : option jsstring)
    : hook * option jsstring :=
  match evs with
  | [] => (h, trapped)
  | Report e :: evs' =>
      match h with
      | Trap => play evs' h (Some (error_text e))
      | _ => play evs' h trapped
      end
  | SetHook h' :: evs' => play evs' h' trapped
  end.

(** What the [try] block does: which entry point is called, if any. *)
Inductive entry : Type :=
| Call (r : parser_run)
| CallNotFunction                (* mermaidAPI.parse is not callable: TypeError *)
| NoEntry.

Definition choose_entry (m : mermaid_obj) (id code : jsstring) : entry :=
  match parse m with
  | Function f => Call (f code)
  | _ =>
      match api_parse m with
      | Function f => Call (f code)
      | NotFunction => CallNotFunction
      | Missing =>
          match render m with
          | Function f => Call (f id code)
          | _ => NoEntry
          end
      end
  end.

(** [validateMermaidAsync(codeRaw)] on the global object [g]; [type_error]
    is the message of the engine's TypeError and [id] the random element id
    of the render fallback.  The second component is the global object
    afterwards. *)
Definition validateMermaidAsync (type_error id : jsstring)
    (g : option mermaid_obj) (codeRaw : jsstring)
    : Async.outcome ValidationResult * option mermaid_obj :=
  match g with
  | None => (Async.Returns {| ok := false; error := Some msg_not_loaded |}, None)
  | Some m =>
      let code := preNormalizeMermaid codeRaw in
      let prevParseError := parseError m in
      let m1 := set_parseError Trap m in
      let finally (m' : mermaid_obj) := Some (set_parseError prevParseError m') in
      match choose_entry m1 id code with
      | NoEntry =>
          (Async.Returns {| ok := false; error := Some msg_no_parse_api |}, finally m1)
      | CallNotFunction =>
          (Async.Returns {| ok := false; error := Some type_error |}, finally m1)
      | Call r =>
          let '(h, trapped) := play (events r) Trap None in
          let m2 := set_parseError h m1 in
          match ending r with
          | ReturnsPlain | ReturnsFulfilled =>
              match trapped with
              | Some t =>
                  if JS.truthy t
                  then (Async.Returns {| ok := false; error := Some t |}, finally m2)
                  else (Async.Returns {| ok := true; error := None |}, finally m2)
              | None => (Async.Returns {| ok := true; error := None |}, finally m2)
              end
          | ReturnsRejected e | ThrowsSync e =>
              (Async.Returns {| ok := false; error := Some (error_text e) |}, finally m2)
          | ReturnsPending => (Async.Hangs, Some m2)
          end
      end
  end.

(** *** extractMermaidBlocks *)

Record MermaidBlock : Type := {
  startOffset : Z;
  endOffset : Z;
  fenceOpen : jsstring;
  fenceClose : jsstring;
  info : jsstring;
  code : jsstring;
  index : nat
}.

Definition blank : regex := Char false (CUnion (CLit 32) (CLit 9)).
Definition newline : regex := Seq (opt (lit CR)) (lit LF).

(** The fence pattern, flags [gmi]. *)
Definition re_block : regex :=
  seqs [Group 1 (Alt Bol newline);
        Group 2 (star blank);
        Group 3 (Alt (Repeat (lit BACKTICK) 3 None true) (Repeat (lit TILDE) 3 None true));
        star blank;
        lits (str_of "mermaid");
        Group 4 (star (Char true (CLit LF)));
        lit LF;
        Group 5 (lazy_star (Char false any_char));
        seqs [lit LF; star blank; Backref 3; star blank];
        Lookahead (Alt newline Eol)].

Definition gmi : flags := Flags true true.

Definition make_block (m : rmatch) (rel : Z) (idx : nat) : MermaidBlock :=
  let indent := group 2 m in
  let fence := group 3 m in
  let info := JS.trim (group 4 m) in
  let code := group 5 m in
  let startOffset := (Z.of_nat (m_index m) + rel)%Z in
  {| startOffset := startOffset;
     endOffset := (startOffset + Z.of_nat (length code))%Z;
     fenceOpen := indent ++ fence ++ str_of "mermaid"
                  ++ (if JS.truthy info then [32%N] ++ info else []);
     fenceClose := fence;
     info := info;
     code := code;
     index := idx |}.

(** The [while ((m = re.exec(text)) !== null)] loop; [lastIndex] is the
    state of the regular expression object.  [None] stands for a loop that
    has not finished within [fuel] iterations. *)
Fixpoint extract_loop (fuel : nat) (text : jsstring) (lastIndex idx : nat)
    (blocks : list MermaidBlock) : option (list MermaidBlock) :=
  match fuel with
  | 0 => None
  | S fuel' =>
      match exec_from gmi re_block text lastIndex with
      | None => Some blocks
      | Some m =>
          let rel := JS.indexOf (m_whole m) (group 5 m) in
          if (rel <? 0)%Z then extract_loop fuel' text (m_end m) idx blocks
          else extract_loop fuel' text (m_end m) (S idx)
                 (blocks ++ [make_block m rel idx])
      end
  end.

Definition extractMermaidBlocks_fuel (fuel : nat) (text : jsstring) :=
  extract_loop fuel text 0 0 [].

(** Every match consumes at least one code unit, so [length text + 1]
    iterations are enough (see [extract_loop_total]). *)
Definition extractMermaidBlocks (text : jsstring) : list MermaidBlock :=
  match extractMermaidBlocks_fuel (S (length text)) text with
  | Some bs => bs
  | None => []
  end.

End Utils.

(** ** gemini.ts *)
Module Gemini.
Import Regex Async.

(** [normalizeSurface]: five global replacements in a row. *)
Definition re_bom : regex := lit 65279.
Definition re_zero_width : regex := Char false (CUnion (CRange 8203 8205) (CLit 8288)).
Definition re_dashes : regex :=
  Char false (CUnion (CLit 8722) (CUnion (CLit 12540) (CUnion (CLit 8213) (CLit 8213)))).
Definition re_wide_space : regex := lit 12288.
Definition re_trailing_blank : regex := Seq (plus Utils.blank) Eol.

Definition gm : flags := Flags false true.

Definition normalizeSurface (s : jsstring) : jsstring :=
  replace_all gm re_trailing_blank (fun _ => [])
    (replace_all no_flags re_wide_space (fun _ => [32%N])
       (replace_all no_flags re_dashes (fun _ => [45%N])
          (replace_all no_flags re_zero_width (fun _ => [])
             (replace_all no_flags re_bom (fun _ => []) s)))).

(** A bracket pair with anything inside, lazily ([re_bracket_any]); the
    break tag [/<br\s*\/?>/gi]; a bracket pair on one line with no closing
    bracket inside ([re_bracket_line]); and the
    test for a label that needs quoting: a backslash followed by [n], or
    one of [<], [>], the double quote, the comma, a parenthesis, a brace,
    the colon. *)
Definition re_bracket_any : regex :=
  seqs [lit 91; Group 1 (lazy_star (Char false Utils.any_char)); lit 93].
Definition re_br : regex :=
  seqs [lits (str_of "<br"); star (Char false CSpace); opt (lit 47); lit 62].
Definition re_bracket_line : regex :=
  seqs [lit 91; Group 1 (star (Char true (CUnion (CLit 93) (CLit 10)))); lit 93].
Definition re_needs_quote : regex :=
  Alt (Seq (lit BSL) (lit 110))
    (Alt (Char false (CUnion (CLit 60) (CLit 62)))
       (Alt (lit DQ) (Alt (lit 44) (Alt (lit 40) (Alt (lit 41)
          (Alt (lit 123) (Alt (lit 125) (lit 58)))))))).

Definition br_callback (m : rmatch) : jsstring :=
  [91%N] ++ replace_all Utils.ci re_br (fun _ => [BSL; 110%N]) (group 1 m) ++ [93%N].

Definition quote_callback (m : rmatch) : jsstring :=
  let inner := group 1 m in
  let alreadyQuoted := test no_flags Utils.re_quoted inner in
  let needsQuote := test no_flags re_needs_quote inner in
  if alreadyQuoted || negb needsQuote then m_whole m
  else
    let escaped := replace_all no_flags (lit DQ) (fun _ => [BSL; DQ]) inner in
    [91%N; DQ] ++ escaped ++ [DQ; 93%N].

Definition preNormalizeMermaid (code : jsstring) : jsstring :=
  let out := replace_all no_flags re_bracket_any br_callback code in
  let out := replace_all no_flags re_bracket_line quote_callback out in
  normalizeSurface out.

(** [/BEGIN_MERMAID\s*\n([\s\S]*?)\nEND_MERMAID/] *)
Definition re_sentinel : regex :=
  seqs [lits (str_of "BEGIN_MERMAID"); star (Char false CSpace); lit LF;
        Group 1 (lazy_star (Char false Utils.any_char));
        lit LF; lits (str_of "END_MERMAID")].

Definition extractFromSentinel (output : jsstring) : jsstring :=
  match exec no_flags re_sentinel output with
  | Some m => JS.trim (group 1 m)
  | None => JS.trim output
  end.

Definition sanitizeMermaidOutput (out : jsstring) : jsstring :=
  normalizeSurface (JS.trim (Utils.stripCodeFences out)).

(** *** The reply of the service

    Values of the parsed reply.  A number carries its text and whether it
    is non-zero, which is all the sources observe of it; [None] stands for
    [undefined]. *)
#[warnings="-register-all"]
Inductive json : Type :=
| JNull
| JBool (b : bool)
| JNum (shown : jsstring) (nonzero : bool)
| JStr (s : jsstring)
| JArr (items : list json)
| JObj (fields : list (jsstring * json)).

Fixpoint lookup_field (k : jsstring) (fields : list (jsstring * json)) : option json :=
  match fields with
  | [] => None
  | (k', v) :: fields' => if JS.str_eqb k' k then Some v else lookup_field k fields'
  end.

(** [v.k] for a value that is neither [null] nor [undefined]. *)
Definition prop (k : jsstring) (v : json) : option json :=
  match v with
  | JObj fields => lookup_field k fields
  | _ => None
  end.

(** [v?.k] *)
Definition opt_prop (k : jsstring) (v : option json) : option json :=
  match v with
  | None | Some JNull => None
  | Some j => prop k j
  end.

(** [v?.[0]] *)
Definition opt_first (v : option json) : option json :=
  match v with
  | Some (JArr items) => head items
  | Some (JStr (c :: _)) => Some (JStr [c])
  | Some (JObj fields) => lookup_field (str_of "0") fields
  | _ => None
  end.

Definition is_nullish (v : option json) : bool :=
  match v with None | Some JNull => true | _ => false end.

Definition is_truthy (v : option json) : bool :=
  match v with
  | None | Some JNull => false
  | Some (JBool b) => b
  | Some (JNum _ nz) => nz
  | Some (JStr s) => JS.truthy s
  | Some (JArr _) | Some (JObj _) => true
  end.

(** [String(v)] *)
Fixpoint show (v : json) : jsstring :=
  match v with
  | JNull => str_of "null"
  | JBool true => str_of "true"
  | JBool false => str_of "false"
  | JNum shown _ => shown
  | JStr s => s
  | JArr items =>
      JS.join [44%N]
        (map (fun x => match x with JNull => [] | _ => show x end) items)
  | JObj _ => str_of "[object Object]"
  end.

Definition show_value (v : option json) : jsstring :=
  match v with None => str_of "undefined" | Some j => show j end.

(** [(v ?? []).map(f)]: [None] when [v] has no [map] to call. *)
Definition items_of (v : option json) : option (list json) :=
  match v with
  | None | Some JNull => Some []
  | Some (JArr items) => Some items
  | _ => None
  end.

Record response : Type := { status : Z; body : option jsstring }.

(** [res.ok] *)
Definition res_ok (r : response) : bool := (200 <=? status r)%Z && (status r <=? 299)%Z.

Definition show_Z (z : Z) : jsstring :=
  str_of (DecimalString.NilZero.string_of_int (Z.to_int z)).

(** The messages of the errors [callGeminiSingle] throws.
    "Gemini API 認証エラー (" *)
Definition msg_auth_1 : jsstring :=
  [71; 101; 109; 105; 110; 105; 32; 65; 80; 73; 32; 35469; 35388; 12456;
   12521; 12540; 32; 40]%N.
(** "). APIキーやプロジェクト設定を確認してください。応答: " *)
Definition msg_auth_2 : jsstring :=
  [41; 46; 32; 65; 80; 73; 12461; 12540; 12420; 12503; 12525; 12472; 12455;
   12463; 12488; 35373; 23450; 12434; 30906; 35469; 12375; 12390; 12367;
   12384; 12373; 12356; 12290; 24540; 31572; 58; 32]%N.
(** "モデルが見つかりません (" *)
Definition msg_model_1 : jsstring :=
  [12514; 12487; 12523; 12364; 35211; 12388; 12363; 12426; 12414; 12379;
   12435; 32; 40]%N.
(** "). モデル名とAPIバージョンの組み合わせを確認してください。応答: " *)
Definition msg_model_2 : jsstring :=
  [41; 46; 32; 12514; 12487; 12523; 21517; 12392; 65; 80; 73; 12496; 12540;
   12472; 12519; 12531; 12398; 32068; 12415; 21512; 12431; 12379; 12434;
   30906; 35469; 12375; 12390; 12367; 12384; 12373; 12356; 12290; 24540;
   31572; 58; 32]%N.
(** "レート制限に到達しました (429)。応答: " *)
Definition msg_rate_limit : jsstring :=
  [12524; 12540; 12488; 21046; 38480; 12395; 21040; 36948; 12375; 12414;
   12375; 12383; 32; 40; 52; 50; 57; 41; 12290; 24540; 31572; 58; 32]%N.
(** "Gemini サーバーエラー (" and ")。応答: " *)
Definition msg_server_1 : jsstring :=
  [71; 101; 109; 105; 110; 105; 32; 12469; 12540; 12496; 12540; 12456; 12521;
   12540; 32; 40]%N.
Definition msg_server_2 : jsstring := [41; 12290; 24540; 31572; 58; 32]%N.
(** "Gemini API エラー: " *)
Definition msg_api_error : jsstring :=
  [71; 101; 109; 105; 110; 105; 32; 65; 80; 73; 32; 12456; 12521; 12540; 58; 32]%N.
(** "Gemini応答のJSON解析に失敗しました。生データ: " *)
Definition msg_json : jsstring :=
  [71; 101; 109; 105; 110; 105; 24540; 31572; 12398; 74; 83; 79; 78; 35299;
   26512; 12395; 22833; 25943; 12375; 12414; 12375; 12383; 12290; 29983;
   12487; 12540; 12479; 58; 32]%N.
(** "候補が返されませんでした" *)
Definition msg_no_candidate : jsstring :=
  [20505; 35036; 12364; 36820; 12373; 12428; 12414; 12379; 12435; 12391;
   12375; 12383]%N.
(** "Geminiからの応答が不正です。理由: ", "（詳細: " and "）" *)
Definition msg_invalid : jsstring :=
  [71; 101; 109; 105; 110; 105; 12363; 12425; 12398; 24540; 31572; 12364;
   19981; 27491; 12391; 12377; 12290; 29702; 30001; 58; 32]%N.
Definition msg_detail_1 : jsstring := [65288; 35443; 32048; 58; 32]%N.
Definition msg_detail_2 : jsstring := [65289%N].
(** "生成が完了しませんでした。finishReason=" *)
Definition msg_incomplete : jsstring :=
  [29983; 25104; 12364; 23436; 20102; 12375; 12414; 12379; 12435; 12391;
   12375; 12383; 12290; 102; 105; 110; 105; 115; 104; 82; 101; 97; 115; 111;
   110; 61]%N.
(** "Geminiが有効な修正案を返しませんでした（空出力）。" *)
Definition msg_empty_output : jsstring :=
  [71; 101; 109; 105; 110; 105; 12364; 26377; 21177; 12394; 20462; 27491;
   26696; 12434; 36820; 12375; 12414; 12379; 12435; 12391; 12375; 12383;
   65288; 31354; 20986; 21147; 65289; 12290]%N.

(** [/not found/i] *)
Definition re_not_found : regex := lits (str_of "not found").

(** What lies outside the sources: the JSON parser ([None] when it throws),
    the message of the engine's TypeError, the prompt builder (its text plays
    no part in what is proved here, so every result holds for each builder),
    the reply to the [n]-th network call and the event loop's decision when
    that reply and the timer are due together. *)
Record request : Type := {
  req_version : jsstring;
  req_model : jsstring;
  req_apiKey : jsstring;
  req_prompt : jsstring
}.

Record env : Type := {
  JSON_parse : jsstring -> option json;
  type_error : jsstring;
  buildGeminiPromptV2 : jsstring -> jsstring -> option jsstring -> jsstring;
  fetch : nat -> request -> fate response;
  timer_first : nat -> bool
}.

(** The part of [callGeminiSingle] after the reply has arrived. *)
Definition rating_text (r : json) : option jsstring :=
  match r with
  | JNull => None
  | _ => Some (show_value (prop (str_of "category") r) ++ [58%N]
               ++ show_value (prop (str_of "probability") r))
  end.

Fixpoint all_some {A} (l : list (option A)) : option (list A) :=
  match l with
  | [] => Some []
  | Some a :: l' => match all_some l' with Some r => Some (a :: r) | None => None end
  | None :: _ => None
  end.

Definition part_text (p : json) : jsstring :=
  let t := opt_prop (str_of "text") (Some p) in
  if is_nullish t then [] else show_value t.

Definition no_candidate (E : env) (data : json) : outcome jsstring :=
  let feedback := opt_prop (str_of "promptFeedback") (Some data) in
  let blockReason := opt_prop (str_of "blockReason") feedback in
  let reason := if is_nullish blockReason then msg_no_candidate
                else show_value blockReason in
  match items_of (opt_prop (str_of "safetyRatings") feedback) with
  | None => Throws (type_error E)
  | Some rs =>
      match all_some (map rating_text rs) with
      | None => Throws (type_error E)
      | Some texts =>
          let ratings := JS.join (str_of ", ") texts in
          Throws (msg_invalid ++ reason
                  ++ (if JS.truthy ratings
                      then msg_detail_1 ++ ratings ++ msg_detail_2 else []))
      end
  end.

Definition read_reply (E : env) (version : jsstring) (res : response)
    : outcome jsstring :=
  let text := match body res with Some t => t | None => [] end in
  if negb (res_ok res) then
    if (status res =? 401)%Z || (status res =? 403)%Z then
      Throws (msg_auth_1 ++ show_Z (status res) ++ msg_auth_2 ++ text)
    else if (status res =? 404)%Z && test Utils.ci re_not_found text then
      Throws (msg_model_1 ++ version ++ msg_model_2 ++ text)
    else if (status res =? 429)%Z then
      Throws (msg_rate_limit ++ text)
    else if (500 <=? status res)%Z then
      Throws (msg_server_1 ++ show_Z (status res) ++ msg_server_2 ++ text)
    else Throws (msg_api_error ++ show_Z (status res) ++ [32%N] ++ text)
  else
    let parsed := if JS.truthy text then JSON_parse E text else Some (JObj []) in
    match parsed with
    | None => Throws (msg_json ++ JS.slice text 0 400)
    | Some data =>
        let candidate := opt_first (opt_prop (str_of "candidates") (Some data)) in
        match candidate with
        | Some cand =>
            if negb (is_truthy candidate) then no_candidate E data
            else
              let finishReason := prop (str_of "finishReason") cand in
              if is_truthy finishReason
                 && negb (match finishReason with
                          | Some (JStr s) => JS.str_eqb s (str_of "STOP")
                                             || JS.str_eqb s (str_of "MAX_TOKENS")
                          | _ => false
                          end)
              then Throws (msg_incomplete ++ show_value finishReason)
              else
                match items_of (opt_prop (str_of "parts")
                                  (opt_prop (str_of "content") candidate)) with
                | Some parts => Returns (JS.join [] (map part_text parts))
                | None => Throws (type_error E)
                end
        | None => no_candidate E data
        end
    end.

(** [callGeminiSingle]: the promise it returns, for the [n]-th call. *)
Definition callGeminiSingle (E : env) (n : nat) (req : request) : fate jsstring :=
  match fetch E n req with
  | Fulfils t res =>
      match read_reply E (req_version req) res with
      | Returns raw => Fulfils t raw
      | Throws msg => Rejects t msg
      | Hangs => Pending
      end
  | Rejects t msg => Rejects t msg
  | Pending => Pending
  end.

(** The state of the module: the memo table [fixMemo], and, to observe the
    client, the network calls issued so far and the number of calls of
    [abort()]. *)
Record client : Type := {
  fixMemo : gmap jsstring jsstring;
  requests : list request;
  abort_calls : nat
}.

Definition memo_key (apiVersion model : jsstring) (diagram : option jsstring)
    (pre errorMsg : jsstring) : jsstring :=
  apiVersion ++ str_of "::" ++ model ++ str_of "::"
  ++ (match diagram with Some d => d | None => str_of "unknown" end)
  ++ str_of "::" ++ pre ++ str_of "::" ++ errorMsg.

Definition memo_set (key value : jsstring) (c : client) : client :=
  {| fixMemo := <[key := value]> (fixMemo c);
     requests := requests c;
     abort_calls := abort_calls c |}.

Definition geminiFixSingle (E : env) (apiKey model original errorMsg : jsstring)
    (timeoutMs : Z) (apiVersion : jsstring) (c : client)
    : outcome jsstring * client :=
  let diagram := Utils.inferDiagramType original in
  let pre := preNormalizeMermaid original in
  let key := memo_key apiVersion model diagram pre errorMsg in
  let memo := match fixMemo c !! key with Some v => v | None => [] end in
  if JS.truthy memo then (Returns memo, c)
  else
    let prompt := buildGeminiPromptV2 E pre errorMsg diagram in
    let req := {| req_version := apiVersion; req_model := model;
                  req_apiKey := apiKey; req_prompt := prompt |} in
    let n := length (requests c) in
    let w := Utils.withTimeout (callGeminiSingle E n req) timeoutMs true
               (timer_first E n) in
    let c1 := {| fixMemo := fixMemo c;
                 requests := requests c ++ [req];
                 abort_calls := abort_calls c + (if Utils.aborts w then 1 else 0) |} in
    match await (Utils.promise w) with
    | Hangs => (Hangs, c1)
    | Throws msg => (Throws msg, c1)
    | Returns raw =>
        let middle := extractFromSentinel raw in
        let result := sanitizeMermaidOutput middle in
        if negb (JS.truthy result) then
          if JS.truthy pre && negb (JS.str_eqb pre original)
          then (Returns pre, memo_set key pre c1)
          else (Throws msg_empty_output, c1)
        else (Returns result, memo_set key result c1)
    end.

Definition geminiFixWithBackoff (E : env) (apiKey model original errorMsg : jsstring)
    (timeoutMs : Z) (c : client) : outcome jsstring * client :=
  geminiFixSingle E apiKey model original errorMsg timeoutMs (str_of "v1beta") c.

(** *** preserveInitIfNeeded

    [/\r?\n/], [/init\s*:/] and [/%%\{[^}]*init[^}]*\}%%/] *)
Definition re_init_colon : regex :=
  seqs [lits (str_of "init"); star (Char false CSpace); lit 58].
Definition re_has_init : regex :=
  seqs [lits (str_of "%%{"); star (Char true (CLit 125)); lits (str_of "init");
        star (Char true (CLit 125)); lits (str_of "}%%")].

Definition is_init_line (l : jsstring) : bool :=
  JS.starts_with (str_of "%%{") (JS.trim l) && test no_flags re_init_colon l.

Definition preserveInitIfNeeded (original fixed : jsstring) (enabled : bool) : jsstring :=
  if negb enabled then fixed
  else
    let origLines := split no_flags Utils.newline original in
    match find is_init_line origLines with
    | None => fixed
    | Some origInitLine =>
        if negb (JS.truthy origInitLine) then fixed
        else if test no_flags re_has_init fixed then fixed
        else JS.trim origInitLine ++ [LF] ++ fixed
    end.

End Gemini.

(** ** replacements.ts and main.ts *)
Module Main.
Import Regex Async Utils Gemini.

Record Replacement : Type := { start : Z; end_ : Z; text : jsstring }.

(** [sort((a, b) => b.start - a.start)]: the stable sort by descending
    [start], as an insertion sort that keeps equal elements in the order
    they came in. *)
Fixpoint insert_desc (r : Replacement) (l : list Replacement) : list Replacement :=
  match l with
  | [] => [r]
  | x :: l' => if (start x <=? start r)%Z then r :: x :: l' else x :: insert_desc r l'
  end.

Definition sort_desc (l : list Replacement) : list Replacement :=
  fold_right insert_desc [] l.

(** [result.slice(0, start) + text + result.slice(end)] *)
Definition splice (result : jsstring) (r : Replacement) : jsstring :=
  JS.slice result 0 (start r) ++ text r ++ JS.slice_from result (end_ r).

Definition applyReplacementsToContent (content : jsstring)
    (replacements : list Replacement) : jsstring :=
  fold_left splice (sort_desc replacements) content.

(** [applyReplacementsReverse(editor, reps)].  The editor is a text buffer;
    a position of the editor is modelled by the offset it stands for, so
    [replaceRange] cuts the buffer at two offsets.  The offsets are clamped
    against the length of the document read at the start. *)
Definition replaceRange (buffer txt : jsstring) (from to : Z) : jsstring :=
  JS.slice buffer 0 from ++ txt ++ JS.slice_from buffer to.

Definition applyReplacementsReverse (buffer : jsstring) (reps : list Replacement)
    : jsstring :=
  let len := Z.of_nat (length buffer) in
  fold_left (fun buf r =>
               let s := clamp (start r) 0 len in
               let e := clamp (end_ r) s len in
               replaceRange buf (text r) s e)
            (sort_desc reps) buffer.

(** *** The retry loop of runFixWithGemini *)

Record settings : Type := {
  geminiApiKey : jsstring;
  geminiModel : jsstring;
  applyMode_auto : bool;
  requestTimeoutMs : Z;
  preserveInitDirective : bool
}.

(** What the user does with the preview: one of its buttons, or nothing
    (the preview is dismissed and its promise never resolves). *)
Inductive decision : Type := Replace | Skip | AutoApply | NoAnswer.

(** The notices shown to the user, by what they report. *)
Inductive notice : Type :=
| NoView | NoApiKey | NoMermaid | NoBlocks
| Inspecting (n : nat)
| NoErrors
| ErrorsFound (n : nat)
| Interrupted
| Trying (block attempt : nat)
| Verified (block : nat)
| Retrying (block : nat)
| GeminiError (block : nat) (msg : jsstring)
| Queued (block : nat)
| Failed (block : nat)
| Applied (n : nat)
| NothingApplied.

(** The host of the plugin: the services behind the correction client, the
    random element ids, the path of the active file each time it is asked
    for, and the user in front of the preview.  [saveData k] is how
    [this.saveData(this.settings)] ends when it is called from the preview
    of block [k]: the promise is fulfilled, rejected, or never settles.
    The user may also type in the editor while the run awaits a request, a
    validation or a preview: [typed doc] is the text that the run finds in
    the editor when it comes to apply its fixes, [doc] being the text it
    read at the start. *)
Record host : Type := {
  services : env;
  random_id : nat -> jsstring;
  active_file : nat -> jsstring;
  decide : nat -> jsstring -> jsstring -> decision;
  saveData : nat -> outcome unit;
  typed : jsstring -> jsstring
}.

(** What the plugin works on.  [editor] is the text of the active editor
    as the run read it or wrote it last ([None]: no markdown view); a run
    that does not write leaves it as it is. *)
Record world : Type := {
  mermaid : option mermaid_obj;
  client_state : client;
  editor : option jsstring;
  validations : nat;
  file_queries : nat;
  saved_auto : bool;
  notices : list notice
}.

Definition notify (n : notice) (w : world) : world :=
  {| mermaid := mermaid w; client_state := client_state w; editor := editor w;
     validations := validations w; file_queries := file_queries w;
     saved_auto := saved_auto w; notices := notices w ++ [n] |}.

Definition validate (H : host) (codeRaw : jsstring) (w : world)
    : outcome ValidationResult * world :=
  let '(r, g) := validateMermaidAsync (type_error (services H))
                   (random_id H (validations w)) (mermaid w) codeRaw in
  (r, {| mermaid := g; client_state := client_state w; editor := editor w;
         validations := S (validations w); file_queries := file_queries w;
         saved_auto := saved_auto w; notices := notices w |}).

Definition fix_call (H : host) (cfg : settings) (currentCode lastError : jsstring)
    (w : world) : outcome jsstring * world :=
  let '(r, c) := geminiFixWithBackoff (services H) (geminiApiKey cfg) (geminiModel cfg)
                   currentCode lastError (requestTimeoutMs cfg) (client_state w) in
  (r, {| mermaid := mermaid w; client_state := c; editor := editor w;
         validations := validations w; file_queries := file_queries w;
         saved_auto := saved_auto w; notices := notices w |}).

(** [/認証エラー|モデルが見つかりません|応答のJSON解析/i]: the errors that stop
    the whole run. *)
Definition re_hard : regex :=
  Alt (lits [35469; 35388; 12456; 12521; 12540]%N)
    (Alt (lits [12514; 12487; 12523; 12364; 35211; 12388; 12363; 12426; 12414;
                12379; 12435]%N)
         (lits [24540; 31572; 12398; 74; 83; 79; 78; 35299; 26512]%N)).

Definition is_hard (msg : jsstring) : bool := test Utils.ci re_hard msg.

(** "不明な構文エラー" and "修正後もエラーが残っています" *)
Definition msg_unknown_syntax : jsstring :=
  [19981; 26126; 12394; 27083; 25991; 12456; 12521; 12540]%N.
Definition msg_still_broken : jsstring :=
  [20462; 27491; 24460; 12418; 12456; 12521; 12540; 12364; 27531; 12387;
   12390; 12356; 12414; 12377]%N.

Definition maxAttempts : nat := 5.

(** How the attempts on one block end. *)
Record verdict : Type := {
  success : bool;
  fixedCode : option jsstring;
  cancelled : bool
}.

(** The [for (attempt = 1; attempt <= maxAttempts; attempt++)] loop, with
    [left] attempts to go. *)
Fixpoint attempts (H : host) (cfg : settings) (block : MermaidBlock)
    (left attempt : nat) (currentCode lastError : jsstring) (w : world)
    : outcome verdict * world :=
  match left with
  | 0 => (Returns {| success := false; fixedCode := None; cancelled := false |}, w)
  | S left' =>
      let w := notify (Trying (index block) attempt) w in
      let caught (msg : jsstring) (w : world) :=
        (Returns {| success := false; fixedCode := None; cancelled := is_hard msg |},
         notify (GeminiError (index block) msg) w) in
      match fix_call H cfg currentCode lastError w with
      | (Hangs, w) => (Hangs, w)
      | (Throws msg, w) => caught msg w
      | (Returns proposedFix, w) =>
          let codeToValidate :=
            preserveInitIfNeeded (code block) proposedFix (preserveInitDirective cfg) in
          match validate H codeToValidate w with
          | (Hangs, w) => (Hangs, w)
          | (Throws msg, w) => caught msg w
          | (Returns validation, w) =>
              if ok validation then
                (Returns {| success := true; fixedCode := Some codeToValidate;
                            cancelled := false |},
                 notify (Verified (index block)) w)
              else
                let lastError := match error validation with
                                 | Some e => e
                                 | None => msg_still_broken
                                 end in
                let w := if Nat.ltb attempt maxAttempts
                         then notify (Retrying (index block)) w else w in
                attempts H cfg block left' (S attempt) codeToValidate lastError w
          end
      end
  end.

Definition replacement_of (block : MermaidBlock) (fixedCode : jsstring) : Replacement :=
  {| start := startOffset block; end_ := endOffset block; text := fixedCode |}.

Definition query_file (H : host) (w : world) : jsstring * world :=
  (active_file H (file_queries w),
   {| mermaid := mermaid w; client_state := client_state w; editor := editor w;
      validations := validations w; file_queries := S (file_queries w);
      saved_auto := saved_auto w; notices := notices w |}).

Definition save_auto (w : world) : world :=
  {| mermaid := mermaid w; client_state := client_state w; editor := editor w;
     validations := validations w; file_queries := file_queries w;
     saved_auto := true; notices := notices w |}.

(** The state of the loop over the blocks in error. *)
Record batch : Type := {
  replacements : list Replacement;
  autoApply : bool;
  batch_cancelled : bool
}.

(** The [for (const { block, error } of errorBlocks)] loop.  The button
    for automatic application sets the mode, awaits [saveData] and only then
    queues the fix and resolves the promise the loop is waiting for: when the
    save is rejected or never settles, that promise stays pending. *)
Fixpoint blocks_loop (H : host) (cfg : settings) (currentFile : jsstring)
    (errorBlocks : list (MermaidBlock * jsstring)) (b : batch) (w : world)
    : outcome batch * world :=
  match errorBlocks with
  | [] => (Returns b, w)
  | (block, initialError) :: more =>
      let '(now, w) := query_file H w in
      if negb (JS.str_eqb currentFile now) then
        (Returns {| replacements := replacements b; autoApply := autoApply b;
                    batch_cancelled := true |},
         notify Interrupted w)
      else
        match attempts H cfg block maxAttempts 1 (code block) initialError w with
        | (Hangs, w) => (Hangs, w)
        | (Throws msg, w) => (Throws msg, w)
        | (Returns v, w) =>
            if cancelled v then
              (Returns {| replacements := replacements b; autoApply := autoApply b;
                          batch_cancelled := true |}, w)
            else
              match (if success v then fixedCode v else None) with
              | Some fixed =>
                  if JS.truthy fixed then
                    let push (b : batch) (auto : bool) :=
                      {| replacements := replacements b ++ [replacement_of block fixed];
                         autoApply := auto; batch_cancelled := false |} in
                    if autoApply b then
                      blocks_loop H cfg currentFile more (push b true)
                        (notify (Queued (index block)) w)
                    else
                      match decide H (index block) (code block) fixed with
                      | Replace => blocks_loop H cfg currentFile more (push b false) w
                      | Skip => blocks_loop H cfg currentFile more b w
                      | AutoApply =>
                          match saveData H (index block) with
                          | Returns _ =>
                              blocks_loop H cfg currentFile more (push b true)
                                (save_auto w)
                          | _ => (Hangs, save_auto w)
                          end
                      | NoAnswer => (Hangs, w)
                      end
                  else blocks_loop H cfg currentFile more b (notify (Failed (index block)) w)
              | None => blocks_loop H cfg currentFile more b (notify (Failed (index block)) w)
              end
        end
  end.

(** The first pass: validate every block and keep those in error. *)
Fixpoint find_errors (H : host) (blocks : list MermaidBlock) (w : world)
    : outcome (list (MermaidBlock * jsstring)) * world :=
  match blocks with
  | [] => (Returns [], w)
  | block :: more =>
      match validate H (code block) w with
      | (Hangs, w) => (Hangs, w)
      | (Throws msg, w) => (Throws msg, w)
      | (Returns validation, w) =>
          match find_errors H more w with
          | (Returns errs, w) =>
              (Returns (if ok validation then errs
                        else (block, match error validation with
                                     | Some e => e
                                     | None => msg_unknown_syntax
                                     end) :: errs), w)
          | other => other
          end
      end
  end.

Definition set_editor (txt : jsstring) (w : world) : world :=
  {| mermaid := mermaid w; client_state := client_state w; editor := Some txt;
     validations := validations w; file_queries := file_queries w;
     saved_auto := saved_auto w; notices := notices w |}.

(** [runFixWithGemini].  [editor w] is the text the run reads at its
    start; the blocks and their offsets are those of that text.  At the end
    [applyReplacementsReverse] reads the editor again and applies the queued
    replacements, with those offsets, to the text it finds then,
    [typed H doc]; in between the run only compares the path of the active
    file. *)
Definition runFixWithGemini (H : host) (cfg : settings) (w : world)
    : outcome unit * world :=
  match editor w with
  | None => (Returns tt, notify NoView w)
  | Some doc =>
      if negb (JS.truthy (geminiApiKey cfg)) then (Returns tt, notify NoApiKey w)
      else if negb (hasMermaid (mermaid w)) then (Returns tt, notify NoMermaid w)
      else
        let allBlocks := extractMermaidBlocks doc in
        match allBlocks with
        | [] => (Returns tt, notify NoBlocks w)
        | _ =>
            let w := notify (Inspecting (length allBlocks)) w in
            match find_errors H allBlocks w with
            | (Hangs, w) => (Hangs, w)
            | (Throws msg, w) => (Throws msg, w)
            | (Returns [], w) => (Returns tt, notify NoErrors w)
            | (Returns errorBlocks, w) =>
                let w := notify (ErrorsFound (length errorBlocks)) w in
                let '(currentFile, w) := query_file H w in
                let b0 := {| replacements := [];
                             autoApply := applyMode_auto cfg || saved_auto w;
                             batch_cancelled := false |} in
                match blocks_loop H cfg currentFile errorBlocks b0 w with
                | (Hangs, w) => (Hangs, w)
                | (Throws msg, w) => (Throws msg, w)
                | (Returns b, w) =>
                    if negb (batch_cancelled b) then
                      match replacements b with
                      | [] => (Returns tt, notify NothingApplied w)
                      | reps =>
                          (Returns tt,
                           notify (Applied (length reps))
                             (set_editor (applyReplacementsReverse (typed H doc) reps) w))
                      end
                    else (Returns tt, w)
                end
            end
        end
  end.

End Main.

(** ** Concrete runs

    A small host to run the definitions on: a parser that rejects any text
    containing the word BROKEN, a service whose good reply carries a fixed
    diagram, and two documents. *)
Module Scenario.
Import Regex Async Utils Gemini Main.

Definition parse_error : js_error :=
  {| err_str := None; err_message := Some (str_of "Parse error");
     err_text := str_of "Error: Parse error" |}.

Definition parser (code : jsstring) : parser_run :=
  if JS.includes code (str_of "BROKEN")
  then {| events := []; ending := ReturnsRejected parse_error |}
  else {| events := []; ending := ReturnsFulfilled |}.

Definition the_mermaid : mermaid_obj :=
  {| parseError := Handler 0; parse := Function parser;
     api_parse := Missing; render := Missing |}.

Definition fixed_diagram : jsstring := str_of "graph TD
  A-->B".

Definition good_reply : json :=
  JObj [(str_of "candidates",
         JArr [JObj [(str_of "content",
                      JObj [(str_of "parts",
                             JArr [JObj [(str_of "text", JStr fixed_diagram)]])]);
                     (str_of "finishReason", JStr (str_of "STOP"))]])].

Definition reply_ok : fate response :=
  Fulfils 80 {| status := 200; body := Some (str_of "OK") |}.
Definition reply_429 : fate response :=
  Fulfils 120 {| status := 429; body := Some (str_of "slow down") |}.
Definition reply_401 : fate response :=
  Fulfils 120 {| status := 401; body := Some (str_of "bad key") |}.

Definition services_with (replies : nat -> fate response) : env :=
  {| JSON_parse := fun t => if JS.str_eqb t (str_of "OK") then Some good_reply else None;
     type_error := str_of "x is not a function";
     buildGeminiPromptV2 := fun original errorMsg _ => original ++ errorMsg;
     fetch := fun n _ => replies n;
     timer_first := fun _ => false |}.

Definition host_with (replies : nat -> fate response) : host :=
  {| services := services_with replies;
     random_id := fun _ => str_of "tmp-1";
     active_file := fun _ => str_of "note.md";
     decide := fun _ _ _ => Replace;
     saveData := fun _ => Returns tt;
     typed := fun doc => doc |}.

(** The first request is answered 429, every later one with the fix. *)
Definition rate_limited_once : host :=
  host_with (fun n => match n with 0 => reply_429 | _ => reply_ok end).

(** The second request is answered 401, every other one with the fix. *)
Definition unauthorized_second : host :=
  host_with (fun n => match n with 1 => reply_401 | _ => reply_ok end).

Definition always_ok : host := host_with (fun _ => reply_ok).

Definition cfg : settings :=
  {| geminiApiKey := str_of "k"; geminiModel := str_of "m"; applyMode_auto := true;
     requestTimeoutMs := 30000; preserveInitDirective := true |}.

Definition one_block : jsstring := str_of "```mermaid
graph TD
  A-->BROKEN
```
".

Definition two_blocks : jsstring := str_of "```mermaid
graph TD
  A-->BROKEN
```
text
```mermaid
graph LR
  X-->BROKEN
```
".

Definition fresh_client : client :=
  {| fixMemo := ∅; requests := []; abort_calls := 0 |}.

Definition world_with (doc : jsstring) : world :=
  {| mermaid := Some the_mermaid; client_state := fresh_client; editor := Some doc;
     validations := 0; file_queries := 0; saved_auto := false; notices := [] |}.

End Scenario.

(** ** utils.ts: positions and the line diff *)
Module Lines.

(** [s.split(sep)] for a separator of one code unit: the pieces between
    the occurrences of the separator, at least one piece. *)
Fixpoint split_on (sep : N) (s : jsstring) : list jsstring :=
  match s with
  | [] => [[]]
  | c :: s' =>
      if N.eqb c sep then [] :: split_on sep s'
      else match split_on sep s' with
           | l :: ls => (c :: l) :: ls
           | [] => [[c]]
           end
  end.

Record position : Type := { line : Z; ch : Z }.

(** [offsetToPosFallback(text, offset)] *)
Definition offsetToPosFallback (text : jsstring) (offset : Z) : position :=
  let lines := split_on LF (JS.slice text 0 offset) in
  {| line := Z.of_nat (length lines) - 1;
     ch := match nth_error lines (length lines - 1) with
           | Some l => Z.of_nat (length l)
           | None => 0
           end |}.

Inductive diff_type : Type := unchanged | added | removed.

Record DiffLine : Type := {
  type : diff_type;
  content : jsstring;
  lineNumber : nat
}.

(** The entries pushed in the iteration [i] of the loop of
    [calculateDiff]; [lines[i] || ''] is the line, or the empty string when
    there is none. *)
Definition diff_at (originalLines modifiedLines : list jsstring) (i : nat)
    : list DiffLine :=
  let originalLine := nth i originalLines [] in
  let modifiedLine := nth i modifiedLines [] in
  if JS.str_eqb originalLine modifiedLine then
    [ {| type := unchanged; content := originalLine; lineNumber := i + 1 |} ]
  else if JS.truthy originalLine && negb (JS.truthy modifiedLine) then
    [ {| type := removed; content := originalLine; lineNumber := i + 1 |} ]
  else if negb (JS.truthy originalLine) && JS.truthy modifiedLine then
    [ {| type := added; content := modifiedLine; lineNumber := i + 1 |} ]
  else
    [ {| type := removed; content := originalLine; lineNumber := i + 1 |};
      {| type := added; content := modifiedLine; lineNumber := i + 1 |} ].

(** [for (let i = 0; i < maxLines; i++)], with [left] iterations to go. *)
Fixpoint diff_loop (originalLines modifiedLines : list jsstring) (left i : nat)
    (result : list DiffLine) : list DiffLine :=
  match left with
  | 0 => result
  | S left' =>
      diff_loop originalLines modifiedLines left' (S i)
        (result ++ diff_at originalLines modifiedLines i)
  end.

Definition calculateDiff (original modified : jsstring) : list DiffLine :=
  let originalLines := split_on LF original in
  let modifiedLines := split_on LF modified in
  let maxLines := Nat.max (length originalLines) (length modifiedLines) in
  diff_loop originalLines modifiedLines maxLines 0 [].

End Lines.

(** * The validation runs and the run over every file

    [runValidateOnly], [runValidateAllFiles] and [runFixAllFilesWithGemini]
    of the plugin.  The vault is the list of its markdown files, as
    [getMarkdownFiles] returns it, with the text of each; a file is known by
    its place in that list.  [read] and [modify] settle: they give the text,
    respectively write it, or reject.  The confirmation dialog gives the
    button pressed, or nothing when it is closed without a button, in which
    case its promise never resolves. *)
Module Vault.
Import Regex Async Utils Gemini Main.

Record TFile : Type := { path : jsstring; basename : jsstring }.

Inductive vault_notice : Type :=
| NoActiveView | MermaidMissing | ApiKeyMissing | NoBlocksFound | NoMarkdownFiles
| BlocksFine (blocks : nat)
| BlocksInError (errors : nat)
| ScanningAll (files : nat)
| AllFine (totalBlocks : nat)
| AllInError (errors files : nat)
| FixingAll (files : nat)
| FixingFile (name : jsstring) (errors : nat)
| BlockFailed (name : jsstring) (block : nat)
| AllInterrupted
| AllDone (totalFixed : nat).

Record vault_host : Type := {
  plugin : host;
  markdownFiles : list TFile;
  confirm : option bool;
  read_error : TFile -> option jsstring;
  modify_error : TFile -> option jsstring
}.

Record vault_state : Type := {
  inner : world;
  contents : list jsstring;
  shown : list vault_notice
}.

Definition set_inner (w : world) (s : vault_state) : vault_state :=
  {| inner := w; contents := contents s; shown := shown s |}.

Definition display (n : vault_notice) (s : vault_state) : vault_state :=
  {| inner := inner s; contents := contents s; shown := shown s ++ [n] |}.

(** [vault.read(file)] *)
Definition read (V : vault_host) (i : nat) (file : TFile) (s : vault_state)
    : outcome jsstring :=
  match read_error V file with
  | Some msg => Throws msg
  | None => match contents s !! i with
            | Some content => Returns content
            | None => Throws (path file)
            end
  end.

(** [vault.modify(file, newContent)] *)
Definition modify (V : vault_host) (i : nat) (file : TFile) (newContent : jsstring)
    (s : vault_state) : outcome unit * vault_state :=
  match modify_error V file with
  | Some msg => (Throws msg, s)
  | None => (Returns tt, {| inner := inner s; contents := <[i := newContent]> (contents s);
                            shown := shown s |})
  end.

(** "構文エラー" *)
Definition msg_syntax : jsstring := [27083; 25991; 12456; 12521; 12540]%N.

(** The loop of [runValidateOnly]: the index and the message of every block
    in error. *)
Fixpoint validate_blocks (H : host) (blocks : list MermaidBlock) (w : world)
    : outcome (list (nat * jsstring)) * world :=
  match blocks with
  | [] => (Returns [], w)
  | b :: more =>
      match validate H (code b) w with
      | (Hangs, w) => (Hangs, w)
      | (Throws msg, w) => (Throws msg, w)
      | (Returns r, w) =>
          match validate_blocks H more w with
          | (Returns errors, w) =>
              (Returns (if ok r then errors
                        else (index b, match error r with
                                       | Some e => e
                                       | None => msg_syntax
                                       end) :: errors), w)
          | other => other
          end
      end
  end.

Definition runValidateOnly (V : vault_host) (s : vault_state)
    : outcome unit * vault_state :=
  match editor (inner s) with
  | None => (Returns tt, display NoActiveView s)
  | Some text =>
      if negb (hasMermaid (mermaid (inner s))) then (Returns tt, display MermaidMissing s)
      else
        match extractMermaidBlocks text with
        | [] => (Returns tt, display NoBlocksFound s)
        | blocks =>
            match validate_blocks (plugin V) blocks (inner s) with
            | (Hangs, w) => (Hangs, set_inner w s)
            | (Throws msg, w) => (Throws msg, set_inner w s)
            | (Returns [], w) => (Returns tt, display (BlocksFine (length blocks)) (set_inner w s))
            | (Returns errors, w) =>
                (Returns tt, display (BlocksInError (length errors)) (set_inner w s))
            end
        end
  end.

(** The counters of [runValidateAllFiles]. *)
Record scan_totals : Type := {
  totalBlocks : nat;
  totalErrors : nat;
  errorFiles : nat
}.

(** The body of the [try] for one file; an error thrown in it is caught and
    the loop goes on with the next file. *)
Definition scan_file (V : vault_host) (i : nat) (file : TFile) (t : scan_totals)
    (s : vault_state) : outcome unit * (scan_totals * vault_state) :=
  match read V i file s with
  | Hangs => (Hangs, (t, s))
  | Throws msg => (Throws msg, (t, s))
  | Returns content =>
      let allBlocks := extractMermaidBlocks content in
      let t := {| totalBlocks := totalBlocks t + length allBlocks;
                  totalErrors := totalErrors t; errorFiles := errorFiles t |} in
      match allBlocks with
      | [] => (Returns tt, (t, s))
      | _ =>
          match find_errors (plugin V) allBlocks (inner s) with
          | (Hangs, w) => (Hangs, (t, set_inner w s))
          | (Throws msg, w) => (Throws msg, (t, set_inner w s))
          | (Returns [], w) => (Returns tt, (t, set_inner w s))
          | (Returns fileErrors, w) =>
              (Returns tt,
               ({| totalBlocks := totalBlocks t;
                   totalErrors := totalErrors t + length fileErrors;
                   errorFiles := S (errorFiles t) |}, set_inner w s))
          end
      end
  end.

Fixpoint scan_files (V : vault_host) (i : nat) (files : list TFile) (t : scan_totals)
    (s : vault_state) : outcome scan_totals * vault_state :=
  match files with
  | [] => (Returns t, s)
  | file :: more =>
      match scan_file V i file t s with
      | (Hangs, (_, s)) => (Hangs, s)
      | (_, (t, s)) => scan_files V (S i) more t s
      end
  end.

Definition runValidateAllFiles (V : vault_host) (s : vault_state)
    : outcome unit * vault_state :=
  if negb (hasMermaid (mermaid (inner s))) then (Returns tt, display MermaidMissing s)
  else
    match markdownFiles V with
    | [] => (Returns tt, display NoMarkdownFiles s)
    | files =>
        match confirm V with
        | None => (Hangs, s)
        | Some false => (Returns tt, s)
        | Some true =>
            let s := display (ScanningAll (length files)) s in
            match scan_files V 0 files
                    {| totalBlocks := 0; totalErrors := 0; errorFiles := 0 |} s with
            | (Returns t, s) =>
                (Returns tt,
                 if Nat.eqb (totalErrors t) 0 then display (AllFine (totalBlocks t)) s
                 else display (AllInError (totalErrors t) (errorFiles t)) s)
            | (Throws msg, s) => (Throws msg, s)
            | (Hangs, s) => (Hangs, s)
            end
        end
    end.

(** *** runFixAllFilesWithGemini *)

Definition maxAttemptsAll : nat := 3.

(** The attempts on one block: as in [runFixWithGemini], without notices. *)
Fixpoint attempts_all (H : host) (cfg : settings) (block : MermaidBlock) (left : nat)
    (currentCode lastError : jsstring) (w : world) : outcome verdict * world :=
  match left with
  | 0 => (Returns {| success := false; fixedCode := None; cancelled := false |}, w)
  | S left' =>
      let caught (msg : jsstring) (w : world) :=
        (Returns {| success := false; fixedCode := None; cancelled := is_hard msg |}, w) in
      match fix_call H cfg currentCode lastError w with
      | (Hangs, w) => (Hangs, w)
      | (Throws msg, w) => caught msg w
      | (Returns proposedFix, w) =>
          let codeToValidate :=
            preserveInitIfNeeded (code block) proposedFix (preserveInitDirective cfg) in
          match validate H codeToValidate w with
          | (Hangs, w) => (Hangs, w)
          | (Throws msg, w) => caught msg w
          | (Returns validation, w) =>
              if ok validation then
                (Returns {| success := true; fixedCode := Some codeToValidate;
                            cancelled := false |}, w)
              else
                let lastError := match error validation with
                                 | Some e => e
                                 | None => msg_still_broken
                                 end in
                attempts_all H cfg block left' codeToValidate lastError w
          end
      end
  end.

(** The loop over the blocks in error of one file.  [batch_cancelled] is
    the variable [cancelled] of the run: the loop stops before the next
    block once it is set, but the block on which it was set is finished. *)
Fixpoint blocks_all (V : vault_host) (cfg : settings) (file : TFile)
    (errorBlocks : list (MermaidBlock * jsstring)) (b : batch) (s : vault_state)
    : outcome batch * vault_state :=
  match errorBlocks with
  | [] => (Returns b, s)
  | (block, initialError) :: more =>
      if batch_cancelled b then (Returns b, s)
      else
        match attempts_all (plugin V) cfg block maxAttemptsAll (code block) initialError
                (inner s) with
        | (Hangs, w) => (Hangs, set_inner w s)
        | (Throws msg, w) => (Throws msg, set_inner w s)
        | (Returns v, w) =>
            let s := set_inner w s in
            let b := {| replacements := replacements b; autoApply := autoApply b;
                        batch_cancelled := cancelled v |} in
            match (if success v then fixedCode v else None) with
            | Some fixed =>
                if JS.truthy fixed then
                  let push (auto : bool) :=
                    {| replacements := replacements b ++ [replacement_of block fixed];
                       autoApply := auto; batch_cancelled := batch_cancelled b |} in
                  if autoApply b then blocks_all V cfg file more (push true) s
                  else
                    match decide (plugin V) (index block) (code block) fixed with
                    | Replace => blocks_all V cfg file more (push false) s
                    | Skip => blocks_all V cfg file more b s
                    | AutoApply =>
                        match saveData (plugin V) (index block) with
                        | Returns _ =>
                            blocks_all V cfg file more (push true)
                              (set_inner (save_auto (inner s)) s)
                        | _ => (Hangs, set_inner (save_auto (inner s)) s)
                        end
                    | NoAnswer => (Hangs, s)
                    end
                else blocks_all V cfg file more b
                       (display (BlockFailed (basename file) (index block)) s)
            | None => blocks_all V cfg file more b
                        (display (BlockFailed (basename file) (index block)) s)
            end
        end
  end.

(** The counters and the flag [cancelled] of the run; [errorsSeen] is its
    [totalErrors]. *)
Record fix_totals : Type := {
  totalFixed : nat;
  errorsSeen : nat;
  stopped : bool
}.

(** The body of the [try] for one file. *)
Definition fix_file (V : vault_host) (cfg : settings) (i : nat) (file : TFile)
    (t : fix_totals) (s : vault_state) : outcome unit * (fix_totals * vault_state) :=
  match read V i file s with
  | Hangs => (Hangs, (t, s))
  | Throws msg => (Throws msg, (t, s))
  | Returns content =>
      match extractMermaidBlocks content with
      | [] => (Returns tt, (t, s))
      | allBlocks =>
          match find_errors (plugin V) allBlocks (inner s) with
          | (Hangs, w) => (Hangs, (t, set_inner w s))
          | (Throws msg, w) => (Throws msg, (t, set_inner w s))
          | (Returns [], w) => (Returns tt, (t, set_inner w s))
          | (Returns errorBlocks, w) =>
              let t := {| totalFixed := totalFixed t;
                          errorsSeen := errorsSeen t + length errorBlocks;
                          stopped := stopped t |} in
              let s := display (FixingFile (basename file) (length errorBlocks))
                         (set_inner w s) in
              let b0 := {| replacements := [];
                           autoApply := applyMode_auto cfg || saved_auto (inner s);
                           batch_cancelled := stopped t |} in
              match blocks_all V cfg file errorBlocks b0 s with
              | (Hangs, s) => (Hangs, (t, s))
              | (Throws msg, s) => (Throws msg, (t, s))
              | (Returns b, s) =>
                  let t := {| totalFixed := totalFixed t; errorsSeen := errorsSeen t;
                              stopped := batch_cancelled b |} in
                  match replacements b with
                  | [] => (Returns tt, (t, s))
                  | reps =>
                      let newContent := applyReplacementsToContent content reps in
                      match modify V i file newContent s with
                      | (Returns _, s) =>
                          (Returns tt,
                           ({| totalFixed := totalFixed t + length reps;
                               errorsSeen := errorsSeen t; stopped := stopped t |}, s))
                      | (Throws msg, s) => (Throws msg, (t, s))
                      | (Hangs, s) => (Hangs, (t, s))
                      end
                  end
              end
          end
      end
  end.

(** The loop over the files: it stops before the next file once the run is
    cancelled; whatever is thrown while a file is processed is caught. *)
Fixpoint fix_files (V : vault_host) (cfg : settings) (i : nat) (files : list TFile)
    (t : fix_totals) (s : vault_state) : outcome fix_totals * vault_state :=
  match files with
  | [] => (Returns t, s)
  | file :: more =>
      if stopped t then (Returns t, s)
      else
        match fix_file V cfg i file t s with
        | (Hangs, (_, s)) => (Hangs, s)
        | (_, (t, s)) => fix_files V cfg (S i) more t s
        end
  end.

Definition runFixAllFilesWithGemini (V : vault_host) (cfg : settings) (s : vault_state)
    : outcome unit * vault_state :=
  if negb (JS.truthy (geminiApiKey cfg)) then (Returns tt, display ApiKeyMissing s)
  else if negb (hasMermaid (mermaid (inner s))) then (Returns tt, display MermaidMissing s)
  else
    match markdownFiles V with
    | [] => (Returns tt, display NoMarkdownFiles s)
    | files =>
        match confirm V with
        | None => (Hangs, s)
        | Some false => (Returns tt, s)
        | Some true =>
            let s := display (FixingAll (length files)) s in
            match fix_files V cfg 0 files
                    {| totalFixed := 0; errorsSeen := 0; stopped := false |} s with
            | (Returns t, s) =>
                (Returns tt,
                 if stopped t then display AllInterrupted s else display (AllDone (totalFixed t)) s)
            | (Throws msg, s) => (Throws msg, s)
            | (Hangs, s) => (Hangs, s)
            end
        end
    end.

End Vault.

(** * Facts about the string helpers *)
Module JSFacts.
Import JS.

Lemma slice_in_bounds (s : jsstring) (a b : nat) :
  a <= b -> b <= length s ->
  slice s (Z.of_nat a) (Z.of_nat b) = firstn (b - a) (skipn a s).
Proof.
  intros Hab Hb. unfold slice, rel_index.
  destruct (Z.ltb_spec (Z.of_nat a) 0); [lia|].
  destruct (Z.ltb_spec (Z.of_nat b) 0); [lia|].
  rewrite !Z.min_l by lia.
  rewrite Nat2Z.id. f_equal. lia.
Qed.

Lemma slice_from_in_bounds (s : jsstring) (a : nat) :
  a <= length s -> slice_from s (Z.of_nat a) = skipn a s.
Proof.
  intros Ha. unfold slice_from. rewrite slice_in_bounds by lia.
  apply firstn_all2. rewrite length_skipn. lia.
Qed.

Lemma starts_with_firstn (p s : jsstring) :
  starts_with p s = true -> firstn (length p) s = p /\ length p <= length s.
Proof.
  revert s. induction p as [|a p IH]; intros s H; simpl in *.
  - split; [reflexivity | lia].
  - destruct s as [|b s]; [discriminate|].
    apply andb_prop in H as [Hab Hp]. apply N.eqb_eq in Hab. subst b.
    destruct (IH _ Hp) as [E L]. simpl. rewrite E. split; [reflexivity | lia].
Qed.

Lemma starts_with_app (p s : jsstring) : starts_with p (p ++ s) = true.
Proof.
  induction p as [|a p IH]; simpl; [reflexivity|].
  rewrite N.eqb_refl. exact IH.
Qed.

(** What [indexOf] returns: [-1], or the offset of an occurrence. *)
Lemma index_from_spec (p s : jsstring) (i : Z) :
  index_from p s i = (-1)%Z \/
  exists k, index_from p s i = (i + Z.of_nat k)%Z
            /\ firstn (length p) (skipn k s) = p
            /\ k + length p <= length s.
Proof.
  revert i. induction s as [|c s IH]; intros i; simpl.
  - destruct (starts_with p []) eqn:E.
    + right. exists 0. apply starts_with_firstn in E as [E1 E2].
      rewrite Z.add_0_r. simpl in *. auto.
    + left. reflexivity.
  - destruct (starts_with p (c :: s)) eqn:E.
    + right. exists 0. apply starts_with_firstn in E as [E1 E2].
      rewrite Z.add_0_r. simpl in *. auto.
    + destruct (IH (i + 1)%Z) as [H | (k & Hk & Hf & Hl)]; [left; exact H|].
      right. exists (S k). simpl. repeat split; [lia | exact Hf | lia].
Qed.

Lemma indexOf_spec (s p : jsstring) :
  (indexOf s p < 0)%Z \/
  exists k, indexOf s p = Z.of_nat k
            /\ firstn (length p) (skipn k s) = p
            /\ k + length p <= length s.
Proof.
  unfold indexOf. destruct (index_from_spec p s 0) as [H | (k & Hk & Hf & Hl)].
  - left. lia.
  - right. exists k. rewrite Hk. auto.
Qed.

Lemma indexOf_empty (s : jsstring) : indexOf s [] = 0%Z.
Proof. destruct s; reflexivity. Qed.

End JSFacts.

(** * Facts about the matcher *)
Module RegexFacts.
Import Regex.

(** A lower bound on the number of code units a match of [r] consumes. *)
Fixpoint min_len (r : regex) : nat :=
  match r with
  | Char _ _ => 1
  | Seq r1 r2 => min_len r1 + min_len r2
  | Alt r1 r2 => Nat.min (min_len r1) (min_len r2)
  | Repeat r1 mn None _ => mn * min_len r1
  | Repeat r1 mn (Some k) _ => Nat.min mn k * min_len r1
  | Group _ r1 => min_len r1
  | _ => 0
  end.

(** [y] is reached from [x] by consuming a piece [w] of the input of
    length at least [n]. *)
Definition reaches (n : nat) (x y : mstate) : Prop :=
  exists w, rest x = w ++ rest y /\ pos y = pos x + length w /\ n <= length w.

Lemma reaches_refl x : reaches 0 x x.
Proof. exists []. simpl. repeat split; lia. Qed.

Lemma reaches_trans n m x y z :
  reaches n x y -> reaches m y z -> reaches (n + m) x z.
Proof.
  intros (w1 & R1 & P1 & L1) (w2 & R2 & P2 & L2).
  exists (w1 ++ w2). rewrite length_app, <- app_assoc, <- R2.
  repeat split; [exact R1 | lia | lia].
Qed.

Lemma reaches_weaken n m x y : m <= n -> reaches n x y -> reaches m x y.
Proof. intros Hm (w & R & P & L). exists w. repeat split; [exact R | exact P | lia]. Qed.

Lemma reaches_advance k x : k <= length (rest x) -> reaches k x (advance k x).
Proof.
  intros Hk. exists (firstn k (rest x)). simpl.
  rewrite firstn_skipn, length_firstn. repeat split; lia.
Qed.

Lemma prefix_ci_length fl p s : prefix_ci fl p s = true -> length p <= length s.
Proof.
  revert s. induction p as [|a p IH]; intros [|b s] H; simpl in *; try lia; try discriminate.
  apply andb_prop in H as [_ H]. apply IH in H. lia.
Qed.

Section Repeat.
Variable m : mstate -> list mstate.
Variable n : nat.
Hypothesis m_reaches : forall x y, In y (m x) -> reaches n x y.

Lemma rep_opt_reaches fuel mx greedy x y :
  In y (rep_opt m fuel mx greedy x) -> reaches 0 x y.
Proof.
  revert mx x. induction fuel as [|f IH]; intros mx x H; simpl in H.
  - destruct H as [<- | []]. apply reaches_refl.
  - destruct (max_is_zero mx).
    + destruct H as [<- | []]. apply reaches_refl.
    + assert (Hit : In y (flat_map (fun z => if Nat.eqb (pos z) (pos x) then []
                          else rep_opt m f (dec_max mx) greedy z) (m x)) -> reaches 0 x y).
      { intros Hin. apply in_flat_map in Hin as (z & Hz & Hy).
        destruct (Nat.eqb (pos z) (pos x)); [destruct Hy|].
        apply IH in Hy. apply m_reaches in Hz.
        eapply reaches_weaken; [|eapply reaches_trans; eassumption]. lia. }
      destruct greedy.
      * apply in_app_iff in H as [H | [<- | []]]; [auto | apply reaches_refl].
      * destruct H as [<- | H]; [apply reaches_refl | auto].
Qed.

Lemma rep_min_reaches mn mx greedy x y :
  In y (rep_min m mn mx greedy x) ->
  reaches (match mx with None => mn | Some k => Nat.min mn k end * n) x y.
Proof.
  revert mx x. induction mn as [|k IH]; intros mx x H; simpl in H.
  - apply rep_opt_reaches in H. destruct mx; simpl; exact H.
  - destruct (max_is_zero mx) eqn:Ez.
    + destruct H as [<- | []]. destruct mx as [[|j]|]; try discriminate.
      simpl. apply reaches_refl.
    + apply in_flat_map in H as (z & Hz & Hy).
      apply m_reaches in Hz. apply IH in Hy.
      eapply reaches_weaken; [|eapply reaches_trans; eassumption].
      destruct mx as [[|j]|]; simpl in *; try discriminate; lia.
Qed.

Lemma flat_map_agree {A B} (f g : A -> list B) (l : list A) :
  (forall a, In a l -> f a = g a) -> flat_map f l = flat_map g l.
Proof.
  induction l as [|a l IH]; intros H; simpl; [reflexivity|].
  rewrite (H a) by (left; reflexivity). rewrite IH; [reflexivity|].
  intros b Hb. apply H. right. exact Hb.
Qed.

(** The fuel of the optional iterations is exact: any amount that covers
    the input left gives the same result, so the result never depends on
    the fuel running out. *)
Lemma rep_opt_fuel_exact : forall fuel mx greedy x,
  length (rest x) <= fuel ->
  rep_opt m fuel mx greedy x = rep_opt m (length (rest x)) mx greedy x.
Proof.
  induction fuel as [fuel IH] using lt_wf_ind. intros mx greedy x Hle.
  destruct fuel as [|fuel].
  - replace (length (rest x)) with 0 by lia. reflexivity.
  - destruct (length (rest x)) as [|k] eqn:El.
    + simpl. destruct (max_is_zero mx); [reflexivity|].
      replace (flat_map _ (m x)) with (@nil mstate); [destruct greedy; reflexivity|].
      symmetry. rewrite (flat_map_agree _ (fun _ => [])); [induction (m x); auto|].
      intros y Hy. apply m_reaches in Hy as (w & R & P & _).
      assert (length w = 0)
        by (apply (f_equal (@length N)) in R; rewrite length_app in R; lia).
      replace (pos y) with (pos x) by lia. rewrite Nat.eqb_refl. reflexivity.
    + simpl. destruct (max_is_zero mx); [reflexivity|].
      rewrite (flat_map_agree _
                 (fun y => if Nat.eqb (pos y) (pos x) then []
                           else rep_opt m k (dec_max mx) greedy y));
        [reflexivity|].
      intros y Hy. destruct (Nat.eqb_spec (pos y) (pos x)); [reflexivity|].
      apply m_reaches in Hy as (w & R & P & _).
      assert (length (rest y) <= k)
        by (apply (f_equal (@length N)) in R; rewrite length_app in R; lia).
      rewrite (IH fuel) by lia. rewrite (IH k) by lia. reflexivity.
Qed.

End Repeat.

(** Every result of [run] lies further along the same input, at least
    [min_len r] code units on. *)
Lemma run_reaches fl r : forall x y, In y (run fl r x) -> reaches (min_len r) x y.
Proof.
  induction r as [ | inv A | r1 IH1 r2 IH2 | r1 IH1 r2 IH2 | r1 IH1 mn mx g
                 | k r1 IH1 | k | | | | r1 IH1 ]; intros x y H; simpl in H.
  - destruct H as [<- | []]. apply reaches_refl.
  - destruct (rest x) as [|c tl] eqn:E; [destruct H|].
    destruct (char_matches fl inv A c); [|destruct H].
    destruct H as [<- | []]. apply reaches_advance. rewrite E. simpl. lia.
  - apply in_flat_map in H as (z & Hz & Hy). simpl.
    eapply reaches_trans; eauto.
  - simpl. apply in_app_iff in H as [H | H];
      [apply IH1 in H | apply IH2 in H]; (eapply reaches_weaken; [|exact H]); lia.
  - apply (rep_min_reaches _ _ IH1) in H. destruct mx; exact H.
  - apply in_map_iff in H as (z & <- & Hz). apply IH1 in Hz.
    destruct Hz as (w & R & P & L). exists w. simpl. auto.
  - destruct (get_cap k (caps x)) as [s|].
    + destruct (prefix_ci fl s (rest x)) eqn:E; [|destruct H].
      destruct H as [<- | []]. apply prefix_ci_length in E.
      eapply reaches_weaken; [|apply reaches_advance; exact E]. simpl. lia.
    + destruct H as [<- | []]. apply reaches_refl.
  - destruct (at_line_start fl x); [|destruct H].
    destruct H as [<- | []]. apply reaches_refl.
  - destruct (at_line_end fl x); [|destruct H].
    destruct H as [<- | []]. apply reaches_refl.
  - destruct (at_word_boundary x); [|destruct H].
    destruct H as [<- | []]. apply reaches_refl.
  - destruct (run fl r1 x) as [|z l]; [destruct H|].
    destruct H as [<- | []]. exists []. simpl. repeat split; lia.
Qed.

(** A match reported at [i] in [s]: where it ends and what it holds. *)
Lemma match_at_spec fl r b i s m :
  match_at fl r b i s = Some m ->
  m_index m = i /\ i + min_len r <= m_end m /\ m_end m <= i + length s
  /\ m_whole m = firstn (m_end m - i) s.
Proof.
  unfold match_at. intros H.
  destruct (run fl r _) as [|y l] eqn:E; [discriminate|].
  injection H as <-. simpl.
  assert (Hy : In y (run fl r {| before := b; pos := i; rest := s; caps := [] |}))
    by (rewrite E; left; reflexivity).
  apply run_reaches in Hy as (w & R & P & L). simpl in *.
  assert (length s = length w + length (rest y)) by (rewrite R, length_app; lia).
  repeat split; lia.
Qed.

Lemma scan_spec fl r : forall s b i m,
  scan fl r b i s = Some m ->
  exists k, m_index m = i + k /\ k <= length s
            /\ m_index m + min_len r <= m_end m /\ m_end m <= i + length s
            /\ m_whole m = firstn (m_end m - m_index m) (skipn k s).
Proof.
  induction s as [|c s IH]; intros b i m H; simpl in H.
  - destruct (match_at fl r b i []) eqn:E; [|discriminate].
    injection H as ->. apply match_at_spec in E as (E1 & E2 & E3 & E4).
    exists 0. rewrite E1, Nat.add_0_r. simpl in *. repeat split; auto; lia.
  - destruct (match_at fl r b i (c :: s)) eqn:E.
    + injection H as ->. apply match_at_spec in E as (E1 & E2 & E3 & E4).
      exists 0. rewrite E1, Nat.add_0_r. simpl in *. repeat split; auto; lia.
    + apply IH in H as (k & H1 & H2 & H3 & H4 & H5).
      exists (S k). simpl. repeat split; auto; lia.
Qed.

Lemma exec_from_spec fl r text i m :
  exec_from fl r text i = Some m ->
  i <= m_index m /\ m_index m + min_len r <= m_end m /\ m_end m <= length text
  /\ m_whole m = firstn (m_end m - m_index m) (skipn (m_index m) text).
Proof.
  unfold exec_from. destruct (Nat.ltb_spec (length text) i); [discriminate|].
  intros H'. apply scan_spec in H' as (k & H1 & H2 & H3 & H4 & H5).
  rewrite length_skipn in *. rewrite skipn_skipn in H5.
  replace (k + i) with (m_index m) in H5 by lia.
  repeat split; auto; lia.
Qed.

End RegexFacts.

(** * The block extractor *)
Module ExtractFacts.
Import Regex Utils JSFacts RegexFacts.

(** The text of a block is the slice of the document at its offsets. *)
Definition round_trips (D : jsstring) (b : MermaidBlock) : Prop :=
  JS.slice D (startOffset b) (endOffset b) = code b.

(** [a] comes strictly before [b] and does not reach into it. *)
Definition before_block (a b : MermaidBlock) : Prop :=
  (startOffset a < startOffset b)%Z /\ (endOffset a <= startOffset b)%Z.

(** A block lies in the part of the document the loop has passed. *)
Definition behind (lastIndex : nat) (b : MermaidBlock) : Prop :=
  (startOffset b < Z.of_nat lastIndex)%Z /\ (endOffset b <= Z.of_nat lastIndex)%Z.

Lemma min_len_re_block : 1 <= min_len re_block.
Proof. vm_compute. lia. Qed.

Lemma sorted_snoc {A} (R : A -> A -> Prop) (l : list A) (b : A) :
  StronglySorted R l -> Forall (fun a => R a b) l -> StronglySorted R (l ++ [b]).
Proof.
  induction 1 as [|a l Hs IH Ha]; intros Hb; simpl.
  - repeat constructor.
  - inversion Hb as [|? ? Hab Hlb]; subst. constructor; [auto|].
    apply List.Forall_app. split; [exact Ha | constructor; [exact Hab | constructor]].
Qed.

(** One match of the fence pattern gives a block that round-trips and lies
    inside the match. *)
Lemma make_block_spec D li m k idx :
  exec_from gmi re_block D li = Some m ->
  JS.indexOf (m_whole m) (group 5 m) = Z.of_nat k ->
  firstn (length (group 5 m)) (skipn k (m_whole m)) = group 5 m ->
  k + length (group 5 m) <= length (m_whole m) ->
  let b := make_block m (Z.of_nat k) idx in
  round_trips D b /\ (Z.of_nat li <= startOffset b)%Z /\ behind (m_end m) b.
Proof.
  intros He Hi Hf Hl b.
  apply exec_from_spec in He as (H1 & H2 & H3 & H4).
  pose proof min_len_re_block as Hmin.
  assert (Hlen : length (m_whole m) = m_end m - m_index m).
  { rewrite H4, length_firstn, length_skipn. lia. }
  assert (Hk : k < m_end m - m_index m).
  { destruct (group 5 m) as [|c0 c] eqn:Ec.
    - rewrite indexOf_empty in Hi. lia.
    - simpl in Hl. lia. }
  unfold round_trips, behind. subst b. simpl.
  set (c := group 5 m) in *.
  repeat split; try lia.
  rewrite <- !Nat2Z.inj_add. rewrite slice_in_bounds by lia.
  replace (m_index m + k + length c - (m_index m + k)) with (length c) by lia.
  rewrite <- Hf at 2. rewrite H4.
  rewrite skipn_firstn_comm, firstn_firstn, skipn_skipn.
  f_equal; [lia | f_equal; lia].
Qed.

(** The loop keeps the blocks found so far in order and behind
    [lastIndex], and it finishes when given one unit of fuel per code unit
    that is left, plus one. *)
Lemma extract_loop_spec D : forall fuel li idx bs,
  li <= length D -> length D - li < fuel ->
  Forall (round_trips D) bs -> StronglySorted before_block bs ->
  Forall (behind li) bs ->
  exists out, extract_loop fuel D li idx bs = Some out
              /\ Forall (round_trips D) out /\ StronglySorted before_block out.
Proof.
  induction fuel as [|fuel IH]; intros li idx bs Hli Hfuel Hrt Hso Hbe; [lia|].
  simpl. destruct (exec_from gmi re_block D li) as [m|] eqn:He.
  - pose proof (exec_from_spec _ _ _ _ _ He) as (H1 & H2 & H3 & H4).
    pose proof min_len_re_block as Hmin.
    assert (Hbe' : Forall (behind (m_end m)) bs).
    { eapply List.Forall_impl; [|exact Hbe]. unfold behind. intros a [A1 A2]. lia. }
    destruct (JSFacts.indexOf_spec (m_whole m) (group 5 m))
      as [Hneg | (k & Hk & Hf & Hl)].
    + destruct (Z.ltb_spec (JS.indexOf (m_whole m) (group 5 m)) 0); [|lia].
      apply IH; auto; lia.
    + rewrite Hk. destruct (Z.ltb_spec (Z.of_nat k) 0); [lia|].
      destruct (make_block_spec D li m k idx He Hk Hf Hl) as (B1 & B2 & B3).
      apply IH; try lia.
      * apply List.Forall_app. split; [exact Hrt | constructor; [exact B1 | constructor]].
      * apply sorted_snoc; [exact Hso|].
        eapply List.Forall_impl; [|exact Hbe]. unfold behind, before_block.
        intros a [A1 A2]. lia.
      * apply List.Forall_app. split; [exact Hbe' | constructor; [exact B3 | constructor]].
  - exists bs. auto.
Qed.

(** The loop of [extractMermaidBlocks] terminates: the fuel it is given is
    enough, and more fuel changes nothing. *)
Lemma extract_loop_total D fuel :
  length D < fuel ->
  extractMermaidBlocks_fuel fuel D = Some (extractMermaidBlocks D).
Proof.
  intros Hf. unfold extractMermaidBlocks.
  assert (Hmono : forall f1 f2 li idx bs out,
             extract_loop f1 D li idx bs = Some out -> f1 <= f2 ->
             extract_loop f2 D li idx bs = Some out).
  { induction f1 as [|f1 IH]; intros f2 li idx bs out H Hle; [discriminate|].
    destruct f2 as [|f2]; [lia|]. simpl in *.
    destruct (exec_from gmi re_block D li) as [m|]; [|exact H].
    destruct (JS.indexOf (m_whole m) (group 5 m) <? 0)%Z; apply IH with (f2 := f2) in H; auto; lia. }
  assert (Hs : exists out, extract_loop (S (length D)) D 0 0 [] = Some out
                           /\ Forall (round_trips D) out
                           /\ StronglySorted before_block out).
  { apply extract_loop_spec; try lia; constructor. }
  destruct Hs as (out & Ho & _).
  unfold extractMermaidBlocks_fuel in *. rewrite Ho.
  apply Hmono with (f1 := S (length D)); [exact Ho | lia].
Qed.

(** C1. For every document [D], the extractor returns (its loop finishes),
    every block it returns satisfies [D.slice(startOffset, endOffset) = code],
    and the blocks are in strictly ascending order of [startOffset] with
    pairwise disjoint spans. *)
Theorem extract_round_trip_ordered (D : jsstring) :
  extractMermaidBlocks_fuel (S (length D)) D = Some (extractMermaidBlocks D)
  /\ Forall (fun b => JS.slice D (startOffset b) (endOffset b) = code b)
            (extractMermaidBlocks D)
  /\ StronglySorted
       (fun a b => (startOffset a < startOffset b)%Z
                   /\ (endOffset a <= startOffset b)%Z)
       (extractMermaidBlocks D).
Proof.
  split; [apply extract_loop_total; lia|].
  assert (Hs : exists out, extract_loop (S (length D)) D 0 0 [] = Some out
                           /\ Forall (round_trips D) out
                           /\ StronglySorted before_block out).
  { apply extract_loop_spec; try lia; constructor. }
  destruct Hs as (out & Ho & Hrt & Hso).
  unfold extractMermaidBlocks, extractMermaidBlocks_fuel. rewrite Ho.
  split; [exact Hrt | exact Hso].
Qed.

End ExtractFacts.

(** * The validation wrapper *)
Module ValidateFacts.
Import Async Utils.

Lemma set_parseError_twice h h' m :
  set_parseError h (set_parseError h' m) = set_parseError h m.
Proof. reflexivity. Qed.

Lemma set_parseError_same m : set_parseError (parseError m) m = m.
Proof. destruct m; reflexivity. Qed.

(** The call completes unless the parser hands back a promise that never
    settles. *)
Lemma validate_hangs_only_on_pending te id m codeRaw :
  fst (validateMermaidAsync te id (Some m) codeRaw) = Hangs <->
  exists r, choose_entry (set_parseError Trap m) id (preNormalizeMermaid codeRaw) = Call r
            /\ ending r = ReturnsPending.
Proof.
  unfold validateMermaidAsync.
  destruct (choose_entry _ id _) as [r| |] eqn:Ec; simpl.
  - destruct (play (events r) Trap None) as [h trapped].
    destruct (ending r) eqn:Ee; simpl.
    + destruct trapped as [t|]; [destruct (JS.truthy t)|]; simpl;
        split; [discriminate | intros (r' & Hr & He); congruence | discriminate
               | intros (r' & Hr & He); congruence | discriminate
               | intros (r' & Hr & He); congruence ].
    + destruct trapped as [t|]; [destruct (JS.truthy t)|]; simpl;
        split; [discriminate | intros (r' & Hr & He); congruence | discriminate
               | intros (r' & Hr & He); congruence | discriminate
               | intros (r' & Hr & He); congruence ].
    + split; [discriminate | intros (r' & Hr & He); congruence].
    + split; [intros _; exists r; auto | reflexivity].
    + split; [discriminate | intros (r' & Hr & He); congruence].
  - split; [discriminate | intros (r' & Hr & He); discriminate].
  - split; [discriminate | intros (r' & Hr & He); discriminate].
Qed.

(** C8. Whatever the parser does (return a plain value, return a promise
    that is fulfilled or rejected, throw, report errors through the hook or
    assign the hook itself), when [validateMermaidAsync] completes the
    [parseError] field of the mermaid object holds the value it held before
    the call; indeed the whole object is as it was. *)
Theorem validate_restores_parseError te id (g g' : option mermaid_obj)
    (codeRaw : jsstring) (r : outcome ValidationResult) :
  validateMermaidAsync te id g codeRaw = (r, g') ->
  r <> Hangs ->
  option_map parseError g' = option_map parseError g /\ g' = g.
Proof.
  intros Hv Hr.
  assert (Hg : g' = g); [|split; [rewrite Hg; reflexivity | exact Hg]].
  unfold validateMermaidAsync in Hv.
  destruct g as [m|]; [|injection Hv as _ <-; reflexivity].
  destruct (choose_entry _ id _) as [run| |].
  - destruct (play (events run) Trap None) as [h trapped].
    destruct (ending run).
    1,2: destruct trapped as [t|]; [destruct (JS.truthy t)|];
         injection Hv as _ <-;
         rewrite !set_parseError_twice, set_parseError_same; reflexivity.
    1,3: injection Hv as _ <-;
         rewrite !set_parseError_twice, set_parseError_same; reflexivity.
    injection Hv as <- _. contradiction.
  - injection Hv as _ <-. rewrite set_parseError_twice, set_parseError_same. reflexivity.
  - injection Hv as _ <-. rewrite set_parseError_twice, set_parseError_same. reflexivity.
Qed.

(** A parser that first replaces the hook, then reports an error, then
    throws: the host's handler is back in place afterwards. *)
Definition unruly_parser (_ : jsstring) : parser_run :=
  let e := {| err_str := None; err_message := Some (str_of "Parse error");
              err_text := str_of "Error: Parse error" |} in
  {| events := [Report e; SetHook (Handler 7); Report e]; ending := ThrowsSync e |}.

Definition unruly_mermaid : mermaid_obj :=
  {| parseError := Handler 1; parse := Function unruly_parser;
     api_parse := Missing; render := Missing |}.

Lemma validate_restores_parseError_witness :
  option_map parseError
    (snd (validateMermaidAsync [] [] (Some unruly_mermaid) (str_of "graph TD")))
  = Some (Handler 1).
Proof.
  destruct (validateMermaidAsync [] [] (Some unruly_mermaid) (str_of "graph TD"))
    as [r g'] eqn:E.
  destruct (validate_restores_parseError _ _ _ _ _ _ E) as [H _].
  - assert (Hr : r = fst (validateMermaidAsync [] [] (Some unruly_mermaid)
                            (str_of "graph TD"))) by (rewrite E; reflexivity).
    rewrite Hr. vm_compute. discriminate.
  - exact H.
Defined.

End ValidateFacts.

(** * The timeout wrapper *)
Module TimeoutFacts.
Import Async Utils.

Lemma withTimeout_nonpositive {T} (p : fate T) ms controller tf :
  (ms <= 0)%Z -> withTimeout p ms controller tf = Timed p None false.
Proof.
  intros H. unfold withTimeout. destruct (Z.leb_spec ms 0); [reflexivity | lia].
Qed.

Lemma timer_delay_fits ms : (ms < 2147483648)%Z -> timer_delay ms = ms.
Proof. intros H. unfold timer_delay. destruct (Z.ltb_spec ms 2147483648); [reflexivity | lia]. Qed.

Lemma timer_delay_overflow ms : (2147483648 <= ms)%Z -> timer_delay ms = 1%Z.
Proof. intros H. unfold timer_delay. destruct (Z.ltb_spec ms 2147483648); [lia | reflexivity]. Qed.

Lemma withTimeout_positive {T} (p : fate T) ms controller tf :
  (0 < ms)%Z ->
  timer (withTimeout p ms controller tf) = Some (timer_delay ms)
  /\ (timer_wins p ms tf = false ->
      withTimeout p ms controller tf = Timed p (Some (timer_delay ms)) false)
  /\ (timer_wins p ms tf = true ->
      withTimeout p ms controller tf
      = Timed (Rejects (timer_delay ms) timeout_message) (Some (timer_delay ms)) controller).
Proof.
  intros H. unfold withTimeout. destruct (Z.leb_spec ms 0); [lia|].
  destruct (timer_wins p ms tf); repeat split; intros; try reflexivity; discriminate.
Qed.




End TimeoutFacts.

(** * The correction client *)
Module ClientFacts.
Import Async Utils Gemini TimeoutFacts.



(** The request a call of [geminiFixSingle] sends when the memo table has
    no entry for it. *)
Definition request_of (E : env) (apiKey model original errorMsg apiVersion : jsstring)
    : request :=
  {| req_version := apiVersion; req_model := model; req_apiKey := apiKey;
     req_prompt := buildGeminiPromptV2 E (preNormalizeMermaid original) errorMsg
                     (inferDiagramType original) |}.

Definition key_of (model original errorMsg apiVersion : jsstring) : jsstring :=
  memo_key apiVersion model (inferDiagramType original)
    (preNormalizeMermaid original) errorMsg.

Definition missed (c : client) (key : jsstring) : Prop :=
  JS.truthy (match fixMemo c !! key with Some v => v | None => [] end) = false.

(** The consequence for the correction call: with a configured delay
    [timeoutMs <= 0], a request that the service never answers makes
    [geminiFixSingle] wait forever, and [abort] is not called. *)
Lemma fix_unbounded_without_timeout E apiKey model original errorMsg ms ver c :
  (ms <= 0)%Z ->
  missed c (key_of model original errorMsg ver) ->
  fetch E (length (requests c)) (request_of E apiKey model original errorMsg ver)
    = Pending ->
  geminiFixSingle E apiKey model original errorMsg ms ver c
  = (Hangs, {| fixMemo := fixMemo c;
               requests := requests c
                           ++ [request_of E apiKey model original errorMsg ver];
               abort_calls := abort_calls c + 0 |}).
Proof.
  intros Hms Hmiss Hf. unfold geminiFixSingle, missed, key_of in *.
  rewrite Hmiss. fold (request_of E apiKey model original errorMsg ver).
  rewrite withTimeout_nonpositive by exact Hms. simpl.
  unfold callGeminiSingle. rewrite Hf. reflexivity.
Qed.

(** With a positive delay the same request fails with the timeout error
    and the controller is aborted. *)
Lemma fix_times_out E apiKey model original errorMsg ms ver c :
  (0 < ms)%Z ->
  missed c (key_of model original errorMsg ver) ->
  fetch E (length (requests c)) (request_of E apiKey model original errorMsg ver)
    = Pending ->
  geminiFixSingle E apiKey model original errorMsg ms ver c
  = (Throws timeout_message,
     {| fixMemo := fixMemo c;
        requests := requests c ++ [request_of E apiKey model original errorMsg ver];
        abort_calls := abort_calls c + 1 |}).
Proof.
  intros Hms Hmiss Hf. unfold geminiFixSingle, missed, key_of in *.
  rewrite Hmiss. fold (request_of E apiKey model original errorMsg ver).
  unfold callGeminiSingle. rewrite Hf.
  unfold withTimeout. destruct (Z.leb_spec ms 0); [lia|]. reflexivity.
Qed.

(** *** The memo table *)

(** A call that returns leaves its result in the table under its key. *)
Lemma fix_returns_recorded E apiKey model original errorMsg ms ver c r c1 :
  geminiFixSingle E apiKey model original errorMsg ms ver c = (Returns r, c1) ->
  fixMemo c1 !! key_of model original errorMsg ver = Some r /\ JS.truthy r = true.
Proof.
  unfold geminiFixSingle, key_of.
  set (key := memo_key ver model _ _ errorMsg).
  destruct (fixMemo c !! key) as [v|] eqn:Ek; simpl.
  - destruct (JS.truthy v) eqn:Ev.
    + intros H. injection H as <- <-. auto.
    + destruct (await _) as [raw| |]; try discriminate.
      destruct (JS.truthy (sanitizeMermaidOutput _)) eqn:Er; simpl.
      * intros H. injection H as <- <-. simpl. rewrite lookup_insert_eq. auto.
      * destruct (JS.truthy (preNormalizeMermaid original)) eqn:Ep; simpl; [|discriminate].
        destruct (negb _); [|discriminate].
        intros H. injection H as <- <-. simpl. rewrite lookup_insert_eq. auto.
  - destruct (await _) as [raw| |]; try discriminate.
    destruct (JS.truthy (sanitizeMermaidOutput _)) eqn:Er; simpl.
    + intros H. injection H as <- <-. simpl. rewrite lookup_insert_eq. auto.
    + destruct (JS.truthy (preNormalizeMermaid original)) eqn:Ep; simpl; [|discriminate].
      destruct (negb _); [|discriminate].
      intros H. injection H as <- <-. simpl. rewrite lookup_insert_eq. auto.
Qed.

(** A call whose key has a non-empty entry returns it and changes nothing:
    no request is sent. *)
Lemma fix_hit E apiKey model original errorMsg ms ver c r :
  fixMemo c !! key_of model original errorMsg ver = Some r ->
  JS.truthy r = true ->
  geminiFixSingle E apiKey model original errorMsg ms ver c = (Returns r, c).
Proof.
  unfold geminiFixSingle, key_of. intros -> ->. reflexivity.
Qed.

(** No call overwrites a non-empty entry. *)
Lemma fix_keeps_entries E apiKey model original errorMsg ms ver c k r :
  fixMemo c !! k = Some r -> JS.truthy r = true ->
  fixMemo (snd (geminiFixSingle E apiKey model original errorMsg ms ver c)) !! k
  = Some r.
Proof.
  intros Hk Hr. unfold geminiFixSingle.
  remember (memo_key ver model (inferDiagramType original)
              (preNormalizeMermaid original) errorMsg) as key eqn:Ekey.
  destruct (decide (key = k)) as [Heq|Hne].
  - rewrite Heq, Hk, Hr. exact Hk.
  - destruct (JS.truthy (match fixMemo c !! key with Some v => v | None => [] end));
      [exact Hk|].
    destruct (await _) as [raw| |]; simpl; try exact Hk.
    destruct (negb (JS.truthy (sanitizeMermaidOutput (extractFromSentinel raw)))); simpl.
    + destruct (JS.truthy (preNormalizeMermaid original)
                && negb (JS.str_eqb (preNormalizeMermaid original) original));
        simpl; [|exact Hk].
      rewrite lookup_insert_ne by exact Hne. exact Hk.
    + rewrite lookup_insert_ne by exact Hne. exact Hk.
Qed.

(** The arguments of one call of [geminiFixSingle]. *)
Record call : Type := {
  c_apiKey : jsstring; c_model : jsstring; c_original : jsstring;
  c_errorMsg : jsstring; c_timeoutMs : Z; c_apiVersion : jsstring
}.

Definition perform (E : env) (a : call) (c : client) : outcome jsstring * client :=
  geminiFixSingle E (c_apiKey a) (c_model a) (c_original a) (c_errorMsg a)
    (c_timeoutMs a) (c_apiVersion a) c.

(** The state of the client after a series of calls. *)
Definition after_calls (E : env) (calls : list call) (c : client) : client :=
  fold_left (fun c a => snd (perform E a c)) calls c.

Lemma after_calls_keep_entries E calls : forall c k r,
  fixMemo c !! k = Some r -> JS.truthy r = true ->
  fixMemo (after_calls E calls c) !! k = Some r.
Proof.
  induction calls as [|a calls IH]; intros c k r Hk Hr; simpl; [exact Hk|].
  apply IH; [|exact Hr]. apply fix_keeps_entries; assumption.
Qed.

(** C9. If a call of [geminiFixSingle] returned [r], then any later call
    with the same version, model, inferred diagram type, normalised input
    and error message, whatever calls were made in between, returns [r]
    again and leaves the client as it found it: no request is sent. *)
Theorem memo_hit_repeats_result E (first again : call) (between : list call)
    (c c1 : client) (r : jsstring) :
  perform E first c = (Returns r, c1) ->
  c_apiVersion again = c_apiVersion first ->
  c_model again = c_model first ->
  inferDiagramType (c_original again) = inferDiagramType (c_original first) ->
  preNormalizeMermaid (c_original again) = preNormalizeMermaid (c_original first) ->
  c_errorMsg again = c_errorMsg first ->
  let c2 := after_calls E between c1 in
  perform E again c2 = (Returns r, c2)
  /\ requests (snd (perform E again c2)) = requests c2.
Proof.
  intros Hfirst Hv Hm Hd Hp He c2.
  apply fix_returns_recorded in Hfirst as [Hrec Htr].
  assert (Hkey : key_of (c_model again) (c_original again) (c_errorMsg again)
                   (c_apiVersion again)
                 = key_of (c_model first) (c_original first) (c_errorMsg first)
                     (c_apiVersion first)).
  { unfold key_of. rewrite Hv, Hm, Hd, Hp, He. reflexivity. }
  assert (Hhit : perform E again c2 = (Returns r, c2)).
  { apply fix_hit; [|exact Htr]. rewrite Hkey.
    apply after_calls_keep_entries; assumption. }
  split; [exact Hhit | rewrite Hhit; reflexivity].
Qed.

End ClientFacts.

(** * Searching a string for a pattern *)
Module SearchFacts.
Import Regex RegexFacts.
#[local] Arguments char_matches : simpl never.

(** Whether [r] matches at the current position, and whether it matches
    there or further on. *)
Definition here (fl : flags) (r : regex) (b : option N) (i : nat) (s : jsstring) : bool :=
  match match_at fl r b i s with Some _ => true | None => false end.

Definition found (fl : flags) (r : regex) (b : option N) (i : nat) (s : jsstring) : bool :=
  match scan fl r b i s with Some _ => true | None => false end.

Definition can_run (fl : flags) (r : regex) (x : mstate) : bool :=
  match run fl r x with [] => false | _ => true end.

Lemma here_can_run fl r b i s :
  here fl r b i s = can_run fl r {| before := b; pos := i; rest := s; caps := [] |}.
Proof. unfold here, match_at, can_run. destruct (run fl r _); reflexivity. Qed.

Lemma found_nil fl r b i : found fl r b i [] = here fl r b i [].
Proof. unfold found, here. simpl. destruct (match_at fl r b i []); reflexivity. Qed.

Lemma found_cons fl r b i c s :
  found fl r b i (c :: s) = here fl r b i (c :: s) || found fl r (Some c) (S i) s.
Proof. unfold found, here. simpl. destruct (match_at fl r b i (c :: s)); reflexivity. Qed.

Lemma test_found fl r s : test fl r s = found fl r None 0 s.
Proof. reflexivity. Qed.

Lemma can_run_alt fl r1 r2 x :
  can_run fl (Alt r1 r2) x = can_run fl r1 x || can_run fl r2 x.
Proof.
  unfold can_run. simpl. destruct (run fl r1 x); [|reflexivity].
  destruct (run fl r2 x); reflexivity.
Qed.

Lemma can_run_seq_left fl r1 r2 x :
  can_run fl (Seq r1 r2) x = true -> can_run fl r1 x = true.
Proof. unfold can_run. simpl. destruct (run fl r1 x); [discriminate | reflexivity]. Qed.

(** A literal text matches exactly where the input starts with it. *)
Fixpoint lits_here (fl : flags) (p s : jsstring) : bool :=
  match p, s with
  | [], _ => true
  | a :: p', c :: s' => char_matches fl false (CLit a) c && lits_here fl p' s'
  | _ :: _, [] => false
  end.

Lemma can_run_lits fl p : forall x, can_run fl (lits p) x = lits_here fl p (rest x).
Proof.
  induction p as [|a p IH]; intros x; [reflexivity|].
  destruct p as [|d p].
  - unfold can_run. simpl. destruct (rest x) as [|c tl]; [reflexivity|].
    rewrite andb_true_r.
    destruct (char_matches fl false (CLit a) c); reflexivity.
  - change (lits (a :: d :: p)) with (Seq (lit a) (lits (d :: p))).
    remember (d :: p) as q eqn:Eq. clear Eq.
    unfold can_run. simpl run.
    destruct (rest x) as [|c tl] eqn:Ex; [reflexivity|].
    simpl lits_here.
    destruct (char_matches fl false (CLit a) c); [|reflexivity].
    simpl flat_map. rewrite app_nil_r.
    specialize (IH (advance 1 x)). unfold can_run in IH. rewrite IH.
    simpl. rewrite Ex. reflexivity.
Qed.

(** When whether [r] matches at a position depends on the text from there
    on only, a prefix in which it matches nowhere can be skipped. *)
Lemma found_skip_prefix fl r (h : jsstring -> bool) :
  (forall b i s, here fl r b i s = h s) ->
  forall pre s b i b' i',
    (forall k, k < length pre -> h (skipn k pre ++ s) = false) ->
    found fl r b i (pre ++ s) = found fl r b' i' s.
Proof.
  intros Hh. induction pre as [|c pre IH]; intros s b i b' i' Hpre; simpl.
  - clear Hpre. revert b i b' i'. induction s as [|c s IHs]; intros b i b' i'.
    + rewrite !found_nil, !Hh. reflexivity.
    + rewrite !found_cons, !Hh. f_equal. apply IHs.
  - rewrite found_cons, Hh.
    pose proof (Hpre 0) as H0. simpl in H0. rewrite H0 by lia. simpl.
    apply IH. intros k Hk. apply (Hpre (S k)). simpl. lia.
Qed.

(** If the pattern is found in [s], it matches at the start of some
    suffix of [s]. *)
Lemma found_suffix fl r (h : jsstring -> bool) :
  (forall b i s, here fl r b i s = true -> h s = true) ->
  forall s b i, found fl r b i s = true -> exists k, k <= length s /\ h (skipn k s) = true.
Proof.
  intros Hh. induction s as [|c s IH]; intros b i H.
  - rewrite found_nil in H. exists 0. split; [simpl; lia | apply (Hh b i); exact H].
  - rewrite found_cons in H. apply orb_true_iff in H as [H | H].
    + exists 0. split; [simpl; lia | apply (Hh b i); exact H].
    + apply IH in H as (k & Hk & Hs). exists (S k). split; [simpl; lia | exact Hs].
Qed.

(** [needs P r]: every match of [r] consumes a code unit satisfying [P]. *)
Fixpoint needs (fl : flags) (P : N -> bool) (r : regex) : Prop :=
  match r with
  | Char invert A => forall c, char_matches fl invert A c = true -> P c = true
  | Seq r1 r2 => needs fl P r1 \/ needs fl P r2
  | Alt r1 r2 => needs fl P r1 /\ needs fl P r2
  | Repeat r1 mn mx _ => 1 <= mn /\ max_is_zero mx = false /\ needs fl P r1
  | Group _ r1 => needs fl P r1
  | _ => False
  end.

(** [y] is reached from [x] over a piece of input; the piece holds a code
    unit satisfying [P] when [must] is set. *)
Definition passes (P : N -> bool) (must : Prop) (x y : mstate) : Prop :=
  exists w, rest x = w ++ rest y /\ (must -> existsb P w = true).

Lemma passes_trans P (m1 m2 : Prop) x y z :
  passes P m1 x y -> passes P m2 y z -> passes P (m1 \/ m2) x z.
Proof.
  intros (w1 & R1 & E1) (w2 & R2 & E2). exists (w1 ++ w2).
  rewrite <- app_assoc, <- R2. split; [exact R1|].
  rewrite existsb_app. intros [H | H]; apply orb_true_iff; auto.
Qed.

Lemma passes_weaken P (m1 m2 : Prop) x y :
  (m2 -> m1) -> passes P m1 x y -> passes P m2 x y.
Proof. intros Hm (w & R & E). exists w. auto. Qed.

Lemma passes_refl P x : passes P False x x.
Proof. exists []. split; [reflexivity | contradiction]. Qed.

Lemma reaches_passes P n x y : reaches n x y -> passes P False x y.
Proof. intros (w & R & _ & _). exists w. split; [exact R | contradiction]. Qed.

Lemma run_passes fl P r : forall x y,
  In y (run fl r x) -> passes P (needs fl P r) x y.
Proof.
  induction r as [ | inv A | r1 IH1 r2 IH2 | r1 IH1 r2 IH2 | r1 IH1 mn mx g
                 | k r1 IH1 | k | | | | r1 IH1 ]; intros x y H;
    try (apply run_reaches in H; exact (reaches_passes P _ _ _ H)).
  - simpl in H. destruct (rest x) as [|c tl] eqn:E; [destruct H|].
    destruct (char_matches fl inv A c) eqn:Ec; [|destruct H].
    destruct H as [<- | []]. exists [c]. simpl. rewrite E. split; [reflexivity|].
    intros Hn. rewrite (Hn c Ec). reflexivity.
  - simpl in H. apply in_flat_map in H as (z & Hz & Hy).
    exact (passes_trans _ _ _ _ _ _ (IH1 _ _ Hz) (IH2 _ _ Hy)).
  - simpl in H. apply in_app_iff in H as [H | H].
    + eapply passes_weaken; [|exact (IH1 _ _ H)]. simpl. tauto.
    + eapply passes_weaken; [|exact (IH2 _ _ H)]. simpl. tauto.
  - simpl in H. destruct mn as [|mn].
    + apply (rep_min_reaches _ 0) in H;
        [|intros a c Hc; apply run_reaches in Hc; eapply reaches_weaken; [|exact Hc]; lia].
      eapply passes_weaken; [|exact (reaches_passes P _ _ _ H)]. simpl. lia.
    + simpl in H. destruct (max_is_zero mx) eqn:Ez.
      * destruct H as [<- | []]. eapply passes_weaken; [|apply passes_refl].
        simpl. intros (_ & Hz & _). congruence.
      * apply in_flat_map in H as (z & Hz & Hy).
        apply (rep_min_reaches _ 0) in Hy;
          [|intros a c Hc; apply run_reaches in Hc; eapply reaches_weaken; [|exact Hc]; lia].
        eapply passes_weaken;
          [|exact (passes_trans _ _ _ _ _ _ (IH1 _ _ Hz) (reaches_passes P _ _ _ Hy))].
        simpl. tauto.
  - simpl in H. apply in_map_iff in H as (z & <- & Hz).
    destruct (IH1 _ _ Hz) as (w & R & E). exists w. simpl. auto.
Qed.

(** A pattern that needs a code unit the text does not have matches
    nowhere in it. *)
Lemma here_needs fl P r b i s :
  needs fl P r -> existsb P s = false -> here fl r b i s = false.
Proof.
  intros Hn Hs. rewrite here_can_run. unfold can_run.
  destruct (run fl r _) as [|y l] eqn:E; [reflexivity|].
  assert (Hy : In y (run fl r {| before := b; pos := i; rest := s; caps := [] |}))
    by (rewrite E; left; reflexivity).
  apply (run_passes fl P) in Hy as (w & R & Ex). simpl in R.
  rewrite R, existsb_app, (Ex Hn) in Hs. discriminate.
Qed.

(** Then a global replacement leaves the text as it is. *)
Lemma replace_walk_no_match fl P r f : forall s b i,
  needs fl P r -> existsb P s = false -> replace_walk fl r f b i s 0 = s.
Proof.
  induction s as [|c s IH]; intros b i Hn Hs; simpl.
  - pose proof (here_needs fl P r b i [] Hn Hs) as Hh. unfold here in Hh.
    destruct (match_at fl r b i []); [discriminate | reflexivity].
  - pose proof (here_needs fl P r b i (c :: s) Hn Hs) as Hh. unfold here in Hh.
    destruct (match_at fl r b i (c :: s)); [discriminate|].
    simpl in Hs. apply orb_false_iff in Hs as [_ Hs]. rewrite IH by assumption.
    reflexivity.
Qed.

Lemma replace_all_no_match fl P r f s :
  needs fl P r -> existsb P s = false -> replace_all fl r f s = s.
Proof. apply replace_walk_no_match. Qed.

End SearchFacts.

(** * The retry loop *)
Module OrchestratorFacts.
Import Regex Async Utils Gemini Main SearchFacts TimeoutFacts.

(** What the client gets from its [n]-th network call: the outcome of
    awaiting the call wrapped in [withTimeout]. *)
Definition call_outcome (E : env) (ms : Z) (n : nat) (req : request) : outcome jsstring :=
  await (promise (withTimeout (callGeminiSingle E n req) ms true (timer_first E n))).

(** The service answered the [n]-th call with [res] and the answer reached
    the client: no timer was armed, or the timer did not fire first. *)
Definition answered (E : env) (ms : Z) (n : nat) (req : request) (res : response) : Prop :=
  exists t, fetch E n req = Fulfils t res
            /\ ((ms <= 0)%Z
                \/ timer_wins (callGeminiSingle E n req) ms (timer_first E n) = false).

Lemma answered_outcome E ms n req res :
  answered E ms n req res ->
  call_outcome E ms n req = read_reply E (req_version req) res.
Proof.
  intros (t & Hf & Hc). unfold call_outcome.
  assert (Hp : promise (withTimeout (callGeminiSingle E n req) ms true (timer_first E n))
               = callGeminiSingle E n req).
  { destruct Hc as [Hc | Hc].
    - rewrite withTimeout_nonpositive by exact Hc. reflexivity.
    - unfold withTimeout. destruct (ms <=? 0)%Z; [reflexivity|]. rewrite Hc. reflexivity. }
  rewrite Hp. unfold callGeminiSingle. rewrite Hf.
  destruct (read_reply E (req_version req) res); reflexivity.
Qed.

(** The replies 401 and 429 make [callGeminiSingle] throw these errors. *)
Definition auth_error (text : jsstring) : jsstring :=
  msg_auth_1 ++ show_Z 401 ++ msg_auth_2 ++ text.
Definition rate_limit_error (text : jsstring) : jsstring := msg_rate_limit ++ text.

Definition body_text (res : response) : jsstring :=
  match body res with Some t => t | None => [] end.

Lemma read_reply_401 E ver res :
  status res = 401%Z -> read_reply E ver res = Throws (auth_error (body_text res)).
Proof. intros Hs. unfold read_reply, res_ok. rewrite Hs. reflexivity. Qed.

Lemma read_reply_429 E ver res :
  status res = 429%Z -> read_reply E ver res = Throws (rate_limit_error (body_text res)).
Proof. intros Hs. unfold read_reply, res_ok. rewrite Hs. reflexivity. Qed.

(** The pattern of the errors that stop the run matches where the text
    starts with one of its three phrases. *)
Definition hard_prefix (s : jsstring) : bool :=
  lits_here ci [35469; 35388; 12456; 12521; 12540]%N s
  || (lits_here ci [12514; 12487; 12523; 12364; 35211; 12388; 12363; 12426;
                    12414; 12379; 12435]%N s
      || lits_here ci [24540; 31572; 12398; 74; 83; 79; 78; 35299; 26512]%N s).

Lemma here_hard b i s : here ci re_hard b i s = hard_prefix s.
Proof.
  rewrite here_can_run. unfold re_hard, hard_prefix.
  rewrite !can_run_alt, !can_run_lits. reflexivity.
Qed.

(** The authentication error is one of them, whatever the reply held. *)
Lemma auth_error_is_hard text : is_hard (auth_error text) = true.
Proof. unfold is_hard, auth_error. vm_compute. reflexivity. Qed.

(** The rate-limit error is one of them only if the body of the reply
    brings one of the phrases along. *)
Lemma rate_limit_error_hard text : is_hard (rate_limit_error text) = is_hard text.
Proof.
  unfold is_hard, rate_limit_error. rewrite !test_found.
  apply found_skip_prefix with (h := hard_prefix); [apply here_hard|].
  intros k Hk.
  do 23 (destruct k as [|k]; [vm_compute; reflexivity|]).
  simpl in Hk. lia.
Qed.

(** *** One call of the client *)

(** The call at index [base + i], among the requests [new] sent since
    [base], threw the error [m]. *)
Definition thrown_at (H : host) (cfg : settings) (base : nat) (new : list request)
    (i : nat) (m : jsstring) : Prop :=
  exists req, nth_error new i = Some req
              /\ call_outcome (services H) (requestTimeoutMs cfg) (base + i) req = Throws m.

Lemma thrown_at_nil H cfg base i m : ~ thrown_at H cfg base [] i m.
Proof. intros (req & Hn & _). destruct i; discriminate. Qed.

Lemma thrown_at_app H cfg base new1 new2 i m :
  thrown_at H cfg base (new1 ++ new2) i m ->
  thrown_at H cfg base new1 i m
  \/ (length new1 <= i
      /\ thrown_at H cfg (base + length new1) new2 (i - length new1) m).
Proof.
  intros (req & Hn & Ho).
  destruct (Nat.lt_ge_cases i (length new1)) as [Hlt | Hge].
  - left. exists req. rewrite nth_error_app1 in Hn by exact Hlt. auto.
  - right. split; [exact Hge|]. exists req.
    rewrite nth_error_app2 in Hn by exact Hge. split; [exact Hn|].
    replace (base + length new1 + (i - length new1)) with (base + i) by lia. exact Ho.
Qed.

Lemma fix_step E apiKey model original errorMsg ms ver c r c' :
  geminiFixSingle E apiKey model original errorMsg ms ver c = (r, c') ->
  (c' = c /\ exists v, r = Returns v)
  \/ (exists req, requests c' = requests c ++ [req]
        /\ match call_outcome E ms (length (requests c)) req with
           | Throws m => r = Throws m
           | Hangs => r = Hangs
           | Returns _ => (exists v, r = Returns v) \/ r = Throws msg_empty_output
           end).
Proof.
  unfold geminiFixSingle.
  destruct (JS.truthy (match fixMemo c !! _ with Some v => v | None => [] end)).
  - intros Hr. injection Hr as <- <-. left. eauto.
  - intros Hr. right.
    exists {| req_version := ver; req_model := model; req_apiKey := apiKey;
              req_prompt := buildGeminiPromptV2 E (preNormalizeMermaid original)
                              errorMsg (Utils.inferDiagramType original) |}.
    unfold call_outcome.
    destruct (await _) as [raw| |].
    + destruct (negb (JS.truthy (sanitizeMermaidOutput (extractFromSentinel raw)))).
      * destruct (JS.truthy (preNormalizeMermaid original)
                  && negb (JS.str_eqb (preNormalizeMermaid original) original));
          injection Hr as <- <-; (split; [reflexivity|]); [left; eauto | right; reflexivity].
      * injection Hr as <- <-. split; [reflexivity | left; eauto].
    + injection Hr as <- <-. split; reflexivity.
    + injection Hr as <- <-. split; reflexivity.
Qed.

(** A call of the client from the retry loop: it touches neither the
    editor nor the notices, sends at most one request, and if that request
    throws, the call throws the same error. *)
Lemma fix_call_spec H cfg cur err w r w' :
  fix_call H cfg cur err w = (r, w') ->
  editor w' = editor w /\ notices w' = notices w
  /\ exists new, requests (client_state w') = requests (client_state w) ++ new
       /\ forall i m, thrown_at H cfg (length (requests (client_state w))) new i m ->
                      r = Throws m.
Proof.
  unfold fix_call, geminiFixWithBackoff.
  destruct (geminiFixSingle _ _ _ _ _ _ _ _) as [r0 c0] eqn:Ef.
  intros Hr. injection Hr as <- <-. simpl.
  do 2 (split; [reflexivity|]).
  apply fix_step in Ef as [(-> & v & ->) | (req & Hreq & Ho)].
  - exists []. rewrite app_nil_r. split; [reflexivity|].
    intros i m Ht. exfalso. exact (thrown_at_nil _ _ _ _ _ Ht).
  - exists [req]. split; [exact Hreq|].
    intros i m (req' & Hn & Hc).
    destruct i as [|i]; [|destruct i; discriminate].
    injection Hn as <-. rewrite Nat.add_0_r in Hc. rewrite Hc in Ho. exact Ho.
Qed.

Lemma validate_frame H codeRaw w r w' :
  validate H codeRaw w = (r, w') ->
  editor w' = editor w /\ notices w' = notices w /\ client_state w' = client_state w.
Proof.
  unfold validate. destruct (validateMermaidAsync _ _ _ _) as [r0 g].
  intros Hr. injection Hr as <- <-. auto.
Qed.

(** *** The attempts on one block *)

(** However the attempts on a block go: the editor is not touched, and a
    call that throws is the last call for the block; the block is given up
    without a fix, and the run is marked as cancelled exactly when the error
    is one of those that stop the run. *)
Lemma attempts_spec H cfg block : forall left attempt cur err w r w',
  attempts H cfg block left attempt cur err w = (r, w') ->
  editor w' = editor w
  /\ exists new newn,
       requests (client_state w') = requests (client_state w) ++ new
       /\ notices w' = notices w ++ newn
       /\ forall i m,
            thrown_at H cfg (length (requests (client_state w))) new i m ->
            r = Returns {| success := false; fixedCode := None; cancelled := is_hard m |}
            /\ S i = length new
            /\ exists pre, newn = pre ++ [GeminiError (index block) m].
Proof.
  induction left as [|left IH]; intros attempt cur err w r w' Ha; simpl in Ha.
  - injection Ha as <- <-. split; [reflexivity|].
    exists [], []. rewrite !app_nil_r. do 2 (split; [reflexivity|]).
    intros i m Ht. exfalso. exact (thrown_at_nil _ _ _ _ _ Ht).
  - set (w1 := notify (Trying (index block) attempt) w) in *.
    destruct (fix_call H cfg cur err w1) as [r1 w2] eqn:Ef.
    destruct (fix_call_spec _ _ _ _ _ _ _ Ef) as (He2 & Hn2 & new1 & Hq2 & Ht1).
    change (editor w1) with (editor w) in He2.
    change (notices w1) with (notices w ++ [Trying (index block) attempt]) in Hn2.
    change (client_state w1) with (client_state w) in Hq2, Ht1.
    assert (Hcaught : forall msg w3,
              editor w3 = editor w -> client_state w3 = client_state w2 ->
              (exists extra, notices w3 = notices w ++ extra) ->
              (forall i m, thrown_at H cfg (length (requests (client_state w))) new1 i m ->
                           msg = m /\ S i = length new1) ->
              (Returns {| success := false; fixedCode := None; cancelled := is_hard msg |},
               notify (GeminiError (index block) msg) w3) = (r, w') ->
              editor w' = editor w
              /\ exists new newn,
                   requests (client_state w') = requests (client_state w) ++ new
                   /\ notices w' = notices w ++ newn
                   /\ forall i m,
                        thrown_at H cfg (length (requests (client_state w))) new i m ->
                        r = Returns {| success := false; fixedCode := None;
                                       cancelled := is_hard m |}
                        /\ S i = length new
                        /\ exists pre, newn = pre ++ [GeminiError (index block) m]).
    { intros msg w3 He3 Hc3 (extra & Hn3) Hth Hr. injection Hr as <- <-. simpl.
      split; [exact He3|].
      exists new1, (extra ++ [GeminiError (index block) msg]).
      rewrite Hc3, Hq2, Hn3, <- app_assoc. do 2 (split; [reflexivity|]).
      intros i m Ht. destruct (Hth i m Ht) as [-> Hi]. eauto. }
    assert (Hnone : forall v, r1 = Returns v ->
              forall i m, ~ thrown_at H cfg (length (requests (client_state w))) new1 i m).
    { intros v -> i m Ht. apply Ht1 in Ht. discriminate. }
    destruct r1 as [proposedFix | msg | ].
    + destruct (validate H _ w2) as [rv w3] eqn:Ev.
      destruct (validate_frame _ _ _ _ _ Ev) as (He3 & Hn3 & Hc3).
      destruct rv as [validation | msg | ].
      * destruct (ok validation).
        -- injection Ha as <- <-. simpl. split; [congruence|].
           exists new1, ([Trying (index block) attempt] ++ [Verified (index block)]).
           rewrite Hc3, Hq2, Hn3, Hn2, <- app_assoc. do 2 (split; [reflexivity|]).
           intros i m Ht. exfalso. exact (Hnone _ eq_refl i m Ht).
        -- match type of Ha with
           | attempts _ _ _ _ _ _ _ ?x = _ => set (w4 := x) in *
           end.
           assert (Hw4 : editor w4 = editor w /\ client_state w4 = client_state w2
                         /\ exists extra, notices w4 = notices w ++ extra).
           { subst w4. destruct (attempt <? maxAttempts); simpl.
             - do 2 (split; [congruence|]).
               exists ([Trying (index block) attempt] ++ [Retrying (index block)]).
               rewrite Hn3, Hn2, <- app_assoc. reflexivity.
             - do 2 (split; [congruence|]).
               exists [Trying (index block) attempt]. congruence. }
           destruct Hw4 as (He4 & Hc4 & extra & Hn4).
           destruct (IH _ _ _ _ _ _ Ha) as (He5 & new2 & newn2 & Hq5 & Hn5 & Ht5).
           split; [congruence|].
           exists (new1 ++ new2), (extra ++ newn2).
           rewrite Hq5, Hn5, Hc4, Hq2, Hn4, <- !app_assoc. do 2 (split; [reflexivity|]).
           intros i m Ht. apply thrown_at_app in Ht as [Ht | [Hge Ht]].
           ++ exfalso. exact (Hnone _ eq_refl i m Ht).
           ++ rewrite Hc4, Hq2, length_app in Ht5.
              destruct (Ht5 _ _ Ht) as (Hr & Hi & pre & Hpre).
              split; [exact Hr|]. split; [rewrite length_app; lia|].
              exists (extra ++ pre). rewrite Hpre, <- app_assoc. reflexivity.
      * apply (Hcaught msg w3); auto; try congruence.
        -- exists [Trying (index block) attempt]. congruence.
        -- intros i m Ht. exfalso. exact (Hnone _ eq_refl i m Ht).
      * injection Ha as <- <-. split; [congruence|].
        exists new1, [Trying (index block) attempt].
        rewrite Hc3, Hq2, Hn3, Hn2. do 2 (split; [reflexivity|]).
        intros i m Ht. exfalso. exact (Hnone _ eq_refl i m Ht).
    + apply (Hcaught msg w2); auto.
      * exists [Trying (index block) attempt]. exact Hn2.
      * intros i m Ht. pose proof (Ht1 i m Ht) as Hm. injection Hm as ->.
        split; [reflexivity|].
        destruct Ht as (req & Hnth & _).
        assert (Hlen : length (requests (client_state w2))
                       = length (requests (client_state w)) + length new1)
          by (rewrite Hq2, length_app; reflexivity).
        pose proof (proj1 (nth_error_Some new1 i)) as Hlt.
        rewrite Hnth in Hlt. specialize (Hlt ltac:(discriminate)).
        unfold fix_call, geminiFixWithBackoff in Ef.
        destruct (geminiFixSingle _ _ _ _ _ _ _ _) as [r0 c0] eqn:Eg.
        injection Ef as -> <-. simpl in Hq2.
        apply fix_step in Eg as [(_ & v & Hv) | (req' & Hreq & _)]; [discriminate|].
        change (client_state w1) with (client_state w) in Hreq.
        rewrite Hreq in Hq2. apply app_inv_head in Hq2. subst new1. simpl in *. lia.
    + injection Ha as <- <-. split; [exact He2|].
      exists new1, [Trying (index block) attempt]. do 2 (split; [assumption|]).
      intros i m Ht. apply Ht1 in Ht. discriminate.
Qed.

(** *** The loop over the blocks and the whole run *)

#[local] Arguments attempts : simpl never.

Lemma query_file_frame H w :
  editor (snd (query_file H w)) = editor w
  /\ notices (snd (query_file H w)) = notices w
  /\ client_state (snd (query_file H w)) = client_state w.
Proof. repeat split. Qed.

(** However the loop over the blocks goes: the editor is not touched, and
    a call that throws one of the errors that stop the run is the last call
    of the run; the loop ends there, marked as cancelled. *)
Lemma blocks_loop_spec H cfg cf : forall ebs b w r w',
  blocks_loop H cfg cf ebs b w = (r, w') ->
  editor w' = editor w
  /\ exists new newn,
       requests (client_state w') = requests (client_state w) ++ new
       /\ notices w' = notices w ++ newn
       /\ forall i m,
            thrown_at H cfg (length (requests (client_state w))) new i m ->
            is_hard m = true ->
            (exists b', r = Returns b' /\ batch_cancelled b' = true)
            /\ S i = length new
            /\ exists pre k, newn = pre ++ [GeminiError k m].
Proof.
  induction ebs as [|[block err] more IH]; intros b w r w' Hb.
  - simpl in Hb. injection Hb as <- <-. split; [reflexivity|].
    exists [], []. rewrite !app_nil_r. do 2 (split; [reflexivity|]).
    intros i m Ht. exfalso. exact (thrown_at_nil _ _ _ _ _ Ht).
  - simpl in Hb. unfold query_file in Hb.
    match type of Hb with
    | context [attempts _ _ _ _ _ _ _ ?x] => set (w0 := x) in *
    end.
    destruct (negb (JS.str_eqb cf (active_file H (file_queries w)))).
    { injection Hb as <- <-. split; [reflexivity|].
      exists [], [Interrupted]. rewrite app_nil_r. do 2 (split; [reflexivity|]).
      intros i m Ht. exfalso. exact (thrown_at_nil _ _ _ _ _ Ht). }
    destruct (attempts H cfg block maxAttempts 1 (code block) err w0) as [ra w1] eqn:Ea.
    destruct (attempts_spec _ _ _ _ _ _ _ _ _ _ Ea)
      as (He1 & new1 & newn1 & Hq1 & Hn1 & Ht1).
    change (editor w0) with (editor w) in He1.
    change (notices w0) with (notices w) in Hn1.
    change (client_state w0) with (client_state w) in Hq1, Ht1.
    assert (Hstop : forall v, ra = Returns v -> cancelled v = false ->
              forall i m, thrown_at H cfg (length (requests (client_state w))) new1 i m ->
                          is_hard m = true -> False).
    { intros v -> Hc i m Ht Hm. destruct (Ht1 i m Ht) as (Hr & _).
      injection Hr as ->. simpl in Hc. congruence. }
    assert (Hend : forall (r0 : outcome batch) (w2 : world),
              (forall i m, thrown_at H cfg (length (requests (client_state w))) new1 i m ->
                           is_hard m = true ->
                           exists b', r0 = Returns b' /\ batch_cancelled b' = true) ->
              editor w2 = editor w1 -> client_state w2 = client_state w1 ->
              notices w2 = notices w1 ->
              (r0, w2) = (r, w') ->
              editor w' = editor w
              /\ exists new newn,
                   requests (client_state w') = requests (client_state w) ++ new
                   /\ notices w' = notices w ++ newn
                   /\ forall i m,
                        thrown_at H cfg (length (requests (client_state w))) new i m ->
                        is_hard m = true ->
                        (exists b', r = Returns b' /\ batch_cancelled b' = true)
                        /\ S i = length new
                        /\ exists pre k, newn = pre ++ [GeminiError k m]).
    { intros r0 w2 Hr0 He2 Hc2 Hn2 Hr. injection Hr as <- <-. split; [congruence|].
      exists new1, newn1. do 2 (split; [congruence|]).
      intros i m Ht Hm. split; [exact (Hr0 i m Ht Hm)|].
      destruct (Ht1 i m Ht) as (_ & Hi & pre & Hpre). split; [exact Hi|]. eauto. }
    assert (Hcont : forall v, ra = Returns v -> cancelled v = false ->
              forall b2 w2,
              editor w2 = editor w1 -> client_state w2 = client_state w1 ->
              (exists extra, notices w2 = notices w1 ++ extra) ->
              blocks_loop H cfg cf more b2 w2 = (r, w') ->
              editor w' = editor w
              /\ exists new newn,
                   requests (client_state w') = requests (client_state w) ++ new
                   /\ notices w' = notices w ++ newn
                   /\ forall i m,
                        thrown_at H cfg (length (requests (client_state w))) new i m ->
                        is_hard m = true ->
                        (exists b', r = Returns b' /\ batch_cancelled b' = true)
                        /\ S i = length new
                        /\ exists pre k, newn = pre ++ [GeminiError k m]).
    { intros v Hv Hc b2 w2 He2 Hc2 (extra & Hn2) Hl.
      destruct (IH _ _ _ _ Hl) as (He3 & new2 & newn2 & Hq3 & Hn3 & Ht3).
      split; [congruence|].
      exists (new1 ++ new2), (newn1 ++ extra ++ newn2).
      rewrite Hq3, Hn3, Hc2, Hq1, Hn2, Hn1, <- !app_assoc.
      do 2 (split; [reflexivity|]).
      intros i m Ht Hm. apply thrown_at_app in Ht as [Ht | [Hge Ht]].
      - exfalso. exact (Hstop v Hv Hc i m Ht Hm).
      - rewrite Hc2, Hq1, length_app in Ht3.
        destruct (Ht3 _ _ Ht Hm) as (Hr & Hi & pre & k & Hpre).
        split; [exact Hr|]. split; [rewrite length_app; lia|].
        exists (newn1 ++ extra ++ pre), k. rewrite Hpre, <- !app_assoc. reflexivity. }
    destruct ra as [v | msg | ].
    + destruct (cancelled v) eqn:Ec.
      * eapply Hend; [|reflexivity ..|exact Hb].
        intros i m _ _. eexists. split; reflexivity.
      * specialize (Hcont v eq_refl Ec).
        destruct (if success v then fixedCode v else None) as [fixed|];
          [|revert Hb; apply Hcont; [reflexivity | reflexivity | eexists; reflexivity]].
        destruct (JS.truthy fixed);
          [|revert Hb; apply Hcont; [reflexivity | reflexivity | eexists; reflexivity]].
        destruct (autoApply b).
        -- revert Hb. apply Hcont; [reflexivity | reflexivity | eexists; reflexivity].
        -- destruct (decide H (index block) (code block) fixed).
           ++ revert Hb. apply Hcont; [reflexivity | reflexivity |].
              exists []. rewrite app_nil_r. reflexivity.
           ++ revert Hb. apply Hcont; [reflexivity | reflexivity |].
              exists []. rewrite app_nil_r. reflexivity.
           ++ destruct (saveData H (index block)) as [u | msg | ].
              ** revert Hb. apply Hcont; [reflexivity | reflexivity |].
                 exists []. rewrite app_nil_r. reflexivity.
              ** apply (Hend Hangs (save_auto w1)); [|reflexivity ..|exact Hb].
                 intros i m Ht Hm. exfalso. exact (Hstop v eq_refl Ec i m Ht Hm).
              ** apply (Hend Hangs (save_auto w1)); [|reflexivity ..|exact Hb].
                 intros i m Ht Hm. exfalso. exact (Hstop v eq_refl Ec i m Ht Hm).
           ++ apply (Hend Hangs w1); [|reflexivity ..|exact Hb].
              intros i m Ht Hm. exfalso. exact (Hstop v eq_refl Ec i m Ht Hm).
    + apply (Hend (Throws msg) w1); [|reflexivity ..|exact Hb].
      intros i m Ht Hm. destruct (Ht1 i m Ht) as (Hr & _). discriminate.
    + apply (Hend Hangs w1); [|reflexivity ..|exact Hb].
      intros i m Ht Hm. destruct (Ht1 i m Ht) as (Hr & _). discriminate.
Qed.

Lemma find_errors_frame H : forall blocks w r w',
  find_errors H blocks w = (r, w') ->
  editor w' = editor w /\ notices w' = notices w /\ client_state w' = client_state w.
Proof.
  induction blocks as [|block more IH]; intros w r w' Hf; simpl in Hf.
  - injection Hf as <- <-. auto.
  - destruct (validate H (code block) w) as [rv w1] eqn:Ev.
    destruct (validate_frame _ _ _ _ _ Ev) as (He1 & Hn1 & Hc1).
    destruct rv as [validation | msg | ].
    + destruct (find_errors H more w1) as [rf w2] eqn:Ef.
      destruct (IH _ _ _ Ef) as (He2 & Hn2 & Hc2).
      destruct rf; injection Hf as <- <-; repeat split; congruence.
    + injection Hf as <- <-. auto.
    + injection Hf as <- <-. auto.
Qed.

Lemma nth_error_beyond {A} (l : list A) n x :
  length l <= n -> nth_error l n = Some x -> False.
Proof. intros Hl Hn. apply nth_error_None in Hl. congruence. Qed.

(** C4. When the service answers a request of the run with status 401 and
    the answer reaches the client, the client throws the authentication
    error, and the run stops there: that request is the last one sent (no
    further attempt, on this block or on a later one), the last notice
    reports the error, and the text in the editor is what it was before the
    run, so none of the fixes queued so far is applied. *)
Theorem auth_error_aborts_batch (H : host) (cfg : settings) (w w' : world)
    (r : outcome unit) (n : nat) (req : request) (res : response) :
  runFixWithGemini H cfg w = (r, w') ->
  length (requests (client_state w)) <= n ->
  nth_error (requests (client_state w')) n = Some req ->
  answered (services H) (requestTimeoutMs cfg) n req res ->
  status res = 401%Z ->
  call_outcome (services H) (requestTimeoutMs cfg) n req
  = Throws (auth_error (body_text res))
  /\ r = Returns tt
  /\ editor w' = editor w
  /\ S n = length (requests (client_state w'))
  /\ exists pre k,
       notices w' = notices w ++ pre ++ [GeminiError k (auth_error (body_text res))].
Proof.
  intros Hrun Hn Hnth Hans Hst.
  assert (Hout : call_outcome (services H) (requestTimeoutMs cfg) n req
                 = Throws (auth_error (body_text res))).
  { rewrite (answered_outcome _ _ _ _ _ Hans). apply read_reply_401. exact Hst. }
  split; [exact Hout|].
  unfold runFixWithGemini in Hrun.
  destruct (editor w) as [doc|] eqn:Ed;
    [|injection Hrun as <- <-; exfalso; exact (nth_error_beyond _ _ _ Hn Hnth)].
  destruct (negb (JS.truthy (geminiApiKey cfg)));
    [injection Hrun as <- <-; exfalso; exact (nth_error_beyond _ _ _ Hn Hnth)|].
  destruct (negb (hasMermaid (mermaid w)));
    [injection Hrun as <- <-; exfalso; exact (nth_error_beyond _ _ _ Hn Hnth)|].
  destruct (extractMermaidBlocks doc) as [|blk blks];
    [injection Hrun as <- <-; exfalso; exact (nth_error_beyond _ _ _ Hn Hnth)|].
  set (wa := notify (Inspecting (length (blk :: blks))) w) in *.
  destruct (find_errors H (blk :: blks) wa) as [rf wb] eqn:Ef.
  destruct (find_errors_frame _ _ _ _ _ Ef) as (Heb & Hnb & Hcb).
  change (editor wa) with (editor w) in Heb.
  change (notices wa) with (notices w ++ [Inspecting (length (blk :: blks))]) in Hnb.
  change (client_state wa) with (client_state w) in Hcb.
  destruct rf as [errs | msg | ];
    [| injection Hrun as <- <-; exfalso; rewrite Hcb in Hnth;
       exact (nth_error_beyond _ _ _ Hn Hnth)
     | injection Hrun as <- <-; exfalso; rewrite Hcb in Hnth;
       exact (nth_error_beyond _ _ _ Hn Hnth)].
  destruct errs as [|e errs];
    [injection Hrun as <- <-; exfalso; simpl in Hnth; rewrite Hcb in Hnth;
     exact (nth_error_beyond _ _ _ Hn Hnth)|].
  unfold query_file in Hrun.
  destruct (blocks_loop H cfg _ (e :: errs) _ _) as [rb we] eqn:Eb.
  destruct (blocks_loop_spec _ _ _ _ _ _ _ _ Eb) as (Hee & new & newn & Hqe & Hne & Hte).
  cbn [editor notices client_state notify] in Hee, Hne, Hqe, Hte.
  rewrite Hcb in Hqe, Hte.
  assert (Hreqs : requests (client_state w') = requests (client_state we)).
  { destruct rb as [b | msg | ]; [|injection Hrun as <- <-; reflexivity ..].
    destruct (negb (batch_cancelled b)); [|injection Hrun as <- <-; reflexivity].
    destruct (replacements b); injection Hrun as <- <-; reflexivity. }
  rewrite Hreqs, Hqe in Hnth.
  assert (Hth : thrown_at H cfg (length (requests (client_state w))) new
                  (n - length (requests (client_state w)))
                  (auth_error (body_text res))).
  { exists req. rewrite nth_error_app2 in Hnth by exact Hn. split; [exact Hnth|].
    replace (length (requests (client_state w)) + (n - length (requests (client_state w))))
      with n by lia.
    exact Hout. }
  destruct (Hte _ _ Hth (auth_error_is_hard _)) as ((b' & -> & Hc) & Hi & pre & k & Hpre).
  rewrite Hc in Hrun. simpl in Hrun. injection Hrun as <- <-.
  split; [reflexivity|]. split; [congruence|].
  split; [rewrite Hqe, length_app; lia|].
  exists ([Inspecting (length (blk :: blks))] ++ [ErrorsFound (length (e :: errs))] ++ pre), k.
  rewrite Hne, Hnb, Hpre, <- !app_assoc. reflexivity.
Qed.

(** C3 (amended). When the service answers a request for a block with
    status 429, the answer reaches the client and the body of the reply
    holds none of the phrases of the errors that stop the run: the client
    throws the rate-limit error; the attempts on the block end there, without
    a fix and without cancelling the run, so that request is the last one
    sent for the block; and the loop goes on to the next block with the queue
    of fixes as it was, after the notice that the block failed. *)
Theorem rate_limit_abandons_block (H : host) (cfg : settings) (cf : jsstring)
    (block : MermaidBlock) (err : jsstring) (more : list (MermaidBlock * jsstring))
    (b : batch) (w w1 : world) (r : outcome verdict)
    (n : nat) (req : request) (res : response) :
  JS.str_eqb cf (active_file H (file_queries w)) = true ->
  attempts H cfg block maxAttempts 1 (code block) err (snd (query_file H w)) = (r, w1) ->
  length (requests (client_state w)) <= n ->
  nth_error (requests (client_state w1)) n = Some req ->
  answered (services H) (requestTimeoutMs cfg) n req res ->
  status res = 429%Z ->
  is_hard (body_text res) = false ->
  call_outcome (services H) (requestTimeoutMs cfg) n req
  = Throws (rate_limit_error (body_text res))
  /\ r = Returns {| success := false; fixedCode := None; cancelled := false |}
  /\ S n = length (requests (client_state w1))
  /\ (exists pre, notices w1
                  = notices w ++ pre
                    ++ [GeminiError (index block) (rate_limit_error (body_text res))])
  /\ blocks_loop H cfg cf ((block, err) :: more) b w
     = blocks_loop H cfg cf more b (notify (Failed (index block)) w1).
Proof.
  intros Hfile Ha Hn Hnth Hans Hst Hbody.
  assert (Hout : call_outcome (services H) (requestTimeoutMs cfg) n req
                 = Throws (rate_limit_error (body_text res))).
  { rewrite (answered_outcome _ _ _ _ _ Hans). apply read_reply_429. exact Hst. }
  split; [exact Hout|].
  destruct (attempts_spec _ _ _ _ _ _ _ _ _ _ Ha) as (He1 & new & newn & Hq & Hnn & Ht).
  cbn [editor notices client_state query_file snd] in He1, Hq, Hnn, Ht.
  rewrite Hq in Hnth.
  assert (Hth : thrown_at H cfg (length (requests (client_state w))) new
                  (n - length (requests (client_state w)))
                  (rate_limit_error (body_text res))).
  { exists req. rewrite nth_error_app2 in Hnth by exact Hn. split; [exact Hnth|].
    replace (length (requests (client_state w)) + (n - length (requests (client_state w))))
      with n by lia.
    exact Hout. }
  destruct (Ht _ _ Hth) as (Hr & Hi & pre & Hpre).
  rewrite rate_limit_error_hard, Hbody in Hr.
  split; [exact Hr|].
  split; [rewrite Hq, length_app; lia|].
  split; [exists pre; rewrite Hnn, Hpre; reflexivity|].
  simpl blocks_loop. unfold query_file in *. cbn [snd] in Ha.
  rewrite Hfile. cbn [negb]. rewrite Ha, Hr. reflexivity.
Qed.

(** The claim in the words of the specification: after an attempt on a
    block that ended in the rate-limit error, while attempts remain, the
    same block is attempted again. *)
Definition spec_retries_after_rate_limit (H : host) (cfg : settings) (w : world) : Prop :=
  forall pre post k a text,
    notices (snd (runFixWithGemini H cfg w))
    = pre ++ Trying k a :: GeminiError k (rate_limit_error text) :: post ->
    a < maxAttempts ->
    In (Trying k (S a)) post.

(** One broken block; the service answers the first request with 429 and
    would answer every later one with a valid fix.  The run sends one
    request, gives the block up and applies nothing. *)
Lemma rate_limited_block_is_not_retried :
  ~ spec_retries_after_rate_limit Scenario.rate_limited_once Scenario.cfg
      (Scenario.world_with Scenario.one_block).
Proof.
  intros Hspec.
  specialize (Hspec [Inspecting 1; ErrorsFound 1] [Failed 0; NothingApplied] 0 1
                (str_of "slow down")).
  assert (Hin : In (Trying 0 2) [Failed 0; NothingApplied]).
  { apply Hspec; [vm_compute; reflexivity | unfold maxAttempts; lia]. }
  simpl in Hin. destruct Hin as [Hin | [Hin | []]]; discriminate.
Qed.

Lemma rate_limit_abandons_block_witness :
  let H := Scenario.rate_limited_once in
  let w := Scenario.world_with Scenario.one_block in
  let block := hd (Build_MermaidBlock 0 0 [] [] [] [] 0)
                 (extractMermaidBlocks Scenario.one_block) in
  blocks_loop H Scenario.cfg (str_of "note.md") [(block, str_of "Parse error")]
    {| replacements := []; autoApply := true; batch_cancelled := false |} w
  = blocks_loop H Scenario.cfg (str_of "note.md") []
      {| replacements := []; autoApply := true; batch_cancelled := false |}
      (notify (Failed (index block))
         (snd (attempts H Scenario.cfg block maxAttempts 1 (code block)
                 (str_of "Parse error") (snd (query_file H w))))).
Proof.
  intros H w block.
  destruct (attempts H Scenario.cfg block maxAttempts 1 (code block)
              (str_of "Parse error") (snd (query_file H w))) as [r w1] eqn:Ea.
  assert (Hreq : exists req, nth_error (requests (client_state w1)) 0 = Some req).
  { replace w1 with (snd (attempts H Scenario.cfg block maxAttempts 1 (code block)
                            (str_of "Parse error") (snd (query_file H w))))
      by (rewrite Ea; reflexivity).
    vm_compute. eexists. reflexivity. }
  destruct Hreq as [req Hreq].
  refine (proj2 (proj2 (proj2 (proj2
            (rate_limit_abandons_block H Scenario.cfg (str_of "note.md") block
               (str_of "Parse error") [] _ w w1 r 0 req
               {| status := 429; body := Some (str_of "slow down") |}
               _ Ea _ Hreq _ _ _))))).
  - vm_compute. reflexivity.
  - simpl. lia.
  - exists 120%Z. split; [reflexivity|]. right. vm_compute. reflexivity.
  - reflexivity.
  - vm_compute. reflexivity.
Defined.

Lemma auth_error_aborts_batch_witness :
  let out := runFixWithGemini Scenario.unauthorized_second Scenario.cfg
               (Scenario.world_with Scenario.two_blocks) in
  fst out = Returns tt
  /\ editor (snd out) = Some Scenario.two_blocks
  /\ length (requests (client_state (snd out))) = 2.
Proof.
  intros out.
  destruct (nth_error (requests (client_state (snd out))) 1) as [req|] eqn:Ereq;
    [|vm_compute in Ereq; discriminate].
  destruct (auth_error_aborts_batch Scenario.unauthorized_second Scenario.cfg
              (Scenario.world_with Scenario.two_blocks) (snd out) (fst out) 1 req
              {| status := 401; body := Some (str_of "bad key") |})
    as (_ & Hr & He & Hl & _).
  - subst out. apply surjective_pairing.
  - simpl. lia.
  - exact Ereq.
  - exists 120%Z. split; [reflexivity|]. right. vm_compute. reflexivity.
  - reflexivity.
  - split; [exact Hr|]. split; [exact He|]. symmetry. exact Hl.
Defined.

End OrchestratorFacts.

(** * The memo table, on a concrete run *)
Module MemoWitness.
Import Async Gemini ClientFacts.

Definition E : env := Main.services Scenario.always_ok.

Definition first_call : call :=
  {| c_apiKey := str_of "k"; c_model := str_of "m";
     c_original := str_of "graph TD
  A[x<br>y]-->BROKEN";
     c_errorMsg := str_of "Parse error"; c_timeoutMs := 30000;
     c_apiVersion := str_of "v1beta" |}.

(** Another key, another timeout, and blanks at the end of the first line,
    which the normalisation removes. *)
Definition second_call : call :=
  {| c_apiKey := str_of "another key"; c_model := str_of "m";
     c_original := str_of "graph TD  
  A[x<br>y]-->BROKEN";
     c_errorMsg := str_of "Parse error"; c_timeoutMs := 5;
     c_apiVersion := str_of "v1beta" |}.

Definition other_call : call :=
  {| c_apiKey := str_of "k"; c_model := str_of "m";
     c_original := str_of "graph LR
  X-->BROKEN";
     c_errorMsg := str_of "Parse error"; c_timeoutMs := 30000;
     c_apiVersion := str_of "v1beta" |}.

Lemma memo_hit_repeats_result_witness :
  let c1 := snd (perform E first_call Scenario.fresh_client) in
  let c2 := after_calls E [other_call] c1 in
  perform E second_call c2 = (Returns Scenario.fixed_diagram, c2)
  /\ requests (snd (perform E second_call c2)) = requests c2.
Proof.
  intros c1 c2.
  destruct (perform E first_call Scenario.fresh_client) as [o c] eqn:E1.
  assert (Ho : o = Returns Scenario.fixed_diagram).
  { replace o with (fst (perform E first_call Scenario.fresh_client))
      by (rewrite E1; reflexivity).
    vm_compute. reflexivity. }
  subst o.
  apply (memo_hit_repeats_result E first_call second_call [other_call]
           Scenario.fresh_client c Scenario.fixed_diagram E1);
    vm_compute; reflexivity.
Defined.

End MemoWitness.

(** * The directive-preservation rule *)
Module DirectiveFacts.
Import Regex Utils Gemini SearchFacts JSFacts.

Definition lines (s : jsstring) : list jsstring := split no_flags newline s.

Definition OPENER : jsstring := str_of "%%{".

Lemma lits_here_starts_with p : forall s,
  lits_here no_flags p s = true -> JS.starts_with p s = true.
Proof.
  induction p as [|a p IH]; intros s H; [reflexivity|].
  destruct s as [|c s]; [discriminate|]. simpl in *.
  apply andb_prop in H as [Hc Hp]. unfold char_matches in Hc. simpl in Hc.
  rewrite orb_false_r in Hc. apply N.eqb_eq in Hc. subst c.
  rewrite N.eqb_refl. simpl. apply IH. exact Hp.
Qed.

Lemma index_from_found p : forall s i k,
  k <= length s -> JS.starts_with p (skipn k s) = true ->
  (i <= JS.index_from p s i)%Z.
Proof.
  induction s as [|c s IH]; intros i k Hk Hs.
  - destruct k; [|simpl in Hk; lia]. simpl in *. rewrite Hs. lia.
  - simpl. destruct (JS.starts_with p (c :: s)) eqn:E; [lia|].
    destruct k as [|k]; [simpl in Hs; congruence|].
    simpl in Hk, Hs. specialize (IH (i + 1)%Z k ltac:(lia) Hs). lia.
Qed.

(** A text that does not contain the opener [%%{] holds no directive for
    the test on the corrected text. *)
Lemma no_opener_no_init fixed :
  JS.includes fixed OPENER = false -> test no_flags re_has_init fixed = false.
Proof.
  intros Hinc. destruct (test no_flags re_has_init fixed) eqn:Et; [|reflexivity].
  rewrite test_found in Et.
  apply (found_suffix no_flags re_has_init (fun s => JS.starts_with OPENER s)) in Et.
  - destruct Et as (k & Hk & Hs).
    pose proof (index_from_found OPENER fixed 0 k Hk Hs) as Hi.
    unfold JS.includes, JS.indexOf in Hinc.
    destruct (Z.leb_spec 0 (JS.index_from OPENER fixed 0)); [discriminate | lia].
  - intros b i s Hh. rewrite here_can_run in Hh.
    apply can_run_seq_left in Hh. rewrite can_run_lits in Hh.
    apply lits_here_starts_with. exact Hh.
Qed.

Lemma init_line_not_empty l : is_init_line l = true -> JS.truthy l = true.
Proof. destruct l; [discriminate | reflexivity]. Qed.

(** C5 (amended). With preservation enabled: if [l] is the first line of
    the original that is recognised as a directive (trimmed, it starts with
    the opener, and it holds [init] followed by a colon) and the corrected
    text does not contain the opener, the result is [l] with the white space
    at both ends removed, a newline, and the corrected text; if the corrected
    text holds a directive that the test recognises, the result is the
    corrected text. *)
Theorem preserve_init_prepends_trimmed (original fixed : jsstring) :
  (forall l, find is_init_line (lines original) = Some l ->
             JS.includes fixed OPENER = false ->
             preserveInitIfNeeded original fixed true = JS.trim l ++ [LF] ++ fixed)
  /\ (test no_flags re_has_init fixed = true ->
      preserveInitIfNeeded original fixed true = fixed).
Proof.
  unfold preserveInitIfNeeded, lines. simpl negb. cbv iota. split.
  - intros l Hl Hinc. rewrite Hl.
    apply find_some in Hl as [_ Hl]. rewrite (init_line_not_empty l Hl).
    rewrite (no_opener_no_init fixed Hinc). reflexivity.
  - intros Ht. destruct (find is_init_line _) as [l|]; [|reflexivity].
    destruct (negb (JS.truthy l)); [reflexivity|]. rewrite Ht. reflexivity.
Qed.

(** The claim in the words of the specification: the directive line of
    the original comes back unchanged. *)
Definition spec_directive_verbatim : Prop :=
  forall original fixed l,
    In l (lines original) -> is_init_line l = true ->
    JS.includes fixed OPENER = false ->
    preserveInitIfNeeded original fixed true = l ++ [LF] ++ fixed.

Definition indented_original : jsstring := str_of "  %%{init: {'theme':'dark'}}%%
graph TD
  A[x<br>y]-->B".

Definition plain_fix : jsstring := str_of "graph TD
  A-->B".

(** An indented directive line comes back without its indentation. *)
Lemma indented_directive_is_trimmed : ~ spec_directive_verbatim.
Proof.
  intros Hspec.
  specialize (Hspec indented_original plain_fix (str_of "  %%{init: {'theme':'dark'}}%%")).
  assert (H : preserveInitIfNeeded indented_original plain_fix true
              = str_of "  %%{init: {'theme':'dark'}}%%" ++ [LF] ++ plain_fix).
  { apply Hspec; [vm_compute; auto | vm_compute; reflexivity | vm_compute; reflexivity]. }
  vm_compute in H. discriminate.
Qed.

Lemma preserve_init_prepends_trimmed_witness :
  preserveInitIfNeeded indented_original plain_fix true
  = str_of "%%{init: {'theme':'dark'}}%%" ++ [LF] ++ plain_fix.
Proof.
  apply (proj1 (preserve_init_prepends_trimmed indented_original plain_fix)
           (str_of "  %%{init: {'theme':'dark'}}%%")).
  - vm_compute. reflexivity.
  - vm_compute. reflexivity.
Defined.

(** The test on the corrected text does not see a directive whose value
    has braces of its own, such as the one the prompt itself recommends:
    the original directive is then put in front of the one that is there. *)
Definition fix_with_directive : jsstring := str_of "%%{init: {'theme':'dark'}}%%
graph TD
  A-->B".

Lemma nested_directive_is_duplicated :
  test no_flags re_has_init fix_with_directive = false
  /\ preserveInitIfNeeded indented_original fix_with_directive true
     = str_of "%%{init: {'theme':'dark'}}%%" ++ [LF] ++ fix_with_directive.
Proof. split; vm_compute; reflexivity. Qed.

End DirectiveFacts.

(** * The two normalisations *)
Module NormalizeFacts.
Import Regex SearchFacts.

(** The input of the failing run: an opening bracket, a colon, a carriage
    return, a closing bracket. *)
Definition label_with_cr : jsstring := [91; 58; 13; 93]%N.

(** C6. The normalisation of the correction client is not idempotent: on
    a label that holds a carriage return the first pass quotes the label,
    and the second pass, whose test for a quoted label does not cross a line
    terminator, quotes it again. *)
Theorem gemini_normalize_twice_differs :
  Gemini.preNormalizeMermaid label_with_cr = [91; 34; 58; 13; 34; 93]%N
  /\ Gemini.preNormalizeMermaid (Gemini.preNormalizeMermaid label_with_cr)
     = [91; 34; 92; 34; 58; 13; 92; 34; 34; 93]%N
  /\ Gemini.preNormalizeMermaid (Gemini.preNormalizeMermaid label_with_cr)
     <> Gemini.preNormalizeMermaid label_with_cr.
Proof.
  split; [vm_compute; reflexivity|]. split; [vm_compute; reflexivity|].
  vm_compute. discriminate.
Qed.

(** A zero-width space inside a break tag gives a second failing input:
    the tag appears only once the surface pass has removed the space. *)
Lemma gemini_normalize_twice_differs_zero_width :
  let s := [91; 60; 98; 8203; 114; 62; 93]%N in
  Gemini.preNormalizeMermaid (Gemini.preNormalizeMermaid s)
  <> Gemini.preNormalizeMermaid s.
Proof. vm_compute. discriminate. Qed.

(** The normalisation of the validation wrapper leaves both inputs as they
    are. *)
Lemma utils_normalize_on_failing_inputs :
  Utils.preNormalizeMermaid label_with_cr = label_with_cr
  /\ Utils.preNormalizeMermaid (Gemini.preNormalizeMermaid label_with_cr)
     = Gemini.preNormalizeMermaid label_with_cr.
Proof. split; vm_compute; reflexivity. Qed.

(** The opening delimiters of a node shape. *)
Definition is_open (c : N) : bool := (N.eqb c 91 || N.eqb c 40 || N.eqb c 123)%N.
Definition is_bracket (c : N) : bool := N.eqb c 91.

Lemma lit_needs (P : N -> bool) (a : N) :
  P a = true -> needs no_flags P (lit a).
Proof.
  intros Ha c Hc. unfold char_matches in Hc. simpl in Hc.
  rewrite orb_false_r in Hc. apply N.eqb_eq in Hc. subst c. exact Ha.
Qed.

Lemma re_node_needs_open : needs no_flags is_open Utils.re_node.
Proof.
  unfold Utils.re_node. simpl. right. right. left.
  split; [apply lit_needs; reflexivity|].
  split; [apply lit_needs; reflexivity|].
  split; [lia|]. split; [reflexivity|]. apply lit_needs. reflexivity.
Qed.

Lemma re_bracket_any_needs : needs no_flags is_bracket Gemini.re_bracket_any.
Proof. unfold Gemini.re_bracket_any. simpl. left. apply lit_needs. reflexivity. Qed.

Lemma re_bracket_line_needs : needs no_flags is_bracket Gemini.re_bracket_line.
Proof. unfold Gemini.re_bracket_line. simpl. left. apply lit_needs. reflexivity. Qed.

Lemma no_open_no_bracket s : existsb is_open s = false -> existsb is_bracket s = false.
Proof.
  induction s as [|c s IH]; [reflexivity|]. simpl. intros H.
  apply orb_false_iff in H as [Hc Hs]. rewrite (IH Hs).
  unfold is_open in Hc. unfold is_bracket.
  destruct (N.eqb c 91); [discriminate | reflexivity].
Qed.

(** C7 (amended). The two normalisations are different functions.  On a
    text without an opening bracket, parenthesis or brace, the one of the
    validation wrapper changes nothing and the one of the correction client
    is the surface pass alone; so on such a text they agree exactly when the
    surface pass changes nothing. *)
Theorem normalizations_without_shapes (s : jsstring) :
  existsb is_open s = false ->
  Utils.preNormalizeMermaid s = s
  /\ Gemini.preNormalizeMermaid s = Gemini.normalizeSurface s
  /\ (Utils.preNormalizeMermaid s = Gemini.preNormalizeMermaid s
      <-> Gemini.normalizeSurface s = s).
Proof.
  intros Hs.
  assert (Hu : Utils.preNormalizeMermaid s = s).
  { apply (replace_all_no_match no_flags is_open); [apply re_node_needs_open | exact Hs]. }
  assert (Hg : Gemini.preNormalizeMermaid s = Gemini.normalizeSurface s).
  { unfold Gemini.preNormalizeMermaid. apply no_open_no_bracket in Hs.
    rewrite (replace_all_no_match no_flags is_bracket _ _ s re_bracket_any_needs Hs).
    rewrite (replace_all_no_match no_flags is_bracket _ _ s re_bracket_line_needs Hs).
    reflexivity. }
  split; [exact Hu|]. split; [exact Hg|].
  rewrite Hu, Hg. split; intros H; symmetry; exact H.
Qed.

(** A label with a colon: the client quotes it, the wrapper does not. *)
Lemma normalizations_differ :
  ~ (forall s, Utils.preNormalizeMermaid s = Gemini.preNormalizeMermaid s).
Proof.
  intros H. specialize (H (str_of "A[a:b]")). vm_compute in H. discriminate.
Qed.

Lemma normalizations_without_shapes_witness :
  Utils.preNormalizeMermaid (str_of "graph TD  ") = str_of "graph TD  "
  /\ Gemini.preNormalizeMermaid (str_of "graph TD  ")
     = Gemini.normalizeSurface (str_of "graph TD  ").
Proof.
  destruct (normalizations_without_shapes (str_of "graph TD  ")) as (H1 & H2 & _).
  - vm_compute. reflexivity.
  - split; [exact H1 | exact H2].
Defined.

End NormalizeFacts.

(** * The rewrite of a document *)
Module ReplaceFacts.
Import Main.

(** ** Replacements applied one at a time, against the original offsets

    The reference the claim compares the code with.  A replacement that is
    applied after others keeps the offsets it was given for the original
    text; in the text as it is by then, its span has moved by the change in
    length of every replacement already applied that starts before it. *)
Definition delta (a : Replacement) : Z :=
  Z.of_nat (length (text a)) - (end_ a - start a).

Fixpoint shift (applied : list Replacement) (r : Replacement) : Z :=
  match applied with
  | [] => 0
  | a :: l => (if (start a <? start r)%Z then delta a else 0) + shift l r
  end.

Definition moved (r : Replacement) (d : Z) : Replacement :=
  {| start := start r + d; end_ := end_ r + d; text := text r |}.

Fixpoint apply_in_order (cur : jsstring) (applied todo : list Replacement) : jsstring :=
  match todo with
  | [] => cur
  | r :: todo' =>
      apply_in_order (splice cur (moved r (shift applied r))) (r :: applied) todo'
  end.

Definition apply_one_at_a_time (T : jsstring) (order : list Replacement) : jsstring :=
  apply_in_order T [] order.

Definition in_bounds (T : jsstring) (r : Replacement) : Prop :=
  (0 <= start r /\ start r <= end_ r /\ end_ r <= Z.of_nat (length T))%Z.

(** Spans that do not overlap, as half-open intervals. *)
Definition disjoint (a b : Replacement) : Prop :=
  (end_ a <= start b \/ end_ b <= start a)%Z.

(** Spans that do not overlap and start at different offsets. *)
Definition before (a b : Replacement) : Prop :=
  (end_ a <= start b /\ start a < start b)%Z.
Definition apart (a b : Replacement) : Prop := before a b \/ before b a.

(** ** The text that results, piece by piece *)

Definition s_ (r : Replacement) : nat := Z.to_nat (start r).
Definition e_ (r : Replacement) : nat := Z.to_nat (end_ r).

Fixpoint insert_asc (r : Replacement) (l : list Replacement) : list Replacement :=
  match l with
  | [] => [r]
  | a :: l' => if (start r <? start a)%Z then r :: a :: l' else a :: insert_asc r l'
  end.

Definition asc_of (l : list Replacement) : list Replacement :=
  fold_right insert_asc [] l.

(** The original text from [from] on, with the replacements of [l], in
    ascending order, carried out. *)
Fixpoint render (T : jsstring) (from : nat) (l : list Replacement) : jsstring :=
  match l with
  | [] => skipn from T
  | a :: l' => firstn (s_ a - from) (skipn from T) ++ text a ++ render T (e_ a) l'
  end.

(** Where the original offset [x] lies in [render T from l]. *)
Fixpoint place (from : nat) (l : list Replacement) (x : nat) : nat :=
  match l with
  | [] => x - from
  | a :: l' => if Nat.leb x (s_ a) then x - from
               else (s_ a - from) + length (text a) + place (e_ a) l' x
  end.

Definition cut (p len : nat) (t cur : jsstring) : jsstring :=
  firstn p cur ++ t ++ skipn (p + len) cur.

Definition chain (l : list Replacement) : Prop := StronglySorted before l.

Definition separated (l : list Replacement) : Prop :=
  List.NoDup l /\ forall a b, In a l -> In b l -> a <> b -> apart a b.

Lemma slice_upto (cur : jsstring) (a : Z) :
  (0 <= a)%Z -> JS.slice cur 0 a = firstn (Z.to_nat a) cur.
Proof.
  intros Ha. unfold JS.slice, JS.rel_index.
  destruct (Z.ltb_spec 0 0); [lia|]. destruct (Z.ltb_spec a 0); [lia|].
  rewrite (Z.min_l 0) by lia. change (Z.to_nat 0) with 0.
  change (skipn 0 cur) with cur. rewrite Z.sub_0_r.
  destruct (Z.le_gt_cases a (Z.of_nat (length cur))).
  - rewrite Z.min_l by lia. reflexivity.
  - rewrite Z.min_r by lia. rewrite Nat2Z.id.
    rewrite (firstn_all2 (n := length cur)) by lia.
    rewrite (firstn_all2 (n := Z.to_nat a)) by lia. reflexivity.
Qed.

Lemma slice_from_nonneg (cur : jsstring) (a : Z) :
  (0 <= a)%Z -> JS.slice_from cur a = skipn (Z.to_nat a) cur.
Proof.
  intros Ha. unfold JS.slice_from, JS.slice, JS.rel_index.
  destruct (Z.ltb_spec a 0); [lia|].
  destruct (Z.ltb_spec (Z.of_nat (length cur)) 0); [lia|].
  rewrite (Z.min_l (Z.of_nat (length cur))) by lia.
  rewrite firstn_all2 by (rewrite length_skipn; lia).
  destruct (Z.le_gt_cases a (Z.of_nat (length cur))).
  - rewrite Z.min_l by lia. reflexivity.
  - rewrite Z.min_r by lia. rewrite Nat2Z.id.
    rewrite (skipn_all2 (n := length cur)) by lia.
    rewrite (skipn_all2 (n := Z.to_nat a)) by lia. reflexivity.
Qed.

Lemma splice_cut cur r :
  (0 <= start r)%Z -> (start r <= end_ r)%Z ->
  splice cur r = cut (s_ r) (e_ r - s_ r) (text r) cur.
Proof.
  intros Hs He. unfold splice, cut, s_, e_.
  rewrite slice_upto by lia. rewrite slice_from_nonneg by lia.
  do 3 f_equal. lia.
Qed.

Lemma cut_in_prefix p len t (F X : jsstring) :
  p + len <= length F ->
  cut p len t (F ++ X) = firstn p F ++ t ++ skipn (p + len) F ++ X.
Proof.
  intros H. unfold cut.
  rewrite firstn_app, skipn_app.
  replace (p - length F) with 0 by lia. replace (p + len - length F) with 0 by lia.
  simpl. rewrite app_nil_r. reflexivity.
Qed.

Lemma cut_after_prefix p len t (F X : jsstring) :
  cut (length F + p) len t (F ++ X) = F ++ cut p len t X.
Proof.
  unfold cut. rewrite firstn_app, skipn_app.
  rewrite firstn_all2 by lia. rewrite skipn_all2 by lia.
  replace (length F + p - length F) with p by lia.
  replace (length F + p + len - length F) with (p + len) by lia.
  simpl. rewrite <- app_assoc. reflexivity.
Qed.

Lemma bounds_nat T r :
  in_bounds T r -> s_ r <= e_ r /\ e_ r <= length T.
Proof. unfold in_bounds, s_, e_. lia. Qed.

(** Carrying out [r] in the rendered text, at its place, gives the text
    rendered with [r] among the replacements. *)
Lemma cut_render T r : forall l from,
  in_bounds T r -> Forall (in_bounds T) l -> chain l ->
  Forall (apart r) l -> from <= s_ r -> Forall (fun a => from <= s_ a) l ->
  cut (place from l (s_ r)) (e_ r - s_ r) (text r) (render T from l)
  = render T from (insert_asc r l).
Proof.
  intros l from Hr. destruct (bounds_nat T r Hr) as [Hse HeT].
  revert from. induction l as [|a l IH]; intros from Hl Hc Ha Hf Hfl.
  - simpl. unfold cut. rewrite skipn_skipn. do 3 f_equal. lia.
  - inversion Hl as [|? ? Hba Hl']; subst.
    inversion Hc as [|? ? Hc' Hal]; subst.
    inversion Ha as [|? ? Hra Ha']; subst.
    inversion Hfl as [|? ? Hfa Hfl']; subst.
    destruct (bounds_nat T a Hba) as [Haa HaT].
    assert (HF : length (firstn (s_ a - from) (skipn from T)) = s_ a - from)
      by (rewrite length_firstn, length_skipn; lia).
    simpl. destruct Hra as [[H1 H2] | [H1 H2]].
    + destruct (Z.ltb_spec (start r) (start a)); [|lia].
      assert (Hle : s_ r <= s_ a) by (unfold s_; lia).
      assert (Hea : e_ r <= s_ a) by (unfold s_, e_; unfold in_bounds in *; lia).
      apply Nat.leb_le in Hle as Hle'. rewrite Hle'.
      rewrite cut_in_prefix by (rewrite HF; lia).
      simpl. rewrite firstn_firstn, skipn_firstn_comm, skipn_skipn.
      rewrite Nat.min_l by lia.
      replace (s_ r - from + (e_ r - s_ r) + from) with (e_ r) by lia.
      replace (s_ a - from - (s_ r - from + (e_ r - s_ r))) with (s_ a - e_ r) by lia.
      reflexivity.
    + destruct (Z.ltb_spec (start r) (start a)); [lia|].
      assert (Hlt : s_ a < s_ r) by (unfold s_; unfold in_bounds in *; lia).
      assert (Hea : e_ a <= s_ r) by (unfold s_, e_; unfold in_bounds in *; lia).
      destruct (Nat.leb_spec (s_ r) (s_ a)); [lia|].
      simpl. rewrite <- HF at 1. rewrite <- Nat.add_assoc.
      rewrite cut_after_prefix. f_equal.
      rewrite (cut_after_prefix _ _ _ (text a)). f_equal.
      apply IH; auto.
      eapply List.Forall_impl; [|exact Hal]. intros x [Hx _].
      unfold s_, e_. unfold in_bounds in *. lia.
Qed.

Lemma shift_none l r :
  Forall (fun x => (start r <= start x)%Z) l -> shift l r = 0%Z.
Proof.
  induction 1 as [|x l Hx _ IH]; [reflexivity|]. simpl.
  destruct (Z.ltb_spec (start x) (start r)); lia.
Qed.

(** The place of [r] in the rendered text is its original offset, moved
    by [shift]. *)
Lemma place_shift T r : forall l from,
  in_bounds T r -> Forall (in_bounds T) l -> chain l ->
  Forall (apart r) l -> from <= s_ r -> Forall (fun a => from <= s_ a) l ->
  Z.of_nat (place from l (s_ r)) = (start r - Z.of_nat from + shift l r)%Z.
Proof.
  intros l from Hr. revert from.
  induction l as [|a l IH]; intros from Hl Hc Ha Hf Hfl.
  - simpl. unfold s_ in *. unfold in_bounds in Hr. lia.
  - inversion Hl as [|? ? Hba Hl']; subst.
    inversion Hc as [|? ? Hc' Hal]; subst.
    inversion Ha as [|? ? Hra Ha']; subst.
    inversion Hfl as [|? ? Hfa Hfl']; subst.
    simpl. unfold in_bounds in Hr, Hba. destruct Hra as [[H1 H2] | [H1 H2]].
    + destruct (Nat.leb_spec (s_ r) (s_ a)); [|unfold s_ in *; lia].
      destruct (Z.ltb_spec (start a) (start r)); [lia|].
      rewrite shift_none.
      * unfold s_ in *. lia.
      * eapply List.Forall_impl; [|exact Hal]. intros x [_ Hx]. lia.
    + destruct (Nat.leb_spec (s_ r) (s_ a)); [unfold s_ in *; lia|].
      destruct (Z.ltb_spec (start a) (start r)); [|lia].
      rewrite !Nat2Z.inj_add, IH; auto.
      * unfold delta, s_, e_ in *. lia.
      * unfold s_, e_. lia.
      * eapply List.Forall_impl; [|exact Hal]. intros x [Hx _].
        unfold s_, e_. unfold in_bounds in *. lia.
Qed.

Lemma insert_asc_perm r l : Permutation (insert_asc r l) (r :: l).
Proof.
  induction l as [|a l IH]; simpl; [reflexivity|].
  destruct (start r <? start a)%Z; [reflexivity|].
  rewrite IH. apply perm_swap.
Qed.

Lemma asc_of_perm l : Permutation (asc_of l) l.
Proof.
  induction l as [|r l IH]; simpl; [reflexivity|].
  rewrite insert_asc_perm. constructor. exact IH.
Qed.

Lemma insert_asc_chain r l :
  chain l -> Forall (apart r) l -> chain (insert_asc r l).
Proof.
  induction 1 as [|a l Hc IH Hal]; intros Ha; simpl.
  - repeat constructor.
  - inversion Ha as [|? ? Hra Ha']; subst.
    destruct (Z.ltb_spec (start r) (start a)).
    + constructor; [constructor; assumption|].
      destruct Hra as [Hra | [H1 H2]]; [|lia].
      constructor; [exact Hra|].
      eapply List.Forall_impl; [|exact Hal]. intros x Hx.
      unfold before in *. lia.
    + constructor; [apply IH; exact Ha'|].
      apply (Permutation_Forall (Permutation_sym (insert_asc_perm r l))).
      constructor; [|exact Hal].
      destruct Hra as [[H1 H2] | Hra]; [lia | exact Hra].
Qed.

Lemma shift_perm l l' r : Permutation l l' -> shift l r = shift l' r.
Proof.
  induction 1 as [| x l l' _ IH | x y l | l l' l'' _ IH1 _ IH2]; simpl; lia.
Qed.

Lemma apart_sym a b : apart a b -> apart b a.
Proof. unfold apart. tauto. Qed.

Lemma separated_perm l l' : Permutation l l' -> separated l -> separated l'.
Proof.
  intros Hp [Hn Ha]. split.
  - exact (Permutation_NoDup Hp Hn).
  - intros a b Hia Hib. apply Ha; eapply Permutation_in; try eassumption;
      apply Permutation_sym; exact Hp.
Qed.

Lemma separated_cons r l :
  separated (r :: l) -> Forall (apart r) l /\ separated l.
Proof.
  intros [Hn Ha]. inversion Hn as [|? ? Hnin Hn']; subst. split.
  - apply List.Forall_forall. intros x Hx. apply Ha; [left; reflexivity | right; exact Hx|].
    intros ->. contradiction.
  - split; [exact Hn'|]. intros a b Hia Hib. apply Ha; right; assumption.
Qed.

Lemma pairwise_separated l : ForallOrdPairs apart l -> separated l.
Proof.
  induction 1 as [|a l Hal Hl IH].
  - split; [constructor | intros a b []].
  - destruct IH as [Hn Hp]. split.
    + constructor; [|exact Hn]. intros Hin.
      rewrite List.Forall_forall in Hal. specialize (Hal a Hin).
      unfold apart, before in Hal. lia.
    + intros x y [<- | Hx] [<- | Hy] Hne.
      * contradiction.
      * rewrite List.Forall_forall in Hal. exact (Hal y Hy).
      * rewrite List.Forall_forall in Hal. apply apart_sym. exact (Hal x Hx).
      * exact (Hp x y Hx Hy Hne).
Qed.

Lemma asc_of_chain l : separated l -> chain (asc_of l).
Proof.
  induction l as [|r l IH]; intros Hs; simpl.
  - constructor.
  - apply separated_cons in Hs as [Hr Hl].
    apply insert_asc_chain; [apply IH; exact Hl|].
    apply (Permutation_Forall (Permutation_sym (asc_of_perm l))). exact Hr.
Qed.

(** Applying [r] to the text rendered with [applied], at its original
    offsets moved by [shift], renders the text with [r] added. *)
Lemma step_render T applied r :
  separated (r :: applied) -> Forall (in_bounds T) (r :: applied) ->
  splice (render T 0 (asc_of applied)) (moved r (shift applied r))
  = render T 0 (asc_of (r :: applied)).
Proof.
  intros Hs Hb. inversion Hb as [|? ? Hr Hb']; subst.
  pose proof (separated_cons _ _ Hs) as [Hra Hsa].
  set (l := asc_of applied).
  assert (Hl : Forall (in_bounds T) l)
    by (apply (Permutation_Forall (Permutation_sym (asc_of_perm applied))); exact Hb').
  assert (Hc : chain l) by (apply asc_of_chain; exact Hsa).
  assert (Hal : Forall (apart r) l)
    by (apply (Permutation_Forall (Permutation_sym (asc_of_perm applied))); exact Hra).
  assert (H0 : Forall (fun a => 0 <= s_ a) l) by (apply List.Forall_forall; intros; lia).
  pose proof (place_shift T r l 0 Hr Hl Hc Hal ltac:(lia) H0) as Hp.
  rewrite (shift_perm l applied r (asc_of_perm applied)) in Hp.
  unfold in_bounds in Hr.
  rewrite splice_cut by (simpl; lia).
  change (text (moved r (shift applied r))) with (text r).
  replace (s_ (moved r (shift applied r))) with (place 0 l (s_ r))
    by (unfold s_ in *; simpl; lia).
  replace (e_ (moved r (shift applied r)) - place 0 l (s_ r)) with (e_ r - s_ r)
    by (unfold s_, e_ in *; simpl; lia).
  apply cut_render; auto. lia.
Qed.

Lemma apply_in_order_render T : forall todo applied,
  separated (applied ++ todo) -> Forall (in_bounds T) (applied ++ todo) ->
  apply_in_order (render T 0 (asc_of applied)) applied todo
  = render T 0 (asc_of (rev todo ++ applied)).
Proof.
  induction todo as [|r todo IH]; intros applied Hs Hb; simpl; [reflexivity|].
  assert (Hp : Permutation (applied ++ r :: todo) ((r :: applied) ++ todo))
    by (symmetry; apply Permutation_middle).
  pose proof (separated_perm _ _ Hp Hs) as Hs'.
  pose proof (Permutation_Forall Hp Hb) as Hb'.
  rewrite step_render.
  - rewrite IH by assumption. rewrite <- app_assoc. reflexivity.
  - destruct Hs' as [Hn Ha]. split.
    + simpl in Hn. inversion Hn as [|? ? Hnin Hn']; subst.
      constructor; [intros Hin; apply Hnin; apply in_or_app; left; exact Hin|].
      exact (List.NoDup_app_remove_r _ _ Hn').
    + intros a b Hia Hib. apply Ha; simpl.
      * destruct Hia as [<- | Hia]; [left; reflexivity | right; apply in_or_app; left; exact Hia].
      * destruct Hib as [<- | Hib]; [left; reflexivity | right; apply in_or_app; left; exact Hib].
  - simpl in Hb'. inversion Hb' as [|? ? Hr Hrest]; subst.
    constructor; [exact Hr|]. apply List.Forall_app in Hrest. tauto.
Qed.

(** The ascending order of replacements with distinct starts does not
    depend on the order they are given in. *)
Lemma insert_asc_comm x y l :
  start x <> start y ->
  insert_asc x (insert_asc y l) = insert_asc y (insert_asc x l).
Proof.
  intros Hne. induction l as [|z l IH]; simpl.
  - destruct (Z.ltb_spec (start x) (start y)), (Z.ltb_spec (start y) (start x));
      try reflexivity; lia.
  - destruct (Z.ltb_spec (start y) (start z)), (Z.ltb_spec (start x) (start z)); simpl.
    + destruct (Z.ltb_spec (start x) (start y)), (Z.ltb_spec (start y) (start x));
        try lia; simpl.
      * destruct (Z.ltb_spec (start y) (start z)); [reflexivity | lia].
      * destruct (Z.ltb_spec (start x) (start z)); [reflexivity | lia].
    + destruct (Z.ltb_spec (start x) (start y)); [lia|].
      destruct (Z.ltb_spec (start x) (start z)); [lia|].
      destruct (Z.ltb_spec (start y) (start z)); [reflexivity | lia].
    + destruct (Z.ltb_spec (start y) (start x)); [lia|].
      destruct (Z.ltb_spec (start y) (start z)); [lia|].
      destruct (Z.ltb_spec (start x) (start z)); [reflexivity | lia].
    + destruct (Z.ltb_spec (start x) (start z)); [lia|].
      destruct (Z.ltb_spec (start y) (start z)); [lia|].
      rewrite IH. reflexivity.
Qed.

Lemma apart_starts a b : apart a b -> start a <> start b.
Proof. unfold apart, before. lia. Qed.

Lemma asc_of_order l l' : Permutation l l' -> separated l -> asc_of l = asc_of l'.
Proof.
  induction 1 as [| x l l' Hp IH | x y l | l l' l'' Hp1 IH1 Hp2 IH2]; intros Hs.
  - reflexivity.
  - simpl. rewrite IH; [reflexivity|]. exact (proj2 (separated_cons _ _ Hs)).
  - simpl. apply insert_asc_comm. apply apart_starts.
    destruct Hs as [Hn Ha]. apply Ha; [left; reflexivity | right; left; reflexivity|].
    inversion Hn as [|? ? Hnin _]; subst. intros ->. apply Hnin. left. reflexivity.
  - rewrite IH1 by exact Hs. apply IH2. exact (separated_perm _ _ Hp1 Hs).
Qed.

(** ** The code: descending order, offsets as given *)

Lemma insert_desc_perm r l : Permutation (insert_desc r l) (r :: l).
Proof.
  induction l as [|a l IH]; simpl; [reflexivity|].
  destruct (start a <=? start r)%Z; [reflexivity|].
  rewrite IH. apply perm_swap.
Qed.

Lemma sort_desc_perm l : Permutation (sort_desc l) l.
Proof.
  induction l as [|r l IH]; simpl; [reflexivity|].
  rewrite insert_desc_perm. constructor. exact IH.
Qed.

Definition falling (l : list Replacement) : Prop :=
  StronglySorted (fun a b => (start b < start a)%Z) l.

Lemma insert_desc_falling r l :
  falling l -> Forall (apart r) l -> falling (insert_desc r l).
Proof.
  induction 1 as [|a l Hc IH Hal]; intros Ha; simpl.
  - repeat constructor.
  - inversion Ha as [|? ? Hra Ha']; subst. apply apart_starts in Hra.
    destruct (Z.leb_spec (start a) (start r)).
    + constructor; [constructor; assumption|].
      constructor; [lia|].
      eapply List.Forall_impl; [|exact Hal]. intros x Hx. simpl in Hx. lia.
    + constructor; [apply IH; exact Ha'|].
      apply (Permutation_Forall (Permutation_sym (insert_desc_perm r l))).
      constructor; [lia | exact Hal].
Qed.

Lemma sort_desc_falling l : separated l -> falling (sort_desc l).
Proof.
  induction l as [|r l IH]; intros Hs; simpl.
  - constructor.
  - apply separated_cons in Hs as [Hr Hl].
    apply insert_desc_falling; [apply IH; exact Hl|].
    apply (Permutation_Forall (Permutation_sym (sort_desc_perm l))). exact Hr.
Qed.

(** In descending order nothing has moved when a replacement is applied:
    the loop of the code is the reference in that order. *)
Lemma fold_splice_in_order : forall L cur applied,
  falling L ->
  Forall (fun a => Forall (fun x => (start x < start a)%Z) L) applied ->
  fold_left splice L cur = apply_in_order cur applied L.
Proof.
  induction L as [|r L IH]; intros cur applied Hf Ha; simpl; [reflexivity|].
  inversion Hf as [|? ? Hf' Hr]; subst.
  assert (Hz : shift applied r = 0%Z).
  { apply shift_none. eapply List.Forall_impl; [|exact Ha].
    intros a Hx. simpl in Hx. inversion Hx; subst. lia. }
  rewrite Hz.
  replace (moved r 0) with r
    by (destruct r; unfold moved; simpl; f_equal; lia).
  apply IH; [exact Hf'|].
  constructor; [exact Hr|].
  eapply List.Forall_impl; [|exact Ha]. intros a Hx. simpl in Hx.
  inversion Hx; subst. assumption.
Qed.

(** C2 (amended). For replacements that are in bounds, pairwise disjoint
    and start at pairwise different offsets, [applyReplacementsToContent]
    gives the text that results from applying the same replacements one at a
    time in any order, each at its original offsets. *)
Theorem replacements_order_independent (T : jsstring) (R order : list Replacement) :
  Forall (in_bounds T) R ->
  ForallOrdPairs apart R ->
  Permutation order R ->
  apply_one_at_a_time T order = applyReplacementsToContent T R.
Proof.
  intros Hb Hp Hperm.
  apply pairwise_separated in Hp.
  assert (Hso : separated order) by (exact (separated_perm _ _ (Permutation_sym Hperm) Hp)).
  assert (Hbo : Forall (in_bounds T) order)
    by (exact (Permutation_Forall (Permutation_sym Hperm) Hb)).
  pose proof (sort_desc_perm R) as Hsp.
  assert (Hss : separated (sort_desc R))
    by (exact (separated_perm _ _ (Permutation_sym Hsp) Hp)).
  assert (Hbs : Forall (in_bounds T) (sort_desc R))
    by (exact (Permutation_Forall (Permutation_sym Hsp) Hb)).
  unfold applyReplacementsToContent, apply_one_at_a_time.
  rewrite (fold_splice_in_order (sort_desc R) T [] (sort_desc_falling R Hp))
    by constructor.
  pose proof (apply_in_order_render T order [] Hso Hbo) as H1.
  pose proof (apply_in_order_render T (sort_desc R) [] Hss Hbs) as H2.
  simpl in H1, H2. change (skipn 0 T) with T in H1, H2.
  rewrite H1, H2. f_equal. apply asc_of_order.
  - rewrite !app_nil_r, <- !Permutation_rev, Hperm, Hsp. reflexivity.
  - rewrite app_nil_r. exact (separated_perm _ _ (Permutation_rev order) Hso).
Qed.

(** On replacements that are in bounds the clamps of
    [applyReplacementsReverse] change nothing, so the editor ends up with
    the text [applyReplacementsToContent] computes. *)
Lemma reverse_is_content (T : jsstring) (R : list Replacement) :
  Forall (in_bounds T) R ->
  applyReplacementsReverse T R = applyReplacementsToContent T R.
Proof.
  intros Hb. unfold applyReplacementsReverse, applyReplacementsToContent.
  pose proof (Permutation_Forall (Permutation_sym (sort_desc_perm R)) Hb) as Hs.
  set (len := Z.of_nat (length T)).
  assert (Hfold : forall L buf, Forall (in_bounds T) L ->
            fold_left (fun buf r =>
                         replaceRange buf (text r) (Utils.clamp (start r) 0 len)
                           (Utils.clamp (end_ r) (Utils.clamp (start r) 0 len) len))
                      L buf
            = fold_left splice L buf).
  { induction L as [|r L IH]; intros buf HL; [reflexivity|].
    inversion HL as [|? ? Hr HL']; subst. simpl. rewrite IH by exact HL'. f_equal.
    unfold replaceRange, splice, Utils.clamp, in_bounds in *. subst len.
    rewrite !Z.min_r by lia. rewrite !Z.max_r by lia. reflexivity. }
  apply Hfold. exact Hs.
Qed.

(** The claim in the words of the specification: the spans need only be
    in bounds and pairwise non-overlapping. *)
Definition spec_order_independent : Prop :=
  forall T R order,
    Forall (in_bounds T) R -> ForallOrdPairs disjoint R -> Permutation order R ->
    apply_one_at_a_time T order = applyReplacementsToContent T R.

Definition insertion : Replacement := {| start := 2; end_ := 2; text := str_of "X" |}.
Definition substitution : Replacement := {| start := 2; end_ := 5; text := str_of "Y" |}.

(** An insertion at the offset where a replaced span starts overlaps
    nothing, yet the code, which carries the insertion out first, then cuts
    the span out of the text that already holds it. *)
Lemma empty_span_at_shared_start : ~ spec_order_independent.
Proof.
  intros Hspec.
  specialize (Hspec (str_of "abcdef") [insertion; substitution] [substitution; insertion]).
  assert (H : apply_one_at_a_time (str_of "abcdef") [substitution; insertion]
              = applyReplacementsToContent (str_of "abcdef") [insertion; substitution]).
  { apply Hspec.
    - repeat (constructor; [unfold in_bounds; simpl; lia|]). constructor.
    - apply FOP_cons; [|apply FOP_cons; [constructor | apply FOP_nil]].
      constructor; [|constructor]. unfold disjoint. simpl. lia.
    - apply perm_swap. }
  vm_compute in H. discriminate.
Qed.

Definition first_fix : Replacement := {| start := 1; end_ := 3; text := str_of "12345" |}.
Definition second_fix : Replacement := {| start := 4; end_ := 6; text := [] |}.

Lemma replacements_order_independent_witness :
  apply_one_at_a_time (str_of "abcdef") [first_fix; second_fix]
  = applyReplacementsToContent (str_of "abcdef") [second_fix; first_fix].
Proof.
  apply replacements_order_independent.
  - repeat (constructor; [unfold in_bounds; simpl; lia|]). constructor.
  - apply FOP_cons; [|apply FOP_cons; [constructor | apply FOP_nil]].
    constructor; [|constructor]. unfold apart, before. simpl. lia.
  - apply perm_swap.
Defined.

End ReplaceFacts.

(** * The blocks of a document: numbering and bounds *)
Module BlockFacts.
Import Regex Utils JSFacts RegexFacts ExtractFacts.

(** A block lies in the document, and its span is as long as its text. *)
Definition within (D : jsstring) (b : MermaidBlock) : Prop :=
  (0 <= startOffset b)%Z
  /\ endOffset b = (startOffset b + Z.of_nat (length (code b)))%Z
  /\ (endOffset b <= Z.of_nat (length D))%Z.

Lemma extract_loop_within D : forall fuel li idx bs out,
  extract_loop fuel D li idx bs = Some out ->
  idx = length bs -> map index bs = seq 0 (length bs) ->
  Forall (within D) bs ->
  map index out = seq 0 (length out) /\ Forall (within D) out.
Proof.
  induction fuel as [|fuel IH]; intros li idx bs out Hl Hidx Hseq Hw; [discriminate|].
  simpl in Hl. destruct (exec_from gmi re_block D li) as [m|] eqn:He.
  - pose proof (exec_from_spec _ _ _ _ _ He) as (H1 & H2 & H3 & H4).
    destruct (JSFacts.indexOf_spec (m_whole m) (group 5 m))
      as [Hneg | (k & Hk & Hf & Hlen)].
    + destruct (Z.ltb_spec (JS.indexOf (m_whole m) (group 5 m)) 0); [|lia].
      eapply IH; eauto.
    + rewrite Hk in Hl. destruct (Z.ltb_spec (Z.of_nat k) 0); [lia|].
      eapply IH; [exact Hl | | |].
      * rewrite length_app. simpl. lia.
      * rewrite map_app, length_app, Hseq. simpl.
        rewrite seq_app. simpl. subst idx. reflexivity.
      * apply List.Forall_app. split; [exact Hw|].
        constructor; [|constructor].
        assert (Hwl : length (m_whole m) = m_end m - m_index m).
        { rewrite H4, length_firstn, length_skipn. lia. }
        unfold within. simpl. lia.
  - injection Hl as <-. auto.
Qed.

Lemma blocks_within D :
  map index (extractMermaidBlocks D) = seq 0 (length (extractMermaidBlocks D))
  /\ Forall (within D) (extractMermaidBlocks D).
Proof.
  pose proof (extract_loop_total D (S (length D)) ltac:(lia)) as Ht.
  unfold extractMermaidBlocks_fuel in Ht.
  eapply extract_loop_within; [exact Ht | reflexivity | reflexivity | constructor].
Qed.

Lemma blocks_sorted D : StronglySorted before_block (extractMermaidBlocks D).
Proof.
  assert (Hs : exists out, extract_loop (S (length D)) D 0 0 [] = Some out
                           /\ Forall (round_trips D) out
                           /\ StronglySorted before_block out).
  { apply extract_loop_spec; try lia; constructor. }
  destruct Hs as (out & Ho & _ & Hso).
  unfold extractMermaidBlocks, extractMermaidBlocks_fuel. rewrite Ho. exact Hso.
Qed.

(** X1. The blocks of a document are numbered 0, 1, 2, ... in the order
    they are returned, and the span of each lies inside the document and is
    exactly as long as the block's text. *)
Theorem blocks_numbered_and_in_bounds (D : jsstring) :
  map index (extractMermaidBlocks D) = seq 0 (length (extractMermaidBlocks D))
  /\ Forall (fun b => (0 <= startOffset b)%Z
                      /\ endOffset b = (startOffset b + Z.of_nat (length (code b)))%Z
                      /\ (endOffset b <= Z.of_nat (length D))%Z)
            (extractMermaidBlocks D).
Proof. exact (blocks_within D). Qed.

End BlockFacts.

(** * The rewritten document, read from left to right *)
Module RenderFacts.
Import Utils Main ReplaceFacts ExtractFacts BlockFacts.

Lemma chain_separated l : chain l -> separated l.
Proof.
  intros Hc. apply pairwise_separated.
  induction Hc as [|a l Hc IH Ha]; [constructor|].
  constructor; [|exact IH].
  eapply List.Forall_impl; [|exact Ha]. intros b Hb. left. exact Hb.
Qed.

Lemma asc_of_chain_id l : chain l -> asc_of l = l.
Proof.
  induction 1 as [|a l Hc IH Ha]; [reflexivity|].
  simpl. rewrite IH. destruct l as [|b l']; [reflexivity|].
  simpl. inversion Ha as [|? ? Hab _]; subst. destruct Hab as [_ Hlt].
  destruct (Z.ltb_spec (start a) (start b)); [reflexivity | lia].
Qed.

(** What [applyReplacementsToContent] computes, read from left to right. *)
Lemma content_render T R :
  Forall (in_bounds T) R -> separated R ->
  applyReplacementsToContent T R = render T 0 (asc_of R).
Proof.
  intros Hb Hp.
  pose proof (sort_desc_perm R) as Hsp.
  assert (Hss : separated (sort_desc R))
    by (exact (separated_perm _ _ (Permutation_sym Hsp) Hp)).
  assert (Hbs : Forall (in_bounds T) (sort_desc R))
    by (exact (Permutation_Forall (Permutation_sym Hsp) Hb)).
  unfold applyReplacementsToContent.
  rewrite (fold_splice_in_order (sort_desc R) T [] (sort_desc_falling R Hp))
    by constructor.
  pose proof (apply_in_order_render T (sort_desc R) [] Hss Hbs) as H2.
  simpl in H2. change (skipn 0 T) with T in H2.
  rewrite H2. f_equal. apply asc_of_order.
  - rewrite !app_nil_r, <- !Permutation_rev. exact Hsp.
  - rewrite app_nil_r. exact (separated_perm _ _ (Permutation_rev _) Hss).
Qed.

Lemma reverse_render T R :
  Forall (in_bounds T) R -> chain R -> applyReplacementsReverse T R = render T 0 R.
Proof.
  intros Hb Hc. rewrite reverse_is_content by exact Hb.
  rewrite content_render by (auto using chain_separated).
  rewrite asc_of_chain_id by exact Hc. reflexivity.
Qed.

Lemma sublist_Forall' {A} (P : A -> Prop) (l k : list A) :
  l `sublist_of` k -> Forall P k -> Forall P l.
Proof.
  induction 1 as [|x l k Hs IH|x l k Hs IH]; intros Hk; [constructor| |];
    inversion Hk; subst; [constructor|]; auto.
Qed.

Lemma sublist_sorted {A} (R : A -> A -> Prop) (l k : list A) :
  l `sublist_of` k -> StronglySorted R k -> StronglySorted R l.
Proof.
  induction 1 as [|x l k Hs IH|x l k Hs IH]; intros Hk; [constructor| |];
    inversion Hk; subst; auto.
  constructor; [auto|]. eapply sublist_Forall'; eauto.
Qed.

Definition fix_of (f : MermaidBlock * jsstring) : Replacement :=
  replacement_of (fst f) (snd f).

(** Fixes for blocks of the document, in document order, make a list of
    replacements that [applyReplacementsReverse] can carry out as they
    stand. *)
Lemma fixes_in_order D (fixes : list (MermaidBlock * jsstring)) :
  map fst fixes `sublist_of` extractMermaidBlocks D ->
  Forall (in_bounds D) (map fix_of fixes) /\ chain (map fix_of fixes).
Proof.
  intros Hs.
  pose proof (sublist_Forall' _ _ _ Hs (proj2 (blocks_within D))) as Hw.
  pose proof (sublist_sorted _ _ _ Hs (blocks_sorted D)) as Hso.
  clear Hs. induction fixes as [|[b t] fixes IH]; simpl in *.
  - split; constructor.
  - inversion Hw as [|? ? Hb Hw']; subst. inversion Hso as [|? ? Hso' Hb']; subst.
    destruct (IH Hw' Hso') as [IH1 IH2]. split.
    + constructor; [|exact IH1]. unfold within in Hb. unfold in_bounds, fix_of. simpl. lia.
    + constructor; [exact IH2|].
      clear -Hb'. induction fixes as [|[b' t'] fixes IH]; simpl; [constructor|].
      inversion Hb' as [|? ? H1 H2]; subst. constructor; [|auto].
      unfold before_block in H1. unfold before, fix_of. simpl. lia.
Qed.

End RenderFacts.

(** * What a run of the retry loop writes and sends *)
Module RunFacts.
Import Regex Async Utils Gemini Main JSFacts ExtractFacts OrchestratorFacts BlockFacts
  RenderFacts.

(** The text passes validation on the mermaid object [g], under one of the
    element ids of the host. *)
Definition validated (H : host) (g : option mermaid_obj) (txt : jsstring) : Prop :=
  exists n v,
    fst (validateMermaidAsync (type_error (services H)) (random_id H n) g txt) = Returns v
    /\ ok v = true.

Lemma validate_keeps_mermaid te id g codeRaw r g' :
  validateMermaidAsync te id g codeRaw = (r, g') -> r <> Hangs -> g' = g.
Proof.
  intros Hv Hr. unfold validateMermaidAsync in Hv.
  destruct g as [m|]; [|injection Hv as _ <-; reflexivity].
  destruct (choose_entry _ id _) as [run| |].
  - destruct (play (events run) Trap None) as [h trapped].
    destruct (ending run).
    1,2: destruct trapped as [t|]; [destruct (JS.truthy t)|];
         injection Hv as _ <-; destruct m; reflexivity.
    1,3: injection Hv as _ <-; destruct m; reflexivity.
    injection Hv as <- _. contradiction.
  - injection Hv as _ <-. destruct m; reflexivity.
  - injection Hv as _ <-. destruct m; reflexivity.
Qed.

Lemma validate_never_throws te id g codeRaw msg :
  fst (validateMermaidAsync te id g codeRaw) <> Throws msg.
Proof.
  unfold validateMermaidAsync. destruct g as [m|]; [|discriminate].
  destruct (choose_entry _ id _) as [run| |]; [|discriminate ..].
  destruct (play (events run) Trap None) as [h trapped].
  destruct (ending run); try discriminate;
    destruct trapped as [t|]; try discriminate; destruct (JS.truthy t); discriminate.
Qed.

Lemma validate_spec H codeRaw w r w' :
  validate H codeRaw w = (r, w') ->
  match r with
  | Returns v => mermaid w' = mermaid w /\ (ok v = true -> validated H (mermaid w) codeRaw)
  | Throws _ => False
  | Hangs => True
  end.
Proof.
  unfold validate.
  destruct (validateMermaidAsync _ _ _ _) as [r0 g] eqn:Ev.
  intros Hr. injection Hr as <- <-. simpl.
  destruct r0 as [v|msg|]; [| |exact I].
  - split; [eapply validate_keeps_mermaid; [exact Ev | discriminate]|].
    intros Hok. exists (validations w), v. rewrite Ev. auto.
  - eapply validate_never_throws. rewrite Ev. reflexivity.
Qed.

Lemma fix_call_mermaid H cfg cur err w r w' :
  fix_call H cfg cur err w = (r, w') -> mermaid w' = mermaid w.
Proof.
  unfold fix_call. destruct (geminiFixWithBackoff _ _ _ _ _ _ _) as [r0 c0].
  intros Hr. injection Hr as <- <-. reflexivity.
Qed.

(** The attempts on one block send at most one request each, and a block
    comes out as fixed only with a text that passed validation. *)
Lemma attempts_validated H cfg block : forall left attempt cur err w r w',
  attempts H cfg block left attempt cur err w = (r, w') ->
  (exists new, requests (client_state w') = requests (client_state w) ++ new
               /\ length new <= left)
  /\ match r with
     | Returns v =>
         mermaid w' = mermaid w
         /\ (success v = true ->
             cancelled v = false
             /\ exists fixed, fixedCode v = Some fixed /\ validated H (mermaid w) fixed)
     | _ => True
     end.
Proof.
  induction left as [|left IH]; intros attempt cur err w r w' Ha; simpl in Ha.
  - injection Ha as <- <-. split.
    + exists []. rewrite app_nil_r. auto.
    + split; [reflexivity | discriminate].
  - set (w1 := notify (Trying (index block) attempt) w) in *.
    destruct (fix_call H cfg cur err w1) as [r1 w2] eqn:Ef.
    pose proof (fix_call_mermaid _ _ _ _ _ _ _ Ef) as Hm2.
    change (mermaid w1) with (mermaid w) in Hm2.
    assert (Hq2 : exists new, requests (client_state w2) = requests (client_state w) ++ new
                              /\ length new <= 1).
    { unfold fix_call, geminiFixWithBackoff in Ef.
      destruct (geminiFixSingle _ _ _ _ _ _ _ _) as [r0 c0] eqn:Eg.
      injection Ef as _ <-. simpl.
      apply fix_step in Eg as [(-> & _) | (req & Hreq & _)].
      - exists []. rewrite app_nil_r. auto.
      - exists [req]. auto. }
    destruct Hq2 as (new1 & Hq2 & Hl1).
    assert (Hone : exists new, requests (client_state w2) = requests (client_state w) ++ new
                               /\ length new <= S left).
    { exists new1. split; [exact Hq2 | lia]. }
    destruct r1 as [proposedFix | msg | ].
    + destruct (validate H _ w2) as [rv w3] eqn:Ev.
      pose proof (validate_spec _ _ _ _ _ Ev) as Hv.
      destruct (validate_frame _ _ _ _ _ Ev) as (He3 & Hn3 & Hc3).
      destruct rv as [validation | msg | ]; [|contradiction|].
      * destruct Hv as [Hm3 Hval].
        destruct (ok validation) eqn:Hok.
        -- injection Ha as <- <-. simpl. rewrite Hc3. split; [exact Hone|].
           split; [congruence|]. intros _. split; [reflexivity|].
           eexists. split; [reflexivity|]. rewrite <- Hm2. apply Hval. reflexivity.
        -- match type of Ha with
           | attempts _ _ _ _ _ _ _ ?x = _ => set (w4 := x) in *
           end.
           assert (Hw4 : mermaid w4 = mermaid w /\ client_state w4 = client_state w2).
           { subst w4. destruct (attempt <? maxAttempts); simpl; split; congruence. }
           destruct Hw4 as [Hm4 Hc4].
           destruct (IH _ _ _ _ _ _ Ha) as ((new2 & Hq5 & Hl2) & Hr).
           split.
           ++ exists (new1 ++ new2). rewrite Hq5, Hc4, Hq2, <- app_assoc, length_app.
              split; [reflexivity | lia].
           ++ destruct r as [v| |]; [|exact I ..]. rewrite <- Hm4. exact Hr.
      * injection Ha as <- <-. rewrite Hc3. split; [exact Hone | exact I].
    + injection Ha as <- <-. simpl. split; [exact Hone|].
      split; [exact Hm2 | discriminate].
    + injection Ha as <- <-. split; [exact Hone | exact I].
Qed.

#[local] Arguments attempts : simpl never.

(** The loop over the blocks in error queues fixes only for blocks of its
    list, in the order of the list, and only texts that passed validation. *)
Lemma blocks_loop_fixes H cfg cf : forall ebs b w r w',
  blocks_loop H cfg cf ebs b w = (r, w') ->
  (exists new, requests (client_state w') = requests (client_state w) ++ new
               /\ length new <= maxAttempts * length ebs)
  /\ match r with
     | Returns b' =>
         mermaid w' = mermaid w
         /\ exists fixes,
              replacements b' = replacements b ++ map fix_of fixes
              /\ map fst fixes `sublist_of` map fst ebs
              /\ Forall (fun f => validated H (mermaid w) (snd f)) fixes
     | _ => True
     end.
Proof.
  induction ebs as [|[block err] more IH]; intros b w r w' Hb.
  - simpl in Hb. injection Hb as <- <-. split.
    + exists []. rewrite app_nil_r. auto.
    + split; [reflexivity|]. exists []. rewrite app_nil_r. repeat split; constructor.
  - simpl in Hb. unfold query_file in Hb.
    match type of Hb with
    | context [attempts _ _ _ _ _ _ _ ?x] => set (w0 := x) in *
    end.
    assert (Hnil : forall (b' : batch), replacements b' = replacements b ->
              exists fixes : list (MermaidBlock * jsstring),
                replacements b' = replacements b ++ map fix_of fixes
                /\ map fst fixes `sublist_of` map fst ((block, err) :: more)
                /\ Forall (fun f => validated H (mermaid w) (snd f)) fixes).
    { intros b' Hb'. exists []. rewrite app_nil_r.
      split; [exact Hb'|]. split; [apply sublist_nil_l | constructor]. }
    destruct (negb (JS.str_eqb cf (active_file H (file_queries w)))).
    { injection Hb as <- <-. split.
      - exists []. rewrite app_nil_r. split; [reflexivity | simpl; lia].
      - split; [reflexivity|]. apply Hnil. reflexivity. }
    destruct (attempts H cfg block maxAttempts 1 (code block) err w0) as [ra w1] eqn:Ea.
    destruct (attempts_validated _ _ _ _ _ _ _ _ _ _ Ea) as ((new1 & Hq1 & Hl1) & Hra).
    change (client_state w0) with (client_state w) in Hq1.
    change (mermaid w0) with (mermaid w) in Hra.
    assert (Hstop : exists new, requests (client_state w1) = requests (client_state w) ++ new
                                /\ length new <= maxAttempts * length ((block, err) :: more)).
    { exists new1. split; [exact Hq1 | simpl length; lia]. }
    assert (Hcont : forall b2 w2 (extra : list (MermaidBlock * jsstring)),
              mermaid w2 = mermaid w -> client_state w2 = client_state w1 ->
              replacements b2 = replacements b ++ map fix_of extra ->
              map fst extra `sublist_of` [block] ->
              Forall (fun f => validated H (mermaid w) (snd f)) extra ->
              blocks_loop H cfg cf more b2 w2 = (r, w') ->
              (exists new, requests (client_state w') = requests (client_state w) ++ new
                           /\ length new <= maxAttempts * length ((block, err) :: more))
              /\ match r with
                 | Returns b' =>
                     mermaid w' = mermaid w
                     /\ exists fixes,
                          replacements b' = replacements b ++ map fix_of fixes
                          /\ map fst fixes `sublist_of` map fst ((block, err) :: more)
                          /\ Forall (fun f => validated H (mermaid w) (snd f)) fixes
                 | _ => True
                 end).
    { intros b2 w2 extra Hm2 Hc2 Hr2 Hs2 Hv2 Hl.
      destruct (IH _ _ _ _ Hl) as ((new2 & Hq3 & Hl3) & Hr3). split.
      - exists (new1 ++ new2). rewrite Hq3, Hc2, Hq1, <- app_assoc, length_app.
        split; [reflexivity | simpl length; lia].
      - destruct r as [b'| |]; [|exact I ..].
        destruct Hr3 as (Hm3 & fixes & Hf1 & Hf2 & Hf3). split; [congruence|].
        exists (extra ++ fixes). rewrite Hf1, Hr2, map_app, <- app_assoc.
        split; [reflexivity|]. split.
        + rewrite map_app. change (map fst ((block, err) :: more))
            with ([block] ++ map fst more). apply sublist_app; assumption.
        + apply List.Forall_app. split; [exact Hv2|].
          rewrite <- Hm2. exact Hf3. }
    destruct ra as [v | msg | ]; [| injection Hb as <- <-; split; [exact Hstop | exact I] ..].
    destruct Hra as [Hm1 Hsucc].
    destruct (cancelled v) eqn:Ec.
    + injection Hb as <- <-. split; [exact Hstop|]. split; [exact Hm1|].
      apply Hnil. reflexivity.
    + assert (Hskip : forall w2, mermaid w2 = mermaid w1 -> client_state w2 = client_state w1 ->
                blocks_loop H cfg cf more b w2 = (r, w') -> _) by
        (intros w2 Hm2 Hc2; apply (Hcont b w2 []);
         [congruence | exact Hc2 | rewrite app_nil_r; reflexivity
         | apply sublist_nil_l | constructor]).
      destruct (success v) eqn:Es.
      * destruct (Hsucc eq_refl) as (_ & fixed & Hfc & Hval). rewrite Hfc in Hb.
        destruct (JS.truthy fixed); [|revert Hb; apply Hskip; reflexivity].
        assert (Hpush : forall auto w2, mermaid w2 = mermaid w1 ->
                  client_state w2 = client_state w1 ->
                  blocks_loop H cfg cf more
                    {| replacements := replacements b ++ [replacement_of block fixed];
                       autoApply := auto; batch_cancelled := false |} w2 = (r, w') -> _) by
          (intros auto w2 Hm2 Hc2; apply (Hcont _ w2 [(block, fixed)]);
           [congruence | exact Hc2 | reflexivity | reflexivity
           | constructor; [exact Hval | constructor]]).
        destruct (autoApply b); [revert Hb; apply Hpush; reflexivity|].
        destruct (decide H (index block) (code block) fixed).
        -- revert Hb; apply Hpush; reflexivity.
        -- revert Hb; apply Hskip; reflexivity.
        -- destruct (saveData H (index block)) as [u | msg | ];
             [revert Hb; apply Hpush; reflexivity
             | injection Hb as <- <-; split; [exact Hstop | exact I] ..].
        -- injection Hb as <- <-. split; [exact Hstop | exact I].
      * revert Hb; apply Hskip; reflexivity.
Qed.

Lemma find_errors_blocks H : forall blocks w r w',
  find_errors H blocks w = (r, w') ->
  match r with
  | Returns errs => mermaid w' = mermaid w /\ map fst errs `sublist_of` blocks
  | Throws _ => False
  | Hangs => True
  end.
Proof.
  induction blocks as [|block more IH]; intros w r w' Hf; simpl in Hf.
  - injection Hf as <- <-. split; [reflexivity | constructor].
  - destruct (validate H (code block) w) as [rv w1] eqn:Ev.
    pose proof (validate_spec _ _ _ _ _ Ev) as Hv.
    destruct rv as [validation | msg | ]; [|contradiction|].
    + destruct Hv as [Hm1 _].
      destruct (find_errors H more w1) as [rf w2] eqn:Ef.
      specialize (IH _ _ _ Ef).
      destruct rf as [errs| |]; injection Hf as <- <-; [|exact IH|exact I].
      destruct IH as [Hm2 Hs]. split; [congruence|].
      destruct (ok validation); simpl; constructor; exact Hs.
    + injection Hf as <- <-. exact I.
Qed.

Import ReplaceFacts.

Lemma run_shape H cfg w doc :
  editor w = Some doc ->
  let out := runFixWithGemini H cfg w in
  (exists new, requests (client_state (snd out)) = requests (client_state w) ++ new
               /\ length new <= maxAttempts * length (extractMermaidBlocks doc))
  /\ (editor (snd out) = Some doc
      \/ (fst out = Returns tt
          /\ exists fixes : list (MermaidBlock * jsstring),
               map fst fixes `sublist_of` extractMermaidBlocks doc
               /\ Forall (fun f => validated H (mermaid w) (snd f)) fixes
               /\ editor (snd out)
                  = Some (applyReplacementsReverse (typed H doc) (map fix_of fixes)))).
Proof.
  intros Ed out. subst out. unfold runFixWithGemini. rewrite Ed.
  assert (Hsame : forall r n,
            (exists new, requests (client_state (snd (r, notify n w)))
                         = requests (client_state w) ++ new
                         /\ length new <= maxAttempts * length (extractMermaidBlocks doc))
            /\ (editor (snd (r : outcome unit, notify n w)) = Some doc
                \/ (fst (r, notify n w) = Returns tt
                    /\ exists fixes : list (MermaidBlock * jsstring),
                         map fst fixes `sublist_of` extractMermaidBlocks doc
                         /\ Forall (fun f => validated H (mermaid w) (snd f)) fixes
                         /\ editor (snd (r, notify n w))
                            = Some (applyReplacementsReverse (typed H doc)
                                      (map fix_of fixes))))).
  { intros r n. split; [|left; exact Ed].
    exists []. simpl. rewrite app_nil_r. split; [reflexivity | apply Nat.le_0_l]. }
  destruct (negb (JS.truthy (geminiApiKey cfg))); [apply Hsame|].
  destruct (negb (hasMermaid (mermaid w))); [apply Hsame|].
  destruct (extractMermaidBlocks doc) as [|blk blks] eqn:Eblocks; [apply Hsame|].
  set (wa := notify (Inspecting (length (blk :: blks))) w) in *.
  destruct (find_errors H (blk :: blks) wa) as [rf wb] eqn:Ef.
  destruct (find_errors_frame _ _ _ _ _ Ef) as (Heb & Hnb & Hcb).
  pose proof (find_errors_blocks _ _ _ _ _ Ef) as Hfb.
  change (editor wa) with (editor w) in Heb.
  change (client_state wa) with (client_state w) in Hcb.
  change (mermaid wa) with (mermaid w) in Hfb.
  assert (Hquiet : forall (r : outcome unit) w2,
            editor w2 = editor w -> client_state w2 = client_state w ->
            (exists new, requests (client_state (snd (r, w2)))
                         = requests (client_state w) ++ new
                         /\ length new <= maxAttempts * length (blk :: blks))
            /\ (editor (snd (r, w2)) = Some doc
                \/ (fst (r, w2) = Returns tt
                    /\ exists fixes : list (MermaidBlock * jsstring),
                         map fst fixes `sublist_of` blk :: blks
                         /\ Forall (fun f => validated H (mermaid w) (snd f)) fixes
                         /\ editor (snd (r, w2))
                            = Some (applyReplacementsReverse (typed H doc)
                                      (map fix_of fixes))))).
  { intros r w2 He Hc. simpl. split; [|left; congruence].
    exists []. rewrite Hc, app_nil_r. split; [reflexivity | apply Nat.le_0_l]. }
  destruct rf as [errs | msg | ]; [|contradiction|apply Hquiet; assumption].
  destruct Hfb as [Hmb Hsub].
  destruct errs as [|e errs]; [apply Hquiet; simpl; assumption|].
  unfold query_file.
  destruct (blocks_loop H cfg _ (e :: errs) _ _) as [rb we] eqn:Eb.
  destruct (blocks_loop_spec _ _ _ _ _ _ _ _ Eb) as (Hee & _).
  destruct (blocks_loop_fixes _ _ _ _ _ _ _ _ Eb) as ((new & Hq & Hl) & Hrb).
  cbn [editor client_state mermaid notify] in Hee, Hq, Hl, Hrb.
  rewrite Hcb in Hq. rewrite Heb in Hee.
  assert (Hlen : length new <= maxAttempts * length (blk :: blks)).
  { apply sublist_length in Hsub. rewrite length_map in Hsub.
    etransitivity; [exact Hl|]. apply Nat.mul_le_mono_l. exact Hsub. }
  assert (Hreq : forall (r : outcome unit) w2,
            client_state w2 = client_state we ->
            exists new, requests (client_state (snd (r, w2)))
                        = requests (client_state w) ++ new
                        /\ length new <= maxAttempts * length (blk :: blks)).
  { intros r w2 Hc. exists new. simpl. rewrite Hc. auto. }
  destruct rb as [b | msg | ];
    [| split; [apply Hreq; reflexivity | left; simpl; congruence] ..].
  destruct Hrb as (Hme & fixes & Hfx & Hfs & Hfv).
  destruct (negb (batch_cancelled b));
    [|split; [apply Hreq; reflexivity | left; simpl; congruence]].
  destruct (replacements b) as [|r0 reps] eqn:Er;
    [split; [apply Hreq; reflexivity | left; simpl; congruence]|].
  split; [apply Hreq; reflexivity|]. right. split; [reflexivity|].
  exists fixes. simpl in Hfx.
  assert (Hs : map fst fixes `sublist_of` blk :: blks)
    by (etransitivity; [exact Hfs | exact Hsub]).
  split; [exact Hs|]. split; [rewrite <- Hmb; exact Hfv|].
  simpl. rewrite Hfx. reflexivity.
Qed.

(** X2. What [runFixWithGemini] does to the editor, whatever the services
    and the parser do, whichever buttons the user presses and whatever the
    user types meanwhile.  Either the run does not write to the editor, or
    it returns after it has applied, by [applyReplacementsReverse] to the
    text it then finds in the editor, replacements for some of the blocks of
    the text it read at the start: in document order, at the offsets those
    blocks had in the text read at the start, each by a text that passed
    validation.  When the text found is the text read (nothing was typed
    during the run), the result is that text with the code of those blocks
    replaced and everything outside them copied as it is. *)
Theorem fix_run_rewrites_validated_blocks (H : host) (cfg : settings) (w : world)
    (doc : jsstring) :
  editor w = Some doc ->
  let out := runFixWithGemini H cfg w in
  editor (snd out) = Some doc
  \/ (fst out = Returns tt
      /\ exists fixes : list (MermaidBlock * jsstring),
           map fst fixes `sublist_of` extractMermaidBlocks doc
           /\ Forall (fun f => validated H (mermaid w) (snd f)) fixes
           /\ editor (snd out)
              = Some (applyReplacementsReverse (typed H doc) (map fix_of fixes))
           /\ (typed H doc = doc ->
               editor (snd out) = Some (render doc 0 (map fix_of fixes)))).
Proof.
  intros Ed out.
  destruct (proj2 (run_shape H cfg w doc Ed)) as [Hs | (Hr & fixes & Hsub & Hval & He)];
    [left; exact Hs|].
  right. split; [exact Hr|]. exists fixes. do 3 (split; [assumption|]).
  intros Ht. subst out. cbv zeta in He. rewrite He, Ht. f_equal.
  destruct (fixes_in_order doc fixes Hsub) as [Hin Hch].
  apply reverse_render; assumption.
Qed.

Lemma fix_run_rewrites_validated_blocks_witness :
  let out := runFixWithGemini Scenario.always_ok Scenario.cfg
               (Scenario.world_with Scenario.two_blocks) in
  editor (snd out) = Some Scenario.two_blocks
  \/ (fst out = Returns tt
      /\ exists fixes : list (MermaidBlock * jsstring),
           map fst fixes `sublist_of` extractMermaidBlocks Scenario.two_blocks
           /\ Forall (fun f => validated Scenario.always_ok (Some Scenario.the_mermaid) (snd f))
                     fixes
           /\ editor (snd out)
              = Some (applyReplacementsReverse Scenario.two_blocks (map fix_of fixes))
           /\ (Scenario.two_blocks = Scenario.two_blocks ->
               editor (snd out) = Some (render Scenario.two_blocks 0 (map fix_of fixes)))).
Proof.
  exact (fix_run_rewrites_validated_blocks Scenario.always_ok Scenario.cfg
           (Scenario.world_with Scenario.two_blocks) Scenario.two_blocks eq_refl).
Defined.

(** The user types at the head of the document while the run is waiting
    for the service: the fix is then put where the block was before, and
    cuts into the opening fence and the code. *)
Definition types_ahead : host :=
  {| services := services Scenario.always_ok;
     random_id := random_id Scenario.always_ok;
     active_file := active_file Scenario.always_ok;
     decide := decide Scenario.always_ok;
     saveData := saveData Scenario.always_ok;
     typed := fun doc => str_of "NEW " ++ doc |}.

Lemma typed_text_is_cut_at_old_offsets :
  editor (snd (runFixWithGemini types_ahead Scenario.cfg
                 (Scenario.world_with Scenario.one_block)))
  = Some (str_of "NEW ```mermgraph TD
  A-->BOKEN
```
").
Proof. vm_compute. reflexivity. Qed.

(** X3. A run of [runFixWithGemini] sends at most five requests for each
    block of the document, whatever the replies are; without a document in
    the editor it sends none. *)
Theorem fix_run_request_budget (H : host) (cfg : settings) (w : world) :
  exists new,
    requests (client_state (snd (runFixWithGemini H cfg w)))
    = requests (client_state w) ++ new
    /\ length new
       <= 5 * length (match editor w with
                      | Some doc => extractMermaidBlocks doc
                      | None => []
                      end).
Proof.
  destruct (editor w) as [doc|] eqn:Ed.
  - exact (proj1 (run_shape H cfg w doc Ed)).
  - unfold runFixWithGemini. rewrite Ed. exists []. simpl. rewrite app_nil_r. auto.
Qed.

End RunFacts.

(** * The correction client: settling, the memo table, abort *)
Module ClientMore.
Import Regex Async Utils Gemini TimeoutFacts ClientFacts.

Lemma timed_promise_settles {T} (p : fate T) ms controller tf :
  (0 < ms)%Z -> await (promise (withTimeout p ms controller tf)) <> Hangs.
Proof.
  intros Hms. unfold withTimeout.
  destruct (Z.leb_spec ms 0); [lia|].
  destruct (timer_wins p ms tf) eqn:Ew; simpl; [discriminate|].
  destruct p; simpl; discriminate.
Qed.

Lemma fix_single_settles (E : env)
    (apiKey model original errorMsg : jsstring) (ms : Z) (ver : jsstring) (c : client) :
  (0 < ms)%Z ->
  fst (geminiFixSingle E apiKey model original errorMsg ms ver c) <> Hangs.
Proof.
  intros Hms. unfold geminiFixSingle.
  destruct (JS.truthy (match fixMemo c !! _ with Some v => v | None => [] end));
    [discriminate|].
  pose proof (timed_promise_settles
                (callGeminiSingle E (length (requests c))
                   {| req_version := ver; req_model := model; req_apiKey := apiKey;
                      req_prompt := buildGeminiPromptV2 E (preNormalizeMermaid original)
                                      errorMsg (Utils.inferDiagramType original) |})
                ms true (timer_first E (length (requests c))) Hms) as Hs.
  destruct (await _) as [raw| |]; [| discriminate | contradiction].
  destruct (negb (JS.truthy (sanitizeMermaidOutput (extractFromSentinel raw))));
    [|discriminate].
  destruct (JS.truthy (preNormalizeMermaid original)
            && negb (JS.str_eqb (preNormalizeMermaid original) original)); discriminate.
Qed.

(** X4. With a positive timeout a call of the correction client always
    comes to an end: it returns a text or throws, whatever the network
    does. *)
Theorem fix_settles_with_timeout (E : env)
    (apiKey model original errorMsg : jsstring) (ms : Z) (ver : jsstring) (c : client) :
  (0 < ms)%Z ->
  fst (geminiFixSingle E apiKey model original errorMsg ms ver c) <> Hangs.
Proof. exact (fix_single_settles E apiKey model original errorMsg ms ver c). Qed.

Lemma fix_settles_with_timeout_witness :
  fst (geminiFixSingle (Main.services (Scenario.host_with (fun _ => Pending)))
         (str_of "k") (str_of "m") (str_of "graph TD") (str_of "Parse error") 30000
         (str_of "v1beta") Scenario.fresh_client) <> Hangs.
Proof. apply fix_settles_with_timeout. lia. Defined.

(** X5. What a call of the correction client leaves behind.  A text that
    is returned is the entry of the memo table under the key of the call.  A
    call that does not return a text leaves the memo table as it was and has
    sent exactly one request, so that repeating the call asks the service
    again. *)
Theorem fix_caches_results_only (E : env)
    (apiKey model original errorMsg : jsstring) (ms : Z) (ver : jsstring) (c : client) :
  let out := geminiFixSingle E apiKey model original errorMsg ms ver c in
  match fst out with
  | Returns r => fixMemo (snd out) !! key_of model original errorMsg ver = Some r
  | _ => fixMemo (snd out) = fixMemo c
         /\ requests (snd out)
            = requests c ++ [request_of E apiKey model original errorMsg ver]
  end.
Proof.
  intros out.
  destruct (fst out) as [r| |] eqn:Eo.
  - apply (fix_returns_recorded E apiKey model original errorMsg ms ver c r (snd out)).
    rewrite <- Eo. apply surjective_pairing.
  - subst out. revert Eo. unfold geminiFixSingle.
    destruct (JS.truthy (match fixMemo c !! _ with Some v => v | None => [] end));
      [discriminate|].
    destruct (await _) as [raw| |]; [| intros _; split; reflexivity | discriminate].
    destruct (negb (JS.truthy (sanitizeMermaidOutput (extractFromSentinel raw))));
      [|discriminate].
    destruct (JS.truthy (preNormalizeMermaid original)
              && negb (JS.str_eqb (preNormalizeMermaid original) original));
      [discriminate | intros _; split; reflexivity].
  - subst out. revert Eo. unfold geminiFixSingle.
    destruct (JS.truthy (match fixMemo c !! _ with Some v => v | None => [] end));
      [discriminate|].
    destruct (await _) as [raw| |]; [| discriminate | intros _; split; reflexivity].
    destruct (negb (JS.truthy (sanitizeMermaidOutput (extractFromSentinel raw))));
      [|discriminate].
    destruct (JS.truthy (preNormalizeMermaid original)
              && negb (JS.str_eqb (preNormalizeMermaid original) original)); discriminate.
Qed.

(** X6. The client calls [abort()] at most once per call, and only when
    the call ends in the timeout error; with a timeout that is not positive
    it never does. *)
Theorem abort_only_on_timeout (E : env)
    (apiKey model original errorMsg : jsstring) (ms : Z) (ver : jsstring) (c : client) :
  let out := geminiFixSingle E apiKey model original errorMsg ms ver c in
  abort_calls (snd out) = abort_calls c
  \/ (abort_calls (snd out) = abort_calls c + 1
      /\ fst out = Throws timeout_message /\ (0 < ms)%Z).
Proof.
  intros out. subst out. unfold geminiFixSingle.
  destruct (JS.truthy (match fixMemo c !! _ with Some v => v | None => [] end));
    [left; reflexivity|].
  unfold withTimeout.
  destruct (Z.leb_spec ms 0) as [Hle | Hlt].
  - left. cbn [aborts promise].
    destruct (await _) as [raw| |]; [| simpl; lia ..].
    destruct (negb (JS.truthy (sanitizeMermaidOutput (extractFromSentinel raw))));
      [|simpl; lia].
    destruct (JS.truthy (preNormalizeMermaid original)
              && negb (JS.str_eqb (preNormalizeMermaid original) original)); simpl; lia.
  - destruct (timer_wins _ ms _).
    + right. simpl. auto.
    + left. cbn [aborts promise].
      destruct (await _) as [raw| |]; [| simpl; lia ..].
      destruct (negb (JS.truthy (sanitizeMermaidOutput (extractFromSentinel raw))));
        [|simpl; lia].
      destruct (JS.truthy (preNormalizeMermaid original)
                && negb (JS.str_eqb (preNormalizeMermaid original) original)); simpl; lia.
Qed.

End ClientMore.

(** * When the retry loop comes to an end *)
Module CompletionFacts.
Import Regex Async Utils Gemini Main SearchFacts TimeoutFacts OrchestratorFacts RunFacts
  ClientMore.

Lemma validate_returns H codeRaw w :
  (forall id code,
     fst (validateMermaidAsync (type_error (services H)) id (mermaid w) code) <> Hangs) ->
  exists v w', validate H codeRaw w = (Returns v, w')
               /\ mermaid w' = mermaid w.
Proof.
  intros Hp. destruct (validate H codeRaw w) as [r w'] eqn:Ev.
  pose proof (validate_spec _ _ _ _ _ Ev) as Hs.
  destruct r as [v|msg|]; [| contradiction |].
  - exists v, w'. split; [reflexivity | exact (proj1 Hs)].
  - exfalso. unfold validate in Ev.
    destruct (validateMermaidAsync _ _ _ _) as [r0 g] eqn:Ev0.
    injection Ev as -> _. apply (Hp (random_id H (validations w)) codeRaw).
    rewrite Ev0. reflexivity.
Qed.

Lemma attempts_return H cfg block : forall left attempt cur err w,
  (0 < requestTimeoutMs cfg)%Z ->
  (forall id code,
     fst (validateMermaidAsync (type_error (services H)) id (mermaid w) code) <> Hangs) ->
  exists v w', attempts H cfg block left attempt cur err w = (Returns v, w')
               /\ mermaid w' = mermaid w.
Proof.
  induction left as [|left IH]; intros attempt cur err w Hms Hp; simpl.
  - eauto.
  - set (w1 := notify (Trying (index block) attempt) w).
    destruct (fix_call H cfg cur err w1) as [r1 w2] eqn:Ef.
    pose proof (fix_call_mermaid _ _ _ _ _ _ _ Ef) as Hm2.
    change (mermaid w1) with (mermaid w) in Hm2.
    destruct r1 as [proposedFix | msg | ].
    + destruct (validate_returns H
                  (preserveInitIfNeeded (code block) proposedFix (preserveInitDirective cfg))
                  w2) as (v & w3 & Ev & Hm3).
      { rewrite Hm2. exact Hp. }
      rewrite Ev. destruct (ok v).
      * eexists _, _. split; [reflexivity|]. simpl. congruence.
      * match goal with
        | |- context [attempts _ _ _ _ _ _ _ ?x] => set (w4 := x)
        end.
        assert (Hm4 : mermaid w4 = mermaid w).
        { subst w4. destruct (attempt <? maxAttempts); simpl; congruence. }
        destruct (IH (S attempt)
                    (preserveInitIfNeeded (code block) proposedFix
                       (preserveInitDirective cfg))
                    (match error v with Some e => e | None => msg_still_broken end)
                    w4 Hms) as (v' & w' & Ha & Hm').
        { rewrite Hm4. exact Hp. }
        rewrite Ha. exists v', w'. split; [reflexivity | congruence].
    + eexists _, _. split; [reflexivity|]. simpl. exact Hm2.
    + exfalso. unfold fix_call, geminiFixWithBackoff in Ef.
      destruct (geminiFixSingle _ _ _ _ _ _ _ _) as [r0 c0] eqn:Eg.
      injection Ef as -> _.
      apply (fix_single_settles (services H) (geminiApiKey cfg) (geminiModel cfg)
               cur err (requestTimeoutMs cfg) (str_of "v1beta") (client_state w1) Hms).
      rewrite Eg. reflexivity.
Qed.

Lemma blocks_loop_returns H cfg cf : forall ebs b w,
  (0 < requestTimeoutMs cfg)%Z ->
  (forall id code,
     fst (validateMermaidAsync (type_error (services H)) id (mermaid w) code) <> Hangs) ->
  (forall k original proposed, decide H k original proposed <> NoAnswer) ->
  (forall k, saveData H k = Returns tt) ->
  exists b' w', blocks_loop H cfg cf ebs b w = (Returns b', w').
Proof.
  induction ebs as [|[block err] more IH]; intros b w Hms Hp Hd Hsave; cbn [blocks_loop].
  - eauto.
  - unfold query_file.
    destruct (negb (JS.str_eqb cf (active_file H (file_queries w)))); [eauto|].
    match goal with
    | |- context [attempts _ _ _ _ _ _ _ ?x] => set (w0 := x)
    end.
    destruct (attempts_return H cfg block maxAttempts 1 (code block) err w0 Hms Hp)
      as (v & w1 & Ha & Hm1).
    rewrite Ha. change (mermaid w0) with (mermaid w) in Hm1.
    destruct (cancelled v); [eauto|].
    assert (Hnext : forall b2 w2, mermaid w2 = mermaid w1 ->
              exists b' w', blocks_loop H cfg cf more b2 w2 = (Returns b', w')).
    { intros b2 w2 Hm2. apply IH; [exact Hms | | exact Hd | exact Hsave].
      rewrite Hm2, Hm1. exact Hp. }
    destruct (if success v then fixedCode v else None) as [fixed|];
      [|apply Hnext; reflexivity].
    destruct (JS.truthy fixed); [|apply Hnext; reflexivity].
    destruct (autoApply b); [apply Hnext; reflexivity|].
    pose proof (Hd (index block) (code block) fixed) as Hans.
    destruct (decide H (index block) (code block) fixed);
      [apply Hnext; reflexivity | apply Hnext; reflexivity | | contradiction].
    rewrite Hsave. apply Hnext. reflexivity.
Qed.

Lemma find_errors_returns H : forall blocks w,
  (forall id code,
     fst (validateMermaidAsync (type_error (services H)) id (mermaid w) code) <> Hangs) ->
  exists errs w', find_errors H blocks w = (Returns errs, w')
                  /\ mermaid w' = mermaid w.
Proof.
  induction blocks as [|block more IH]; intros w Hp; simpl.
  - eauto.
  - destruct (validate_returns H (code block) w Hp) as (v & w1 & Ev & Hm1).
    rewrite Ev.
    destruct (IH w1) as (errs & w2 & Ef & Hm2); [rewrite Hm1; exact Hp|].
    rewrite Ef. eexists _, _. split; [reflexivity | congruence].
Qed.

(** X7. A run of [runFixWithGemini] comes to an end when the request
    timeout is positive, the parser never hands back a promise that stays
    pending, the user answers every preview, and the settings are saved
    whenever the user asks for automatic application ([saveData] is
    fulfilled: the preview does not handle its rejection, and the run would
    wait for ever); the network may do anything. *)
Theorem fix_run_completes (H : host) (cfg : settings) (w : world) :
  (0 < requestTimeoutMs cfg)%Z ->
  (forall id code,
     fst (validateMermaidAsync (type_error (services H)) id (mermaid w) code) <> Hangs) ->
  (forall k original proposed, decide H k original proposed <> NoAnswer) ->
  (forall k, saveData H k = Returns tt) ->
  fst (runFixWithGemini H cfg w) = Returns tt.
Proof.
  intros Hms Hp Hd Hsave. unfold runFixWithGemini.
  destruct (editor w) as [doc|]; [|reflexivity].
  destruct (negb (JS.truthy (geminiApiKey cfg))); [reflexivity|].
  destruct (negb (hasMermaid (mermaid w))); [reflexivity|].
  destruct (extractMermaidBlocks doc) as [|blk blks]; [reflexivity|].
  set (wa := notify (Inspecting (length (blk :: blks))) w).
  destruct (find_errors_returns H (blk :: blks) wa Hp) as (errs & wb & Ef & Hmb).
  rewrite Ef. change (mermaid wa) with (mermaid w) in Hmb.
  destruct errs as [|e errs]; [reflexivity|].
  unfold query_file.
  match goal with
  | |- context [blocks_loop H cfg ?cf ?ebs ?b0 ?w0] =>
      destruct (blocks_loop_returns H cfg cf ebs b0 w0 Hms) as (b' & we & Eb);
        [simpl; rewrite Hmb; exact Hp | exact Hd | exact Hsave | rewrite Eb]
  end.
  destruct (negb (batch_cancelled b')); [|reflexivity].
  destruct (replacements b'); reflexivity.
Qed.

(** The first request is never answered; the parser settles, the user
    asks for automatic application at the first preview and the settings
    are saved. *)
Definition asks_auto : host :=
  {| services := Scenario.services_with
                   (fun n => match n with 0 => Pending | _ => Scenario.reply_ok end);
     random_id := fun _ => str_of "tmp-1";
     active_file := fun _ => str_of "note.md";
     decide := fun _ _ _ => AutoApply;
     saveData := fun _ => Returns tt;
     typed := fun doc => doc |}.

Definition cfg_preview : settings :=
  {| geminiApiKey := str_of "k"; geminiModel := str_of "m"; applyMode_auto := false;
     requestTimeoutMs := 30000; preserveInitDirective := true |}.

Lemma fix_run_completes_witness :
  fst (runFixWithGemini asks_auto cfg_preview (Scenario.world_with Scenario.two_blocks))
  = Returns tt.
Proof.
  apply fix_run_completes.
  - reflexivity.
  - intros id code. cbn [mermaid Scenario.world_with].
    unfold validateMermaidAsync, choose_entry, Scenario.the_mermaid, set_parseError.
    cbn [parse parseError api_parse render]. unfold Scenario.parser.
    destruct (JS.includes _ _); simpl; discriminate.
  - intros k original proposed. discriminate.
  - intros k. reflexivity.
Defined.

End CompletionFacts.

(** * The replies that stop the run, and the timeout *)
Module AbortFacts.
Import Regex Async Utils Gemini Main SearchFacts TimeoutFacts OrchestratorFacts RunFacts
  ClientMore.

#[local] Arguments attempts : simpl never.

(** A request of the run that throws one of the errors that stop the run
    is the last request of the run; the run returns, its last notice reports
    the error, and the editor keeps its text. *)
Lemma hard_error_stops_run H cfg w n req m :
  let out := runFixWithGemini H cfg w in
  length (requests (client_state w)) <= n ->
  nth_error (requests (client_state (snd out))) n = Some req ->
  call_outcome (services H) (requestTimeoutMs cfg) n req = Throws m ->
  is_hard m = true ->
  fst out = Returns tt
  /\ editor (snd out) = editor w
  /\ S n = length (requests (client_state (snd out)))
  /\ exists pre k, notices (snd out) = notices w ++ pre ++ [GeminiError k m].
Proof.
  intros out Hn Hnth Hout Hhard.
  destruct out as [r w'] eqn:Hrun. subst out. cbn [fst snd] in *.
  unfold runFixWithGemini in Hrun.
  destruct (editor w) as [doc|] eqn:Ed;
    [|injection Hrun as <- <-; exfalso; exact (nth_error_beyond _ _ _ Hn Hnth)].
  destruct (negb (JS.truthy (geminiApiKey cfg)));
    [injection Hrun as <- <-; exfalso; exact (nth_error_beyond _ _ _ Hn Hnth)|].
  destruct (negb (hasMermaid (mermaid w)));
    [injection Hrun as <- <-; exfalso; exact (nth_error_beyond _ _ _ Hn Hnth)|].
  destruct (extractMermaidBlocks doc) as [|blk blks];
    [injection Hrun as <- <-; exfalso; exact (nth_error_beyond _ _ _ Hn Hnth)|].
  set (wa := notify (Inspecting (length (blk :: blks))) w) in *.
  destruct (find_errors H (blk :: blks) wa) as [rf wb] eqn:Ef.
  destruct (find_errors_frame _ _ _ _ _ Ef) as (Heb & Hnb & Hcb).
  change (editor wa) with (editor w) in Heb.
  change (notices wa) with (notices w ++ [Inspecting (length (blk :: blks))]) in Hnb.
  change (client_state wa) with (client_state w) in Hcb.
  destruct rf as [errs | msg | ];
    [| injection Hrun as <- <-; exfalso; rewrite Hcb in Hnth;
       exact (nth_error_beyond _ _ _ Hn Hnth)
     | injection Hrun as <- <-; exfalso; rewrite Hcb in Hnth;
       exact (nth_error_beyond _ _ _ Hn Hnth)].
  destruct errs as [|e errs];
    [injection Hrun as <- <-; exfalso; simpl in Hnth; rewrite Hcb in Hnth;
     exact (nth_error_beyond _ _ _ Hn Hnth)|].
  unfold query_file in Hrun.
  destruct (blocks_loop H cfg _ (e :: errs) _ _) as [rb we] eqn:Eb.
  destruct (blocks_loop_spec _ _ _ _ _ _ _ _ Eb) as (Hee & new & newn & Hqe & Hne & Hte).
  cbn [editor notices client_state notify] in Hee, Hne, Hqe, Hte.
  rewrite Hcb in Hqe, Hte.
  assert (Hreqs : requests (client_state w') = requests (client_state we)).
  { destruct rb as [b | msg | ]; [|injection Hrun as <- <-; reflexivity ..].
    destruct (negb (batch_cancelled b)); [|injection Hrun as <- <-; reflexivity].
    destruct (replacements b); injection Hrun as <- <-; reflexivity. }
  rewrite Hreqs, Hqe in Hnth.
  assert (Hth : thrown_at H cfg (length (requests (client_state w))) new
                  (n - length (requests (client_state w))) m).
  { exists req. rewrite nth_error_app2 in Hnth by exact Hn. split; [exact Hnth|].
    replace (length (requests (client_state w)) + (n - length (requests (client_state w))))
      with n by lia.
    exact Hout. }
  destruct (Hte _ _ Hth Hhard) as ((b' & -> & Hc) & Hi & pre & k & Hpre).
  rewrite Hc in Hrun. simpl in Hrun. injection Hrun as <- <-.
  split; [reflexivity|]. split; [congruence|].
  split; [rewrite Hqe, length_app; lia|].
  exists ([Inspecting (length (blk :: blks))] ++ [ErrorsFound (length (e :: errs))] ++ pre), k.
  rewrite Hne, Hnb, Hpre, <- !app_assoc. reflexivity.
Qed.

(** The replies, other than 401, after which the client throws an error
    that stops the run: status 403; status 404 with [not found] in the body
    (in any case); a success status with a body that is not JSON. *)
Definition stops_run (E : env) (res : response) : Prop :=
  status res = 403%Z
  \/ (status res = 404%Z /\ test ci re_not_found (body_text res) = true)
  \/ (res_ok res = true /\ JS.truthy (body_text res) = true
      /\ JSON_parse E (body_text res) = None).

Lemma stops_run_hard E ver res :
  stops_run E res ->
  exists m, read_reply E ver res = Throws m /\ is_hard m = true.
Proof.
  intros [Hs | [[Hs Hb] | (Hok & Ht & Hp)]].
  - eexists. split.
    + unfold read_reply, res_ok. rewrite Hs. reflexivity.
    + unfold is_hard. vm_compute. reflexivity.
  - eexists. split.
    + unfold read_reply, res_ok. rewrite Hs. cbn [negb andb orb Z.leb Z.eqb Z.compare
        Pos.compare Pos.compare_cont Pos.eqb].
      unfold body_text in Hb. rewrite Hb. reflexivity.
    + unfold is_hard. vm_compute. reflexivity.
  - eexists. split.
    + unfold read_reply. rewrite Hok. cbn [negb]. unfold body_text in Ht, Hp.
      rewrite Ht, Hp. reflexivity.
    + unfold is_hard. vm_compute. reflexivity.
Qed.

(** X8. Like 401, the replies 403, 404 with [not found] in the body, and a
    success status with a body that is not JSON stop the whole run: the
    request so answered is the last one of the run, the run returns, and the
    editor keeps the text it had, so no fix queued before is applied. *)
Theorem hard_replies_abort_run (H : host) (cfg : settings) (w : world)
    (n : nat) (req : request) (res : response) :
  let out := runFixWithGemini H cfg w in
  length (requests (client_state w)) <= n ->
  nth_error (requests (client_state (snd out))) n = Some req ->
  answered (services H) (requestTimeoutMs cfg) n req res ->
  stops_run (services H) res ->
  fst out = Returns tt
  /\ editor (snd out) = editor w
  /\ S n = length (requests (client_state (snd out)))
  /\ exists pre k m, notices (snd out) = notices w ++ pre ++ [GeminiError k m]
                     /\ is_hard m = true.
Proof.
  intros out Hn Hnth Hans Hstop.
  destruct (stops_run_hard (services H) (req_version req) res Hstop) as (m & Hm & Hh).
  rewrite <- (answered_outcome _ _ _ _ _ Hans) in Hm.
  destruct (hard_error_stops_run H cfg w n req m Hn Hnth Hm Hh) as (H1 & H2 & H3 & pre & k & H4).
  repeat split; try assumption. exists pre, k, m. auto.
Qed.

(** Two broken blocks; the second request is answered 403, every other
    one with the fix. *)
Definition forbidden_second : host :=
  Scenario.host_with
    (fun n => match n with
              | 1 => Fulfils 120 {| status := 403; body := Some (str_of "forbidden") |}
              | _ => Scenario.reply_ok
              end).

Lemma hard_replies_abort_run_witness :
  let out := runFixWithGemini forbidden_second Scenario.cfg
               (Scenario.world_with Scenario.two_blocks) in
  fst out = Returns tt
  /\ editor (snd out) = Some Scenario.two_blocks
  /\ length (requests (client_state (snd out))) = 2.
Proof.
  intros out.
  destruct (nth_error (requests (client_state (snd out))) 1) as [req|] eqn:Ereq;
    [|vm_compute in Ereq; discriminate].
  destruct (hard_replies_abort_run forbidden_second Scenario.cfg
              (Scenario.world_with Scenario.two_blocks) 1 req
              {| status := 403; body := Some (str_of "forbidden") |})
    as (Hr & He & Hl & _).
  - simpl. lia.
  - exact Ereq.
  - exists 120%Z. split; [reflexivity|]. right. vm_compute. reflexivity.
  - left. reflexivity.
  - split; [exact Hr|]. split; [exact He|]. symmetry. exact Hl.
Defined.

(** X9. A request that times out ends the attempts on its block: the
    client throws the timeout error, the block is given up after that one
    request without cancelling the run, and the loop goes on to the next
    block with the queue of fixes as it was. *)
Theorem timeout_abandons_block (H : host) (cfg : settings) (cf : jsstring)
    (block : MermaidBlock) (err : jsstring) (more : list (MermaidBlock * jsstring))
    (b : batch) (w w1 : world) (r : outcome verdict) (n : nat) (req : request) :
  JS.str_eqb cf (active_file H (file_queries w)) = true ->
  attempts H cfg block maxAttempts 1 (code block) err (snd (query_file H w)) = (r, w1) ->
  length (requests (client_state w)) <= n ->
  nth_error (requests (client_state w1)) n = Some req ->
  (0 < requestTimeoutMs cfg)%Z ->
  timer_wins (callGeminiSingle (services H) n req) (requestTimeoutMs cfg)
    (timer_first (services H) n) = true ->
  call_outcome (services H) (requestTimeoutMs cfg) n req = Throws timeout_message
  /\ r = Returns {| success := false; fixedCode := None; cancelled := false |}
  /\ S n = length (requests (client_state w1))
  /\ blocks_loop H cfg cf ((block, err) :: more) b w
     = blocks_loop H cfg cf more b (notify (Failed (index block)) w1).
Proof.
  intros Hfile Ha Hn Hnth Hms Hwin.
  assert (Hout : call_outcome (services H) (requestTimeoutMs cfg) n req
                 = Throws timeout_message).
  { unfold call_outcome.
    destruct (withTimeout_positive (callGeminiSingle (services H) n req)
                (requestTimeoutMs cfg) true (timer_first (services H) n) Hms)
      as (_ & _ & Hw).
    rewrite (Hw Hwin). reflexivity. }
  split; [exact Hout|].
  destruct (attempts_spec _ _ _ _ _ _ _ _ _ _ Ha) as (He1 & new & newn & Hq & Hnn & Ht).
  cbn [editor notices client_state query_file snd] in He1, Hq, Hnn, Ht.
  rewrite Hq in Hnth.
  assert (Hth : thrown_at H cfg (length (requests (client_state w))) new
                  (n - length (requests (client_state w))) timeout_message).
  { exists req. rewrite nth_error_app2 in Hnth by exact Hn. split; [exact Hnth|].
    replace (length (requests (client_state w)) + (n - length (requests (client_state w))))
      with n by lia.
    exact Hout. }
  destruct (Ht _ _ Hth) as (Hr & Hi & pre & Hpre).
  change (is_hard timeout_message) with false in Hr.
  split; [exact Hr|].
  split; [rewrite Hq, length_app; lia|].
  simpl blocks_loop. unfold query_file in *. cbn [snd] in Ha.
  rewrite Hfile. cbn [negb]. rewrite Ha, Hr. reflexivity.
Qed.

(** One broken block; the first request is never answered. *)
Definition silent_first : host :=
  Scenario.host_with (fun n => match n with 0 => Pending | _ => Scenario.reply_ok end).

Lemma timeout_abandons_block_witness :
  let H := silent_first in
  let w := Scenario.world_with Scenario.one_block in
  let block := hd (Build_MermaidBlock 0 0 [] [] [] [] 0)
                 (extractMermaidBlocks Scenario.one_block) in
  blocks_loop H Scenario.cfg (str_of "note.md") [(block, str_of "Parse error")]
    {| replacements := []; autoApply := true; batch_cancelled := false |} w
  = blocks_loop H Scenario.cfg (str_of "note.md") []
      {| replacements := []; autoApply := true; batch_cancelled := false |}
      (notify (Failed (index block))
         (snd (attempts H Scenario.cfg block maxAttempts 1 (code block)
                 (str_of "Parse error") (snd (query_file H w))))).
Proof.
  intros H w block.
  destruct (attempts H Scenario.cfg block maxAttempts 1 (code block)
              (str_of "Parse error") (snd (query_file H w))) as [r w1] eqn:Ea.
  assert (Hreq : exists req, nth_error (requests (client_state w1)) 0 = Some req).
  { replace w1 with (snd (attempts H Scenario.cfg block maxAttempts 1 (code block)
                            (str_of "Parse error") (snd (query_file H w))))
      by (rewrite Ea; reflexivity).
    vm_compute. eexists. reflexivity. }
  destruct Hreq as [req Hreq].
  refine (proj2 (proj2 (proj2
            (timeout_abandons_block H Scenario.cfg (str_of "note.md") block
               (str_of "Parse error") [] _ w w1 r 0 req _ Ea _ Hreq _ _)))).
  - vm_compute. reflexivity.
  - simpl. lia.
  - reflexivity.
  - reflexivity.
Defined.

End AbortFacts.

(** * The verdicts of the validation wrapper *)
Module VerdictFacts.
Import Async Utils.

(** X10. A verdict of [validateMermaidAsync] is well formed: [ok] comes
    without an error text, and a failure always carries one, so the text the
    callers keep in reserve for a failure without a message is never
    used. *)
Theorem verdict_carries_error (te id : jsstring) (g : option mermaid_obj)
    (codeRaw : jsstring) :
  match fst (validateMermaidAsync te id g codeRaw) with
  | Returns v => if ok v then error v = None else exists e, error v = Some e
  | Throws _ => False
  | Hangs => True
  end.
Proof.
  unfold validateMermaidAsync. destruct g as [m|]; [|simpl; eauto].
  destruct (choose_entry _ id _) as [run| |]; [|simpl; eauto ..].
  destruct (play (events run) Trap None) as [h trapped].
  destruct (ending run); simpl; eauto;
    destruct trapped as [t|]; simpl; eauto; destruct (JS.truthy t) eqn:Et; simpl; eauto.
Qed.

Definition is_report (ev : parser_event) : bool :=
  match ev with Report _ => true | SetHook _ => false end.

Lemma play_reports evs : forall trapped,
  forallb is_report evs = true ->
  play evs Trap trapped
  = (Trap, match rev evs with
           | Report e :: _ => Some (error_text e)
           | _ => trapped
           end).
Proof.
  induction evs as [|ev evs IH]; intros trapped Hr; [reflexivity|].
  simpl in Hr. apply andb_prop in Hr as [Hev Hr].
  destruct ev as [e|h]; [|discriminate]. simpl. rewrite IH by exact Hr.
  f_equal. destruct (rev evs) as [|ev' l] eqn:El; simpl; [reflexivity|].
  destruct ev'; [reflexivity|].
  assert (Hin : In (SetHook h) evs) by (apply in_rev; rewrite El; left; reflexivity).
  rewrite forallb_forall in Hr. apply Hr in Hin. discriminate.
Qed.

(** X11. When the parser entry point returns normally, having reported
    errors through the hook (and not assigned it), only the last report
    counts: the verdict is a failure with the text of that report, unless
    that text is empty, in which case the code is taken as valid. *)
Theorem last_report_decides (te id : jsstring) (m : mermaid_obj) (codeRaw : jsstring)
    (f : jsstring -> parser_run) (evs : list parser_event) (e : js_error) :
  parse m = Function f ->
  events (f (preNormalizeMermaid codeRaw)) = evs ++ [Report e] ->
  forallb is_report evs = true ->
  ending (f (preNormalizeMermaid codeRaw)) = ReturnsPlain
  \/ ending (f (preNormalizeMermaid codeRaw)) = ReturnsFulfilled ->
  fst (validateMermaidAsync te id (Some m) codeRaw)
  = Returns (if JS.truthy (error_text e)
             then {| ok := false; error := Some (error_text e) |}
             else {| ok := true; error := None |}).
Proof.
  intros Hp Hev Hrep Hend. unfold validateMermaidAsync, choose_entry.
  cbn [parse set_parseError]. rewrite Hp, Hev.
  rewrite play_reports
    by (rewrite forallb_app, Hrep; reflexivity).
  rewrite rev_unit.
  destruct Hend as [-> | ->]; destruct (JS.truthy (error_text e)); reflexivity.
Qed.

Definition silent_error : js_error :=
  {| err_str := Some []; err_message := Some (str_of "Parse error");
     err_text := str_of "Error: Parse error" |}.

(** A parser that reports a real error and then one whose [str] is the
    empty string. *)
Definition two_reports (_ : jsstring) : parser_run :=
  {| events := [Report Scenario.parse_error; Report silent_error];
     ending := ReturnsPlain |}.

Definition reporting_mermaid : mermaid_obj :=
  {| parseError := NoHook; parse := Function two_reports;
     api_parse := Missing; render := Missing |}.

Lemma last_report_decides_witness :
  fst (validateMermaidAsync [] [] (Some reporting_mermaid) (str_of "graph TD"))
  = Returns {| ok := true; error := None |}.
Proof.
  exact (last_report_decides [] [] reporting_mermaid (str_of "graph TD") two_reports
           [Report Scenario.parse_error] silent_error eq_refl eq_refl eq_refl
           (or_introl eq_refl)).
Defined.

End VerdictFacts.

(** * Positions and the line diff *)
Module LinesFacts.
Import Lines.

Lemma split_on_cons sep s : exists l ls, split_on sep s = l :: ls.
Proof.
  induction s as [|c s IH]; simpl; [eauto|].
  destruct (N.eqb c sep); [eauto|]. destruct IH as (l & ls & ->). eauto.
Qed.

(** The pieces, joined by the separator, give the text back; no piece
    holds the separator. *)
Lemma split_on_join sep s :
  JS.join [sep] (split_on sep s) = s
  /\ Forall (fun l => ~ In sep l) (split_on sep s).
Proof.
  induction s as [|c s [IH1 IH2]]; simpl.
  - split; [reflexivity|]. constructor; [intros []|constructor].
  - destruct (N.eqb_spec c sep) as [->|Hne].
    + destruct (split_on_cons sep s) as (l & ls & E). rewrite E in *. simpl.
      split; [simpl in IH1; rewrite IH1; reflexivity|].
      constructor; [intros []|exact IH2].
    + destruct (split_on sep s) as [|l ls]; simpl in *.
      * subst s. split; [reflexivity|]. constructor; [|constructor].
        intros [H|[]]. congruence.
      * inversion IH2 as [|? ? Hl Hls]; subst. split.
        -- destruct ls; simpl in *; congruence.
        -- constructor; [|exact Hls]. intros [H|H]; [congruence | exact (Hl H)].
Qed.

Lemma split_on_length sep s :
  length (split_on sep s) = S (count_occ N.eq_dec s sep).
Proof.
  induction s as [|c s IH]; simpl; [reflexivity|].
  destruct (N.eqb_spec c sep) as [->|Hne].
  - destruct (N.eq_dec sep sep); [|congruence]. simpl. rewrite IH. reflexivity.
  - destruct (N.eq_dec c sep); [congruence|].
    destruct (split_on sep s); simpl in *; [discriminate | exact IH].
Qed.

(** The last piece is what follows the last separator. *)
Lemma split_on_last sep s :
  exists pre l, s = pre ++ l
                /\ nth_error (split_on sep s) (length (split_on sep s) - 1) = Some l
                /\ ~ In sep l
                /\ (pre = [] \/ exists p, pre = p ++ [sep]).
Proof.
  induction s as [|c s IH]; simpl.
  - exists [], []. repeat split; auto.
  - destruct IH as (pre & l & Hs & Hn & Hl & Hp).
    destruct (split_on_cons sep s) as (l0 & ls & E). rewrite E in *.
    simpl in Hn. rewrite Nat.sub_0_r in Hn.
    destruct (N.eqb_spec c sep) as [->|Hne]; simpl.
    + rewrite ?Nat.sub_0_r. exists (sep :: pre), l.
      split; [rewrite Hs; reflexivity|]. split; [exact Hn|]. split; [exact Hl|].
      right. destruct Hp as [->|(p & ->)]; [exists []|exists (sep :: p)]; reflexivity.
    + rewrite ?Nat.sub_0_r. destruct ls as [|l1 ls].
      * simpl in Hn. injection Hn as <-.
        assert (Hpre : pre = []).
        { destruct Hp as [->|(p & ->)]; [reflexivity|]. exfalso.
          pose proof (split_on_length sep s) as Hlen. rewrite E in Hlen. simpl in Hlen.
          assert (Hin : In sep s) by (rewrite Hs; apply in_or_app; left;
                                      apply in_or_app; right; left; reflexivity).
          apply (count_occ_In N.eq_dec) in Hin. lia. }
        subst pre. simpl in Hs. subst s.
        exists [], (c :: l0). simpl. repeat split; auto.
        intros [H|H]; [congruence | exact (Hl H)].
      * simpl in Hn |- *. exists (c :: pre), l.
        split; [rewrite Hs; reflexivity|]. split; [exact Hn|]. split; [exact Hl|].
        right. destruct Hp as [->|(p & ->)].
        -- exfalso. simpl in Hs. subst s.
           pose proof (split_on_length sep l) as Hlen. rewrite E in Hlen. simpl in Hlen.
           assert (Hz : count_occ N.eq_dec l sep = 0) by (apply count_occ_not_In; exact Hl).
           lia.
        -- exists (c :: p). reflexivity.
Qed.

(** X12. [offsetToPosFallback] locates the offset: [line] is the number of
    line feeds in the text before the offset, and [ch] is the distance of the
    offset from the last of them (from the start of the text when there is
    none). *)
Theorem offset_to_pos_locates (text : jsstring) (offset : Z) :
  let upto := JS.slice text 0 offset in
  let p := offsetToPosFallback text offset in
  line p = Z.of_nat (count_occ N.eq_dec upto LF)
  /\ exists pre l,
       upto = pre ++ l
       /\ ch p = Z.of_nat (length l)
       /\ ~ In LF l
       /\ (pre = [] \/ exists q, pre = q ++ [LF]).
Proof.
  intros upto p. subst p. unfold offsetToPosFallback. fold upto. cbn [line ch].
  split; [rewrite split_on_length; lia|].
  destruct (split_on_last LF upto) as (pre & l & Hs & Hn & Hl & Hp).
  exists pre, l. rewrite Hn. auto.
Qed.

(** *** The line diff *)

Lemma diff_loop_flat o m : forall left i result,
  diff_loop o m left i result = result ++ flat_map (diff_at o m) (seq i left).
Proof.
  induction left as [|left IH]; intros i result; simpl.
  - rewrite app_nil_r. reflexivity.
  - rewrite IH, <- app_assoc. reflexivity.
Qed.

(** What an entry says, apart from its line number. *)
Definition said (d : DiffLine) : diff_type * jsstring := (type d, content d).

Lemma nth_tail (l : list jsstring) i : nth (S i) l [] = nth i (tl l) [].
Proof. destruct l; simpl; [destruct i; reflexivity | reflexivity]. Qed.

Lemma diff_at_tail o m i :
  map said (diff_at o m (S i)) = map said (diff_at (tl o) (tl m) i).
Proof.
  unfold diff_at. rewrite !nth_tail.
  destruct (JS.str_eqb _ _); [reflexivity|].
  destruct (JS.truthy (nth i (tl o) []) && negb (JS.truthy (nth i (tl m) [])));
    [reflexivity|].
  destruct (negb (JS.truthy (nth i (tl o) [])) && JS.truthy (nth i (tl m) []));
    reflexivity.
Qed.

(** The lines of one side that an entry list shows: the contents of the
    entries that are not of the type [other], empty contents left out. *)
Definition is_type (t u : diff_type) : bool :=
  match t, u with
  | unchanged, unchanged | added, added | removed, removed => true
  | _, _ => false
  end.

Definition shown (other : diff_type) (ds : list (diff_type * jsstring)) : list jsstring :=
  List.filter JS.truthy
    (map snd (List.filter (fun d => negb (is_type (fst d) other)) ds)).

Lemma shown_app other ds ds' : shown other (ds ++ ds') = shown other ds ++ shown other ds'.
Proof. unfold shown. rewrite List.filter_app, map_app, List.filter_app. reflexivity. Qed.

Lemma flat_map_said o m o' m' n :
  (forall i, map said (diff_at o m (S i)) = map said (diff_at o' m' i)) ->
  map said (flat_map (diff_at o m) (seq 1 n))
  = map said (flat_map (diff_at o' m') (seq 0 n)).
Proof.
  intros H. rewrite <- seq_shift, !flat_map_concat_map, !concat_map, !map_map.
  f_equal. apply map_ext. exact H.
Qed.

Lemma str_eqb_eq a b : JS.str_eqb a b = true -> a = b.
Proof. unfold JS.str_eqb. intros H. apply bool_decide_eq_true in H. exact H. Qed.

Lemma shown_head o m :
  shown added (map said (diff_at o m 0)) = List.filter JS.truthy [nth 0 o []]
  /\ shown removed (map said (diff_at o m 0)) = List.filter JS.truthy [nth 0 m []].
Proof.
  unfold diff_at.
  destruct (JS.str_eqb (nth 0 o []) (nth 0 m [])) eqn:E.
  - apply str_eqb_eq in E. rewrite <- E. split; reflexivity.
  - destruct (nth 0 o []) as [|c l]; destruct (nth 0 m []) as [|c' l'];
      split; reflexivity.
Qed.

Lemma diff_shows_both : forall n o m,
  length o <= n -> length m <= n ->
  shown added (map said (flat_map (diff_at o m) (seq 0 n)))
  = List.filter JS.truthy o
  /\ shown removed (map said (flat_map (diff_at o m) (seq 0 n)))
     = List.filter JS.truthy m.
Proof.
  induction n as [|n IH]; intros o m Ho Hm.
  - destruct o; [|simpl in Ho; lia]. destruct m; [|simpl in Hm; lia]. split; reflexivity.
  - change (seq 0 (S n)) with (0 :: seq 1 n).
    cbn [flat_map]. rewrite map_app, !shown_app.
    destruct (shown_head o m) as [H1 H2]. rewrite H1, H2.
    rewrite (flat_map_said o m (tl o) (tl m) n) by (intros i; apply diff_at_tail).
    destruct (IH (tl o) (tl m)) as [I1 I2];
      [destruct o; simpl in *; lia | destruct m; simpl in *; lia|].
    rewrite I1, I2.
    destruct o as [|a o], m as [|b m]; split; simpl; try reflexivity;
      match goal with |- context [JS.truthy ?x] => destruct (JS.truthy x) end; reflexivity.
Qed.

(** X13. The line diff loses no line that has text: the entries that are
    not [added], in order and without the empty ones, are the non-empty lines
    of the original, and the entries that are not [removed] likewise are the
    non-empty lines of the modified text.  (An empty line that was changed
    into a line with text, or the reverse, leaves no entry of its own.) *)
Theorem diff_keeps_lines (original modified : jsstring) :
  let ds := map said (calculateDiff original modified) in
  shown added ds = List.filter JS.truthy (split_on LF original)
  /\ shown removed ds = List.filter JS.truthy (split_on LF modified).
Proof.
  intros ds. subst ds. unfold calculateDiff. rewrite diff_loop_flat. cbn [app].
  apply diff_shows_both; lia.
Qed.

(** X14. The diff of a text with itself marks every line as unchanged, and
    numbers the lines from 1. *)
Theorem diff_of_equal_texts (s : jsstring) :
  calculateDiff s s
  = map (fun il => {| type := unchanged; content := snd il; lineNumber := fst il + 1 |})
        (combine (seq 0 (length (split_on LF s))) (split_on LF s)).
Proof.
  unfold calculateDiff. rewrite diff_loop_flat, Nat.max_id. cbn [app].
  generalize (split_on LF s) as l. intros l.
  assert (H : forall k i, k <= length l -> i = length l - k ->
              flat_map (diff_at l l) (seq i k)
              = map (fun il => {| type := unchanged; content := snd il;
                                  lineNumber := fst il + 1 |})
                    (combine (seq i k) (skipn i l))).
  { induction k as [|k IH]; intros i Hk Hi; [reflexivity|].
    cbn [seq flat_map].
    destruct (skipn i l) as [|a rest] eqn:Es.
    { apply (f_equal (@length _)) in Es. rewrite length_skipn in Es. simpl in Es. lia. }
    assert (Hn : nth i l [] = a).
    { rewrite <- (firstn_skipn i l) at 1. rewrite Es.
      rewrite app_nth2 by (rewrite length_firstn; lia).
      rewrite length_firstn. replace (i - Nat.min i (length l)) with 0 by lia. reflexivity. }
    assert (Hs : skipn (S i) l = rest).
    { replace (S i) with (1 + i) by lia. rewrite <- skipn_skipn, Es. reflexivity. }
    rewrite IH by lia. rewrite Hs. cbn [combine map app fst snd].
    unfold diff_at at 1. rewrite Hn.
    replace (JS.str_eqb a a) with true
      by (symmetry; unfold JS.str_eqb; apply bool_decide_eq_true; reflexivity).
    reflexivity. }
  rewrite (H (length l) 0) by lia. reflexivity.
Qed.

End LinesFacts.

(** * Closed forms for the repetition of a character class *)
Module StarFacts.
Import Regex RegexFacts SearchFacts.

#[local] Arguments char_matches : simpl never.
#[local] Arguments advance : simpl never.

(** The length of the longest prefix of [s] made of characters in [P]. *)
Fixpoint lead (P : N -> bool) (s : jsstring) : nat :=
  match s with
  | c :: s' => if P c then S (lead P s') else 0
  | [] => 0
  end.

Lemma lead_le P s : lead P s <= length s.
Proof. induction s as [|c s IH]; simpl; [lia|]. destruct (P c); simpl; lia. Qed.

Lemma lead_firstn P s : forallb P (firstn (lead P s) s) = true.
Proof.
  induction s as [|c s IH]; simpl; [reflexivity|].
  destruct (P c) eqn:E; simpl; [rewrite E; exact IH | reflexivity].
Qed.

Lemma lead_stop P s :
  match skipn (lead P s) s with c :: _ => P c = false | [] => True end.
Proof.
  induction s as [|c s IH]; simpl; [exact I|].
  destruct (P c) eqn:E; simpl; [exact IH | exact E].
Qed.

Lemma lead_all P s : forallb P s = true -> lead P s = length s.
Proof.
  induction s as [|c s IH]; simpl; [reflexivity|].
  intros H. apply andb_prop in H as [-> H]. rewrite IH by exact H. reflexivity.
Qed.

Lemma lead_ext P Q s : (forall c, P c = Q c) -> lead P s = lead Q s.
Proof.
  intros H. induction s as [|c s IH]; simpl; [reflexivity|]. rewrite H, IH. reflexivity.
Qed.

Lemma last_unit_app d (a b : jsstring) :
  last_unit (last_unit d a) b = last_unit d (a ++ b).
Proof.
  unfold last_unit. rewrite rev_app_distr.
  destruct (rev b) as [|c l]; simpl; [reflexivity | reflexivity].
Qed.

Lemma advance_0 x : advance 0 x = x.
Proof. destruct x. unfold advance. simpl. f_equal. lia. Qed.

Lemma advance_advance j k x : advance j (advance k x) = advance (k + j) x.
Proof.
  unfold advance. simpl. f_equal.
  - rewrite last_unit_app. f_equal.
    rewrite <- (firstn_skipn k (firstn (k + j) (rest x))).
    rewrite firstn_firstn, skipn_firstn_comm.
    f_equal; [f_equal; lia | f_equal; lia].
  - lia.
  - rewrite skipn_skipn. f_equal. lia.
Qed.

(** All the iterations of a starred character class: as many characters
    of the class as there are, and fewer, in the order of the quantifier. *)
Lemma rep_opt_class fl inv A greedy : forall fuel x,
  length (rest x) <= fuel ->
  rep_opt (run fl (Char inv A)) fuel None greedy x
  = map (fun j => advance j x)
        (if greedy then rev (seq 0 (S (lead (char_matches fl inv A) (rest x))))
         else seq 0 (S (lead (char_matches fl inv A) (rest x)))).
Proof.
  induction fuel as [|fuel IH]; intros x Hf.
  - destruct (rest x) eqn:Er; [|simpl in Hf; lia].
    simpl. destruct greedy; simpl; rewrite advance_0; reflexivity.
  - cbn [rep_opt max_is_zero dec_max run].
    destruct (rest x) as [|c s] eqn:Er.
    + simpl. destruct greedy; simpl; rewrite advance_0; reflexivity.
    + cbn [lead]. destruct (char_matches fl inv A c) eqn:Ec.
      * cbn [flat_map]. rewrite app_nil_r.
        replace (pos (advance 1 x) =? pos x) with false
          by (symmetry; apply Nat.eqb_neq; simpl; lia).
        assert (Hr : rest (advance 1 x) = s) by (simpl; rewrite Er; reflexivity).
        rewrite IH by (rewrite Hr; simpl in Hf; lia). rewrite Hr.
        assert (Hshift : forall l,
                  map (fun j => advance j (advance 1 x)) l
                  = map (fun j => advance j x) (map S l)).
        { intros l. rewrite map_map. apply map_ext. intros j.
          rewrite advance_advance. reflexivity. }
        rewrite Hshift. destruct greedy.
        -- change (seq 0 (S (S (lead (char_matches fl inv A) s))))
             with (0 :: seq 1 (S (lead (char_matches fl inv A) s))).
           cbn [rev]. rewrite map_app, <- seq_shift, map_rev. simpl.
           rewrite advance_0. reflexivity.
        -- change (seq 0 (S (S (lead (char_matches fl inv A) s))))
             with (0 :: seq 1 (S (lead (char_matches fl inv A) s))).
           rewrite <- seq_shift. simpl. rewrite advance_0. reflexivity.
      * simpl. destruct greedy; simpl; rewrite advance_0; reflexivity.
Qed.

Lemma star_class fl inv A greedy x :
  run fl (Repeat (Char inv A) 0 None greedy) x
  = map (fun j => advance j x)
        (if greedy then rev (seq 0 (S (lead (char_matches fl inv A) (rest x))))
         else seq 0 (S (lead (char_matches fl inv A) (rest x)))).
Proof. cbn [run rep_min]. apply rep_opt_class. lia. Qed.

Lemma plus_class fl inv A x :
  run fl (plus (Char inv A)) x
  = map (fun j => advance j x)
        (rev (seq 1 (lead (char_matches fl inv A) (rest x)))).
Proof.
  unfold plus.
  change (run fl (Repeat (Char inv A) 1 None true) x)
    with (flat_map (fun y => rep_opt (run fl (Char inv A)) (length (rest y)) None true y)
            (run fl (Char inv A) x)).
  change (run fl (Char inv A) x)
    with (match rest x with
          | c :: _ => if char_matches fl inv A c then [advance 1 x] else []
          | [] => []
          end).
  destruct (rest x) as [|c s] eqn:Er; [reflexivity|].
  cbn [lead]. destruct (char_matches fl inv A c); [|reflexivity].
  cbn [flat_map]. rewrite app_nil_r.
  assert (Hr : rest (advance 1 x) = s) by (simpl; rewrite Er; reflexivity).
  rewrite rep_opt_class by lia. rewrite Hr.
  rewrite <- seq_shift, <- map_rev, map_map.
  apply map_ext. intros j. rewrite advance_advance. reflexivity.
Qed.

Lemma any_char_matches fl c : char_matches fl false Utils.any_char c = true.
Proof.
  unfold char_matches, Utils.any_char. cbn [in_set xorb].
  destruct (JS.is_space c); reflexivity.
Qed.

Lemma lead_any fl s : lead (char_matches fl false Utils.any_char) s = length s.
Proof. apply lead_all. induction s; simpl; [reflexivity|]. rewrite any_char_matches. auto. Qed.

End StarFacts.

(** * The surface normalisation of the correction client *)
Module SurfaceFacts.
Import Regex RegexFacts SearchFacts StarFacts Gemini.

#[local] Arguments char_matches : simpl never.
#[local] Arguments advance : simpl never.

(** Replacing every character of a class by a fixed text. *)
Lemma replace_class fl A out : forall s b i,
  replace_walk fl (Char false A) (fun _ => out) b i s 0
  = flat_map (fun c => if char_matches fl false A c then out else [c]) s.
Proof.
  induction s as [|c s IH]; intros b i; [reflexivity|].
  cbn [replace_walk flat_map]. unfold match_at. cbn [run rest].
  destruct (char_matches fl false A c).
  - cbn [m_end]. unfold advance at 1 2. cbn [pos].
    replace (i + 1 =? i) with false by (symmetry; apply Nat.eqb_neq; lia).
    replace (i + 1 - i - 1) with 0 by lia. rewrite IH. reflexivity.
  - rewrite IH. reflexivity.
Qed.

Definition in_class (A : charset) (c : N) : bool := char_matches no_flags false A c.

Definition class_of (r : regex) : charset :=
  match r with Char _ A => A | _ => CLit 0 end.

Definition is_bom := in_class (class_of re_bom).
Definition is_zero_width := in_class (class_of re_zero_width).
Definition is_dash := in_class (class_of re_dashes).
Definition is_wide_space := in_class (class_of re_wide_space).

(** The first four steps of [normalizeSurface], character by character. *)
Definition surface_char (c : N) : jsstring :=
  if is_bom c then []
  else if is_zero_width c then []
  else if is_dash c then [45%N]
  else if is_wide_space c then [32%N]
  else [c].

(** A character that none of the first four steps touches. *)
Definition plain (c : N) : bool :=
  negb (is_bom c) && negb (is_zero_width c) && negb (is_dash c) && negb (is_wide_space c).

Definition is_blank (c : N) : bool := (N.eqb c 32 || N.eqb c 9)%N.

Lemma blank_matches fl c :
  char_matches fl false (CUnion (CLit 32) (CLit 9)) c = is_blank c.
Proof.
  unfold char_matches, is_blank. cbn [in_set xorb].
  destruct (N.eqb_spec c 32) as [->|H1]; [reflexivity|].
  destruct (N.eqb_spec c 9) as [->|H2]; [destruct (ignoreCase fl); reflexivity|].
  cbn [orb]. destruct (ignoreCase fl); [|reflexivity]. cbn [andb].
  unfold JS.ascii_upper, JS.ascii_lower.
  destruct (N.leb_spec 97 c); destruct (N.leb_spec c 122); cbn [andb];
    destruct (N.leb_spec 65 c); destruct (N.leb_spec c 90); cbn [andb];
    repeat match goal with
           | |- context [N.eqb ?a ?b] => destruct (N.eqb_spec a b); try lia
           end; reflexivity.
Qed.

Lemma surface_steps s :
  replace_all no_flags re_wide_space (fun _ => [32%N])
    (replace_all no_flags re_dashes (fun _ => [45%N])
       (replace_all no_flags re_zero_width (fun _ => [])
          (replace_all no_flags re_bom (fun _ => []) s)))
  = flat_map surface_char s.
Proof.
  unfold replace_all, re_wide_space, re_dashes, re_zero_width, re_bom, lit.
  rewrite !replace_class.
  induction s as [|c s IH]; [reflexivity|].
  cbn [flat_map]. rewrite !flat_map_app, IH. f_equal.
  unfold surface_char, is_bom, is_zero_width, is_dash, is_wide_space, in_class,
    class_of, re_bom, re_zero_width, re_dashes, re_wide_space, lit.
  destruct (char_matches no_flags false (CLit 65279) c); [reflexivity|].
  cbn [flat_map app].
  destruct (char_matches no_flags false (CUnion (CRange 8203 8205) (CLit 8288)) c);
    [reflexivity|].
  cbn [flat_map app].
  destruct (char_matches no_flags false _ c); [vm_compute; reflexivity|].
  cbn [flat_map app]. rewrite app_nil_r. reflexivity.
Qed.

Lemma surface_char_plain c : forallb plain (surface_char c) = true.
Proof.
  unfold surface_char, plain.
  destruct (is_bom c) eqn:E1; [reflexivity|].
  destruct (is_zero_width c) eqn:E2; [reflexivity|].
  destruct (is_dash c) eqn:E3; [reflexivity|].
  destruct (is_wide_space c) eqn:E4; [reflexivity|].
  simpl. rewrite E1, E2, E3, E4. reflexivity.
Qed.

Lemma surface_chars_plain s : forallb plain (flat_map surface_char s) = true.
Proof.
  induction s as [|c s IH]; [reflexivity|].
  cbn [flat_map]. rewrite forallb_app, surface_char_plain, IH. reflexivity.
Qed.

Lemma surface_chars_id s : forallb plain s = true -> flat_map surface_char s = s.
Proof.
  induction s as [|c s IH]; [reflexivity|]. cbn [forallb flat_map].
  intros H. apply andb_prop in H as [Hc Hs]. rewrite IH by exact Hs.
  unfold plain in Hc. unfold surface_char.
  destruct (is_bom c); [discriminate|]. destruct (is_zero_width c); [discriminate|].
  destruct (is_dash c); [discriminate|]. destruct (is_wide_space c); [discriminate|].
  reflexivity.
Qed.

(** *** Blanks at the end of a line *)

Definition eolb (s : jsstring) : bool :=
  match s with [] => true | c :: _ => JS.is_line_terminator c end.

Lemma blank_no_terminator c : is_blank c = true -> JS.is_line_terminator c = false.
Proof.
  unfold is_blank, JS.is_line_terminator.
  destruct (N.eqb_spec c 32) as [->|]; [reflexivity|].
  destruct (N.eqb_spec c 9) as [->|]; [reflexivity | discriminate].
Qed.

Lemma flat_map_nil {A B} (f : A -> list B) (l : list A) :
  (forall a, In a l -> f a = []) -> flat_map f l = [].
Proof.
  induction l as [|a l IH]; intros H; [reflexivity|].
  simpl. rewrite (H a) by (left; reflexivity). apply IH. intros b Hb. apply H. right. exact Hb.
Qed.

Lemma rest_advance j x : rest (advance j x) = skipn j (rest x).
Proof. reflexivity. Qed.

Lemma pos_advance j x : pos (advance j x) = pos x + j.
Proof. reflexivity. Qed.

(** Where the pattern of the trailing blanks matches: at a run of blanks
    that reaches the end of its line; the match is the whole run. *)
Lemma trailing_match b i s :
  match_at gm re_trailing_blank b i s
  = if (1 <=? lead is_blank s) && eolb (skipn (lead is_blank s) s)
    then Some {| m_index := i; m_end := i + lead is_blank s;
                 m_whole := firstn (lead is_blank s) s; m_caps := [] |}
    else None.
Proof.
  unfold match_at, re_trailing_blank, Utils.blank. cbn [run].
  rewrite plus_class. cbn [rest].
  rewrite (lead_ext _ is_blank) by (intros c; apply blank_matches).
  set (x0 := {| before := b; pos := i; rest := s; caps := [] |}).
  remember (lead is_blank s) as n eqn:En.
  destruct n as [|k]; [reflexivity|].
  rewrite seq_S, rev_app_distr. cbn [rev app map flat_map].
  rewrite flat_map_nil.
  - rewrite app_nil_r. unfold at_line_end. rewrite rest_advance. cbn [rest multiline gm].
    cbn [Nat.leb andb]. unfold eolb. replace (1 + k) with (S k) by lia.
    change (rest x0) with s.
    assert (Hm : forall y, y = advance (S k) x0 ->
              Some {| m_index := i; m_end := pos y; m_whole := firstn (pos y - i) s;
                      m_caps := caps y |}
              = Some {| m_index := i; m_end := i + S k; m_whole := firstn (S k) s;
                        m_caps := [] |}).
    { intros y ->. rewrite pos_advance. cbn [pos caps advance x0].
      replace (i + S k - i) with (S k) by lia. reflexivity. }
    destruct (skipn (S k) s) as [|c t]; cbn [andb].
    + apply Hm. reflexivity.
    + destruct (JS.is_line_terminator c); [|reflexivity]. apply Hm. reflexivity.
  - intros y Hy. apply in_map_iff in Hy as (j & <- & Hj).
    apply in_rev, in_seq in Hj.
    unfold at_line_end. rewrite rest_advance. cbn [rest multiline gm andb x0].
    assert (Hb : exists c t, skipn j s = c :: t /\ is_blank c = true).
    { pose proof (lead_firstn is_blank s) as Hall. rewrite <- En in Hall.
      pose proof (lead_le is_blank s) as Hle. rewrite <- En in Hle.
      destruct (skipn j s) as [|c t] eqn:Es.
      - apply (f_equal (@length _)) in Es. rewrite length_skipn in Es. simpl in Es. lia.
      - exists c, t. split; [reflexivity|].
        rewrite forallb_forall in Hall. apply Hall.
        rewrite <- (firstn_skipn j (firstn (S k) s)).
        apply in_or_app. right. rewrite skipn_firstn_comm, Es.
        destruct (S k - j) eqn:E; [lia|]. left. reflexivity. }
    destruct Hb as (c & t & -> & Hc). rewrite (blank_no_terminator c Hc). reflexivity.
Qed.

(** What the last step of [normalizeSurface] computes: blanks are held
    back until the next character shows whether they end a line. *)
Fixpoint strip (pending s : jsstring) : jsstring :=
  match s with
  | [] => []
  | c :: s' =>
      if is_blank c then strip (pending ++ [c]) s'
      else if JS.is_line_terminator c then c :: strip [] s'
      else pending ++ c :: strip [] s'
  end.

Lemma strip_blanks : forall B p t,
  forallb is_blank B = true -> strip p (B ++ t) = strip (p ++ B) t.
Proof.
  induction B as [|c B IH]; intros p t H; simpl.
  - rewrite app_nil_r. reflexivity.
  - simpl in H. apply andb_prop in H as [Hc HB]. rewrite Hc, IH by exact HB.
    rewrite <- app_assoc. reflexivity.
Qed.

Lemma replace_walk_skip fl r f : forall n s b i,
  n <= length s ->
  exists b' i', replace_walk fl r f b i s n = replace_walk fl r f b' i' (skipn n s) 0.
Proof.
  induction n as [|n IH]; intros s b i Hn.
  - exists b, i. reflexivity.
  - destruct s as [|c s]; [simpl in Hn; lia|].
    cbn [replace_walk skipn]. apply IH. simpl in Hn. lia.
Qed.

Lemma trailing_strip : forall n s, length s <= n -> forall b i,
  replace_walk gm re_trailing_blank (fun _ => []) b i s 0 = strip [] s.
Proof.
  induction n as [|n IH]; intros s Hn b i.
  - destruct s; [|simpl in Hn; lia]. cbn [replace_walk].
    destruct (match_at _ _ _ _ _); reflexivity.
  - destruct s as [|c s']; [cbn [replace_walk]; destruct (match_at _ _ _ _ _); reflexivity|].
    simpl in Hn. cbn [replace_walk]. rewrite trailing_match. cbn [lead strip].
    destruct (is_blank c) eqn:Ec.
    + cbn [Nat.leb andb skipn app].
      pose proof (lead_firstn is_blank s') as HB.
      pose proof (lead_stop is_blank s') as Hstop.
      pose proof (lead_le is_blank s') as Hle.
      set (k := lead is_blank s') in *.
      assert (Hstrip : forall p, strip p s' = strip (p ++ firstn k s') (skipn k s')).
      { intros p. rewrite <- strip_blanks by exact HB. rewrite firstn_skipn. reflexivity. }
      rewrite (Hstrip [c]).
      destruct (eolb (skipn k s')) eqn:Ee.
      * cbn [m_end app].
        replace (i + S k =? i) with false by (symmetry; apply Nat.eqb_neq; lia).
        replace (i + S k - i - 1) with k by lia.
        destruct (replace_walk_skip gm re_trailing_blank (fun _ => []) k s' (Some c) (S i) Hle)
          as (b' & i' & ->).
        rewrite IH by (rewrite length_skipn; lia).
        destruct (skipn k s') as [|d t]; [reflexivity|].
        simpl in Ee. cbn [strip]. rewrite Hstop, Ee. reflexivity.
      * rewrite IH by lia. rewrite (Hstrip []).
        destruct (skipn k s') as [|d t]; [discriminate|].
        simpl in Ee. cbn [strip app]. rewrite Hstop, Ee. reflexivity.
    + cbn [Nat.leb andb]. rewrite IH by lia.
      destruct (JS.is_line_terminator c); reflexivity.
Qed.

Lemma strip_strip : forall s p q,
  forallb is_blank p = true -> strip q (strip p s) = strip (q ++ p) s.
Proof.
  induction s as [|c s IH]; intros p q Hp; [reflexivity|].
  cbn [strip]. destruct (is_blank c) eqn:Ec.
  - rewrite IH by (rewrite forallb_app, Hp; simpl; rewrite Ec; reflexivity).
    rewrite app_assoc. reflexivity.
  - destruct (JS.is_line_terminator c) eqn:Et.
    + cbn [strip]. rewrite Ec, Et. rewrite (IH [] []) by reflexivity. reflexivity.
    + rewrite strip_blanks by exact Hp. cbn [strip]. rewrite Ec, Et.
      rewrite (IH [] []) by reflexivity. reflexivity.
Qed.

Lemma strip_plain : forall s p,
  forallb plain s = true -> forallb plain p = true -> forallb plain (strip p s) = true.
Proof.
  induction s as [|c s IH]; intros p Hs Hp; [reflexivity|].
  simpl in Hs. apply andb_prop in Hs as [Hc Hs]. cbn [strip].
  destruct (is_blank c).
  - apply IH; [exact Hs|]. rewrite forallb_app, Hp. simpl. rewrite Hc. reflexivity.
  - destruct (JS.is_line_terminator c).
    + simpl. rewrite Hc. apply IH; [exact Hs | reflexivity].
    + rewrite forallb_app, Hp. simpl. rewrite Hc. apply IH; [exact Hs | reflexivity].
Qed.

(** [normalizeSurface] in closed form. *)
Lemma normalizeSurface_eq s : normalizeSurface s = strip [] (flat_map surface_char s).
Proof.
  unfold normalizeSurface. rewrite surface_steps. unfold replace_all.
  apply (trailing_strip (length (flat_map surface_char s))). lia.
Qed.

Lemma normalizeSurface_plain s : forallb plain (normalizeSurface s) = true.
Proof.
  rewrite normalizeSurface_eq. apply strip_plain; [apply surface_chars_plain | reflexivity].
Qed.

Lemma normalizeSurface_twice s : normalizeSurface (normalizeSurface s) = normalizeSurface s.
Proof.
  rewrite (normalizeSurface_eq (normalizeSurface s)).
  rewrite surface_chars_id by apply normalizeSurface_plain.
  rewrite normalizeSurface_eq. rewrite strip_strip by reflexivity. reflexivity.
Qed.

Lemma strip_forallb (Q : N -> bool) : forall s p,
  forallb Q s = true -> forallb Q p = true -> forallb Q (strip p s) = true.
Proof.
  induction s as [|c s IH]; intros p Hs Hp; [reflexivity|].
  simpl in Hs. apply andb_prop in Hs as [Hc Hs]. cbn [strip].
  destruct (is_blank c).
  - apply IH; [exact Hs|]. rewrite forallb_app, Hp. simpl. rewrite Hc. reflexivity.
  - destruct (JS.is_line_terminator c).
    + simpl. rewrite Hc. apply IH; [exact Hs | reflexivity].
    + rewrite forallb_app, Hp. simpl. rewrite Hc. apply IH; [exact Hs | reflexivity].
Qed.

(** The surface normalisation brings in no character but [-] and the
    space. *)
Lemma normalizeSurface_keeps (Q : N -> bool) s :
  Q 45%N = true -> Q 32%N = true ->
  forallb Q s = true -> forallb Q (normalizeSurface s) = true.
Proof.
  intros Hd Hsp Hs. rewrite normalizeSurface_eq. apply strip_forallb; [|reflexivity].
  induction s as [|c s IH]; [reflexivity|].
  simpl in Hs. apply andb_prop in Hs as [Hc Hs].
  cbn [flat_map]. rewrite forallb_app, IH by exact Hs. rewrite andb_true_r.
  unfold surface_char.
  destruct (is_bom c); [reflexivity|]. destruct (is_zero_width c); [reflexivity|].
  destruct (is_dash c); [simpl; rewrite Hd; reflexivity|].
  destruct (is_wide_space c); simpl; [rewrite Hsp | rewrite Hc]; reflexivity.
Qed.

(** X15. The surface normalisation of the correction client is idempotent:
    applied to its own result it changes nothing. *)
Theorem normalizeSurface_idempotent (s : jsstring) :
  normalizeSurface (normalizeSurface s) = normalizeSurface s.
Proof. exact (normalizeSurface_twice s). Qed.

End SurfaceFacts.

(** * What a match can hold *)
Module CaptureFacts.
Import Regex RegexFacts SearchFacts.

#[local] Arguments char_matches : simpl never.

(** The input left and the captures made so far hold only characters in
    [Q]. *)
Definition drawn (Q : N -> bool) (x : mstate) : Prop :=
  forallb Q (rest x) = true
  /\ Forall (fun p => forallb Q (snd p) = true) (caps x).

Lemma forallb_skipn (Q : N -> bool) n (s : jsstring) :
  forallb Q s = true -> forallb Q (skipn n s) = true.
Proof.
  revert s. induction n as [|n IH]; intros [|c s] H; simpl in *; auto.
  apply andb_prop in H as [_ H]. auto.
Qed.

Lemma forallb_firstn (Q : N -> bool) n (s : jsstring) :
  forallb Q s = true -> forallb Q (firstn n s) = true.
Proof.
  revert s. induction n as [|n IH]; intros [|c s] H; simpl in *; auto.
  apply andb_prop in H as [-> H]. simpl. auto.
Qed.

Lemma drawn_advance Q k x : drawn Q x -> drawn Q (advance k x).
Proof. intros [H1 H2]. split; [apply forallb_skipn; exact H1 | exact H2]. Qed.

Section Repeat.
Variable Q : N -> bool.
Variable m : mstate -> list mstate.
Hypothesis m_keeps : forall x y, In y (m x) -> drawn Q x -> drawn Q y.

Lemma rep_opt_keeps fuel mx greedy x y :
  In y (rep_opt m fuel mx greedy x) -> drawn Q x -> drawn Q y.
Proof.
  revert mx x. induction fuel as [|f IH]; intros mx x H Hx; simpl in H.
  - destruct H as [<- | []]. exact Hx.
  - destruct (max_is_zero mx).
    + destruct H as [<- | []]. exact Hx.
    + assert (Hit : In y (flat_map (fun z => if Nat.eqb (pos z) (pos x) then []
                          else rep_opt m f (dec_max mx) greedy z) (m x)) -> drawn Q y).
      { intros Hin. apply in_flat_map in Hin as (z & Hz & Hy).
        destruct (Nat.eqb (pos z) (pos x)); [destruct Hy|].
        eapply IH; [exact Hy|]. eapply m_keeps; eassumption. }
      destruct greedy.
      * apply in_app_iff in H as [H | [<- | []]]; auto.
      * destruct H as [<- | H]; auto.
Qed.

Lemma rep_min_keeps mn mx greedy x y :
  In y (rep_min m mn mx greedy x) -> drawn Q x -> drawn Q y.
Proof.
  revert mx x. induction mn as [|k IH]; intros mx x H Hx; simpl in H.
  - eapply rep_opt_keeps; eassumption.
  - destruct (max_is_zero mx).
    + destruct H as [<- | []]. exact Hx.
    + apply in_flat_map in H as (z & Hz & Hy).
      eapply IH; [exact Hy|]. eapply m_keeps; eassumption.
Qed.

End Repeat.

(** Matching draws on the input only: what is left and what is captured
    is made of the characters that were there. *)
Lemma run_keeps Q fl r : forall x y, In y (run fl r x) -> drawn Q x -> drawn Q y.
Proof.
  induction r as [ | inv A | r1 IH1 r2 IH2 | r1 IH1 r2 IH2 | r1 IH1 mn mx g
                 | k r1 IH1 | k | | | | r1 IH1 ]; intros x y H Hx; simpl in H.
  - destruct H as [<- | []]. exact Hx.
  - destruct (rest x) as [|c tl] eqn:E; [destruct H|].
    destruct (char_matches fl inv A c); [|destruct H].
    destruct H as [<- | []]. apply drawn_advance. exact Hx.
  - apply in_flat_map in H as (z & Hz & Hy). eauto.
  - apply in_app_iff in H as [H | H]; eauto.
  - eapply rep_min_keeps; [exact IH1 | exact H | exact Hx].
  - apply in_map_iff in H as (z & <- & Hz). destruct (IH1 _ _ Hz Hx) as [H1 H2].
    split; [exact H1|]. simpl. constructor; [|exact H2].
    simpl. apply forallb_firstn. exact (proj1 Hx).
  - destruct (get_cap k (caps x)) as [s|].
    + destruct (prefix_ci fl s (rest x)); [|destruct H].
      destruct H as [<- | []]. apply drawn_advance. exact Hx.
    + destruct H as [<- | []]. exact Hx.
  - destruct (at_line_start fl x); [|destruct H]. destruct H as [<- | []]. exact Hx.
  - destruct (at_line_end fl x); [|destruct H]. destruct H as [<- | []]. exact Hx.
  - destruct (at_word_boundary x); [|destruct H]. destruct H as [<- | []]. exact Hx.
  - destruct (run fl r1 x) as [|z l] eqn:E; [destruct H|].
    destruct H as [<- | []].
    assert (Hz : drawn Q z) by (apply (IH1 x z); [rewrite E; left; reflexivity | exact Hx]).
    split; [exact (proj1 Hx) | exact (proj2 Hz)].
Qed.

Lemma get_cap_drawn Q n cs :
  Forall (fun p : nat * jsstring => forallb Q (snd p) = true) cs ->
  forallb Q (match get_cap n cs with Some s => s | None => [] end) = true.
Proof.
  induction 1 as [|[k s] cs Hs Hcs IH]; simpl; [reflexivity|].
  destruct (Nat.eqb k n); [exact Hs | exact IH].
Qed.

(** The groups of a match hold only characters of the text matched
    against. *)
Lemma group_drawn Q fl r b i s m n :
  match_at fl r b i s = Some m -> forallb Q s = true -> forallb Q (group n m) = true.
Proof.
  unfold match_at. intros H Hs.
  destruct (run fl r _) as [|y l] eqn:E; [discriminate|]. injection H as <-.
  unfold group. cbn [m_caps]. apply get_cap_drawn.
  apply (run_keeps Q fl r {| before := b; pos := i; rest := s; caps := [] |} y).
  - rewrite E. left. reflexivity.
  - split; [exact Hs | constructor].
Qed.

(** A global replacement whose callback hands back the text matched
    changes nothing. *)
Lemma replace_walk_same Q fl r f :
  (forall b i t m, forallb Q t = true -> match_at fl r b i t = Some m -> f m = m_whole m) ->
  forall s n b i, forallb Q s = true -> n <= length s ->
                  replace_walk fl r f b i s n = skipn n s.
Proof.
  intros Hf. induction s as [|c s IH]; intros n b i Hs Hn.
  - simpl in Hn. replace n with 0 by lia. cbn [replace_walk skipn].
    destruct (match_at fl r b i []) as [m|] eqn:Em; [|reflexivity].
    rewrite (Hf _ _ _ _ Hs Em). apply match_at_spec in Em as (_ & _ & _ & ->).
    rewrite firstn_nil. reflexivity.
  - assert (Hs' : forallb Q s = true) by (simpl in Hs; apply andb_prop in Hs as [_ H]; exact H).
    destruct n as [|n]; cbn [replace_walk skipn].
    + destruct (match_at fl r b i (c :: s)) as [m|] eqn:Em.
      * rewrite (Hf _ _ _ _ Hs Em).
        apply match_at_spec in Em as (_ & H1 & H2 & ->). simpl in H2.
        destruct (Nat.eqb_spec (m_end m) i) as [->|Hne].
        -- rewrite Nat.sub_diag. rewrite (IH 0) by (auto; lia). reflexivity.
        -- rewrite IH by (auto; lia).
           destruct (m_end m - i) as [|j] eqn:Ej; [lia|].
           cbn [Nat.sub]. rewrite Nat.sub_0_r.
           cbn [firstn app]. rewrite firstn_skipn. reflexivity.
      * rewrite (IH 0) by (auto; lia). reflexivity.
    + apply IH; [exact Hs' | simpl in Hn; lia].
Qed.

Lemma found_needs fl P r : forall s b i,
  needs fl P r -> existsb P s = false -> found fl r b i s = false.
Proof.
  induction s as [|c s IH]; intros b i Hn Hs.
  - rewrite found_nil. apply (here_needs fl P); assumption.
  - rewrite found_cons, (here_needs fl P r b i (c :: s) Hn Hs).
    simpl in Hs. apply orb_false_elim in Hs as [_ Hs]. apply IH; assumption.
Qed.

End CaptureFacts.

(** * The normalisations on plain texts; the results are in normal form *)
Module NormalizeMore.
Import Regex RegexFacts SearchFacts CaptureFacts NormalizeFacts SurfaceFacts.

Definition is_lt (c : N) : bool := N.eqb c 60.

Lemma lit_lt_needs : needs Utils.ci is_lt (lit 60).
Proof.
  unfold lit. cbn [needs]. intros c. unfold char_matches, is_lt. cbn [in_set xorb Utils.ci ignoreCase].
  destruct (N.eqb_spec c 60) as [->|H]; [reflexivity|]. cbn [orb andb].
  unfold JS.ascii_upper, JS.ascii_lower.
  destruct (N.leb_spec 97 c); destruct (N.leb_spec c 122); cbn [andb];
    destruct (N.leb_spec 65 c); destruct (N.leb_spec c 90); cbn [andb];
    repeat match goal with
           | |- context [N.eqb ?a ?b] => destruct (N.eqb_spec a b); try lia
           end; discriminate.
Qed.

Lemma utils_br_needs : needs Utils.ci is_lt Utils.re_br.
Proof. unfold Utils.re_br. cbn [seqs needs lits str_of]. left. left. exact lit_lt_needs. Qed.

Lemma gemini_br_needs : needs Utils.ci is_lt Gemini.re_br.
Proof. unfold Gemini.re_br. cbn [seqs needs lits str_of]. left. left. exact lit_lt_needs. Qed.

Lemma forallb_not_existsb (P : N -> bool) s :
  forallb (fun c => negb (P c)) s = true <-> existsb P s = false.
Proof.
  induction s as [|c s IH]; simpl; [tauto|].
  destruct (P c); simpl; [split; discriminate | exact IH].
Qed.

Lemma not_in_existsb a (s : jsstring) : ~ In a s <-> existsb (fun c => N.eqb c a) s = false.
Proof.
  induction s as [|c s IH]; simpl; [tauto|].
  destruct (N.eqb_spec c a) as [->|Hne]; simpl.
  - split; [intros H; exfalso; apply H; left; reflexivity | discriminate].
  - rewrite <- IH. split; [intros H Hin; apply H; right; exact Hin|].
    intros H [Hc|Hin]; [congruence | exact (H Hin)].
Qed.

(** X16. The light normalisation of [utils.ts] changes nothing in a text
    that holds no [<]: it only ever rewrites labels with a break tag. *)
Theorem utils_normalize_needs_tag (s : jsstring) :
  ~ In 60%N s -> Utils.preNormalizeMermaid s = s.
Proof.
  intros Hs. apply not_in_existsb in Hs. change (fun c => N.eqb c 60) with is_lt in Hs.
  apply forallb_not_existsb in Hs.
  unfold Utils.preNormalizeMermaid, replace_all.
  rewrite (replace_walk_same (fun c => negb (is_lt c)) no_flags Utils.re_node
             Utils.node_callback) with (n := 0); [reflexivity | | exact Hs | lia].
  intros b i t m Ht Hm. unfold Utils.node_callback.
  rewrite test_found.
  rewrite (found_needs Utils.ci is_lt Utils.re_br _ None 0 utils_br_needs); [reflexivity|].
  apply forallb_not_existsb. eapply group_drawn; eassumption.
Qed.

Lemma utils_normalize_needs_tag_witness :
  Utils.preNormalizeMermaid (str_of "graph TD
  A[x: y] --> B{z}") = str_of "graph TD
  A[x: y] --> B{z}".
Proof.
  apply utils_normalize_needs_tag. apply (proj2 (not_in_existsb _ _)).
  vm_compute. reflexivity.
Defined.

(** Without an opening square bracket the normalisation of the client is
    its surface normalisation. *)
Lemma gemini_normalize_plain s :
  existsb is_bracket s = false -> Gemini.preNormalizeMermaid s = Gemini.normalizeSurface s.
Proof.
  intros Hs. unfold Gemini.preNormalizeMermaid.
  rewrite (replace_all_no_match no_flags is_bracket _ _ s re_bracket_any_needs Hs).
  rewrite (replace_all_no_match no_flags is_bracket _ _ s re_bracket_line_needs Hs).
  reflexivity.
Qed.

(** X17. On a text without an opening square bracket the normalisation of
    the correction client is idempotent.  (With brackets it is not: a label
    is quoted a second time when it holds a line terminator other than the
    line feed.) *)
Theorem gemini_normalize_idempotent_without_brackets (s : jsstring) :
  ~ In 91%N s ->
  Gemini.preNormalizeMermaid (Gemini.preNormalizeMermaid s) = Gemini.preNormalizeMermaid s.
Proof.
  intros Hs. apply not_in_existsb in Hs. change (fun c => N.eqb c 91) with is_bracket in Hs.
  rewrite (gemini_normalize_plain s Hs).
  rewrite gemini_normalize_plain; [apply normalizeSurface_twice|].
  apply forallb_not_existsb. apply normalizeSurface_keeps; [reflexivity ..|].
  apply forallb_not_existsb. exact Hs.
Qed.

Lemma gemini_normalize_idempotent_without_brackets_witness :
  let s := str_of "graph TD  
  A --> B" in
  Gemini.preNormalizeMermaid (Gemini.preNormalizeMermaid s) = Gemini.preNormalizeMermaid s.
Proof.
  apply gemini_normalize_idempotent_without_brackets. apply (proj2 (not_in_existsb _ _)).
  vm_compute. reflexivity.
Defined.

(** *** The texts the client returns *)

Definition normal (v : jsstring) : Prop := Gemini.normalizeSurface v = v.

Definition memo_normal (c : Gemini.client) : Prop :=
  forall k v, Gemini.fixMemo c !! k = Some v -> normal v.

Lemma gemini_normalize_normal s : normal (Gemini.preNormalizeMermaid s).
Proof. unfold normal, Gemini.preNormalizeMermaid. apply normalizeSurface_twice. Qed.

Lemma sanitize_normal s : normal (Gemini.sanitizeMermaidOutput s).
Proof. unfold normal, Gemini.sanitizeMermaidOutput. apply normalizeSurface_twice. Qed.

Lemma memo_set_normal k v c :
  memo_normal c -> normal v -> memo_normal (Gemini.memo_set k v c).
Proof.
  intros Hc Hv k' v' Hl. unfold Gemini.memo_set in Hl. cbn [Gemini.fixMemo] in Hl.
  destruct (decide (k = k')) as [->|Hne].
  - rewrite lookup_insert_eq in Hl. injection Hl as <-. exact Hv.
  - rewrite lookup_insert_ne in Hl by exact Hne. exact (Hc _ _ Hl).
Qed.

(** X18. Every text the correction client returns is in surface normal
    form (the surface normalisation leaves it as it is: no zero-width
    character, no wide dash or space, no blank at the end of a line); this
    holds for the entries of the memo table too, from the empty table on. *)
Theorem fix_results_are_normal (E : Gemini.env)
    (apiKey model original errorMsg : jsstring) (ms : Z) (ver : jsstring)
    (c : Gemini.client) :
  memo_normal c ->
  let out := Gemini.geminiFixSingle E apiKey model original errorMsg ms ver c in
  memo_normal (snd out)
  /\ forall r, fst out = Async.Returns r -> Gemini.normalizeSurface r = r.
Proof.
  intros Hc out. subst out. unfold Gemini.geminiFixSingle.
  destruct (JS.truthy (match Gemini.fixMemo c !! _ with Some v => v | None => [] end)) eqn:Et.
  - cbn [fst snd]. split; [exact Hc|]. intros r Hr. injection Hr as <-.
    destruct (Gemini.fixMemo c !! _) as [v|] eqn:El; [|discriminate]. exact (Hc _ _ El).
  - match goal with
    | |- context [Gemini.memo_set _ _ ?c1] =>
        assert (Hc1 : memo_normal c1) by (intros k v Hl; exact (Hc _ _ Hl))
    end.
    match goal with
    | |- context [Async.await ?p] => destruct (Async.await p) as [raw| |]
    end; [| split; [exact Hc1 | discriminate] ..].
    destruct (negb (JS.truthy (Gemini.sanitizeMermaidOutput (Gemini.extractFromSentinel raw)))).
    + destruct (JS.truthy (Gemini.preNormalizeMermaid original)
                && negb (JS.str_eqb (Gemini.preNormalizeMermaid original) original));
        cbn [fst snd].
      * split; [apply memo_set_normal; [exact Hc1 | apply gemini_normalize_normal]|].
        intros r Hr. injection Hr as <-. apply gemini_normalize_normal.
      * split; [exact Hc1 | discriminate].
    + cbn [fst snd]. split; [apply memo_set_normal; [exact Hc1 | apply sanitize_normal]|].
      intros r Hr. injection Hr as <-. apply sanitize_normal.
Qed.

Lemma fix_results_are_normal_witness :
  let out := Gemini.geminiFixSingle (Main.services Scenario.always_ok) (str_of "k")
               (str_of "m") (str_of "graph TD") (str_of "Parse error") 30000
               (str_of "v1beta") Scenario.fresh_client in
  memo_normal (snd out)
  /\ forall r, fst out = Async.Returns r -> Gemini.normalizeSurface r = r.
Proof.
  apply fix_results_are_normal. intros k v Hl. discriminate.
Defined.

End NormalizeMore.

(** * A fenced block is found *)
Module FenceFacts.
Import Regex Utils JSFacts RegexFacts SearchFacts StarFacts CaptureFacts ExtractFacts.

#[local] Arguments char_matches : simpl never.
#[local] Arguments advance : simpl never.

Lemma run_seq_one fl r1 r2 x y :
  run fl r1 x = [y] -> run fl (Seq r1 r2) x = run fl r2 y.
Proof. intros H. cbn [run]. rewrite H. cbn [flat_map]. apply app_nil_r. Qed.

Definition FENCE : jsstring := str_of "```mermaid" ++ [LF].
Definition CLOSE : jsstring := LF :: str_of "```".

(** The part of the fence pattern from the body on. *)
Definition re_body : regex :=
  seqs [Group 5 (lazy_star (Char false any_char));
        seqs [lit LF; star blank; Backref 3; star blank];
        Lookahead (Alt newline Eol)].

Definition after_fence (t : jsstring) : mstate :=
  {| before := Some LF; pos := 11; rest := t;
     caps := [(4, []); (3, str_of "```"); (2, []); (1, [])] |}.

Lemma block_head t :
  run gmi re_block {| before := None; pos := 0; rest := FENCE ++ t; caps := [] |}
  = run gmi re_body (after_fence t).
Proof.
  unfold re_block. cbn [seqs].
  do 7 (erewrite run_seq_one by (vm_compute; reflexivity)).
  reflexivity.
Qed.

Definition caps4 : list (nat * jsstring) := [(4, []); (3, str_of "```"); (2, []); (1, [])].

Definition re_close : regex :=
  Seq (seqs [lit LF; star blank; Backref 3; star blank]) (Lookahead (Alt newline Eol)).

(** At the closing fence the rest of the pattern matches, to the end. *)
Lemma close_matches b p g :
  exists y l,
    run gmi re_close {| before := b; pos := p; rest := CLOSE; caps := (5, g) :: caps4 |}
    = y :: l
    /\ caps y = (5, g) :: caps4 /\ pos y = p + 4.
Proof.
  assert (H : exists y l,
             run gmi re_close
               {| before := b; pos := p; rest := CLOSE; caps := (5, g) :: caps4 |} = y :: l
             /\ caps y = (5, g) :: caps4 /\ rest y = []).
  { eexists _, _. split; [vm_compute; reflexivity|]. split; reflexivity. }
  destruct H as (y & l & Hr & Hc & Ht). exists y, l. split; [exact Hr|]. split; [exact Hc|].
  assert (Hin : In y (run gmi re_close
                        {| before := b; pos := p; rest := CLOSE; caps := (5, g) :: caps4 |}))
    by (rewrite Hr; left; reflexivity).
  apply run_reaches in Hin as (w & R & P & _). cbn [rest pos] in R, P.
  rewrite Ht, app_nil_r in R. subst w. exact P.
Qed.

Lemma lf_matches fl c : char_matches fl false (CLit LF) c = N.eqb c LF.
Proof.
  unfold char_matches, LF. cbn [in_set xorb].
  destruct (N.eqb_spec c 10) as [->|H]; [reflexivity|]. cbn [orb].
  destruct (ignoreCase fl); [|reflexivity]. cbn [andb].
  unfold JS.ascii_upper, JS.ascii_lower.
  destruct (N.leb_spec 97 c); destruct (N.leb_spec c 122); cbn [andb];
    destruct (N.leb_spec 65 c); destruct (N.leb_spec c 90); cbn [andb];
    repeat match goal with
           | |- context [N.eqb ?a ?b] => destruct (N.eqb_spec a b); try lia
           end; reflexivity.
Qed.

Lemma prefix_fence_false (w : jsstring) :
  match w with d :: _ => d <> 96%N | [] => True end ->
  prefix_ci gmi (str_of "```") w = false.
Proof.
  destruct w as [|d w]; [reflexivity|]. intros Hd.
  change (str_of "```") with [96%N; 96%N; 96%N]. cbn [prefix_ci].
  replace (N.eqb (canon gmi 96) (canon gmi d)) with false; [reflexivity|].
  symmetry. apply N.eqb_neq. unfold canon, gmi. cbn [ignoreCase].
  unfold JS.ascii_upper. cbn.
  destruct (N.leb_spec 97 d); destruct (N.leb_spec d 122); cbn [andb]; lia.
Qed.

Lemma lead_app_le P (s t : jsstring) c :
  P c = false -> lead P (s ++ c :: t) <= length s.
Proof.
  intros Hc. induction s as [|d s IH]; simpl; [rewrite Hc; lia|].
  destruct (P d); simpl; lia.
Qed.

(** Inside the body the closing part of the pattern finds no fence. *)
Lemma close_fails (s : jsstring) (z : mstate) :
  ~ In 96%N s -> s <> [] -> rest z = s ++ CLOSE ->
  get_cap 3 (caps z) = Some (str_of "```") ->
  run gmi re_close z = [].
Proof.
  intros Hs Hne Hr Hc. unfold re_close. cbn [seqs].
  change (run gmi (Seq (Seq (lit LF) (Seq (star blank) (Seq (Backref 3) (star blank))))
                     (Lookahead (Alt newline Eol))) z)
    with (flat_map (run gmi (Lookahead (Alt newline Eol)))
            (flat_map (run gmi (Seq (star blank) (Seq (Backref 3) (star blank))))
               (run gmi (lit LF) z))).
  replace (flat_map (run gmi (Seq (star blank) (Seq (Backref 3) (star blank))))
             (run gmi (lit LF) z)) with (@nil mstate); [reflexivity|].
  symmetry. destruct s as [|c s']; [congruence|].
  unfold lit. cbn [run]. rewrite Hr. cbn [app]. rewrite lf_matches.
  destruct (N.eqb c LF); [|reflexivity].
  cbn [flat_map]. rewrite app_nil_r.
  change (run gmi (Seq (star blank) (Seq (Backref 3) (star blank))) (advance 1 z))
    with (flat_map (run gmi (Seq (Backref 3) (star blank)))
            (run gmi (star blank) (advance 1 z))).
  apply SurfaceFacts.flat_map_nil. intros y Hy.
  unfold star, blank in Hy. rewrite star_class in Hy.
  apply in_map_iff in Hy as (i & <- & Hi). apply in_rev, in_seq in Hi.
  change (run gmi (Seq (Backref 3) (star blank)) (advance i (advance 1 z)))
    with (flat_map (run gmi (star blank)) (run gmi (Backref 3) (advance i (advance 1 z)))).
  cbn [run]. change (caps (advance i (advance 1 z))) with (caps z). rewrite Hc.
  change (rest (advance i (advance 1 z))) with (skipn i (skipn 1 (rest z))).
  rewrite Hr. cbn [skipn app]. rewrite ?drop_0.
  change (rest (advance 1 z)) with (skipn 1 (rest z)) in Hi. rewrite Hr in Hi.
  cbn [skipn app] in Hi. rewrite ?drop_0 in Hi.
  assert (Hle : i <= length s').
  { pose proof (lead_app_le (char_matches gmi false (CUnion (CLit 32) (CLit 9)))
                  s' (str_of "```") LF) as Hl.
    unfold CLOSE in Hi. specialize (Hl ltac:(vm_compute; reflexivity)). lia. }
  rewrite prefix_fence_false; [reflexivity|].
  rewrite skipn_app. replace (i - length s') with 0 by lia. cbn [skipn].
  destruct (skipn i s') as [|d t] eqn:Ed; [cbn; discriminate|].
  cbn [app]. intros ->. apply Hs. right.
  rewrite <- (firstn_skipn i s'), Ed. apply in_or_app. right. left. reflexivity.
Qed.

Lemma body_states z :
  run gmi (Group 5 (lazy_star (Char false any_char))) z
  = map (fun j => set_cap 5 (firstn j (rest z)) (advance j z))
        (seq 0 (S (length (rest z)))).
Proof.
  change (run gmi (Group 5 (lazy_star (Char false any_char))) z)
    with (map (fun y => set_cap 5 (firstn (pos y - pos z) (rest z)) y)
            (run gmi (lazy_star (Char false any_char)) z)).
  unfold lazy_star. rewrite star_class, lead_any, map_map.
  apply map_ext. intros j. change (pos (advance j z)) with (pos z + j).
  replace (pos z + j - pos z) with j by lia. reflexivity.
Qed.

(** The fence pattern matches the whole of a document that is one fenced
    block, with the body as its fifth group. *)
Lemma block_match (body : jsstring) :
  ~ In 96%N body ->
  exists m,
    match_at gmi re_block None 0 (FENCE ++ body ++ CLOSE) = Some m
    /\ m_end m = length (FENCE ++ body ++ CLOSE)
    /\ m_whole m = FENCE ++ body ++ CLOSE
    /\ m_caps m = (5, body) :: caps4.
Proof.
  intros Hb. unfold match_at. rewrite block_head.
  unfold re_body. cbn [seqs].
  change (run gmi (Seq (Group 5 (lazy_star (Char false any_char)))
                     (Seq (Seq (lit LF) (Seq (star blank) (Seq (Backref 3) (star blank))))
                        (Lookahead (Alt newline Eol))))
            (after_fence (body ++ CLOSE)))
    with (flat_map (run gmi re_close)
            (run gmi (Group 5 (lazy_star (Char false any_char)))
               (after_fence (body ++ CLOSE)))).
  rewrite body_states. cbn [rest after_fence].
  rewrite length_app. change (length CLOSE) with 4.
  replace (S (length body + 4)) with (length body + 5) by lia.
  rewrite seq_app, map_app, flat_map_app.
  rewrite SurfaceFacts.flat_map_nil.
  - cbn [Nat.add seq map flat_map app].
    assert (Hst : set_cap 5 (firstn (length body) (body ++ CLOSE))
                    (advance (length body) (after_fence (body ++ CLOSE)))
                  = {| before := last_unit (Some LF) body; pos := 11 + length body;
                       rest := CLOSE; caps := (5, body) :: caps4 |}).
    { unfold set_cap, advance, after_fence. cbn [before pos rest caps].
      rewrite firstn_app, firstn_all, Nat.sub_diag, skipn_app, skipn_all, Nat.sub_diag.
      cbn [firstn skipn app]. rewrite app_nil_r. reflexivity. }
    rewrite Hst.
    destruct (close_matches (last_unit (Some LF) body) (11 + length body) body)
      as (y & l & -> & Hc & Hp).
    cbn [app]. eexists. split; [reflexivity|]. cbn [m_end m_whole m_caps].
    assert (Hlen : length (FENCE ++ body ++ CLOSE) = 11 + length body + 4).
    { rewrite !length_app. reflexivity. }
    rewrite Hp, Hlen, Nat.sub_0_r. split; [reflexivity|]. split; [|exact Hc].
    rewrite <- Hlen. apply firstn_all.
  - intros z Hz. apply in_map_iff in Hz as (j & <- & Hj). apply in_seq in Hj.
    apply (close_fails (skipn j body)).
    + intros Hin. apply Hb. rewrite <- (firstn_skipn j body). apply in_or_app. right. exact Hin.
    + intros Hnil. apply (f_equal (@length _)) in Hnil. rewrite length_skipn in Hnil.
      simpl in Hnil. lia.
    + change (rest (set_cap 5 _ (advance j _))) with (skipn j (body ++ CLOSE)).
      rewrite skipn_app. replace (j - length body) with 0 by lia. reflexivity.
    + reflexivity.
Qed.

Lemma scan_here fl r b i s m :
  match_at fl r b i s = Some m -> scan fl r b i s = Some m.
Proof. intros H. destruct s; simpl; rewrite H; reflexivity. Qed.

Lemma index_from_first p : forall s i k,
  k <= length s -> JS.starts_with p (skipn k s) = true ->
  (i <= JS.index_from p s i <= i + Z.of_nat k)%Z
  /\ ((forall j, j < k -> JS.starts_with p (skipn j s) = false) ->
      JS.index_from p s i = (i + Z.of_nat k)%Z).
Proof.
  induction s as [|c s IH]; intros i k Hk Hp.
  - simpl in Hk. replace k with 0 in * by lia. simpl in *. rewrite Hp. split; [lia|].
    intros _. lia.
  - cbn [JS.index_from]. destruct (JS.starts_with p (c :: s)) eqn:E.
    + split; [lia|]. intros Hno. destruct k as [|k]; [lia|].
      specialize (Hno 0 ltac:(lia)). simpl in Hno. congruence.
    + destruct k as [|k]; [simpl in Hp; congruence|].
      simpl in Hk, Hp. destruct (IH (i + 1)%Z k ltac:(lia) Hp) as [H1 H2].
      split; [lia|]. intros Hno. rewrite H2; [lia|].
      intros j Hj. apply (Hno (S j)). lia.
Qed.

Lemma extract_loop_once fuel D li idx bs m :
  exec_from gmi re_block D li = Some m ->
  exec_from gmi re_block D (m_end m) = None ->
  (0 <= JS.indexOf (m_whole m) (group 5 m))%Z ->
  extract_loop (S (S fuel)) D li idx bs
  = Some (bs ++ [make_block m (JS.indexOf (m_whole m) (group 5 m)) idx]).
Proof.
  intros He Hd Hi. cbn [extract_loop]. rewrite He.
  destruct (Z.ltb_spec (JS.indexOf (m_whole m) (group 5 m)) 0); [lia|].
  rewrite Hd. reflexivity.
Qed.

Lemma exec_from_start fl r text : exec_from fl r text 0 = scan fl r None 0 text.
Proof. unfold exec_from. destruct text; reflexivity. Qed.

Lemma exec_from_end (D : jsstring) :
  last_unit None D = Some 96%N -> exec_from gmi re_block D (length D) = None.
Proof.
  intros Hlast. unfold exec_from. rewrite Nat.ltb_irrefl, firstn_all, skipn_all, Hlast.
  generalize (length D). intros n. vm_compute. reflexivity.
Qed.

Lemma one_block_found (body D : jsstring) :
  ~ In 96%N body -> D = FENCE ++ body ++ CLOSE ->
  extractMermaidBlocks D
  = [ {| startOffset := JS.indexOf D body;
         endOffset := JS.indexOf D body + Z.of_nat (length body);
         fenceOpen := str_of "```mermaid"; fenceClose := str_of "```";
         info := []; code := body; index := 0 |} ]
  /\ (0 <= JS.indexOf D body <= 11)%Z
  /\ ((forall k, k < 11 -> JS.starts_with body (skipn k D) = false) ->
      JS.indexOf D body = 11%Z).
Proof.
  intros Hb HD.
  assert (Hstart : JS.starts_with body (skipn 11 D) = true).
  { rewrite HD. unfold FENCE. rewrite skipn_app, skipn_all2 by (simpl; lia).
    cbn [app]. replace (11 - length (str_of "```mermaid" ++ [LF])) with 0 by reflexivity.
    rewrite drop_0. apply starts_with_app. }
  assert (Hlen : length D = 11 + length body + 4).
  { rewrite HD, !length_app. reflexivity. }
  destruct (index_from_first body D 0 11 ltac:(lia) Hstart) as [Hi1 Hi2].
  fold (JS.indexOf D body) in Hi1, Hi2.
  split; [|split; [lia | exact Hi2]].
  destruct (block_match body Hb) as (m & Hm & He & Hw & Hc). rewrite <- HD in *.
  assert (Hexec : exec_from gmi re_block D 0 = Some m).
  { rewrite exec_from_start. apply scan_here. exact Hm. }
  assert (Hdone : exec_from gmi re_block D (m_end m) = None).
  { rewrite He. apply exec_from_end. rewrite HD. unfold last_unit, CLOSE.
    rewrite !rev_app_distr. reflexivity. }
  assert (Hg5 : group 5 m = body) by (unfold group; rewrite Hc; reflexivity).
  assert (Hidx : m_index m = 0).
  { unfold match_at in Hm. destruct (run gmi re_block _); [discriminate|].
    injection Hm as <-. reflexivity. }
  unfold extractMermaidBlocks, extractMermaidBlocks_fuel.
  replace (S (length D)) with (S (S (length D - 1))) by lia.
  rewrite (extract_loop_once _ D 0 0 [] m Hexec Hdone) by (rewrite Hw, Hg5; lia).
  rewrite Hw, Hg5. unfold make_block, group. rewrite Hc, Hidx.
  change (Z.of_nat 0) with 0%Z. rewrite !Z.add_0_l. reflexivity.
Qed.

(** X19. A document that consists of one fenced block, opened by three
    backticks and the word mermaid, whose body holds no backtick, yields
    exactly that block: its code is the body and its fences are as written.
    Its span starts at the first occurrence of the body in the document;
    that is the body's own place, offset 11, when the body does not occur
    before it. *)
Theorem fenced_block_is_found (body : jsstring) :
  ~ In 96%N body ->
  let D := str_of "```mermaid" ++ [LF] ++ body ++ [LF] ++ str_of "```" in
  extractMermaidBlocks D
  = [ {| startOffset := JS.indexOf D body;
         endOffset := JS.indexOf D body + Z.of_nat (length body);
         fenceOpen := str_of "```mermaid"; fenceClose := str_of "```";
         info := []; code := body; index := 0 |} ]
  /\ (0 <= JS.indexOf D body <= 11)%Z
  /\ ((forall k, k < 11 -> JS.starts_with body (skipn k D) = false) ->
      JS.indexOf D body = 11%Z).
Proof.
  intros Hb D. apply one_block_found; [exact Hb|].
  subst D. unfold FENCE, CLOSE. rewrite <- !app_assoc. reflexivity.
Qed.

(** A body that repeats the word of the fence line: the span the block
    gets lies in the fence line. *)
Lemma fenced_block_is_found_witness :
  map startOffset
    (extractMermaidBlocks (str_of "```mermaid" ++ [LF] ++ str_of "mermaid" ++ [LF]
                           ++ str_of "```"))
  = [3%Z].
Proof.
  destruct (fenced_block_is_found (str_of "mermaid")) as (H & _).
  - apply (proj2 (NormalizeMore.not_in_existsb _ _)). vm_compute. reflexivity.
  - cbv zeta in H. rewrite H. vm_compute. reflexivity.
Defined.

End FenceFacts.

(** * Documents without a block *)
Module PlainFacts.
Import Regex Utils Gemini Main RegexFacts SearchFacts CaptureFacts NormalizeMore.

Definition is_fence (c : N) : bool := (N.eqb c 96 || N.eqb c 126)%N.

Definition is_m (c : N) : bool := (N.eqb c 109 || N.eqb c 77)%N.

Ltac case_fold :=
  unfold JS.ascii_upper, JS.ascii_lower;
  match goal with
  | |- context [N.leb 97 ?c] =>
      destruct (N.leb_spec 97 c); destruct (N.leb_spec c 122); cbn [andb];
      destruct (N.leb_spec 65 c); destruct (N.leb_spec c 90); cbn [andb]
  end;
  repeat match goal with
         | |- context [N.eqb ?a ?b] => destruct (N.eqb_spec a b); try lia
         end.

Lemma re_block_needs_fence : needs gmi is_fence re_block.
Proof.
  unfold re_block. cbn [seqs needs]. right. right. left.
  split; (split; [lia|]; split; [reflexivity|]); intros c;
    unfold char_matches, is_fence, BACKTICK, TILDE; cbn [in_set xorb gmi ignoreCase andb];
    case_fold; try discriminate; reflexivity.
Qed.

Lemma re_block_needs_m : needs gmi is_m re_block.
Proof.
  unfold re_block.
  change (str_of "mermaid") with [109; 101; 114; 109; 97; 105; 100]%N.
  cbn [seqs needs lits].
  right. right. right. right. left. left.
  intros c. unfold char_matches, is_m. cbn [in_set xorb gmi ignoreCase andb].
  case_fold; try discriminate; reflexivity.
Qed.

Lemma no_match_no_block P D :
  needs gmi P re_block -> existsb P D = false -> extractMermaidBlocks D = [].
Proof.
  intros Hn Hd. unfold extractMermaidBlocks, extractMermaidBlocks_fuel. cbn [extract_loop].
  assert (He : exec_from gmi re_block D 0 = None).
  { unfold exec_from. cbn [Nat.ltb Nat.leb firstn skipn]. rewrite ?drop_0.
    pose proof (found_needs gmi P re_block D (last_unit None []) 0 Hn Hd) as Hf.
    unfold found in Hf. destruct (scan gmi re_block _ 0 D); [discriminate | reflexivity]. }
  rewrite He. reflexivity.
Qed.

(** X20. A document yields no block unless it holds a backtick or a tilde,
    and the letter m in either case. *)
Theorem plain_document_has_no_block (D : jsstring) :
  (~ In 96%N D /\ ~ In 126%N D) \/ (~ In 109%N D /\ ~ In 77%N D) ->
  extractMermaidBlocks D = [].
Proof.
  assert (Hor : forall a b (s : jsstring),
            ~ In a s -> ~ In b s -> existsb (fun c => N.eqb c a || N.eqb c b) s = false).
  { intros a b s Ha Hb. apply not_in_existsb in Ha. apply not_in_existsb in Hb.
    induction s as [|c s IH]; [reflexivity|]. simpl in *.
    apply orb_false_elim in Ha as [-> Ha]. apply orb_false_elim in Hb as [-> Hb].
    simpl. auto. }
  intros [[H1 H2] | [H1 H2]].
  - apply (no_match_no_block is_fence); [exact re_block_needs_fence | exact (Hor _ _ _ H1 H2)].
  - apply (no_match_no_block is_m); [exact re_block_needs_m | exact (Hor _ _ _ H1 H2)].
Qed.

Lemma plain_document_has_no_block_witness :
  extractMermaidBlocks (str_of "# Notes
no diagram here") = [].
Proof.
  apply plain_document_has_no_block. left.
  split; apply (proj2 (not_in_existsb _ _)); vm_compute; reflexivity.
Defined.

End PlainFacts.

(** * The rewrite of the editor and the rewrite of a file *)
Module RewriteFacts.
Import Utils Main ReplaceFacts.

(** X21. On replacements that lie in the document, the rewrite of the
    editor, [applyReplacementsReverse], and the rewrite of a file content,
    [applyReplacementsToContent], give the same text: the clamps of the
    former change nothing. *)
Theorem editor_and_content_rewrites_agree (T : jsstring) (R : list Replacement) :
  Forall (in_bounds T) R ->
  applyReplacementsReverse T R = applyReplacementsToContent T R.
Proof. exact (reverse_is_content T R). Qed.

Lemma editor_and_content_rewrites_agree_witness :
  applyReplacementsReverse (str_of "abcdef") [first_fix; second_fix]
  = applyReplacementsToContent (str_of "abcdef") [first_fix; second_fix].
Proof.
  apply editor_and_content_rewrites_agree.
  repeat (constructor; [unfold in_bounds; simpl; lia|]). constructor.
Defined.

End RewriteFacts.

(** * The directive rule only prepends *)
Module PrependFacts.
Import Regex Gemini DirectiveFacts.

(** X22. [preserveInitIfNeeded] never alters the fix: its result is the
    fix itself, or the fix behind one line, the trimmed text of a directive
    line of the original followed by a line feed; with preservation
    switched off it is the fix itself. *)
Theorem preserve_init_only_prepends (original fixed : jsstring) (enabled : bool) :
  preserveInitIfNeeded original fixed enabled = fixed
  \/ (enabled = true
      /\ exists l, In l (lines original) /\ is_init_line l = true
                   /\ preserveInitIfNeeded original fixed enabled
                      = JS.trim l ++ [LF] ++ fixed).
Proof.
  unfold preserveInitIfNeeded. destruct enabled; [|left; reflexivity]. cbn [negb].
  fold (lines original).
  destruct (find is_init_line (lines original)) as [l|] eqn:Ef; [|left; reflexivity].
  destruct (negb (JS.truthy l)); [left; reflexivity|].
  destruct (test no_flags re_has_init fixed); [left; reflexivity|].
  right. split; [reflexivity|]. apply find_some in Ef as [Hin Hl]. eauto.
Qed.

End PrependFacts.

(** * Stripping the code fences of a reply *)
Module UnwrapFacts.
Import Regex Utils JSFacts RegexFacts SearchFacts StarFacts CaptureFacts FenceFacts.

#[local] Arguments char_matches : simpl never.
#[local] Arguments advance : simpl never.

Lemma lead_app_exact P (s t : jsstring) c :
  forallb P s = true -> P c = false -> lead P (s ++ c :: t) = length s.
Proof.
  intros Hs Hc. induction s as [|d s IH]; simpl in *; [rewrite Hc; reflexivity|].
  apply andb_prop in Hs as [-> Hs]. rewrite IH by exact Hs. reflexivity.
Qed.

(** An optional character: taken when it is there, and then left out. *)
Lemma opt_char fl A x :
  run fl (opt (Char false A)) x
  = match rest x with
    | c :: _ => if char_matches fl false A c then [advance 1 x; x] else [x]
    | [] => [x]
    end.
Proof.
  unfold opt. cbn [run rep_min].
  destruct (rest x) as [|c t] eqn:Er; [reflexivity|].
  cbn [length rep_opt max_is_zero dec_max]. rewrite Er.
  destruct (char_matches fl false A c); [|reflexivity].
  cbn [flat_map]. rewrite app_nil_r.
  replace (pos (advance 1 x) =? pos x) with false
    by (symmetry; apply Nat.eqb_neq; change (pos (advance 1 x)) with (pos x + 1); lia).
  destruct (length t); reflexivity.
Qed.

Lemma scan_skip_prefix fl r : forall pre s b i,
  (forall k, k < length pre -> forall b' i', match_at fl r b' i' (skipn k pre ++ s) = None) ->
  scan fl r b i (pre ++ s) = scan fl r (last_unit b pre) (i + length pre) s.
Proof.
  induction pre as [|c pre IH]; intros s b i H.
  - simpl. rewrite Nat.add_0_r. reflexivity.
  - cbn [app scan].
    pose proof (H 0 ltac:(simpl; lia) b i) as H0. cbn [skipn app] in H0. rewrite H0.
    rewrite IH.
    + f_equal; [|simpl; lia].
      unfold last_unit. cbn [rev]. destruct (rev pre) as [|d l]; reflexivity.
    + intros k Hk b' i'. apply (H (S k)). simpl. lia.
Qed.

Definition is_word_char (c : N) : bool := char_matches no_flags false CWord c.

(** The opening fence with its language tag is what the first pattern of
    [stripCodeFences] matches. *)
Lemma fence_head_match (lang t : jsstring) :
  forallb is_word_char lang = true ->
  exists m, match_at no_flags re_fence_head None 0 (str_of "```" ++ lang ++ LF :: t) = Some m
            /\ m_index m = 0 /\ m_end m = 3 + length lang + 1.
Proof.
  intros Hl. unfold match_at, re_fence_head. cbn [seqs].
  do 2 (erewrite run_seq_one by (vm_compute; reflexivity)).
  match goal with
  | |- context [run no_flags (Seq (star (Char false CWord)) ?r2) ?x] =>
      change (run no_flags (Seq (star (Char false CWord)) r2) x)
        with (flat_map (run no_flags r2) (run no_flags (star (Char false CWord)) x));
      set (x3 := x)
  end.
  unfold star. rewrite star_class.
  assert (Hlead : lead (char_matches no_flags false CWord) (rest x3) = length lang).
  { subst x3. cbn [rest]. apply lead_app_exact; [exact Hl | reflexivity]. }
  rewrite Hlead, seq_S, rev_app_distr. cbn [rev app map flat_map Nat.add].
  unfold lit. rewrite opt_char.
  assert (Hrest : rest (advance (length lang) x3) = LF :: t).
  { change (rest (advance (length lang) x3)) with (skipn (length lang) (rest x3)).
    subst x3. cbn [rest]. rewrite skipn_app, skipn_all, Nat.sub_diag. reflexivity. }
  rewrite Hrest. replace (char_matches no_flags false (CLit LF) LF) with true by reflexivity.
  cbn [app]. eexists. split; [reflexivity|]. cbn [m_index m_end].
  split; [reflexivity|]. subst x3. unfold advance. cbn [pos]. lia.
Qed.

Lemma run_lits_none fl p x :
  lits_here fl p (rest x) = false -> run fl (lits p) x = [].
Proof.
  intros H. rewrite <- can_run_lits in H. unfold can_run in H.
  destruct (run fl (lits p) x); [reflexivity | discriminate].
Qed.

Lemma ticks_here_false (w : jsstring) :
  match w with d :: _ => d <> 96%N | [] => True end ->
  lits_here no_flags [BACKTICK; BACKTICK; BACKTICK] w = false.
Proof.
  destruct w as [|d w]; [reflexivity|]. intros Hd.
  unfold BACKTICK. cbn [lits_here].
  replace (char_matches no_flags false (CLit 96) d) with false; [reflexivity|].
  symmetry. unfold char_matches. cbn [in_set xorb no_flags ignoreCase andb orb].
  rewrite orb_false_r. apply N.eqb_neq. exact Hd.
Qed.

(** The closing pattern of [stripCodeFences] does not match where the
    text goes on without a backtick. *)
Lemma fence_tail_none (c : N) (s' : jsstring) b i :
  ~ In 96%N (c :: s') ->
  match_at no_flags re_fence_tail b i ((c :: s') ++ CLOSE) = None.
Proof.
  intros Hs. unfold match_at, re_fence_tail. cbn [seqs].
  match goal with
  | |- context [run no_flags (Seq (opt (lit LF)) ?r2) ?x] =>
      change (run no_flags (Seq (opt (lit LF)) r2) x)
        with (flat_map (run no_flags r2) (run no_flags (opt (lit LF)) x));
      set (x0 := x)
  end.
  assert (Hx : run no_flags (Seq (lits [BACKTICK; BACKTICK; BACKTICK]) Eol) x0 = []).
  { change (run no_flags (Seq (lits [BACKTICK; BACKTICK; BACKTICK]) Eol) x0)
      with (flat_map (run no_flags Eol) (run no_flags (lits [BACKTICK; BACKTICK; BACKTICK]) x0)).
    rewrite run_lits_none; [reflexivity|]. apply ticks_here_false.
    subst x0. cbn [rest app]. intros ->. apply Hs. left. reflexivity. }
  assert (Hy : run no_flags (Seq (lits [BACKTICK; BACKTICK; BACKTICK]) Eol) (advance 1 x0) = []).
  { change (run no_flags (Seq (lits [BACKTICK; BACKTICK; BACKTICK]) Eol) (advance 1 x0))
      with (flat_map (run no_flags Eol) (run no_flags (lits [BACKTICK; BACKTICK; BACKTICK]) (advance 1 x0))).
    rewrite run_lits_none; [reflexivity|]. apply ticks_here_false.
    change (rest (advance 1 x0)) with (skipn 1 (rest x0)). subst x0. cbn [rest app skipn].
    rewrite ?drop_0.
    destruct s' as [|d s'']; [cbn; discriminate|].
    cbn [app]. intros ->. apply Hs. right. left. reflexivity. }
  unfold lit. rewrite opt_char.
  destruct (rest x0) as [|d t]; [cbn [flat_map]; rewrite Hx; reflexivity|].
  destruct (char_matches no_flags false (CLit LF) d); cbn [flat_map];
    rewrite ?Hx, ?Hy; reflexivity.
Qed.

Lemma fence_tail_match b p :
  exists m, match_at no_flags re_fence_tail b p CLOSE = Some m
            /\ m_index m = p /\ m_end m = p + 4.
Proof.
  unfold match_at.
  set (x0 := {| before := b; pos := p; rest := CLOSE; caps := [] |}).
  assert (H : exists y l, run no_flags re_fence_tail x0 = y :: l /\ rest y = []).
  { unfold re_fence_tail. cbn [seqs].
    match goal with
    | |- context [run no_flags (Seq (opt (lit LF)) ?r2) ?x] =>
        change (run no_flags (Seq (opt (lit LF)) r2) x)
          with (flat_map (run no_flags r2) (run no_flags (opt (lit LF)) x))
    end.
    unfold lit. rewrite opt_char. cbn [rest x0 CLOSE].
    replace (char_matches no_flags false (CLit LF) LF) with true by reflexivity.
    cbn [flat_map]. unfold advance. cbn [before pos rest caps firstn skipn].
    rewrite ?drop_0.
    eexists _, _. split; [vm_compute; reflexivity | reflexivity]. }
  destruct H as (y & l & Hr & Ht). rewrite Hr.
  eexists. split; [reflexivity|]. cbn [m_index m_end]. split; [reflexivity|].
  assert (Hin : In y (run no_flags re_fence_tail x0)) by (rewrite Hr; left; reflexivity).
  apply run_reaches in Hin as (w & R & P & _). cbn [rest pos x0] in R, P.
  rewrite Ht, app_nil_r in R. subst w. exact P.
Qed.

Lemma head_removed (lang t : jsstring) :
  forallb JS.is_word lang = true ->
  replace_first no_flags re_fence_head (fun _ => []) (str_of "```" ++ lang ++ LF :: t) = t.
Proof.
  intros Hl. unfold replace_first, exec. rewrite exec_from_start.
  destruct (fence_head_match lang t) as (m & Hm & Hi & He).
  { rewrite <- Hl. clear. induction lang as [|c lang IH]; [reflexivity|].
    simpl. rewrite IH. f_equal. unfold is_word_char, char_matches.
    cbn [in_set xorb no_flags ignoreCase andb]. apply orb_false_r. }
  rewrite (scan_here _ _ _ _ _ _ Hm), Hi, He. cbn [firstn app].
  replace (3 + length lang + 1) with (length lang + 1 + 3) by lia.
  rewrite <- skipn_skipn. change (skipn 3 (str_of "```" ++ lang ++ LF :: t))
    with (lang ++ LF :: t).
  rewrite skipn_app.
  replace (length lang + 1 - length lang) with 1 by lia.
  rewrite (skipn_all2 (n := length lang + 1) lang) by lia. reflexivity.
Qed.

Lemma tail_removed (body : jsstring) :
  ~ In 96%N body ->
  replace_first no_flags re_fence_tail (fun _ => []) (body ++ CLOSE) = body.
Proof.
  intros Hb. unfold replace_first, exec. rewrite exec_from_start.
  rewrite scan_skip_prefix.
  - destruct (fence_tail_match (last_unit None body) (0 + length body))
      as (m & Hm & Hi & He).
    rewrite (scan_here _ _ _ _ _ _ Hm), Hi, He. cbn [Nat.add app].
    rewrite firstn_app, firstn_all, Nat.sub_diag, skipn_all2
      by (rewrite length_app; simpl; lia).
    cbn [firstn]. rewrite !app_nil_r. reflexivity.
  - intros k Hk b' i'.
    destruct (skipn k body) as [|c s'] eqn:Es.
    { apply (f_equal (@length _)) in Es. rewrite length_skipn in Es. simpl in Es. lia. }
    apply fence_tail_none. intros Hin. apply Hb.
    rewrite <- (firstn_skipn k body), Es. apply in_or_app. right. exact Hin.
Qed.

(** X23. [stripCodeFences] unwraps a fenced text: for a text that is an
    opening fence of three backticks with a language tag of word
    characters, a body without backticks and a closing fence, the result is
    the body, trimmed. *)
Theorem strip_fences_unwraps (lang body : jsstring) :
  forallb JS.is_word lang = true ->
  ~ In 96%N body ->
  stripCodeFences (str_of "```" ++ lang ++ [LF] ++ body ++ [LF] ++ str_of "```")
  = JS.trim body.
Proof.
  intros Hl Hb. unfold stripCodeFences.
  change (str_of "```" ++ lang ++ [LF] ++ body ++ [LF] ++ str_of "```")
    with (str_of "```" ++ lang ++ LF :: body ++ CLOSE).
  rewrite head_removed by exact Hl. rewrite tail_removed by exact Hb. reflexivity.
Qed.

Lemma strip_fences_unwraps_witness :
  stripCodeFences (str_of "```mermaid
graph TD
  A-->B
```") = str_of "graph TD
  A-->B".
Proof.
  apply (strip_fences_unwraps (str_of "mermaid") (str_of "graph TD
  A-->B")).
  - reflexivity.
  - apply (proj2 (NormalizeMore.not_in_existsb _ _)). reflexivity.
Defined.

End UnwrapFacts.

(** * The sentinel lines of a reply *)
Module SentinelFacts.
Import Regex Utils Gemini JSFacts RegexFacts SearchFacts StarFacts CaptureFacts FenceFacts
  UnwrapFacts DirectiveFacts.

#[local] Arguments char_matches : simpl never.
#[local] Arguments advance : simpl never.

Definition BEGIN : jsstring := str_of "BEGIN_MERMAID".
Definition END_LINE : jsstring := LF :: str_of "END_MERMAID".

Lemma group_states n z :
  run no_flags (Group n (lazy_star (Char false any_char))) z
  = map (fun j => set_cap n (firstn j (rest z)) (advance j z))
        (seq 0 (S (length (rest z)))).
Proof.
  change (run no_flags (Group n (lazy_star (Char false any_char))) z)
    with (map (fun y => set_cap n (firstn (pos y - pos z) (rest z)) y)
            (run no_flags (lazy_star (Char false any_char)) z)).
  unfold lazy_star. rewrite star_class, lead_any, map_map.
  apply map_ext. intros j. change (pos (advance j z)) with (pos z + j).
  replace (pos z + j - pos z) with j by lia. reflexivity.
Qed.

Lemma space_matches c : char_matches no_flags false CSpace c = JS.is_space c.
Proof. unfold char_matches. cbn [in_set xorb no_flags ignoreCase andb]. apply orb_false_r. Qed.

Lemma lit_matches a c : char_matches no_flags false (CLit a) c = N.eqb c a.
Proof. unfold char_matches. cbn [in_set xorb no_flags ignoreCase andb]. apply orb_false_r. Qed.

Lemma lits_keeps_caps p z y : In y (run no_flags (lits p) z) -> caps y = caps z.
Proof.
  revert z y. induction p as [|a p IH]; intros z y Hin.
  - destruct Hin as [<-|[]]. reflexivity.
  - destruct p as [|a' p'].
    + cbn [lits lit run] in Hin. destruct (rest z) as [|d r]; [destruct Hin|].
      destruct (char_matches no_flags false (CLit a) d); [|destruct Hin].
      destruct Hin as [<-|[]]. reflexivity.
    + change (lits (a :: a' :: p')) with (Seq (lit a) (lits (a' :: p'))) in Hin.
      cbn [run] in Hin. apply in_flat_map in Hin as (w & Hw & Hy).
      apply IH in Hy. rewrite Hy.
      unfold lit in Hw. cbn [run] in Hw. destruct (rest z) as [|d r]; [destruct Hw|].
      destruct (char_matches no_flags false (CLit a) d); [|destruct Hw].
      destruct Hw as [<-|[]]. reflexivity.
Qed.

Lemma lit_step a x d r R :
  rest x = d :: r ->
  run no_flags (Seq (lit a) R) x = if N.eqb d a then run no_flags R (advance 1 x) else [].
Proof.
  intros E.
  change (run no_flags (Seq (lit a) R) x)
    with (flat_map (run no_flags R) (run no_flags (lit a) x)).
  unfold lit. cbn [run]. rewrite E, lit_matches.
  destruct (N.eqb d a); cbn [flat_map]; [rewrite app_nil_r | reflexivity].
  unfold advance. rewrite E. reflexivity.
Qed.

Definition re_end : regex := Seq (lit LF) (lits (str_of "END_MERMAID")).

(** The lazy body and the closing line: the capture ends at the first
    closing line. *)
Lemma body_and_end (b post : jsstring) (z : mstate) :
  (forall k, k < length b ->
             JS.starts_with END_LINE (skipn k (b ++ END_LINE ++ post)) = false) ->
  rest z = b ++ END_LINE ++ post ->
  exists y l, run no_flags (Seq (Group 1 (lazy_star (Char false any_char))) re_end) z = y :: l
              /\ caps y = (1, b) :: caps z.
Proof.
  intros Hno Hr.
  change (run no_flags (Seq (Group 1 (lazy_star (Char false any_char))) re_end) z)
    with (flat_map (run no_flags re_end)
            (run no_flags (Group 1 (lazy_star (Char false any_char))) z)).
  rewrite group_states, Hr.
  assert (Hlt : length (b ++ END_LINE ++ post) = length b + length (END_LINE ++ post))
    by exact (length_app b (END_LINE ++ post)).
  rewrite Hlt, <- Nat.add_succ_r, seq_app, map_app, flat_map_app, SurfaceFacts.flat_map_nil.
  - cbn [Nat.add seq map flat_map app].
    set (w := set_cap 1 (firstn (length b) (b ++ END_LINE ++ post)) (advance (length b) z)).
    assert (Hw : rest w = END_LINE ++ post /\ caps w = (1, b) :: caps z).
    { subst w. unfold set_cap. cbn [rest caps].
      change (rest (advance (length b) z)) with (skipn (length b) (rest z)).
      change (caps (advance (length b) z)) with (caps z).
      rewrite Hr, firstn_app, firstn_all, Nat.sub_diag, skipn_app, skipn_all, Nat.sub_diag.
      cbn [firstn skipn app]. rewrite app_nil_r. split; reflexivity. }
    destruct Hw as [Hwr Hwc].
    change re_end with (lits END_LINE).
    destruct (run no_flags (lits END_LINE) w) as [|y l] eqn:Er.
    + exfalso. assert (Hcan : can_run no_flags (lits END_LINE) w = false)
        by (unfold can_run; rewrite Er; reflexivity).
      rewrite can_run_lits, Hwr in Hcan.
      assert (Ht : lits_here no_flags END_LINE (END_LINE ++ post) = true).
      { clear. unfold END_LINE.
        change (LF :: str_of "END_MERMAID")
          with [10; 69; 78; 68; 95; 77; 69; 82; 77; 65; 73; 68]%N.
        cbn [app lits_here]. rewrite !lit_matches. reflexivity. }
      congruence.
    + cbn [app]. exists y. eexists. split; [reflexivity|].
      rewrite <- Hwc. apply (lits_keeps_caps END_LINE). rewrite Er. left. reflexivity.
  - intros w Hw. apply in_map_iff in Hw as (j & <- & Hj). apply in_seq in Hj.
    change re_end with (lits END_LINE). apply run_lits_none.
    change (rest (set_cap 1 (firstn j (b ++ END_LINE ++ post)) (advance j z)))
      with (skipn j (rest z)).
    rewrite Hr.
    destruct (lits_here no_flags END_LINE (skipn j (b ++ END_LINE ++ post))) eqn:El;
      [|reflexivity].
    apply lits_here_starts_with in El. rewrite Hno in El by lia. discriminate.
Qed.

(** The part of the sentinel pattern after the opening word. *)
Definition re_after_begin : regex :=
  seqs [star (Char false CSpace); lit LF;
        Group 1 (lazy_star (Char false any_char)); lit LF; lits (str_of "END_MERMAID")].

Lemma first_result {A B} (P : B -> Prop) (F : A -> list B) : forall (l : list A),
  Forall (fun a => F a = [] \/ exists y t, F a = y :: t /\ P y) l ->
  Exists (fun a => F a <> []) l ->
  exists y t, flat_map F l = y :: t /\ P y.
Proof.
  induction l as [|a l IH]; intros Hall Hex.
  - inversion Hex.
  - cbn [flat_map]. inversion Hall as [|? ? Ha Hl]; subst.
    destruct Ha as [Ha | (y & t & Ha & Hy)].
    + rewrite Ha. cbn [app]. apply IH; [exact Hl|].
      inversion Hex as [? ? Hne|]; subst; [contradiction | assumption].
    + rewrite Ha. cbn [app]. exists y. eexists. split; [reflexivity | exact Hy].
Qed.

Lemma lead_spaces (ws : jsstring) (c : N) (t : jsstring) :
  forallb JS.is_space ws = true -> JS.is_space c = false ->
  lead (char_matches no_flags false CSpace) (ws ++ c :: t) = length ws.
Proof.
  intros Hws Hc. induction ws as [|d ws IH]; cbn [lead app length].
  - rewrite space_matches, Hc. reflexivity.
  - cbn [forallb] in Hws. apply andb_prop in Hws as [Hd Hws].
    rewrite space_matches, Hd, IH by exact Hws. reflexivity.
Qed.

Lemma after_begin_match (ws : jsstring) (c : N) (body' post : jsstring) (x : mstate) :
  forallb JS.is_space ws = true -> JS.is_space c = false ->
  (forall k, k < length (ws ++ c :: body') ->
             JS.starts_with END_LINE (skipn k ((ws ++ c :: body') ++ END_LINE ++ post)) = false) ->
  rest x = LF :: (ws ++ c :: body') ++ END_LINE ++ post -> caps x = [] ->
  exists y l, run no_flags re_after_begin x = y :: l
              /\ exists j, j <= length ws /\ caps y = [(1, skipn j (ws ++ c :: body'))].
Proof.
  intros Hws Hc Hno Hr Hx. unfold re_after_begin. cbn [seqs].
  set (G := Group 1 (lazy_star (Char false any_char))).
  change (Seq (lit LF) (lits (str_of "END_MERMAID"))) with re_end.
  change (run no_flags (Seq (star (Char false CSpace)) (Seq (lit LF) (Seq G re_end))) x)
    with (flat_map (run no_flags (Seq (lit LF) (Seq G re_end)))
            (run no_flags (star (Char false CSpace)) x)).
  unfold star. rewrite star_class, Hr.
  assert (Hlead : lead (char_matches no_flags false CSpace)
                    (LF :: (ws ++ c :: body') ++ END_LINE ++ post) = S (length ws)).
  { rewrite <- app_assoc. change (LF :: ws ++ (c :: body') ++ END_LINE ++ post)
      with ((LF :: ws) ++ c :: body' ++ END_LINE ++ post).
    rewrite lead_spaces; [reflexivity | | exact Hc].
    cbn [forallb]. rewrite Hws. reflexivity. }
  rewrite Hlead.
  set (body := ws ++ c :: body') in *.
  assert (Hstep : forall j, j <= length ws ->
            run no_flags (Seq (lit LF) (Seq G re_end)) (advance j x) = []
            \/ exists y t, run no_flags (Seq (lit LF) (Seq G re_end)) (advance j x) = y :: t
                           /\ exists j, j <= length ws /\ caps y = [(1, skipn j body)]).
  { intros j Hj.
    destruct (rest (advance j x)) as [|d r] eqn:Erest.
    { left. change (run no_flags (Seq (lit LF) (Seq G re_end)) (advance j x))
        with (flat_map (run no_flags (Seq G re_end)) (run no_flags (lit LF) (advance j x))).
      unfold lit. cbn [run]. rewrite Erest. reflexivity. }
    rewrite (lit_step _ _ _ _ _ Erest).
    destruct (N.eqb d LF); [right | left; reflexivity].
    assert (Hr1 : rest (advance 1 (advance j x)) = skipn j body ++ END_LINE ++ post).
    { change (rest (advance 1 (advance j x))) with (skipn 1 (skipn j (rest x))).
      rewrite skipn_skipn, Hr. cbn [Nat.add skipn]. rewrite skipn_app.
      replace (j - length body) with 0; [reflexivity|].
      subst body. rewrite length_app. lia. }
    destruct (body_and_end (skipn j body) post (advance 1 (advance j x))) as (y & t & Hy & Hc1).
    - intros k Hk. rewrite length_skipn in Hk.
      specialize (Hno (k + j) ltac:(lia)).
      rewrite <- skipn_skipn, skipn_app in Hno.
      replace (j - length body) with 0 in Hno by (subst body; rewrite length_app; lia).
      exact Hno.
    - exact Hr1.
    - exists y, t. split; [exact Hy|].
      exists j. split; [exact Hj|]. rewrite Hc1.
      change (caps (advance 1 (advance j x))) with (caps x). rewrite Hx. reflexivity. }
  apply first_result.
  - apply List.Forall_forall. intros s Hs. apply in_map_iff in Hs as (j & <- & Hj).
    apply in_rev, in_seq in Hj.
    destruct (Nat.eq_dec j (S (length ws))) as [->|Hne]; [|apply Hstep; lia].
    left.
    assert (Erest : rest (advance (S (length ws)) x) = c :: body' ++ END_LINE ++ post).
    { change (rest (advance (S (length ws)) x)) with (skipn (S (length ws)) (rest x)).
      rewrite Hr. cbn [skipn]. subst body.
      rewrite <- app_assoc, skipn_app, skipn_all, Nat.sub_diag. reflexivity. }
    rewrite (lit_step _ _ _ _ _ Erest).
    destruct (N.eqb_spec c LF) as [->|_]; [discriminate | reflexivity].
  - apply List.Exists_exists. exists (advance 0 x). split.
    + apply (in_map (fun j => advance j x)). apply (proj1 (in_rev _ _)). apply in_seq. lia.
    + rewrite advance_0, (lit_step _ _ _ _ _ Hr).
      replace (N.eqb LF LF) with true by reflexivity.
      destruct (body_and_end body post (advance 1 x)) as (y & t & Hy & _).
      * exact Hno.
      * change (rest (advance 1 x)) with (skipn 1 (rest x)). rewrite Hr. reflexivity.
      * fold G in Hy. rewrite Hy. discriminate.
Qed.

Lemma split_spaces (body : jsstring) :
  existsb (fun c => negb (JS.is_space c)) body = true ->
  exists ws c body', body = ws ++ c :: body'
                     /\ forallb JS.is_space ws = true /\ JS.is_space c = false.
Proof.
  induction body as [|d body IH]; [discriminate|]. cbn [existsb]. intros H.
  destruct (JS.is_space d) eqn:Ed.
  - cbn [negb orb] in H. destruct (IH H) as (ws & c & body' & -> & Hws & Hc).
    exists (d :: ws), c, body'. cbn [forallb app]. rewrite Ed, Hws. auto.
  - exists [], d, body. auto.
Qed.

Lemma trim_start_spaces (ws t : jsstring) :
  forallb JS.is_space ws = true -> JS.trim_start (ws ++ t) = JS.trim_start t.
Proof.
  induction ws as [|d ws IH]; [reflexivity|]. cbn [forallb app JS.trim_start].
  intros H. apply andb_prop in H as [-> H]. exact (IH H).
Qed.

Lemma trim_skip_spaces (ws t : jsstring) (j : nat) :
  forallb JS.is_space ws = true -> j <= length ws ->
  JS.trim (skipn j (ws ++ t)) = JS.trim (ws ++ t).
Proof.
  intros Hws Hj. unfold JS.trim. f_equal.
  rewrite skipn_app. replace (j - length ws) with 0 by lia. cbn [skipn].
  rewrite !trim_start_spaces; [reflexivity | exact Hws |].
  rewrite <- (firstn_skipn j ws), forallb_app in Hws.
  apply andb_prop in Hws as [_ H]. exact H.
Qed.

Lemma begin_needs (c : N) (t : jsstring) b i :
  c <> 66%N -> match_at no_flags re_sentinel b i (c :: t) = None.
Proof.
  intros Hc. unfold match_at, re_sentinel. cbn [seqs].
  set (R := Seq (star _) _).
  change (run no_flags (Seq (lits (str_of "BEGIN_MERMAID")) R)
            {| before := b; pos := i; rest := c :: t; caps := [] |})
    with (flat_map (run no_flags R)
            (run no_flags (lits (str_of "BEGIN_MERMAID"))
               {| before := b; pos := i; rest := c :: t; caps := [] |})).
  rewrite run_lits_none; [reflexivity|]. cbn [rest].
  change (str_of "BEGIN_MERMAID") with [66; 69; 71; 73; 78; 95; 77; 69; 82; 77; 65; 73; 68]%N.
  cbn [lits_here]. rewrite lit_matches.
  destruct (N.eqb_spec c 66) as [->|_]; [contradiction | reflexivity].
Qed.

Lemma run_lits_exact p : forall x t,
  rest x = p ++ t -> run no_flags (lits p) x = [advance (length p) x].
Proof.
  induction p as [|a p IH]; intros x t Hr.
  - cbn [lits run length]. rewrite advance_0. reflexivity.
  - destruct p as [|d p].
    + cbn [lits length]. unfold lit. cbn [run]. rewrite Hr. cbn [app].
      rewrite lit_matches, N.eqb_refl. unfold advance. rewrite Hr. reflexivity.
    + change (lits (a :: d :: p)) with (Seq (lit a) (lits (d :: p))).
      rewrite (lit_step _ _ _ _ _ Hr), N.eqb_refl.
      rewrite (IH (advance 1 x) t).
      * rewrite advance_advance. reflexivity.
      * change (rest (advance 1 x)) with (skipn 1 (rest x)). rewrite Hr. reflexivity.
Qed.

Lemma begin_step (t : jsstring) b i :
  run no_flags re_sentinel {| before := b; pos := i; rest := BEGIN ++ t; caps := [] |}
  = run no_flags re_after_begin
      {| before := Some 68%N; pos := i + 13; rest := t; caps := [] |}.
Proof.
  unfold re_sentinel, re_after_begin. cbn [seqs].
  erewrite run_seq_one; [reflexivity|].
  rewrite (run_lits_exact (str_of "BEGIN_MERMAID") _ t) by reflexivity.
  reflexivity.
Qed.

(** X24. [extractFromSentinel] returns the text between the sentinel lines,
    trimmed: for a reply made of a preamble without the letter B, the
    line BEGIN_MERMAID, a body that is not blank and in which no closing
    line END_MERMAID begins, the line END_MERMAID and anything after it, the
    result is the body without its leading and trailing white space. *)
Theorem sentinel_extracts_body (pre body post : jsstring) :
  ~ In 66%N pre ->
  existsb (fun c => negb (JS.is_space c)) body = true ->
  (forall k, k < length body ->
     JS.starts_with (LF :: str_of "END_MERMAID")
       (skipn k (body ++ LF :: str_of "END_MERMAID" ++ post)) = false) ->
  extractFromSentinel
    (pre ++ str_of "BEGIN_MERMAID" ++ [LF] ++ body ++ [LF] ++ str_of "END_MERMAID" ++ post)
  = JS.trim body.
Proof.
  intros Hpre Hbody Hno.
  destruct (split_spaces body Hbody) as (ws & c & body' & -> & Hws & Hc).
  unfold extractFromSentinel, exec. rewrite exec_from_start, scan_skip_prefix.
  - set (b := last_unit None pre). set (i := 0 + length pre).
    destruct (after_begin_match ws c body' post
                {| before := Some 68%N; pos := i + 13;
                   rest := LF :: (ws ++ c :: body') ++ END_LINE ++ post; caps := [] |}
                Hws Hc Hno eq_refl eq_refl) as (y & l & Hy & j & Hj & Hcap).
    assert (Hm : match_at no_flags re_sentinel b i
                   (BEGIN ++ LF :: (ws ++ c :: body') ++ END_LINE ++ post)
                 = Some {| m_index := i; m_end := pos y;
                           m_whole := firstn (pos y - i)
                             (BEGIN ++ LF :: (ws ++ c :: body') ++ END_LINE ++ post);
                           m_caps := caps y |}).
    { unfold match_at. rewrite begin_step, Hy. reflexivity. }
    change (str_of "BEGIN_MERMAID" ++ [LF] ++ (ws ++ c :: body') ++ [LF]
              ++ str_of "END_MERMAID" ++ post)
      with (BEGIN ++ LF :: (ws ++ c :: body') ++ END_LINE ++ post).
    rewrite (scan_here _ _ _ _ _ _ Hm). unfold group. cbn [m_caps]. rewrite Hcap.
    cbn [get_cap Nat.eqb]. apply trim_skip_spaces; assumption.
  - intros k Hk b' i'.
    destruct (skipn k pre) as [|d s'] eqn:Es.
    { apply (f_equal (@length _)) in Es. rewrite length_skipn in Es. simpl in Es. lia. }
    cbn [app]. apply begin_needs. intros ->. apply Hpre.
    rewrite <- (firstn_skipn k pre), Es. apply in_or_app. right. left. reflexivity.
Qed.

Lemma sentinel_extracts_body_witness :
  extractFromSentinel (str_of "Here is the diagram:
BEGIN_MERMAID

graph TD
  A-->B
END_MERMAID
Done.") = str_of "graph TD
  A-->B".
Proof.
  apply (sentinel_extracts_body (str_of "Here is the diagram:
") (str_of "
graph TD
  A-->B") (str_of "
Done.")).
  - apply (proj2 (NormalizeMore.not_in_existsb _ _)). reflexivity.
  - reflexivity.
  - intros k Hk.
    do 17 (destruct k as [|k]; [reflexivity|]). simpl in Hk. lia.
Defined.

End SentinelFacts.

(** * The runs over the vault *)
Module VaultFacts.
Import Regex Async Utils Gemini Main Vault JSFacts ExtractFacts OrchestratorFacts BlockFacts
  RenderFacts RunFacts ReplaceFacts.

(** One call of the client from a retry loop. *)
Lemma fix_call_full H cfg cur err w r w' :
  fix_call H cfg cur err w = (r, w') ->
  editor w' = editor w /\ mermaid w' = mermaid w
  /\ exists new, requests (client_state w') = requests (client_state w) ++ new
       /\ length new <= 1
       /\ forall i m, thrown_at H cfg (length (requests (client_state w))) new i m ->
                      r = Throws m.
Proof.
  unfold fix_call, geminiFixWithBackoff.
  destruct (geminiFixSingle _ _ _ _ _ _ _ _) as [r0 c0] eqn:Ef.
  intros Hr. injection Hr as <- <-. simpl.
  do 2 (split; [reflexivity|]).
  apply fix_step in Ef as [(-> & v & ->) | (req & Hreq & Ho)].
  - exists []. rewrite app_nil_r. split; [reflexivity|]. split; [simpl; lia|].
    intros i m Ht. exfalso. exact (thrown_at_nil _ _ _ _ _ Ht).
  - exists [req]. split; [exact Hreq|]. split; [simpl; lia|].
    intros i m (req' & Hn & Hc).
    destruct i as [|i]; [|destruct i; discriminate].
    injection Hn as <-. rewrite Nat.add_0_r in Hc. rewrite Hc in Ho. exact Ho.
Qed.

Lemma thrown_at_lt H cfg base new i m : thrown_at H cfg base new i m -> i < length new.
Proof. intros (req & Hn & _). apply nth_error_Some. congruence. Qed.

(** The attempts on one block in the run over every file. *)
Lemma attempts_all_spec H cfg block : forall left cur err w r w',
  attempts_all H cfg block left cur err w = (r, w') ->
  editor w' = editor w
  /\ exists new,
       requests (client_state w') = requests (client_state w) ++ new
       /\ length new <= left
       /\ match r with
          | Returns v =>
              mermaid w' = mermaid w
              /\ (success v = true ->
                  cancelled v = false
                  /\ exists fixed, fixedCode v = Some fixed /\ validated H (mermaid w) fixed)
          | Throws _ => False
          | Hangs => True
          end
       /\ forall i m,
            thrown_at H cfg (length (requests (client_state w))) new i m ->
            r = Returns {| success := false; fixedCode := None; cancelled := is_hard m |}
            /\ S i = length new.
Proof.
  induction left as [|left IH]; intros cur err w r w' Ha; simpl in Ha.
  - injection Ha as <- <-. split; [reflexivity|].
    exists []. rewrite app_nil_r. split; [reflexivity|]. split; [simpl; lia|]. split.
    + split; [reflexivity | discriminate].
    + intros i m Ht. exfalso. exact (thrown_at_nil _ _ _ _ _ Ht).
  - destruct (fix_call H cfg cur err w) as [r1 w2] eqn:Ef.
    destruct (fix_call_full _ _ _ _ _ _ _ Ef) as (He2 & Hm2 & new1 & Hq2 & Hl1 & Ht1).
    destruct r1 as [proposedFix | msg | ].
    + destruct (validate H _ w2) as [rv w3] eqn:Ev.
      pose proof (validate_spec _ _ _ _ _ Ev) as Hv.
      destruct (validate_frame _ _ _ _ _ Ev) as (He3 & _ & Hc3).
      destruct rv as [validation | msg | ]; [|contradiction|].
      * destruct Hv as [Hm3 Hval].
        destruct (ok validation) eqn:Hok.
        -- injection Ha as <- <-. split; [congruence|].
           exists new1. rewrite Hc3. split; [exact Hq2|]. split; [lia|]. split.
           ++ split; [congruence|]. intros _. split; [reflexivity|].
              eexists. split; [reflexivity|]. rewrite <- Hm2. apply Hval. reflexivity.
           ++ intros i m Ht. specialize (Ht1 _ _ Ht). discriminate.
        -- destruct (IH _ _ _ _ _ Ha) as (He5 & new2 & Hq5 & Hl2 & Hr & Ht2).
           split; [congruence|].
           exists (new1 ++ new2). rewrite Hq5, Hc3, Hq2, <- app_assoc, length_app.
           split; [reflexivity|]. split; [lia|]. split.
           ++ destruct r as [v| |]; [|exact Hr ..].
              rewrite Hm3, Hm2 in Hr. exact Hr.
           ++ intros i m Ht.
              apply thrown_at_app in Ht as [Ht | [Hge Ht]].
              ** specialize (Ht1 _ _ Ht). discriminate.
              ** rewrite Hc3, Hq2, length_app in Ht2.
                 destruct (Ht2 _ _ Ht) as [-> Hi]. split; [reflexivity | lia].
      * injection Ha as <- <-. split; [congruence|].
        exists new1. rewrite Hc3. split; [exact Hq2|]. split; [lia|]. split; [exact I|].
        intros i m Ht. specialize (Ht1 _ _ Ht). discriminate.
    + injection Ha as <- <-. split; [exact He2|].
      exists new1. split; [exact Hq2|]. split; [lia|]. split.
      * split; [exact Hm2 | discriminate].
      * intros i m Ht. pose proof (thrown_at_lt _ _ _ _ _ _ Ht) as Hlt.
        specialize (Ht1 _ _ Ht). injection Ht1 as ->. split; [reflexivity | lia].
    + injection Ha as <- <-. split; [exact He2|].
      exists new1. split; [exact Hq2|]. split; [lia|]. split; [exact I|].
      intros i m Ht. specialize (Ht1 _ _ Ht). discriminate.
Qed.

#[local] Arguments attempts_all : simpl never.

(** Once the run is cancelled the loop over the blocks does nothing. *)
Lemma blocks_all_stopped V cfg file ebs b s :
  batch_cancelled b = true -> blocks_all V cfg file ebs b s = (Returns b, s).
Proof. intros Hb. destruct ebs as [|[block err] more]; simpl; [|rewrite Hb]; reflexivity. Qed.

Definition queued (H : host) (g : option mermaid_obj) (blocks : list MermaidBlock)
    (before after : list Replacement) : Prop :=
  exists fixes : list (MermaidBlock * jsstring),
    after = before ++ map fix_of fixes
    /\ map fst fixes `sublist_of` blocks
    /\ Forall (fun f => validated H g (snd f)) fixes.

Lemma queued_none H g blocks l : queued H g blocks l l.
Proof.
  exists []. rewrite app_nil_r. split; [reflexivity|]. split; [apply sublist_nil_l | constructor].
Qed.

Lemma queued_step H g block fixes0 more l1 l2 l3 :
  queued H g [block] l1 l2 -> queued H g more l2 l3 -> fixes0 = block :: more ->
  queued H g fixes0 l1 l3.
Proof.
  intros (f1 & -> & Hs1 & Hv1) (f2 & -> & Hs2 & Hv2) ->.
  exists (f1 ++ f2). rewrite map_app, <- app_assoc. split; [reflexivity|]. split.
  - rewrite map_app. change (block :: more) with ([block] ++ more).
    apply sublist_app; assumption.
  - apply List.Forall_app. split; assumption.
Qed.

Lemma blocks_all_spec V cfg file : forall ebs b s r s',
  blocks_all V cfg file ebs b s = (r, s') ->
  contents s' = contents s
  /\ editor (inner s') = editor (inner s)
  /\ exists new,
       requests (client_state (inner s')) = requests (client_state (inner s)) ++ new
       /\ length new <= maxAttemptsAll * length ebs
       /\ match r with
          | Returns b' =>
              mermaid (inner s') = mermaid (inner s)
              /\ queued (plugin V) (mermaid (inner s)) (map fst ebs)
                   (replacements b) (replacements b')
          | Throws _ => False
          | Hangs => True
          end
       /\ forall i m,
            thrown_at (plugin V) cfg (length (requests (client_state (inner s)))) new i m ->
            is_hard m = true ->
            (exists b', r = Returns b' /\ batch_cancelled b' = true) /\ S i = length new.
Proof.
  induction ebs as [|[block err] more IH]; intros b s r s' Hb.
  - simpl in Hb. injection Hb as <- <-. do 2 (split; [reflexivity|]).
    exists []. rewrite app_nil_r. split; [reflexivity|]. split; [simpl; lia|]. split.
    + split; [reflexivity | apply queued_none].
    + intros i m Ht. exfalso. exact (thrown_at_nil _ _ _ _ _ Ht).
  - simpl in Hb.
    destruct (batch_cancelled b) eqn:Ecb.
    { injection Hb as <- <-. do 2 (split; [reflexivity|]).
      exists []. rewrite app_nil_r. split; [reflexivity|]. split; [simpl; lia|]. split.
      - split; [reflexivity | apply queued_none].
      - intros i m Ht. exfalso. exact (thrown_at_nil _ _ _ _ _ Ht). }
    destruct (attempts_all (plugin V) cfg block maxAttemptsAll (code block) err (inner s))
      as [ra w1] eqn:Ea.
    destruct (attempts_all_spec _ _ _ _ _ _ _ _ _ Ea) as (He1 & new1 & Hq1 & Hl1 & Hra & Ht1).
    destruct ra as [v | msg | ]; [|contradiction|].
    2:{ injection Hb as <- <-. do 2 (split; [assumption || reflexivity|]).
        exists new1. split; [exact Hq1|]. split; [simpl length; lia|]. split; [exact I|].
        intros i m Ht _. destruct (Ht1 _ _ Ht) as [Hr _]. discriminate. }
    destruct Hra as [Hm1 Hsucc].
    (* every way on: the rest of the loop, run on a state that differs from
       the one after the attempts at most by a notice or the saved setting *)
    assert (Hcont : forall b2 s2,
              contents s2 = contents s -> editor (inner s2) = editor (inner s) ->
              mermaid (inner s2) = mermaid (inner s) ->
              client_state (inner s2) = client_state w1 ->
              batch_cancelled b2 = cancelled v ->
              queued (plugin V) (mermaid (inner s)) [block] (replacements b) (replacements b2) ->
              blocks_all V cfg file more b2 s2 = (r, s') ->
              contents s' = contents s
              /\ editor (inner s') = editor (inner s)
              /\ exists new,
                   requests (client_state (inner s'))
                   = requests (client_state (inner s)) ++ new
                   /\ length new <= maxAttemptsAll * length ((block, err) :: more)
                   /\ match r with
                      | Returns b' =>
                          mermaid (inner s') = mermaid (inner s)
                          /\ queued (plugin V) (mermaid (inner s))
                               (map fst ((block, err) :: more))
                               (replacements b) (replacements b')
                      | Throws _ => False
                      | Hangs => True
                      end
                   /\ forall i m,
                        thrown_at (plugin V) cfg
                          (length (requests (client_state (inner s)))) new i m ->
                        is_hard m = true ->
                        (exists b', r = Returns b' /\ batch_cancelled b' = true)
                        /\ S i = length new).
    { intros b2 s2 Hc2 He2 Hm2 Hcl2 Hcb2 Hq2 Hl.
      destruct (IH _ _ _ _ Hl) as (Hc3 & He3 & new2 & Hq3 & Hl3 & Hr3 & Ht3).
      split; [congruence|]. split; [congruence|].
      exists (new1 ++ new2). rewrite Hq3, Hcl2, Hq1, <- app_assoc, length_app.
      split; [reflexivity|]. split; [simpl length; lia|]. split.
      - destruct r as [b'| |]; [|exact Hr3 ..].
        destruct Hr3 as [Hm3 Hqd]. split; [congruence|].
        rewrite Hm2 in Hqd. eapply queued_step; [exact Hq2 | exact Hqd | reflexivity].
      - intros i m Ht Hh.
        apply thrown_at_app in Ht as [Ht | [Hge Ht]].
        + destruct (Ht1 _ _ Ht) as [Hv Hi]. injection Hv as ->.
          cbn [cancelled] in Hcb2. rewrite Hh in Hcb2.
          rewrite (blocks_all_stopped _ _ _ _ _ _ Hcb2) in Hl. injection Hl as <- <-.
          rewrite Hcl2, Hq1 in Hq3.
          assert (new2 = []) as ->
            by (apply (f_equal (@length _)) in Hq3; rewrite !length_app in Hq3;
                destruct new2; [reflexivity | simpl in Hq3; lia]).
          split; [eauto | simpl; lia].
        + destruct (cancelled v) eqn:Ecv.
          * rewrite (blocks_all_stopped _ _ _ _ _ _ Hcb2) in Hl. injection Hl as <- <-.
            rewrite Hcl2, Hq1 in Hq3.
            assert (new2 = []) as ->
              by (apply (f_equal (@length _)) in Hq3; rewrite !length_app in Hq3;
                  destruct new2; [reflexivity | simpl in Hq3; lia]).
            exfalso. exact (thrown_at_nil _ _ _ _ _ Ht).
          * rewrite Hcl2, Hq1, length_app in Ht3.
            destruct (Ht3 _ _ Ht Hh) as [Hb' Hi]. split; [exact Hb' | lia]. }
    assert (Hone : queued (plugin V) (mermaid (inner s)) [block]
                     (replacements b) (replacements b)) by apply queued_none.
    cbn [replacements autoApply batch_cancelled] in Hb.
    destruct (success v) eqn:Es.
    + destruct (Hsucc eq_refl) as (Hcv & fixed & Hfc & Hval). rewrite Hfc in Hb.
      assert (Hpushed : queued (plugin V) (mermaid (inner s)) [block] (replacements b)
                          (replacements b ++ [replacement_of block fixed])).
      { exists [(block, fixed)]. split; [reflexivity|]. split; [reflexivity|].
        constructor; [exact Hval | constructor]. }
      destruct (JS.truthy fixed);
        [|revert Hb; apply Hcont;
          [reflexivity | exact He1 | exact Hm1 | reflexivity | reflexivity | exact Hone]].
      destruct (autoApply b);
        [revert Hb; apply Hcont;
         [reflexivity | exact He1 | exact Hm1 | reflexivity | reflexivity | exact Hpushed]|].
      destruct (decide (plugin V) (index block) (code block) fixed).
      * revert Hb; apply Hcont;
          [reflexivity | exact He1 | exact Hm1 | reflexivity | reflexivity | exact Hpushed].
      * revert Hb; apply Hcont;
          [reflexivity | exact He1 | exact Hm1 | reflexivity | reflexivity | exact Hone].
      * destruct (saveData (plugin V) (index block)) as [u | msg | ];
          [revert Hb; apply Hcont;
           [reflexivity | exact He1 | exact Hm1 | reflexivity | reflexivity | exact Hpushed]
          | injection Hb as <- <-; (split; [reflexivity|]); (split; [exact He1|]);
            exists new1; (split; [exact Hq1|]); (split; [simpl length; lia|]);
            (split; [exact I|]);
            intros i m Ht _; destruct (Ht1 _ _ Ht) as [Hv _]; injection Hv as ->;
            discriminate Es ..].
      * injection Hb as <- <-. split; [reflexivity|]. split; [exact He1|].
        exists new1. split; [exact Hq1|]. split; [simpl length; lia|]. split; [exact I|].
        intros i m Ht _. destruct (Ht1 _ _ Ht) as [Hv _]. injection Hv as ->.
        discriminate Es.
    + revert Hb; apply Hcont;
        [reflexivity | exact He1 | exact Hm1 | reflexivity | reflexivity | exact Hone].
Qed.

(** A text written back by the run: the text read, with the code of some
    of its blocks replaced by a text that passed validation. *)
Definition rewritten (H : host) (g : option mermaid_obj) (content after : jsstring)
    : Prop :=
  exists fixes : list (MermaidBlock * jsstring),
    map fst fixes `sublist_of` extractMermaidBlocks content
    /\ Forall (fun f => validated H g (snd f)) fixes
    /\ after = render content 0 (map fix_of fixes).

Definition nblocks_at (l : list jsstring) (j : nat) : nat :=
  match l !! j with
  | Some c => length (extractMermaidBlocks c)
  | None => 0
  end.

Lemma content_render_chain T R :
  Forall (in_bounds T) R -> chain R -> applyReplacementsToContent T R = render T 0 R.
Proof.
  intros Hb Hc. rewrite content_render by (auto using chain_separated).
  rewrite asc_of_chain_id by exact Hc. reflexivity.
Qed.

Lemma fix_file_spec V cfg i file t s r t' s' :
  fix_file V cfg i file t s = (r, (t', s')) -> stopped t = false ->
  length (contents s') = length (contents s)
  /\ (forall j, j <> i -> contents s' !! j = contents s !! j)
  /\ (contents s' !! i = contents s !! i
      \/ exists content after,
           contents s !! i = Some content /\ contents s' !! i = Some after
           /\ rewritten (plugin V) (mermaid (inner s)) content after)
  /\ (r <> Hangs -> mermaid (inner s') = mermaid (inner s))
  /\ exists new,
       requests (client_state (inner s')) = requests (client_state (inner s)) ++ new
       /\ length new <= maxAttemptsAll * nblocks_at (contents s) i
       /\ forall k m,
            thrown_at (plugin V) cfg (length (requests (client_state (inner s)))) new k m ->
            is_hard m = true ->
            r <> Hangs /\ stopped t' = true /\ S k = length new.
Proof.
  intros Hf Ht.
  assert (Hquiet : forall (s2 : vault_state),
            contents s2 = contents s -> client_state (inner s2) = client_state (inner s) ->
            (r <> Hangs -> mermaid (inner s2) = mermaid (inner s)) -> s' = s2 ->
            length (contents s') = length (contents s)
            /\ (forall j, j <> i -> contents s' !! j = contents s !! j)
            /\ (contents s' !! i = contents s !! i
                \/ exists content after,
                     contents s !! i = Some content /\ contents s' !! i = Some after
                     /\ rewritten (plugin V) (mermaid (inner s)) content after)
            /\ (r <> Hangs -> mermaid (inner s') = mermaid (inner s))
            /\ exists new,
                 requests (client_state (inner s'))
                 = requests (client_state (inner s)) ++ new
                 /\ length new <= maxAttemptsAll * nblocks_at (contents s) i
                 /\ forall k m,
                      thrown_at (plugin V) cfg
                        (length (requests (client_state (inner s)))) new k m ->
                      is_hard m = true ->
                      r <> Hangs /\ stopped t' = true /\ S k = length new).
  { intros s2 Hc Hcl Hm ->. rewrite Hc, Hcl. split; [reflexivity|].
    split; [reflexivity|]. split; [left; reflexivity|]. split; [exact Hm|].
    exists []. rewrite app_nil_r. split; [reflexivity|]. split; [simpl; lia|].
    intros k m Hth. exfalso. exact (thrown_at_nil _ _ _ _ _ Hth). }
  unfold fix_file, read in Hf.
  destruct (read_error V file);
    [injection Hf as <- <- <-; apply (Hquiet s); reflexivity|].
  destruct (contents s !! i) as [content|] eqn:Ei;
    [|injection Hf as <- <- <-; apply (Hquiet s); reflexivity].
  destruct (extractMermaidBlocks content) as [|blk blks] eqn:Eblocks;
    [injection Hf as <- <- <-; apply (Hquiet s); reflexivity|].
  destruct (find_errors (plugin V) (blk :: blks) (inner s)) as [rf wb] eqn:Efe.
  destruct (find_errors_frame _ _ _ _ _ Efe) as (_ & _ & Hcb).
  pose proof (find_errors_blocks _ _ _ _ _ Efe) as Hfb.
  destruct rf as [errs | msg | ]; [|contradiction|].
  2:{ injection Hf as <- <- <-. apply (Hquiet (set_inner wb s)); try reflexivity.
      - exact Hcb.
      - intros Hn. contradiction. }
  destruct Hfb as [Hmb Hsub].
  destruct errs as [|e errs].
  { injection Hf as <- <- <-. apply (Hquiet (set_inner wb s)); try reflexivity.
    - exact Hcb.
    - intros _. exact Hmb. }
  cbn [totalFixed errorsSeen stopped] in Hf.
  match type of Hf with
  | context [blocks_all V cfg file _ ?b ?s1] =>
      destruct (blocks_all V cfg file (e :: errs) b s1) as [rb s2] eqn:Eb
  end.
  destruct (blocks_all_spec _ _ _ _ _ _ _ _ Eb)
    as (Hc2 & _ & new & Hq2 & Hl2 & Hrb & Hth2).
  cbn [display set_inner inner contents replacements] in Hc2, Hq2, Hrb, Hth2.
  rewrite Hcb in Hq2, Hth2. rewrite Hmb in Hrb.
  assert (Hlen : length new <= maxAttemptsAll * nblocks_at (contents s) i).
  { unfold nblocks_at. rewrite Ei, Eblocks.
    apply sublist_length in Hsub. rewrite length_map in Hsub.
    etransitivity; [exact Hl2|]. apply Nat.mul_le_mono_l. exact Hsub. }
  assert (Hrest : forall (r0 : outcome unit) (t0 : fix_totals),
            (r0, (t0, s2)) = (r, (t', s')) ->
            match rb with Returns b' => stopped t0 = batch_cancelled b' | _ => True end ->
            (rb = Hangs <-> r0 = Hangs) ->
            length (contents s') = length (contents s)
            /\ (forall j, j <> i -> contents s' !! j = contents s !! j)
            /\ (contents s' !! i = Some content
                \/ exists content0 after,
                     Some content = Some content0 /\ contents s' !! i = Some after
                     /\ rewritten (plugin V) (mermaid (inner s)) content0 after)
            /\ (r <> Hangs -> mermaid (inner s') = mermaid (inner s))
            /\ exists new,
                 requests (client_state (inner s'))
                 = requests (client_state (inner s)) ++ new
                 /\ length new <= maxAttemptsAll * nblocks_at (contents s) i
                 /\ forall k m,
                      thrown_at (plugin V) cfg
                        (length (requests (client_state (inner s)))) new k m ->
                      is_hard m = true ->
                      r <> Hangs /\ stopped t' = true /\ S k = length new).
  { intros r0 t0 Heq Hst Hh. injection Heq as <- <- <-. rewrite Hc2.
    split; [reflexivity|]. split; [reflexivity|]. split; [left; exact Ei|]. split.
    - intros Hn. destruct rb as [b'| |]; [exact (proj1 Hrb) | contradiction|].
      exfalso. apply Hn, Hh. reflexivity.
    - exists new. split; [exact Hq2|]. split; [exact Hlen|].
      intros k m Hk Hm. destruct (Hth2 _ _ Hk Hm) as ((b' & -> & Hcb') & Hi).
      split; [|split; [congruence | exact Hi]].
      intros Hn. apply Hh in Hn. discriminate. }
  destruct rb as [b | msg | ]; [|contradiction|].
  2:{ apply (Hrest _ _ Hf); [exact I | split; reflexivity]. }
  destruct Hrb as (Hm2 & fixes & Hfx & Hfs & Hfv). simpl in Hfx.
  destruct (replacements b) as [|r1 reps] eqn:Er.
  { apply (Hrest _ _ Hf); [reflexivity | split; discriminate]. }
  unfold modify in Hf.
  destruct (modify_error V file).
  { apply (Hrest _ _ Hf); [reflexivity | split; discriminate]. }
  injection Hf as <- <- <-. cbn [contents inner stopped].
  assert (Hi : i < length (contents s2)).
  { rewrite Hc2. apply lookup_lt_Some with content. exact Ei. }
  rewrite length_insert, Hc2. split; [reflexivity|]. split.
  { intros j Hj. rewrite list_lookup_insert_ne by congruence. reflexivity. }
  split.
  { right. exists content. eexists. split; [reflexivity|].
    rewrite <- Hc2, list_lookup_insert_eq by exact Hi.
    split; [reflexivity|].
    assert (Hs : map fst fixes `sublist_of` extractMermaidBlocks content).
    { rewrite Eblocks. etransitivity; [exact Hfs | exact Hsub]. }
    exists fixes. split; [exact Hs|]. split; [exact Hfv|].
    rewrite Hfx. destruct (fixes_in_order content fixes Hs) as [Hin Hch].
    apply content_render_chain; assumption. }
  split; [intros _; exact Hm2|].
  exists new. split; [exact Hq2|]. split; [exact Hlen|].
  intros k m Hk Hm. destruct (Hth2 _ _ Hk Hm) as ((b' & Hb' & Hcb') & Hi').
  injection Hb' as <-. split; [discriminate|]. split; [exact Hcb' | exact Hi'].
Qed.

Lemma sum_cons a l : list_sum (a :: l) = a + list_sum l.
Proof. reflexivity. Qed.

Lemma fix_files_spec V cfg : forall files i t s r s',
  fix_files V cfg i files t s = (r, s') ->
  length (contents s') = length (contents s)
  /\ (forall j content, contents s !! j = Some content ->
        contents s' !! j = Some content
        \/ exists after, contents s' !! j = Some after
                         /\ rewritten (plugin V) (mermaid (inner s)) content after)
  /\ (forall j, j < i -> contents s' !! j = contents s !! j)
  /\ match r with
     | Returns _ => mermaid (inner s') = mermaid (inner s)
     | Throws _ => False
     | Hangs => True
     end
  /\ exists new,
       requests (client_state (inner s')) = requests (client_state (inner s)) ++ new
       /\ length new
          <= maxAttemptsAll * list_sum (map (nblocks_at (contents s)) (seq i (length files)))
       /\ (stopped t = false ->
           forall k m,
             thrown_at (plugin V) cfg (length (requests (client_state (inner s)))) new k m ->
             is_hard m = true ->
             (exists t', r = Returns t' /\ stopped t' = true) /\ S k = length new).
Proof.
  assert (Hnone : forall (P : Prop) i n t s,
            length (contents s) = length (contents s)
            /\ (forall j content, contents s !! j = Some content ->
                  contents s !! j = Some content
                  \/ exists after, contents s !! j = Some after
                       /\ rewritten (plugin V) (mermaid (inner s)) content after)
            /\ (forall j, j < i -> contents s !! j = contents s !! j)
            /\ mermaid (inner s) = mermaid (inner s)
            /\ exists new,
                 requests (client_state (inner s)) = requests (client_state (inner s)) ++ new
                 /\ length new <= maxAttemptsAll * n
                 /\ (P ->
                     forall k m,
                       thrown_at (plugin V) cfg (length (requests (client_state (inner s))))
                         new k m ->
                       is_hard m = true ->
                       (exists t', Returns t = Returns t' /\ stopped t' = true)
                       /\ S k = length new)).
  { intros P i n t s. split; [reflexivity|]. split; [intros j content Hj; left; exact Hj|].
    split; [reflexivity|]. split; [reflexivity|].
    exists []. rewrite app_nil_r. split; [reflexivity|]. split; [simpl; lia|].
    intros _ k m Hth. exfalso. exact (thrown_at_nil _ _ _ _ _ Hth). }
  induction files as [|file more IH]; intros i t s r s' Hf; simpl in Hf.
  - injection Hf as <- <-. apply Hnone.
  - destruct (stopped t) eqn:Est.
    { injection Hf as <- <-. apply Hnone. }
    destruct (fix_file V cfg i file t s) as [rf [t1 s1]] eqn:Ef.
    destruct (fix_file_spec _ _ _ _ _ _ _ _ _ Ef Est)
      as (Hl1 & Hne1 & Hi1 & Hm1 & new1 & Hq1 & Hb1 & Ht1).
    cbn [length seq map]. rewrite sum_cons. unfold maxAttemptsAll in *.
    assert (Hhere : forall j content, contents s !! j = Some content ->
              contents s1 !! j = Some content
              \/ (j = i /\ exists after, contents s1 !! j = Some after
                    /\ rewritten (plugin V) (mermaid (inner s)) content after)).
    { intros j content Hj. destruct (Nat.eq_dec j i) as [->|Hji].
      - destruct Hi1 as [Hi1 | (c0 & after & Hc0 & Ha & Hrw)].
        + left. congruence.
        + right. split; [reflexivity|]. exists after. split; [exact Ha|]. congruence.
      - left. rewrite Hne1 by exact Hji. exact Hj. }
    destruct (match rf with Hangs => true | _ => false end) eqn:Ehang.
    + assert (rf = Hangs) as -> by (destruct rf; [discriminate ..| reflexivity]).
      injection Hf as <- <-. split; [exact Hl1|]. split.
      { intros j content Hj. destruct (Hhere j content Hj) as [Hs | (_ & Hs)]; auto. }
      split; [intros j Hj; apply Hne1; lia|]. split; [exact I|].
      exists new1. split; [exact Hq1|]. split; [lia|].
      intros _ k m Hk Hm. destruct (Ht1 _ _ Hk Hm) as [Hn _]. contradiction.
    + assert (Hrec : fix_files V cfg (S i) more t1 s1 = (r, s'))
        by (destruct rf; [exact Hf | exact Hf | discriminate]).
      assert (Hnh : rf <> Hangs) by (intros ->; discriminate).
      specialize (Hm1 Hnh). clear Hf.
      destruct (IH _ _ _ _ _ Hrec) as (Hl2 & Hc2 & Hp2 & Hm2 & new2 & Hq2 & Hb2 & Ht2).
      split; [congruence|]. split.
      { intros j content Hj. destruct (Hhere j content Hj) as [Hs | (-> & after & Hs & Hrw)].
        - destruct (Hc2 _ _ Hs) as [Hs2 | (after & Hs2 & Hrw)]; [left; exact Hs2|].
          right. exists after. split; [exact Hs2|]. rewrite <- Hm1. exact Hrw.
        - right. exists after. split; [|exact Hrw]. rewrite Hp2 by lia. exact Hs. }
      split; [intros j Hj; rewrite Hp2 by lia; apply Hne1; lia|].
      split; [destruct r; [congruence | exact Hm2 | exact I]|].
      exists (new1 ++ new2). rewrite Hq2, Hq1, <- app_assoc, length_app.
      split; [reflexivity|]. split.
      { assert (Hsame : map (nblocks_at (contents s1)) (seq (S i) (length more))
                        = map (nblocks_at (contents s)) (seq (S i) (length more))).
        { apply map_ext_in. intros j Hj. apply in_seq in Hj.
          unfold nblocks_at. rewrite Hne1 by lia. reflexivity. }
        rewrite Hsame in Hb2. lia. }
      intros _ k m Hk Hm.
      apply thrown_at_app in Hk as [Hk | [Hge Hk]].
      * destruct (Ht1 _ _ Hk Hm) as (_ & Hst1 & Hi).
        destruct more as [|f more']; simpl in Hrec; [|rewrite Hst1 in Hrec];
          injection Hrec as <- <-;
          (assert (new2 = []) as ->
             by (rewrite Hq1 in Hq2; apply (f_equal (@length _)) in Hq2;
                 rewrite !length_app in Hq2; destruct new2;
                 [reflexivity | simpl in Hq2; lia]));
          (split; [eauto | simpl; lia]).
      * destruct (stopped t1) eqn:Est1.
        -- destruct more as [|f more']; simpl in Hrec; [|rewrite Est1 in Hrec];
             injection Hrec as <- <-;
             (assert (new2 = []) as ->
                by (rewrite Hq1 in Hq2; apply (f_equal (@length _)) in Hq2;
                    rewrite !length_app in Hq2; destruct new2;
                    [reflexivity | simpl in Hq2; lia]));
             exfalso; exact (thrown_at_nil _ _ _ _ _ Hk).
        -- rewrite Hq1, length_app in Ht2.
           destruct (Ht2 eq_refl _ _ Hk Hm) as [Ht' Hi]. split; [exact Ht' | lia].
Qed.

Lemma blocks_in_vault (l : list jsstring) : forall n i,
  list_sum (map (nblocks_at l) (seq i n))
  <= list_sum (map (fun c => length (extractMermaidBlocks c)) (skipn i l)).
Proof.
  induction n as [|n IH]; intros i; [simpl; lia|].
  cbn [seq map]. rewrite sum_cons. specialize (IH (S i)). unfold nblocks_at at 1.
  destruct (l !! i) as [c|] eqn:Ei.
  - rewrite (drop_S _ _ _ Ei). cbn [map]. rewrite sum_cons. lia.
  - apply lookup_ge_None in Ei.
    rewrite skipn_all2 in IH by lia. rewrite skipn_all2 by lia. simpl in *. lia.
Qed.

(** The blocks of the whole vault. *)
Definition vault_blocks (l : list jsstring) : nat :=
  list_sum (map (fun c => length (extractMermaidBlocks c)) l).

Lemma all_files_shape V cfg s :
  let out := runFixAllFilesWithGemini V cfg s in
  length (contents (snd out)) = length (contents s)
  /\ (forall j content, contents s !! j = Some content ->
        contents (snd out) !! j = Some content
        \/ exists after, contents (snd out) !! j = Some after
                         /\ rewritten (plugin V) (mermaid (inner s)) content after)
  /\ (forall msg, fst out <> Throws msg)
  /\ exists new,
       requests (client_state (inner (snd out))) = requests (client_state (inner s)) ++ new
       /\ length new <= 3 * vault_blocks (contents s)
       /\ forall k m,
            thrown_at (plugin V) cfg (length (requests (client_state (inner s)))) new k m ->
            is_hard m = true ->
            fst out = Returns tt /\ S k = length new
            /\ exists pre, shown (snd out) = pre ++ [AllInterrupted].
Proof.
  intros out. subst out. unfold runFixAllFilesWithGemini.
  assert (Hnone : forall (r : outcome unit) s2,
            contents s2 = contents s -> client_state (inner s2) = client_state (inner s) ->
            (forall msg, r <> Throws msg) ->
            length (contents (snd (r, s2))) = length (contents s)
            /\ (forall j content, contents s !! j = Some content ->
                  contents (snd (r, s2)) !! j = Some content
                  \/ exists after, contents (snd (r, s2)) !! j = Some after
                       /\ rewritten (plugin V) (mermaid (inner s)) content after)
            /\ (forall msg, fst (r, s2) <> Throws msg)
            /\ exists new,
                 requests (client_state (inner (snd (r, s2))))
                 = requests (client_state (inner s)) ++ new
                 /\ length new <= 3 * vault_blocks (contents s)
                 /\ forall k m,
                      thrown_at (plugin V) cfg (length (requests (client_state (inner s))))
                        new k m ->
                      is_hard m = true ->
                      fst (r, s2) = Returns tt /\ S k = length new
                      /\ exists pre, shown (snd (r, s2)) = pre ++ [AllInterrupted]).
  { intros r s2 Hc Hcl Hr. cbn [fst snd]. rewrite Hc, Hcl. split; [reflexivity|].
    split; [intros j content Hj; left; exact Hj|]. split; [exact Hr|].
    exists []. rewrite app_nil_r. split; [reflexivity|]. split; [simpl; lia|].
    intros k m Hth. exfalso. exact (thrown_at_nil _ _ _ _ _ Hth). }
  destruct (negb (JS.truthy (geminiApiKey cfg)));
    [apply Hnone; [reflexivity | reflexivity | discriminate]|].
  destruct (negb (hasMermaid (mermaid (inner s))));
    [apply Hnone; [reflexivity | reflexivity | discriminate]|].
  destruct (markdownFiles V) as [|f fs];
    [apply Hnone; [reflexivity | reflexivity | discriminate]|].
  destruct (confirm V) as [[|]|];
    [| apply Hnone; [reflexivity | reflexivity | discriminate] ..].
  destruct (fix_files V cfg 0 (f :: fs) _ _) as [r s1] eqn:Ef.
  destruct (fix_files_spec _ _ _ _ _ _ _ _ Ef)
    as (Hl & Hc & _ & Hm & new & Hq & Hb & Ht).
  cbn [contents inner display stopped] in Hl, Hc, Hm, Hq, Hb, Ht.
  assert (Hbound : length new <= 3 * vault_blocks (contents s)).
  { etransitivity; [exact Hb|]. apply Nat.mul_le_mono_l.
    exact (blocks_in_vault (contents s) (length (f :: fs)) 0). }
  destruct r as [t | msg | ]; [|contradiction|].
  - cbn [fst snd].
    assert (Hs : forall s2, (s2 = display AllInterrupted s1 \/ exists n, s2 = display (AllDone n) s1) ->
              contents s2 = contents s1 /\ inner s2 = inner s1).
    { intros s2 [-> | [n ->]]; split; reflexivity. }
    destruct (Hs (if stopped t then display AllInterrupted s1
                  else display (AllDone (totalFixed t)) s1)) as [Hcs His].
    { destruct (stopped t); [left; reflexivity | right; eauto]. }
    rewrite Hcs, His. split; [exact Hl|]. split; [exact Hc|]. split; [discriminate|].
    exists new. split; [exact Hq|]. split; [exact Hbound|].
    intros k m Hk Hh. destruct (Ht eq_refl _ _ Hk Hh) as ((t' & Ht' & Hst) & Hi).
    injection Ht' as <-. rewrite Hst. split; [reflexivity|]. split; [exact Hi|].
    eexists. reflexivity.
  - cbn [fst snd]. split; [exact Hl|]. split; [exact Hc|]. split; [discriminate|].
    exists new. split; [exact Hq|]. split; [exact Hbound|].
    intros k m Hk Hh. destruct (Ht eq_refl _ _ Hk Hh) as ((t' & Ht' & _) & _). discriminate.
Qed.

(** X25. Whatever the services, the parser and the user do, and however the
    run over every file ends, each file of the vault holds afterwards either
    the text it had, or that text with the code of some of its blocks, taken
    in document order, replaced by a text that passed validation; no file is
    added or removed. *)
Theorem all_files_write_validated_fixes (V : vault_host) (cfg : settings)
    (s : vault_state) :
  let out := runFixAllFilesWithGemini V cfg s in
  length (contents (snd out)) = length (contents s)
  /\ forall j content,
       contents s !! j = Some content ->
       contents (snd out) !! j = Some content
       \/ exists fixes : list (MermaidBlock * jsstring),
            map fst fixes `sublist_of` extractMermaidBlocks content
            /\ Forall (fun f => validated (plugin V) (mermaid (inner s)) (snd f)) fixes
            /\ contents (snd out) !! j = Some (render content 0 (map fix_of fixes)).
Proof.
  intros out. destruct (all_files_shape V cfg s) as (Hl & Hc & _).
  split; [exact Hl|]. intros j content Hj.
  destruct (Hc j content Hj) as [Hs | (after & Hs & fixes & H1 & H2 & ->)]; [left; exact Hs|].
  right. exists fixes. auto.
Qed.

(** X26. The run over every file sends at most three requests for each block
    of the vault, whatever the replies are, and it never throws. *)
Theorem all_files_request_budget (V : vault_host) (cfg : settings) (s : vault_state) :
  let out := runFixAllFilesWithGemini V cfg s in
  (forall msg, fst out <> Throws msg)
  /\ exists new,
       requests (client_state (inner (snd out))) = requests (client_state (inner s)) ++ new
       /\ length new
          <= 3 * list_sum (map (fun c => length (extractMermaidBlocks c)) (contents s)).
Proof.
  intros out. destruct (all_files_shape V cfg s) as (_ & _ & Hn & new & Hq & Hb & _).
  split; [exact Hn|]. exists new. split; [exact Hq | exact Hb].
Qed.

(** X27. In the run over every file, a request answered with 401, 403, 404
    with [not found] in the body, or a success status with a body that is not
    JSON, is the last request of the run: no later block and no later file is
    tried, the run returns, and its last notice says that it was
    interrupted. *)
Theorem hard_reply_stops_all_files (V : vault_host) (cfg : settings) (s : vault_state)
    (n : nat) (req : request) (res : response) :
  let out := runFixAllFilesWithGemini V cfg s in
  length (requests (client_state (inner s))) <= n ->
  nth_error (requests (client_state (inner (snd out)))) n = Some req ->
  answered (services (plugin V)) (requestTimeoutMs cfg) n req res ->
  status res = 401%Z \/ AbortFacts.stops_run (services (plugin V)) res ->
  fst out = Returns tt
  /\ S n = length (requests (client_state (inner (snd out))))
  /\ exists pre, shown (snd out) = pre ++ [AllInterrupted].
Proof.
  intros out Hn Hnth Hans Hres.
  assert (Hm : exists m, call_outcome (services (plugin V)) (requestTimeoutMs cfg) n req
                         = Throws m /\ is_hard m = true).
  { rewrite (answered_outcome _ _ _ _ _ Hans). destruct Hres as [H401 | Hstop].
    - eexists. split; [apply read_reply_401; exact H401 | apply auth_error_is_hard].
    - exact (AbortFacts.stops_run_hard _ _ _ Hstop). }
  destruct Hm as (m & Hm & Hh).
  destruct (all_files_shape V cfg s) as (_ & _ & _ & new & Hq & _ & Ht).
  fold out in Hq, Ht. rewrite Hq in Hnth |- *.
  rewrite nth_error_app2 in Hnth by exact Hn.
  destruct (Ht (n - length (requests (client_state (inner s)))) m) as (Hr & Hi & Hs).
  - exists req. split; [exact Hnth|].
    replace (length (requests (client_state (inner s)))
             + (n - length (requests (client_state (inner s))))) with n by lia.
    exact Hm.
  - exact Hh.
  - split; [exact Hr|]. split; [rewrite length_app; lia | exact Hs].
Qed.

(** A vault of one note with two broken blocks; the user confirms, and
    the second request is answered 401. *)
Definition one_note : vault_host :=
  {| plugin := Scenario.unauthorized_second;
     markdownFiles := [{| path := str_of "note.md"; basename := str_of "note" |}];
     confirm := Some true;
     read_error := fun _ => None;
     modify_error := fun _ => None |}.

Definition vault_with (docs : list jsstring) : vault_state :=
  {| inner := Scenario.world_with []; contents := docs; shown := [] |}.

Lemma hard_reply_stops_all_files_witness :
  let out := runFixAllFilesWithGemini one_note Scenario.cfg
               (vault_with [Scenario.two_blocks]) in
  fst out = Returns tt
  /\ length (requests (client_state (inner (snd out)))) = 2
  /\ exists pre, shown (snd out) = pre ++ [AllInterrupted].
Proof.
  intros out.
  destruct (nth_error (requests (client_state (inner (snd out)))) 1) as [req|] eqn:Ereq;
    [|vm_compute in Ereq; discriminate].
  destruct (hard_reply_stops_all_files one_note Scenario.cfg
              (vault_with [Scenario.two_blocks]) 1 req
              {| status := 401; body := Some (str_of "bad key") |})
    as (Hr & Hl & Hs).
  - simpl. lia.
  - exact Ereq.
  - exists 120%Z. split; [reflexivity|]. right. vm_compute. reflexivity.
  - left. reflexivity.
  - split; [exact Hr|]. split; [symmetry; exact Hl | exact Hs].
Defined.

(** X28. It does not hold that a run over every file whose last notice
    says it was interrupted left every file as it found it.  The fixes queued
    for the file at hand before the error that stops the run are still
    written to it, unlike in [runFixWithGemini], which leaves the editor as
    it was. *)
Theorem interrupted_run_may_have_written :
  ~ (forall (V : vault_host) (cfg : settings) (s : vault_state),
       let out := runFixAllFilesWithGemini V cfg s in
       (exists pre, shown (snd out) = pre ++ [AllInterrupted]) ->
       contents (snd out) = contents s).
Proof.
  intros Hall.
  specialize (Hall one_note Scenario.cfg (vault_with [Scenario.two_blocks])).
  cbv zeta in Hall.
  assert (Hs : exists pre,
             shown (snd (runFixAllFilesWithGemini one_note Scenario.cfg
                           (vault_with [Scenario.two_blocks])))
             = pre ++ [AllInterrupted]).
  { eexists [_; _; _]. vm_compute. reflexivity. }
  specialize (Hall Hs). vm_compute in Hall. discriminate.
Qed.

(** *** The validation runs *)

Lemma validate_blocks_frame H : forall blocks w r w',
  validate_blocks H blocks w = (r, w') ->
  editor w' = editor w /\ client_state w' = client_state w
  /\ match r with
     | Returns _ => mermaid w' = mermaid w
     | Throws _ => False
     | Hangs => True
     end.
Proof.
  induction blocks as [|b more IH]; intros w r w' Hv; simpl in Hv.
  - injection Hv as <- <-. auto.
  - destruct (validate H (code b) w) as [rv w1] eqn:Ev.
    pose proof (validate_spec _ _ _ _ _ Ev) as Hs.
    destruct (validate_frame _ _ _ _ _ Ev) as (He1 & _ & Hc1).
    destruct rv as [v | msg | ]; [|contradiction|].
    + destruct Hs as [Hm1 _].
      destruct (validate_blocks H more w1) as [rf w2] eqn:Ef.
      destruct (IH _ _ _ Ef) as (He2 & Hc2 & Hm2).
      destruct rf; injection Hv as <- <-; (split; [congruence|]); (split; [congruence|]);
        [congruence | exact Hm2 | exact I].
    + injection Hv as <- <-. auto.
Qed.

Lemma scan_files_frame V : forall files i t s r s',
  scan_files V i files t s = (r, s') ->
  contents s' = contents s /\ editor (inner s') = editor (inner s)
  /\ client_state (inner s') = client_state (inner s)
  /\ match r with
     | Returns _ => mermaid (inner s') = mermaid (inner s)
     | Throws _ => False
     | Hangs => True
     end.
Proof.
  induction files as [|file more IH]; intros i t s r s' Hf; simpl in Hf.
  - injection Hf as <- <-. auto.
  - assert (Hfile : forall rf t1 s1, scan_file V i file t s = (rf, (t1, s1)) ->
              contents s1 = contents s /\ editor (inner s1) = editor (inner s)
              /\ client_state (inner s1) = client_state (inner s)
              /\ (rf <> Hangs -> mermaid (inner s1) = mermaid (inner s))).
    { intros rf t1 s1. unfold scan_file, read.
      destruct (read_error V file); [intros Hq; injection Hq as <- <- <-; auto|].
      destruct (contents s !! i) as [content|]; [|intros Hq; injection Hq as <- <- <-; auto].
      destruct (extractMermaidBlocks content) as [|blk blks];
        [intros Hq; injection Hq as <- <- <-; auto|].
      destruct (find_errors (plugin V) (blk :: blks) (inner s)) as [re wb] eqn:Efe.
      destruct (find_errors_frame _ _ _ _ _ Efe) as (Heb & _ & Hcb).
      pose proof (find_errors_blocks _ _ _ _ _ Efe) as Hfb.
      destruct re as [errs | msg | ]; [|contradiction|].
      - destruct Hfb as [Hmb _].
        destruct errs; intros Hq; injection Hq as <- <- <-; auto.
      - intros Hq; injection Hq as <- <- <-. repeat split; auto. intros Hn. contradiction. }
    destruct (scan_file V i file t s) as [rf [t1 s1]] eqn:Es.
    destruct (Hfile _ _ _ eq_refl) as (Hc1 & He1 & Hcl1 & Hm1).
    destruct rf as [u | msg | ].
    + destruct (IH _ _ _ _ _ Hf) as (Hc2 & He2 & Hcl2 & Hm2).
      specialize (Hm1 ltac:(discriminate)).
      repeat split; try congruence. destruct r; [congruence | exact Hm2 | exact I].
    + destruct (IH _ _ _ _ _ Hf) as (Hc2 & He2 & Hcl2 & Hm2).
      specialize (Hm1 ltac:(discriminate)).
      repeat split; try congruence. destruct r; [congruence | exact Hm2 | exact I].
    + injection Hf as <- <-. auto.
Qed.

(** What a run that only looks leaves behind: it did not throw, sent no
    request and changed neither the editor nor a file; if it returned, the
    mermaid object is as before. *)
Definition only_looked (s : vault_state) (out : outcome unit * vault_state) : Prop :=
  contents (snd out) = contents s
  /\ editor (inner (snd out)) = editor (inner s)
  /\ client_state (inner (snd out)) = client_state (inner s)
  /\ match fst out with
     | Returns _ => mermaid (inner (snd out)) = mermaid (inner s)
     | Throws _ => False
     | Hangs => True
     end.

(** X29. The validation runs only look: [runValidateOnly] and
    [runValidateAllFiles] never throw, send no request, and leave the editor
    and every file of the vault as they are; when they return, the mermaid
    object is as it was before. *)
Theorem validation_runs_only_look (V : vault_host) (s : vault_state) :
  only_looked s (runValidateOnly V s) /\ only_looked s (runValidateAllFiles V s).
Proof.
  unfold only_looked. split.
  - unfold runValidateOnly.
    destruct (editor (inner s)) as [text|] eqn:Ed; [|simpl; rewrite Ed; auto].
    destruct (negb (hasMermaid (mermaid (inner s)))); [simpl; rewrite Ed; auto|].
    destruct (extractMermaidBlocks text) as [|blk blks]; [simpl; rewrite Ed; auto|].
    destruct (validate_blocks (plugin V) (blk :: blks) (inner s)) as [r w] eqn:Ev.
    destruct (validate_blocks_frame _ _ _ _ _ Ev) as (He & Hc & Hm).
    rewrite Ed in He.
    destruct r as [errors | msg | ]; [|contradiction|simpl; auto].
    destruct errors; simpl; auto.
  - unfold runValidateAllFiles.
    destruct (negb (hasMermaid (mermaid (inner s)))); [simpl; auto|].
    destruct (markdownFiles V) as [|f fs]; [simpl; auto|].
    destruct (confirm V) as [[|]|]; [|simpl; auto ..].
    destruct (scan_files V 0 (f :: fs) _ _) as [r s1] eqn:Es.
    destruct (scan_files_frame _ _ _ _ _ _ _ Es) as (Hc & He & Hcl & Hm).
    cbn [display contents inner] in Hc, He, Hcl, Hm.
    destruct r as [t | msg | ]; [|contradiction|simpl; auto].
    cbn [fst snd]. destruct (Nat.eqb (totalErrors t) 0); simpl; auto.
Qed.

End VaultFacts.
